(** * The in-page translation engine of the Local LLM Translator

    A shallow embedding of [content.js]: the priority scorer, the text
    extractor, the node registry with its write and restore paths, the
    batch translation call with its retry loop, and the page-level run with
    its message handlers, followed by the properties of the engine.

    Conventions of the embedding.
    - A JS string is a [string]; its characters are the code units below
      256, so the white space of [trim] and of the [\s] class is the set
      9-13, 32 and 160.
    - Layout values (bounding rectangles, window size) are rationals; they
      are only compared, never stored in a result.  Arithmetic on them and
      the percentage of the status line are exact, where the script
      computes in double precision: the two can differ when a value falls
      exactly on a threshold (a distance from the centre of 35% of the
      window width, a percentage on a half).
    - Text nodes and elements are objects: they live in stores indexed by
      a reference ([nat]), and every alias of a reference sees the same
      object.  A text-node reference that is absent from the store is an
      object that can no longer be accessed: a write to it throws.
    - [textNodeMap] is an insertion-ordered association list, as iteration
      over a JS [Map] follows insertion order. *)

From Stdlib Require Import ZArith QArith Qabs String Ascii List Bool Lia.
From Stdlib Require Import Sorting.Sorted Sorting.Permutation.
From stdpp Require Import base gmap sets list strings.

Set Warnings "-clear-no-such-hyp".

Local Open Scope string_scope.
Local Open Scope list_scope.
Local Open Scope Z_scope.

(** ** JS strings *)

Module JsString.

(** White space as [String.prototype.trim] and the regular expression
    class [\s] see it, on code units below 256. *)
Definition isWhiteSpace (c : ascii) : bool :=
  let n := nat_of_ascii c in
  ((9 <=? n)%nat && (n <=? 13)%nat) || (n =? 32)%nat || (n =? 160)%nat.

Fixpoint allWhiteSpace (s : string) : bool :=
  match s with
  | EmptyString => true
  | String c r => isWhiteSpace c && allWhiteSpace r
  end.

Fixpoint trimStart (s : string) : string :=
  match s with
  | EmptyString => EmptyString
  | String c r => if isWhiteSpace c then trimStart r else s
  end.

Fixpoint trimEnd (s : string) : string :=
  match s with
  | EmptyString => EmptyString
  | String c r =>
      match trimEnd r with
      | EmptyString => if isWhiteSpace c then EmptyString else String c EmptyString
      | r' => String c r'
      end
  end.

Definition trim (s : string) : string := trimEnd (trimStart s).

(** [s.match(/^\s*/)[0]]: the longest white-space prefix. *)
Fixpoint leadingSpace (s : string) : string :=
  match s with
  | EmptyString => EmptyString
  | String c r => if isWhiteSpace c then String c (leadingSpace r) else EmptyString
  end.

(** [s.match(/\s*$/)[0]]: the leftmost match, which is the longest
    white-space suffix. *)
Fixpoint trailingSpace (s : string) : string :=
  match s with
  | EmptyString => EmptyString
  | String c r => if allWhiteSpace s then s else trailingSpace r
  end.

(** [s.includes(sub)] *)
Fixpoint includes (s sub : string) : bool :=
  String.prefix sub s ||
  match s with
  | EmptyString => false
  | String _ r => includes r sub
  end.

Definition lowerChar (c : ascii) : ascii :=
  let n := nat_of_ascii c in
  if ((65 <=? n)%nat && (n <=? 90)%nat)
     || ((192 <=? n)%nat && (n <=? 222)%nat && negb (n =? 215)%nat)
  then ascii_of_nat (n + 32) else c.

Fixpoint toLowerCase (s : string) : string :=
  match s with
  | EmptyString => EmptyString
  | String c r => String (lowerChar c) (toLowerCase r)
  end.

(** The Unicode letters ([\p{L}]) among the code units below 256. *)
Definition isLetter (c : ascii) : bool :=
  let n := nat_of_ascii c in
  ((65 <=? n)%nat && (n <=? 90)%nat) || ((97 <=? n)%nat && (n <=? 122)%nat)
  || (n =? 170)%nat || (n =? 181)%nat || (n =? 186)%nat
  || ((192 <=? n)%nat && (n <=? 214)%nat)
  || ((216 <=? n)%nat && (n <=? 246)%nat)
  || ((248 <=? n)%nat && (n <=? 255)%nat).

Fixpoint hasLetter (s : string) : bool :=
  match s with
  | EmptyString => false
  | String c r => isLetter c || hasLetter r
  end.

(** Truthiness of a string value: the empty string is falsy. *)
Definition truthy (s : string) : bool :=
  match s with EmptyString => false | _ => true end.

(** Truthiness of an optional property: [undefined] is falsy. *)
Definition truthyOpt (o : option string) : bool :=
  match o with Some s => truthy s | None => false end.

(** [s.split('-')[0]] *)
Fixpoint beforeDash (s : string) : string :=
  match s with
  | EmptyString => EmptyString
  | String c r => if Ascii.eqb c "-"%char then EmptyString else String c (beforeDash r)
  end.

End JsString.

Import JsString.

(** ** The document *)

Record DOMRect := {
  top : Q;
  bottom : Q;
  left : Q;
  right : Q;
  width : Q
}.

Record element := {
  tagName : string;
  el_id : string;
  (** [className] is a string for HTML elements and an object for SVG
      ones: [None] stands for the non-string case. *)
  className : option string;
  (** [getAttribute('role')], [null] when the attribute is absent *)
  role : option string;
  isContentEditable : bool;
  (** [getAttribute('translate')] *)
  translate_attr : option string;
  (** computed style *)
  display : string;
  visibility : string;
  (** [getBoundingClientRect()] *)
  rect : DOMRect;
  el_parent : option nat;
  (** [style.textShadow] and [dataset.translated] *)
  textShadow : string;
  dataset_translated : option string
}.

Record text_node := {
  textContent : string;
  (** [parentElement], a reference into the element store *)
  parentElement : option nat
}.

Record document := {
  nodes : gmap nat text_node;
  elems : gmap nat element;
  innerWidth : Q;
  innerHeight : Q;
  (** the text nodes below [document.body], in document order *)
  body : list nat;
  (** [document.documentElement.lang] *)
  html_lang : string;
  (** content of [meta[http-equiv=content-language]] *)
  meta_lang : option string
}.

Definition getElement (d : document) (r : option nat) : option element :=
  match r with
  | Some i => elems d !! i
  | None => None
  end.

Definition Qltb (x y : Q) : bool := negb (Qle_bool y x).

(** ** Priority scorer *)

Section Priority.

Variable d : document.

Definition inViewport (r : DOMRect) : bool :=
  Qltb (top r) (innerHeight d) && Qltb 0 (bottom r)
  && Qltb (left r) (innerWidth d) && Qltb 0 (right r).

Definition inTopHalf (r : DOMRect) : bool :=
  Qle_bool 0 (top r) && Qltb (top r) (innerHeight d / 2).

Definition lengthScore (textLength : Z) : Z :=
  if 200 <=? textLength then 150
  else if 100 <=? textLength then 100
  else if 50 <=? textLength then 60
  else if 20 <=? textLength then 30
  else -20.

Definition mainIndicator (e : element) : bool :=
  let tag := tagName e in
  let id := toLowerCase (el_id e) in
  let classes := match className e with
                 | Some c => if truthy c then toLowerCase c else ""
                 | None => ""
                 end in
  let rl := toLowerCase (match role e with Some r => r | None => "" end) in
  (String.eqb tag "MAIN" || String.eqb tag "ARTICLE")
  || (String.eqb rl "main" || String.eqb rl "article")
  || (includes id "content" || includes id "article" || includes id "main-text"
      || includes id "mw-content" || includes id "post" || includes id "entry")
  || (includes classes "content" || includes classes "article"
      || includes classes "post" || includes classes "entry"
      || includes classes "mw-parser-output" || includes classes "mw-content").

Definition sidebarIndicator (e : element) : bool :=
  let tag := tagName e in
  let id := toLowerCase (el_id e) in
  let classes := match className e with
                 | Some c => if truthy c then toLowerCase c else ""
                 | None => ""
                 end in
  let rl := toLowerCase (match role e with Some r => r | None => "" end) in
  (String.eqb tag "NAV" || String.eqb tag "ASIDE" || String.eqb tag "FOOTER"
   || String.eqb tag "HEADER")
  || (String.eqb rl "navigation" || String.eqb rl "complementary"
      || String.eqb rl "banner" || String.eqb rl "contentinfo" || String.eqb rl "menu")
  || (includes id "sidebar" || includes id "nav" || includes id "menu"
      || includes id "footer" || includes id "header" || includes id "toc"
      || includes id "widget" || includes id "prefs" || includes id "toolbar")
  || (includes classes "sidebar" || includes classes "nav"
      || includes classes "menu" || includes classes "footer"
      || includes classes "header" || includes classes "widget"
      || includes classes "toc" || includes classes "infobox"
      || includes classes "mw-portlet" || includes classes "vector-").

(** The loop [while (ancestor && depth < 15)]: [fuel] is [15 - depth]. *)
Fixpoint semanticWalk (fuel : nat) (ancestor : option nat)
    (inMainContent inSidebar : bool) : bool * bool :=
  match fuel with
  | O => (inMainContent, inSidebar)
  | S fuel' =>
      match getElement d ancestor with
      | None => (inMainContent, inSidebar)
      | Some e =>
          semanticWalk fuel' (el_parent e)
            (inMainContent || mainIndicator e)
            (inSidebar || sidebarIndicator e)
      end
  end.

Definition semanticScore (flags : bool * bool) : Z :=
  let '(inMainContent, inSidebar) := flags in
  if inMainContent && negb inSidebar then 500
  else if inMainContent && inSidebar then 100
  else if inSidebar then -300
  else 0.

Definition tagScore (tag : string) : Z :=
  if String.eqb tag "P" then 80
  else if String.eqb tag "H1" then 70
  else if String.eqb tag "H2" then 60
  else if String.eqb tag "H3" then 50
  else if String.eqb tag "H4" || String.eqb tag "H5" || String.eqb tag "H6" then 40
  else if String.eqb tag "LI" then 30
  else if String.eqb tag "TD" || String.eqb tag "TH" then 20
  else if String.eqb tag "BLOCKQUOTE" || String.eqb tag "FIGCAPTION" then 25
  else if String.eqb tag "SPAN" then 5
  else if String.eqb tag "DIV" then 5
  else if String.eqb tag "A" then -10
  else if String.eqb tag "LABEL" then -30
  else if String.eqb tag "BUTTON" then -50
  else 0.

Definition farFromCenter (r : DOMRect) : bool :=
  let centerX := (left r + width r / 2)%Q in
  let pageCenter := (innerWidth d / 2)%Q in
  let distanceFromCenter := Qabs (centerX - pageCenter) in
  Qltb (innerWidth d * (35 # 100)) distanceFromCenter.

Definition viewportScore (r : DOMRect) : Z :=
  if inViewport r then 10000 + (if inTopHalf r then 200 else 0) else 0.

Definition calculatePriority (node : text_node) : Z :=
  match getElement d (parentElement node) with
  | None => 0
  | Some parent =>
      let r := rect parent in
      let priority := viewportScore r in
      let textLength := Z.of_nat (String.length (trim (textContent node))) in
      let priority := priority + lengthScore textLength in
      let priority :=
        priority + semanticScore (semanticWalk 15 (parentElement node) false false) in
      let priority := priority + tagScore (tagName parent) in
      let priority := if farFromCenter r then priority - 100 else priority in
      Z.max 0 priority
  end.

End Priority.

(** ** Page state *)

(** A value of [textNodeMap].  [translated] and [translatedText] are the
    properties the write paths add to the object; a property that was never
    set reads [undefined], which is [false] and [None] here. *)
Record entry := {
  node : nat;
  originalText : string;
  translated : bool;
  translatedText : option string
}.

(** An element of the work list: [{ id, text, priority }]. *)
Record QueueItem := {
  qi_id : nat;
  qi_text : string;
  qi_priority : Z
}.

(** A node reported by the mutation observer: a text node, an element
    (given by the text nodes below it, in document order), or a node of
    another type. *)
Inductive added_node :=
| AddedText (n : nat)
| AddedElement (texts : list nat)
| AddedOther.

(** The messages handed to [showStatus]. *)
Inductive status_msg :=
| MsgBusy                                  (* Translation already in progress... *)
| MsgExtracting                            (* Extracting text... *)
| MsgNoText                                (* No translatable text found *)
| MsgFound (n : nat)                       (* Found n text elements. Translating... *)
| MsgPercent (p : Z)                       (* Translating... p% *)
| MsgCancelled                             (* Translation cancelled *)
| MsgSummary (applied total : nat) (rate : Z) (failed : nat)
| MsgNewElements (n : nat)                 (* Translating n new elements... *)
| MsgNewDone                               (* Translated ... new elements *)
| MsgRestoredOriginal                      (* Restored original text *)
| MsgShowingOriginal                       (* Showing original text *)
| MsgRestoredTranslations                  (* Restored translations *)
| MsgAutoEnabled
| MsgAutoDisabled
| MsgProgress (s : string).

Record state := {
  doc : document;
  textNodeMap : list (nat * entry);
  translatedNodeSet : gset nat;
  translationInProgress : bool;
  translationCancelled : bool;
  nextId : nat;
  currentTargetLanguage : string;
  autoTranslateEnabled : bool;
  showGlow : bool;
  (** [true] when an observer object exists and is connected *)
  mutationObserver : bool;
  pendingNewNodes : list added_node;
  (** [true] when the timer is armed *)
  autoTranslateDebounceTimer : bool;
  hasTranslationCache : bool;
  isShowingTranslations : bool;
  pendingTranslationQueue : list QueueItem;
  (** [true] when the timer is armed *)
  scrollDebounceTimer : bool;
  (** the status indicator: message and error flag, [None] when hidden *)
  status : option (status_msg * bool);
  (** whether [onScroll] is registered on the window *)
  scrollListener : bool
}.

(** Assignments to one global. *)

Definition set_doc (v : document) (st : state) : state :=
  {| doc := v; textNodeMap := textNodeMap st; translatedNodeSet :=
     translatedNodeSet st; translationInProgress := translationInProgress
     st; translationCancelled := translationCancelled st; nextId := nextId
     st; currentTargetLanguage := currentTargetLanguage st;
     autoTranslateEnabled := autoTranslateEnabled st; showGlow := showGlow
     st; mutationObserver := mutationObserver st; pendingNewNodes :=
     pendingNewNodes st; autoTranslateDebounceTimer :=
     autoTranslateDebounceTimer st; hasTranslationCache :=
     hasTranslationCache st; isShowingTranslations := isShowingTranslations
     st; pendingTranslationQueue := pendingTranslationQueue st;
     scrollDebounceTimer := scrollDebounceTimer st; status := status st;
     scrollListener := scrollListener st |}.

Definition set_textNodeMap (v : list (nat * entry)) (st : state) : state :=
  {| doc := doc st; textNodeMap := v; translatedNodeSet := translatedNodeSet
     st; translationInProgress := translationInProgress st;
     translationCancelled := translationCancelled st; nextId := nextId st;
     currentTargetLanguage := currentTargetLanguage st; autoTranslateEnabled
     := autoTranslateEnabled st; showGlow := showGlow st; mutationObserver
     := mutationObserver st; pendingNewNodes := pendingNewNodes st;
     autoTranslateDebounceTimer := autoTranslateDebounceTimer st;
     hasTranslationCache := hasTranslationCache st; isShowingTranslations :=
     isShowingTranslations st; pendingTranslationQueue :=
     pendingTranslationQueue st; scrollDebounceTimer := scrollDebounceTimer
     st; status := status st; scrollListener := scrollListener st |}.

Definition set_translatedNodeSet (v : gset nat) (st : state) : state :=
  {| doc := doc st; textNodeMap := textNodeMap st; translatedNodeSet := v;
     translationInProgress := translationInProgress st; translationCancelled
     := translationCancelled st; nextId := nextId st; currentTargetLanguage
     := currentTargetLanguage st; autoTranslateEnabled :=
     autoTranslateEnabled st; showGlow := showGlow st; mutationObserver :=
     mutationObserver st; pendingNewNodes := pendingNewNodes st;
     autoTranslateDebounceTimer := autoTranslateDebounceTimer st;
     hasTranslationCache := hasTranslationCache st; isShowingTranslations :=
     isShowingTranslations st; pendingTranslationQueue :=
     pendingTranslationQueue st; scrollDebounceTimer := scrollDebounceTimer
     st; status := status st; scrollListener := scrollListener st |}.

Definition set_translationInProgress (v : bool) (st : state) : state :=
  {| doc := doc st; textNodeMap := textNodeMap st; translatedNodeSet :=
     translatedNodeSet st; translationInProgress := v; translationCancelled
     := translationCancelled st; nextId := nextId st; currentTargetLanguage
     := currentTargetLanguage st; autoTranslateEnabled :=
     autoTranslateEnabled st; showGlow := showGlow st; mutationObserver :=
     mutationObserver st; pendingNewNodes := pendingNewNodes st;
     autoTranslateDebounceTimer := autoTranslateDebounceTimer st;
     hasTranslationCache := hasTranslationCache st; isShowingTranslations :=
     isShowingTranslations st; pendingTranslationQueue :=
     pendingTranslationQueue st; scrollDebounceTimer := scrollDebounceTimer
     st; status := status st; scrollListener := scrollListener st |}.

Definition set_translationCancelled (v : bool) (st : state) : state :=
  {| doc := doc st; textNodeMap := textNodeMap st; translatedNodeSet :=
     translatedNodeSet st; translationInProgress := translationInProgress
     st; translationCancelled := v; nextId := nextId st;
     currentTargetLanguage := currentTargetLanguage st; autoTranslateEnabled
     := autoTranslateEnabled st; showGlow := showGlow st; mutationObserver
     := mutationObserver st; pendingNewNodes := pendingNewNodes st;
     autoTranslateDebounceTimer := autoTranslateDebounceTimer st;
     hasTranslationCache := hasTranslationCache st; isShowingTranslations :=
     isShowingTranslations st; pendingTranslationQueue :=
     pendingTranslationQueue st; scrollDebounceTimer := scrollDebounceTimer
     st; status := status st; scrollListener := scrollListener st |}.

Definition set_nextId (v : nat) (st : state) : state :=
  {| doc := doc st; textNodeMap := textNodeMap st; translatedNodeSet :=
     translatedNodeSet st; translationInProgress := translationInProgress
     st; translationCancelled := translationCancelled st; nextId := v;
     currentTargetLanguage := currentTargetLanguage st; autoTranslateEnabled
     := autoTranslateEnabled st; showGlow := showGlow st; mutationObserver
     := mutationObserver st; pendingNewNodes := pendingNewNodes st;
     autoTranslateDebounceTimer := autoTranslateDebounceTimer st;
     hasTranslationCache := hasTranslationCache st; isShowingTranslations :=
     isShowingTranslations st; pendingTranslationQueue :=
     pendingTranslationQueue st; scrollDebounceTimer := scrollDebounceTimer
     st; status := status st; scrollListener := scrollListener st |}.

Definition set_currentTargetLanguage (v : string) (st : state) : state :=
  {| doc := doc st; textNodeMap := textNodeMap st; translatedNodeSet :=
     translatedNodeSet st; translationInProgress := translationInProgress
     st; translationCancelled := translationCancelled st; nextId := nextId
     st; currentTargetLanguage := v; autoTranslateEnabled :=
     autoTranslateEnabled st; showGlow := showGlow st; mutationObserver :=
     mutationObserver st; pendingNewNodes := pendingNewNodes st;
     autoTranslateDebounceTimer := autoTranslateDebounceTimer st;
     hasTranslationCache := hasTranslationCache st; isShowingTranslations :=
     isShowingTranslations st; pendingTranslationQueue :=
     pendingTranslationQueue st; scrollDebounceTimer := scrollDebounceTimer
     st; status := status st; scrollListener := scrollListener st |}.

Definition set_autoTranslateEnabled (v : bool) (st : state) : state :=
  {| doc := doc st; textNodeMap := textNodeMap st; translatedNodeSet :=
     translatedNodeSet st; translationInProgress := translationInProgress
     st; translationCancelled := translationCancelled st; nextId := nextId
     st; currentTargetLanguage := currentTargetLanguage st;
     autoTranslateEnabled := v; showGlow := showGlow st; mutationObserver :=
     mutationObserver st; pendingNewNodes := pendingNewNodes st;
     autoTranslateDebounceTimer := autoTranslateDebounceTimer st;
     hasTranslationCache := hasTranslationCache st; isShowingTranslations :=
     isShowingTranslations st; pendingTranslationQueue :=
     pendingTranslationQueue st; scrollDebounceTimer := scrollDebounceTimer
     st; status := status st; scrollListener := scrollListener st |}.

Definition set_showGlow (v : bool) (st : state) : state :=
  {| doc := doc st; textNodeMap := textNodeMap st; translatedNodeSet :=
     translatedNodeSet st; translationInProgress := translationInProgress
     st; translationCancelled := translationCancelled st; nextId := nextId
     st; currentTargetLanguage := currentTargetLanguage st;
     autoTranslateEnabled := autoTranslateEnabled st; showGlow := v;
     mutationObserver := mutationObserver st; pendingNewNodes :=
     pendingNewNodes st; autoTranslateDebounceTimer :=
     autoTranslateDebounceTimer st; hasTranslationCache :=
     hasTranslationCache st; isShowingTranslations := isShowingTranslations
     st; pendingTranslationQueue := pendingTranslationQueue st;
     scrollDebounceTimer := scrollDebounceTimer st; status := status st;
     scrollListener := scrollListener st |}.

Definition set_mutationObserver (v : bool) (st : state) : state :=
  {| doc := doc st; textNodeMap := textNodeMap st; translatedNodeSet :=
     translatedNodeSet st; translationInProgress := translationInProgress
     st; translationCancelled := translationCancelled st; nextId := nextId
     st; currentTargetLanguage := currentTargetLanguage st;
     autoTranslateEnabled := autoTranslateEnabled st; showGlow := showGlow
     st; mutationObserver := v; pendingNewNodes := pendingNewNodes st;
     autoTranslateDebounceTimer := autoTranslateDebounceTimer st;
     hasTranslationCache := hasTranslationCache st; isShowingTranslations :=
     isShowingTranslations st; pendingTranslationQueue :=
     pendingTranslationQueue st; scrollDebounceTimer := scrollDebounceTimer
     st; status := status st; scrollListener := scrollListener st |}.

Definition set_pendingNewNodes (v : list added_node) (st : state) : state :=
  {| doc := doc st; textNodeMap := textNodeMap st; translatedNodeSet :=
     translatedNodeSet st; translationInProgress := translationInProgress
     st; translationCancelled := translationCancelled st; nextId := nextId
     st; currentTargetLanguage := currentTargetLanguage st;
     autoTranslateEnabled := autoTranslateEnabled st; showGlow := showGlow
     st; mutationObserver := mutationObserver st; pendingNewNodes := v;
     autoTranslateDebounceTimer := autoTranslateDebounceTimer st;
     hasTranslationCache := hasTranslationCache st; isShowingTranslations :=
     isShowingTranslations st; pendingTranslationQueue :=
     pendingTranslationQueue st; scrollDebounceTimer := scrollDebounceTimer
     st; status := status st; scrollListener := scrollListener st |}.

Definition set_autoTranslateDebounceTimer (v : bool) (st : state) : state :=
  {| doc := doc st; textNodeMap := textNodeMap st; translatedNodeSet :=
     translatedNodeSet st; translationInProgress := translationInProgress
     st; translationCancelled := translationCancelled st; nextId := nextId
     st; currentTargetLanguage := currentTargetLanguage st;
     autoTranslateEnabled := autoTranslateEnabled st; showGlow := showGlow
     st; mutationObserver := mutationObserver st; pendingNewNodes :=
     pendingNewNodes st; autoTranslateDebounceTimer := v;
     hasTranslationCache := hasTranslationCache st; isShowingTranslations :=
     isShowingTranslations st; pendingTranslationQueue :=
     pendingTranslationQueue st; scrollDebounceTimer := scrollDebounceTimer
     st; status := status st; scrollListener := scrollListener st |}.

Definition set_hasTranslationCache (v : bool) (st : state) : state :=
  {| doc := doc st; textNodeMap := textNodeMap st; translatedNodeSet :=
     translatedNodeSet st; translationInProgress := translationInProgress
     st; translationCancelled := translationCancelled st; nextId := nextId
     st; currentTargetLanguage := currentTargetLanguage st;
     autoTranslateEnabled := autoTranslateEnabled st; showGlow := showGlow
     st; mutationObserver := mutationObserver st; pendingNewNodes :=
     pendingNewNodes st; autoTranslateDebounceTimer :=
     autoTranslateDebounceTimer st; hasTranslationCache := v;
     isShowingTranslations := isShowingTranslations st;
     pendingTranslationQueue := pendingTranslationQueue st;
     scrollDebounceTimer := scrollDebounceTimer st; status := status st;
     scrollListener := scrollListener st |}.

Definition set_isShowingTranslations (v : bool) (st : state) : state :=
  {| doc := doc st; textNodeMap := textNodeMap st; translatedNodeSet :=
     translatedNodeSet st; translationInProgress := translationInProgress
     st; translationCancelled := translationCancelled st; nextId := nextId
     st; currentTargetLanguage := currentTargetLanguage st;
     autoTranslateEnabled := autoTranslateEnabled st; showGlow := showGlow
     st; mutationObserver := mutationObserver st; pendingNewNodes :=
     pendingNewNodes st; autoTranslateDebounceTimer :=
     autoTranslateDebounceTimer st; hasTranslationCache :=
     hasTranslationCache st; isShowingTranslations := v;
     pendingTranslationQueue := pendingTranslationQueue st;
     scrollDebounceTimer := scrollDebounceTimer st; status := status st;
     scrollListener := scrollListener st |}.

Definition set_pendingTranslationQueue (v : list QueueItem) (st : state) : state :=
  {| doc := doc st; textNodeMap := textNodeMap st; translatedNodeSet :=
     translatedNodeSet st; translationInProgress := translationInProgress
     st; translationCancelled := translationCancelled st; nextId := nextId
     st; currentTargetLanguage := currentTargetLanguage st;
     autoTranslateEnabled := autoTranslateEnabled st; showGlow := showGlow
     st; mutationObserver := mutationObserver st; pendingNewNodes :=
     pendingNewNodes st; autoTranslateDebounceTimer :=
     autoTranslateDebounceTimer st; hasTranslationCache :=
     hasTranslationCache st; isShowingTranslations := isShowingTranslations
     st; pendingTranslationQueue := v; scrollDebounceTimer :=
     scrollDebounceTimer st; status := status st; scrollListener :=
     scrollListener st |}.

Definition set_scrollDebounceTimer (v : bool) (st : state) : state :=
  {| doc := doc st; textNodeMap := textNodeMap st; translatedNodeSet :=
     translatedNodeSet st; translationInProgress := translationInProgress
     st; translationCancelled := translationCancelled st; nextId := nextId
     st; currentTargetLanguage := currentTargetLanguage st;
     autoTranslateEnabled := autoTranslateEnabled st; showGlow := showGlow
     st; mutationObserver := mutationObserver st; pendingNewNodes :=
     pendingNewNodes st; autoTranslateDebounceTimer :=
     autoTranslateDebounceTimer st; hasTranslationCache :=
     hasTranslationCache st; isShowingTranslations := isShowingTranslations
     st; pendingTranslationQueue := pendingTranslationQueue st;
     scrollDebounceTimer := v; status := status st; scrollListener :=
     scrollListener st |}.

Definition set_status (v : option (status_msg * bool)) (st : state) : state :=
  {| doc := doc st; textNodeMap := textNodeMap st; translatedNodeSet :=
     translatedNodeSet st; translationInProgress := translationInProgress
     st; translationCancelled := translationCancelled st; nextId := nextId
     st; currentTargetLanguage := currentTargetLanguage st;
     autoTranslateEnabled := autoTranslateEnabled st; showGlow := showGlow
     st; mutationObserver := mutationObserver st; pendingNewNodes :=
     pendingNewNodes st; autoTranslateDebounceTimer :=
     autoTranslateDebounceTimer st; hasTranslationCache :=
     hasTranslationCache st; isShowingTranslations := isShowingTranslations
     st; pendingTranslationQueue := pendingTranslationQueue st;
     scrollDebounceTimer := scrollDebounceTimer st; status := v;
     scrollListener := scrollListener st |}.

Definition set_scrollListener (v : bool) (st : state) : state :=
  {| doc := doc st; textNodeMap := textNodeMap st; translatedNodeSet :=
     translatedNodeSet st; translationInProgress := translationInProgress
     st; translationCancelled := translationCancelled st; nextId := nextId
     st; currentTargetLanguage := currentTargetLanguage st;
     autoTranslateEnabled := autoTranslateEnabled st; showGlow := showGlow
     st; mutationObserver := mutationObserver st; pendingNewNodes :=
     pendingNewNodes st; autoTranslateDebounceTimer :=
     autoTranslateDebounceTimer st; hasTranslationCache :=
     hasTranslationCache st; isShowingTranslations := isShowingTranslations
     st; pendingTranslationQueue := pendingTranslationQueue st;
     scrollDebounceTimer := scrollDebounceTimer st; status := status st;
     scrollListener := v |}.

(** ** The registry: [textNodeMap] as a JS [Map] *)

Module Registry.

Fixpoint get (m : list (nat * entry)) (k : nat) : option entry :=
  match m with
  | [] => None
  | (k', e) :: m' => if Nat.eqb k' k then Some e else get m' k
  end.

Definition has (m : list (nat * entry)) (k : nat) : bool :=
  match get m k with Some _ => true | None => false end.

(** Mutation of the object stored under [k]; the key keeps its place. *)
Fixpoint update (k : nat) (f : entry -> entry) (m : list (nat * entry))
    : list (nat * entry) :=
  match m with
  | [] => []
  | (k', e) :: m' =>
      if Nat.eqb k' k then (k', f e) :: m' else (k', e) :: update k f m'
  end.

(** [Map.prototype.set]: a present key keeps its place and takes the new
    value, a new key goes to the end. *)
Definition set (k : nat) (e : entry) (m : list (nat * entry))
    : list (nat * entry) :=
  if has m k then update k (fun _ => e) m else m ++ [(k, e)].

Definition keys (m : list (nat * entry)) : list nat := map fst m.

End Registry.

(** ** Text extractor *)

Definition SKIP_TAGS : list string :=
  ["SCRIPT"; "STYLE"; "NOSCRIPT"; "IFRAME"; "OBJECT"; "EMBED";
   "SVG"; "CANVAS"; "VIDEO"; "AUDIO"; "CODE"; "PRE"; "KBD";
   "INPUT"; "TEXTAREA"; "SELECT"; "BUTTON"].

Definition MIN_TEXT_LENGTH : nat := 2.

Definition shouldSkipElement (element : option element) : bool :=
  match element with
  | None => true
  | Some e =>
      if negb (truthy (tagName e)) then true
      else if existsb (String.eqb (tagName e)) SKIP_TAGS then true
      else if isContentEditable e then true
      else if match translate_attr e with
              | Some v => String.eqb v "no"
              | None => false
              end then true
      else if String.eqb (el_id e) "llm-translator-status" then true
      else false
  end.

Definition isTranslatableText (text : string) : bool :=
  if negb (truthy text) then false
  else
    let trimmed := trim text in
    if (String.length trimmed <? MIN_TEXT_LENGTH)%nat then false
    else hasLetter trimmed.

Definition isNodeProcessed (st : state) (n : nat) : bool :=
  bool_decide (n ∈ translatedNodeSet st).

(** The [acceptNode] filter of the tree walker, on a text node of the
    document. *)
Definition acceptNode (st : state) (onlyNew : bool) (n : nat) (nd : text_node)
    : bool :=
  if onlyNew && isNodeProcessed st n then false
  else
    let parent := getElement (doc st) (parentElement nd) in
    if shouldSkipElement parent then false
    else if negb (isTranslatableText (textContent nd)) then false
    else
      match parent with
      | Some p =>
          if String.eqb (display p) "none" || String.eqb (visibility p) "hidden"
          then false else true
      | None => false
      end.

(** One accepted node: take the next id, record the entry, emit the item. *)
Definition recordNode (n : nat) (nd : text_node) (st : state)
    : state * QueueItem :=
  let id := nextId st in
  let st := set_nextId (S id) st in
  let text := trim (textContent nd) in
  let priority := calculatePriority (doc st) nd in
  let st :=
    set_textNodeMap
      (Registry.set id
         {| node := n; originalText := textContent nd;
            translated := false; translatedText := None |}
         (textNodeMap st)) st in
  (st, {| qi_id := id; qi_text := text; qi_priority := priority |}).

(** The loop [while (node = walker.nextNode())] over the text nodes below
    the root, in document order; the walker offers only nodes of the live
    document. *)
Fixpoint walkTextNodes (onlyNew : bool) (candidates : list nat) (st : state)
    (textItems : list QueueItem) : state * list QueueItem :=
  match candidates with
  | [] => (st, textItems)
  | n :: rest =>
      match nodes (doc st) !! n with
      | Some nd =>
          if acceptNode st onlyNew n nd then
            let '(st', item) := recordNode n nd st in
            walkTextNodes onlyNew rest st' (textItems ++ [item])
          else walkTextNodes onlyNew rest st textItems
      | None => walkTextNodes onlyNew rest st textItems
      end
  end.

(** [Array.prototype.sort] with the comparator
    [(a, b) => b.priority - a.priority]: the sort is stable and the
    priorities are integers, so its result is the stable arrangement by
    descending priority, computed here by insertion. *)
Fixpoint insertByPriority (x : QueueItem) (l : list QueueItem) : list QueueItem :=
  match l with
  | [] => [x]
  | y :: l' =>
      if qi_priority y <=? qi_priority x then x :: l
      else y :: insertByPriority x l'
  end.

Definition sortByPriority (l : list QueueItem) : list QueueItem :=
  fold_right insertByPriority [] l.

Definition clearRegistry (st : state) : state :=
  set_nextId 0%nat (set_translatedNodeSet ∅ (set_textNodeMap [] st)).

Definition extractTextNodes (root : list nat) (onlyNew : bool) (st : state)
    : state * list QueueItem :=
  let st := if onlyNew then st else clearRegistry st in
  let '(st, textItems) := walkTextNodes onlyNew root st [] in
  (st, sortByPriority textItems).

Fixpoint extractAdded (addedNodes : list added_node) (st : state)
    (textItems : list QueueItem) : state * list QueueItem :=
  match addedNodes with
  | [] => (st, textItems)
  | AddedText n :: rest =>
      match nodes (doc st) !! n with
      | Some nd =>
          if negb (isNodeProcessed st n) && isTranslatableText (textContent nd)
          then
            let parent := getElement (doc st) (parentElement nd) in
            if negb (shouldSkipElement parent) then
              let '(st', item) := recordNode n nd st in
              extractAdded rest st' (textItems ++ [item])
            else extractAdded rest st textItems
          else extractAdded rest st textItems
      | None => extractAdded rest st textItems
      end
  | AddedElement texts :: rest =>
      let '(st', items) := extractTextNodes texts true st in
      extractAdded rest st' (textItems ++ items)
  | AddedOther :: rest => extractAdded rest st textItems
  end.

Definition extractNewTextNodes (addedNodes : list added_node) (st : state)
    : state * list QueueItem :=
  let '(st, textItems) := extractAdded addedNodes st [] in
  (st, sortByPriority textItems).

(** ** Writes to the document *)

Definition set_nodes (v : gmap nat text_node) (d : document) : document :=
  {| nodes := v; elems := elems d; innerWidth := innerWidth d;
     innerHeight := innerHeight d; body := body d; html_lang := html_lang d;
     meta_lang := meta_lang d |}.

Definition set_elems (v : gmap nat element) (d : document) : document :=
  {| nodes := nodes d; elems := v; innerWidth := innerWidth d;
     innerHeight := innerHeight d; body := body d; html_lang := html_lang d;
     meta_lang := meta_lang d |}.

(** [node.textContent = s]; [None] when the assignment throws. *)
Definition writeText (n : nat) (s : string) (d : document) : option document :=
  match nodes d !! n with
  | Some nd =>
      Some (set_nodes
              (<[n := {| textContent := s; parentElement := parentElement nd |}]>
                 (nodes d)) d)
  | None => None
  end.

Definition GLOW : string := "0 0 8px #7FBBB3, 0 0 2px #7FBBB3".

(** The glow and the [data-translated] mark on the parent element. *)
Definition markParent (glow : bool) (n : nat) (d : document) : document :=
  match nodes d !! n with
  | Some nd =>
      match parentElement nd, getElement d (parentElement nd) with
      | Some p, Some e =>
          set_elems
            (<[p := {| tagName := tagName e; el_id := el_id e;
                       className := className e; role := role e;
                       isContentEditable := isContentEditable e;
                       translate_attr := translate_attr e;
                       display := display e; visibility := visibility e;
                       rect := rect e; el_parent := el_parent e;
                       textShadow := if glow then GLOW else textShadow e;
                       dataset_translated := Some "true" |}]> (elems d)) d
      | _, _ => d
      end
  | None => d
  end.

(** ** Registry write paths *)

Definition markTranslated (t : string) (e : entry) : entry :=
  {| node := node e; originalText := originalText e;
     translated := true; translatedText := Some t |}.

Definition setTranslatedFlag (e : entry) : entry :=
  {| node := node e; originalText := originalText e;
     translated := true; translatedText := translatedText e |}.

Definition replaceTextNode (id : nat) (translatedText : string) (st : state)
    : state * bool :=
  match Registry.get (textNodeMap st) id with
  | None => (st, false)
  | Some e =>
      let leadingSpace := leadingSpace (originalText e) in
      let trailingSpace := trailingSpace (originalText e) in
      match writeText (node e) (leadingSpace ++ translatedText ++ trailingSpace)
              (doc st) with
      | None => (st, false)
      | Some d =>
          let d := markParent (showGlow st) (node e) d in
          let st := set_doc d st in
          let st :=
            set_textNodeMap
              (Registry.update id (markTranslated translatedText) (textNodeMap st))
              st in
          let st := set_translatedNodeSet ({[node e]} ∪ translatedNodeSet st) st in
          (st, true)
      end
  end.

Definition stopAutoTranslate (st : state) : state :=
  let st := set_autoTranslateEnabled false st in
  let st := set_mutationObserver false st in
  let st := set_autoTranslateDebounceTimer false st in
  set_pendingNewNodes [] st.

(** The loop of [restoreOriginalText] over the entries, in map order. *)
Fixpoint restoreOriginalLoop (m : list (nat * entry)) (d : document)
    (s : gset nat) : document * gset nat :=
  match m with
  | [] => (d, s)
  | (_, e) :: m' =>
      if translated e then
        match writeText (node e) (originalText e) d with
        | Some d' => restoreOriginalLoop m' d' (s ∖ {[node e]})
        | None => restoreOriginalLoop m' d s
        end
      else restoreOriginalLoop m' d s
  end.

Definition restoreOriginalText (st : state) : state :=
  let '(d, s) :=
    restoreOriginalLoop (textNodeMap st) (doc st) (translatedNodeSet st) in
  let st := set_translatedNodeSet s (set_doc d st) in
  let st := set_isShowingTranslations false st in
  stopAutoTranslate st.

Definition restorable (e : entry) : bool :=
  match translatedText e with
  | Some t => truthy t && negb (String.eqb (originalText e) t)
  | None => false
  end.

(** The loop of [restoreCachedTranslations]; it sets [translated] on the
    entries it restores. *)
Fixpoint restoreCachedLoop (m : list (nat * entry)) (d : document)
    (s : gset nat) (restoredCount : nat)
    : list (nat * entry) * document * gset nat * nat :=
  match m with
  | [] => ([], d, s, restoredCount)
  | (k, e) :: m' =>
      match (if restorable e then translatedText e else None) with
      | Some t =>
          match writeText (node e) t d with
          | Some d' =>
              let '(m'', d'', s'', c) :=
                restoreCachedLoop m' d' ({[node e]} ∪ s) (S restoredCount) in
              ((k, setTranslatedFlag e) :: m'', d'', s'', c)
          | None =>
              let '(m'', d'', s'', c) := restoreCachedLoop m' d s restoredCount in
              ((k, e) :: m'', d'', s'', c)
          end
      | None =>
          let '(m'', d'', s'', c) := restoreCachedLoop m' d s restoredCount in
          ((k, e) :: m'', d'', s'', c)
      end
  end.

Definition restoreCachedTranslations (st : state) : state * bool :=
  if negb (hasTranslationCache st) then (st, false)
  else
    let '(m, d, s, restoredCount) :=
      restoreCachedLoop (textNodeMap st) (doc st) (translatedNodeSet st) 0%nat in
    let st := set_translatedNodeSet s (set_doc d (set_textNodeMap m st)) in
    let st := set_isShowingTranslations true st in
    (st, (0 <? restoredCount)%nat).

(** ** The Translator capability and [translateBatch] *)

(** One element of [response.translations]: [{ id, text, error? }]. *)
Record translation := {
  t_id : nat;
  t_text : option string;
  t_error : option string
}.

(** What [sendMessage] resolves to: [{ translations }] or [{ error }]. *)
Record response := {
  r_error : option string;
  r_translations : option (list translation)
}.

(** The [TRANSLATE] message. *)
Record request := {
  texts : list QueueItem;
  targetLanguage : string;
  sourceLanguage : string
}.

(** How one call of the capability ends: the promise rejects (or resolves
    to a value on which reading [error] throws), or it resolves to a
    response object. *)
Inductive outcome :=
| Throws
| Returns (r : response).

(** The value [translateBatch] resolves to. *)
Record batch_result := {
  applied : nat;
  failed : list QueueItem
}.

(** The dispatches and waits of the engine, and its answers to control
    messages. *)
Inductive reply :=
| RStarted (started : bool)
| RCancelled (cancelled : bool)
| RRestored (restored hasCache : bool)
| RShowing (translatedShown hasCache : bool)
| RAutoTranslate (enabled : bool)
| RStatus (isTranslating isAutoTranslating : bool)
| RLanguage (language : string)
| RApplied (b : bool)
| RShowGlow (b : bool)
| RReceived.

Inductive action :=
(** [sendMessage] of a [TRANSLATE] request, with the loop index of the
    attempt that sends it *)
| ASend (attempt : nat) (req : request)
(** [setTimeout] awaited by the engine, in milliseconds *)
| AWait (ms : Z)
| ARespond (r : reply).

Definition getPageLanguage (d : document) : string :=
  if truthy (html_lang d) then toLowerCase (beforeDash (html_lang d))
  else
    match meta_lang d with
    | Some metaLang =>
        if truthy metaLang then toLowerCase (beforeDash metaLang) else "en"
    | None => "en"
    end.

(** [textItems.find(item => item.id === id)] *)
Definition findItem (textItems : list QueueItem) (id : nat) : option QueueItem :=
  find (fun item => Nat.eqb (qi_id item) id) textItems.

Definition pushFound (failed : list QueueItem) (original : option QueueItem)
    : list QueueItem :=
  match original with
  | Some item => failed ++ [item]
  | None => failed
  end.

(** The loop over the received translations. *)
Fixpoint processTranslations (translations : list translation)
    (textItems : list QueueItem) (st : state) (applied : nat)
    (failed : list QueueItem) (receivedIds : gset nat)
    : state * nat * list QueueItem * gset nat :=
  match translations with
  | [] => (st, applied, failed, receivedIds)
  | t :: rest =>
      let receivedIds := {[t_id t]} ∪ receivedIds in
      match (if truthyOpt (t_error t) then None else t_text t) with
      | Some text =>
          if truthy text then
            let '(st', ok) := replaceTextNode (t_id t) text st in
            if ok then
              processTranslations rest textItems st' (S applied) failed receivedIds
            else
              processTranslations rest textItems st' applied
                (pushFound failed (findItem textItems (t_id t))) receivedIds
          else processTranslations rest textItems st applied failed receivedIds
      | None =>
          if truthyOpt (t_error t) then
            processTranslations rest textItems st applied
              (pushFound failed (findItem textItems (t_id t))) receivedIds
          else processTranslations rest textItems st applied failed receivedIds
      end
  end.

(** The body of the [try] once the response is there. *)
Definition processResponse (r : response) (textItems : list QueueItem)
    (st : state) : state * batch_result :=
  let translations := match r_translations r with Some l => l | None => [] end in
  let '(st, applied, failed, receivedIds) :=
    processTranslations translations textItems st 0%nat [] ∅ in
  let notReturned :=
    List.filter (fun item => negb (bool_decide (qi_id item ∈ receivedIds))) textItems in
  (st, {| applied := applied; failed := failed ++ notReturned |}).

(** One attempt: either the batch call returns, or the attempt ends in the
    [catch]. *)
Inductive attempt_result :=
| AttemptReturns (st : state) (res : batch_result)
| AttemptCaught.

Definition handleOutcome (o : outcome) (textItems : list QueueItem) (st : state)
    : attempt_result :=
  match o with
  | Throws => AttemptCaught
  | Returns r =>
      if truthyOpt (r_error r) then AttemptCaught
      else let '(st', res) := processResponse r textItems st in AttemptReturns st' res
  end.

Definition backoff (attempt : nat) : Z := 500 * (Z.of_nat attempt + 1).

Definition pageLanguageFor (sourceLanguage : string) (d : document) : string :=
  if truthy sourceLanguage && negb (String.eqb sourceLanguage "auto")
  then sourceLanguage else getPageLanguage d.

Section TranslateBatch.

(** The capability: the outcome of the call made by attempt number [n]
    with a given request. *)
Variable Translator : nat -> request -> outcome.

(** The loop [for (attempt = 0; attempt < retries; attempt++)];
    [remaining] is [retries - attempt]. *)
Fixpoint attemptLoop (retries remaining attempt : nat) (req : request)
    (st : state) : state * batch_result * list action :=
  match remaining with
  | O => (st, {| applied := 0; failed := texts req |}, [])
  | S remaining' =>
      match handleOutcome (Translator attempt req) (texts req) st with
      | AttemptReturns st' res => (st', res, [ASend attempt req])
      | AttemptCaught =>
          let wait :=
            if (attempt <? retries - 1)%nat then [AWait (backoff attempt)] else [] in
          let '(st', res, acts) :=
            attemptLoop retries remaining' (S attempt) req st in
          (st', res, ASend attempt req :: wait ++ acts)
      end
  end.

Definition translateBatch (textItems : list QueueItem)
    (targetLanguage sourceLanguage : string) (retries : nat) (st : state)
    : state * batch_result * list action :=
  match textItems with
  | [] => (st, {| applied := 0; failed := [] |}, [])
  | _ =>
      let pageLanguage := pageLanguageFor sourceLanguage (doc st) in
      attemptLoop retries retries 0%nat
        {| texts := textItems; targetLanguage := targetLanguage;
           sourceLanguage := pageLanguage |} st
  end.

End TranslateBatch.

(** ** The page-level run as an event-driven machine

    All code runs on one event loop.  An [async] function runs until it
    awaits a promise that is not settled; it resumes when the Translator
    answers or the timer fires.  A step of the machine is one such turn:
    the handling of one event up to the next suspension. *)

Inductive awaiting :=
| AwaitReply      (* the [sendMessage] promise *)
| AwaitBackoff.   (* the [setTimeout] promise of the retry loop *)

(** A call of [translateBatch] that is suspended. *)
Record batch_call := {
  bc_request : request;
  bc_retries : nat;
  bc_attempt : nat;
  bc_awaiting : awaiting
}.

(** The locals of an activation of [translatePage]. *)
Record run_locals := {
  run_targetLanguage : string;
  run_sourceLanguage : string;
  enableAutoTranslate : bool;
  totalApplied : nat;
  totalProcessed : nat;
  totalItems : nat;
  failedItems : list QueueItem
}.

(** The suspended activation, if any: [translatePage] in its drain loop, in
    the backoff of a retry round, or in a retry batch; or
    [translatePendingNodes] in its one batch. *)
Inductive task :=
| TaskDrain (l : run_locals) (c : batch_call)
| TaskRetryWait (l : run_locals) (retryAttempts : nat)
| TaskRetryBatch (l : run_locals) (retryAttempts : nat)
    (itemsToRetry : list QueueItem) (i : nat) (c : batch_call)
| TaskAuto (c : batch_call).

(** The globals and the suspended activation.  One field is enough for
    the activations: [translatePage] and [translatePendingNodes] return at
    once while [translationInProgress] is up, and the flag is up as long
    as one of them is suspended. *)
Record mstate := {
  globals : state;
  pending : option task
}.

Inductive event :=
| EvStart (targetLanguage : string) (sourceLanguage : option string)
    (glow : option bool)                     (* START_TRANSLATION *)
| EvCancel                                   (* CANCEL_TRANSLATION *)
| EvReply (o : outcome)                      (* the awaited Translator call settles *)
| EvTimer                                    (* the awaited timer fires *)
| EvScroll                                   (* scroll event on the window *)
| EvScrollSettled                            (* the scroll debounce timer fires *)
| EvMutations (added : list added_node)      (* mutation observer callback *)
| EvDebounce                                 (* the auto-translate debounce timer fires *)
| EvRestoreOriginal                          (* RESTORE_ORIGINAL *)
| EvToggle                                   (* TOGGLE_TRANSLATION *)
| EvPartial (translations : list translation) (* PARTIAL_TRANSLATION *)
| EvToggleAuto (targetLanguage : option string) (* TOGGLE_AUTO_TRANSLATE *)
| EvSetGlow (enabled : bool)                 (* SET_GLOW *)
| EvProgress (s : string)                    (* TRANSLATION_PROGRESS *)
| EvGetStatus                                (* GET_TRANSLATION_STATUS *)
| EvGetLanguage                              (* GET_PAGE_LANGUAGE *)
| EvPage (d : document).                     (* the page changes the document *)

(** [showStatus] records the message and the colour of the indicator.
    The indicator is an element that the script itself appends to the page
    and rewrites; it is kept apart from [doc], as every extraction skips
    it ([shouldSkipElement]).  A connected observer is told of these
    changes as of any other change of the page, in a callback that runs
    once the handler is through: that callback is an [EvMutations] turn.
    What the buffer of new nodes and the debounce timer are after a
    handler that shows a status is therefore open while the observer is
    connected. *)
Definition showStatus (m : status_msg) (isError : bool) (st : state) : state :=
  set_status (Some (m, isError)) st.

(** [Math.round((n / total) * 100)], on exact quotients. *)
Definition roundPercent (n total : nat) : Z :=
  (200 * Z.of_nat n + Z.of_nat total) / (2 * Z.of_nat total).

Definition startAutoTranslate (targetLanguage : string) (st : state) : state :=
  let st := set_autoTranslateEnabled true st in
  let st := set_currentTargetLanguage targetLanguage st in
  let st := set_pendingNewNodes [] st in
  set_mutationObserver true st.

(** [translateBatch] called with a batch that is not empty and a positive
    number of retries, as [translatePage] and [translatePendingNodes] do:
    it runs to its first [sendMessage]. *)
Definition startCall (textItems : list QueueItem)
    (targetLanguage sourceLanguage : string) (retries : nat) (st : state)
    : batch_call * list action :=
  let req := {| texts := textItems; targetLanguage := targetLanguage;
                sourceLanguage := pageLanguageFor sourceLanguage (doc st) |} in
  ({| bc_request := req; bc_retries := retries; bc_attempt := 0;
      bc_awaiting := AwaitReply |}, [ASend 0 req]).

Inductive call_progress :=
| CallPending (c : batch_call) (acts : list action)
| CallReturns (st : state) (res : batch_result).

(** The awaited call settles. *)
Definition onReply (o : outcome) (c : batch_call) (st : state) : call_progress :=
  match handleOutcome o (texts (bc_request c)) st with
  | AttemptReturns st' res => CallReturns st' res
  | AttemptCaught =>
      if (bc_attempt c <? bc_retries c - 1)%nat then
        CallPending
          {| bc_request := bc_request c; bc_retries := bc_retries c;
             bc_attempt := bc_attempt c; bc_awaiting := AwaitBackoff |}
          [AWait (backoff (bc_attempt c))]
      else
        CallReturns st {| applied := 0; failed := texts (bc_request c) |}
  end.

(** The backoff is over: next attempt. *)
Definition onBackoff (c : batch_call) : batch_call * list action :=
  ({| bc_request := bc_request c; bc_retries := bc_retries c;
      bc_attempt := S (bc_attempt c); bc_awaiting := AwaitReply |},
   [ASend (S (bc_attempt c)) (bc_request c)]).

Definition addResult (res : batch_result) (l : run_locals) : run_locals :=
  {| run_targetLanguage := run_targetLanguage l;
     run_sourceLanguage := run_sourceLanguage l;
     enableAutoTranslate := enableAutoTranslate l;
     totalApplied := totalApplied l + applied res;
     totalProcessed := totalProcessed l;
     totalItems := totalItems l;
     failedItems := failedItems l ++ failed res |}.

Definition addProcessed (n : nat) (l : run_locals) : run_locals :=
  {| run_targetLanguage := run_targetLanguage l;
     run_sourceLanguage := run_sourceLanguage l;
     enableAutoTranslate := enableAutoTranslate l;
     totalApplied := totalApplied l;
     totalProcessed := totalProcessed l + n;
     totalItems := totalItems l;
     failedItems := failedItems l |}.

Definition clearFailed (l : run_locals) : run_locals :=
  {| run_targetLanguage := run_targetLanguage l;
     run_sourceLanguage := run_sourceLanguage l;
     enableAutoTranslate := enableAutoTranslate l;
     totalApplied := totalApplied l;
     totalProcessed := totalProcessed l;
     totalItems := totalItems l;
     failedItems := [] |}.

(** The [finally] block of [translatePage]. *)
Definition finishRun (st : state) : mstate :=
  let st := set_translationInProgress false st in
  let st := set_translationCancelled false st in
  let st := set_pendingTranslationQueue [] st in
  {| globals := set_scrollListener false st; pending := None |}.

(** The completion message and bookkeeping after the retry rounds. *)
Definition completeRun (l : run_locals) (st : state) : mstate :=
  let successRate := roundPercent (totalApplied l) (totalItems l) in
  let st :=
    if (0 <? totalApplied l)%nat
    then set_isShowingTranslations true (set_hasTranslationCache true st)
    else st in
  let st :=
    showStatus (MsgSummary (totalApplied l) (totalItems l) successRate
                  (length (failedItems l))) false st in
  let st :=
    if enableAutoTranslate l then startAutoTranslate (run_targetLanguage l) st
    else st in
  finishRun st.

(** Head of [while (failedItems.length > 0 && retryAttempts < maxRetries
    && !translationCancelled)]. *)
Definition retryLoopHead (l : run_locals) (retryAttempts : nat) (st : state)
    : mstate * list action :=
  if (0 <? length (failedItems l))%nat && (retryAttempts <? 2)%nat
     && negb (translationCancelled st)
  then
    let retryAttempts := S retryAttempts in
    let percent := Z.min 100 (roundPercent (totalApplied l) (totalItems l)) in
    let st := showStatus (MsgPercent percent) false st in
    ({| globals := st; pending := Some (TaskRetryWait l retryAttempts) |},
     [AWait (500 * Z.of_nat retryAttempts)])
  else (completeRun l st, []).

(** Head of [for (i; i < itemsToRetry.length && !translationCancelled;
    i += retryBatchSize)]; [skipn i itemsToRetry] is not empty exactly
    when [i < itemsToRetry.length]. *)
Definition retryFor (l : run_locals) (retryAttempts : nat)
    (itemsToRetry : list QueueItem) (i : nat) (st : state) : mstate * list action :=
  if translationCancelled st then retryLoopHead l retryAttempts st
  else
    match skipn i itemsToRetry with
    | [] => retryLoopHead l retryAttempts st
    | x :: r =>
        let batch := firstn 4 (x :: r) in
        let '(c, acts) :=
          startCall batch (run_targetLanguage l) (run_sourceLanguage l) 1 st in
        ({| globals := st;
            pending := Some (TaskRetryBatch l retryAttempts itemsToRetry i c) |},
         acts)
    end.

(** After the drain loop. *)
Definition afterDrain (l : run_locals) (st : state) : mstate * list action :=
  if negb (translationCancelled st) then retryLoopHead l 0 st
  else (finishRun st, []).

(** Head of [while (pendingTranslationQueue.length > 0 &&
    !translationCancelled)]. *)
Definition drainLoop (l : run_locals) (st : state) : mstate * list action :=
  if translationCancelled st then afterDrain l st
  else
    match pendingTranslationQueue st with
    | [] => afterDrain l st
    | x :: q =>
        let batch := firstn 8 (x :: q) in
        let st := set_pendingTranslationQueue (skipn 8 (x :: q)) st in
        let l := addProcessed (length batch) l in
        let percent := Z.min 100 (roundPercent (totalProcessed l) (totalItems l)) in
        let st := showStatus (MsgPercent percent) false st in
        let '(c, acts) :=
          startCall batch (run_targetLanguage l) (run_sourceLanguage l) 3 st in
        ({| globals := st; pending := Some (TaskDrain l c) |}, acts)
    end.

(** [translateBatch] has returned inside the drain loop. *)
Definition drainResumed (l : run_locals) (res : batch_result) (st : state)
    : mstate * list action :=
  let l := addResult res l in
  if translationCancelled st then
    afterDrain l (showStatus MsgCancelled false st)
  else drainLoop l st.

Definition translatePage (targetLanguage sourceLanguage : string)
    (enableAutoTranslate : bool) (m : mstate) : mstate * list action :=
  let st := globals m in
  if translationInProgress st then
    ({| globals := showStatus MsgBusy true st; pending := pending m |}, [])
  else
    let st := set_currentTargetLanguage targetLanguage st in
    let st := set_translationInProgress true st in
    let st := set_translationCancelled false st in
    let st := showStatus MsgExtracting false st in
    let st := set_scrollListener true st in
    let '(st, textItems) := extractTextNodes (body (doc st)) false st in
    match textItems with
    | [] =>
        let st := showStatus MsgNoText true st in
        let st := set_translationInProgress false st in
        (finishRun st, [])
    | _ =>
        let st := set_pendingTranslationQueue textItems st in
        let st := showStatus (MsgFound (length textItems)) false st in
        drainLoop
          {| run_targetLanguage := targetLanguage;
             run_sourceLanguage := sourceLanguage;
             enableAutoTranslate := enableAutoTranslate;
             totalApplied := 0; totalProcessed := 0;
             totalItems := length textItems; failedItems := [] |} st
    end.

(** The loop of [recalculatePendingPriorities] over the queue: the
    priority of an item is recomputed in place when its entry has a node
    with a parent element.  Reading a node that can no longer be accessed
    throws: the loop stops there ([false]) and the rest is left as it is. *)
Fixpoint recalculateLoop (st : state) (queue : list QueueItem)
    : list QueueItem * bool :=
  match queue with
  | [] => ([], true)
  | item :: rest =>
      match Registry.get (textNodeMap st) (qi_id item) with
      | Some e =>
          match nodes (doc st) !! node e with
          | Some nd =>
              let item' :=
                match getElement (doc st) (parentElement nd) with
                | Some _ =>
                    {| qi_id := qi_id item; qi_text := qi_text item;
                       qi_priority := calculatePriority (doc st) nd |}
                | None => item
                end in
              let '(rest', ok) := recalculateLoop st rest in
              (item' :: rest', ok)
          | None => (item :: rest, false)
          end
      | None =>
          let '(rest', ok) := recalculateLoop st rest in
          (item :: rest', ok)
      end
  end.

Definition recalculatePendingPriorities (st : state) : state :=
  let '(queue, ok) := recalculateLoop st (pendingTranslationQueue st) in
  if ok then set_pendingTranslationQueue (sortByPriority queue) st
  else set_pendingTranslationQueue queue st.

Definition translatePendingNodes (m : mstate) : mstate * list action :=
  let st := globals m in
  match pendingNewNodes st with
  | [] => (m, [])
  | nodesToProcess =>
      if translationInProgress st then (m, [])
      else
        let st := set_pendingNewNodes [] st in
        let '(st, textItems) := extractNewTextNodes nodesToProcess st in
        match textItems with
        | [] => ({| globals := st; pending := pending m |}, [])
        | _ =>
            let st := set_translationInProgress true st in
            let st := showStatus (MsgNewElements (length textItems)) false st in
            let '(c, acts) :=
              startCall textItems (currentTargetLanguage st) "auto" 3 st in
            ({| globals := st; pending := Some (TaskAuto c) |}, acts)
        end
  end.

(** The loop of the [PARTIAL_TRANSLATION] handler. *)
Fixpoint applyPartial (translations : list translation) (st : state) : state :=
  match translations with
  | [] => st
  | t :: rest =>
      match (if truthyOpt (t_error t) then None else t_text t) with
      | Some text =>
          if truthy text then applyPartial rest (fst (replaceTextNode (t_id t) text st))
          else applyPartial rest st
      | None => applyPartial rest st
      end
  end.

Definition setGlowOnTranslated (glow : bool) (d : document) : document :=
  set_elems
    ((fun e =>
        match dataset_translated e with
        | Some v =>
            if String.eqb v "true" then
              {| tagName := tagName e; el_id := el_id e;
                 className := className e; role := role e;
                 isContentEditable := isContentEditable e;
                 translate_attr := translate_attr e;
                 display := display e; visibility := visibility e;
                 rect := rect e; el_parent := el_parent e;
                 textShadow := if glow then GLOW else "";
                 dataset_translated := dataset_translated e |}
            else e
        | None => e
        end) <$> elems d) d.

(** The awaited activation resumes with the result of its batch call. *)
Definition resume (t : task) (res : batch_result) (st : state)
    : mstate * list action :=
  match t with
  | TaskDrain l _ => drainResumed l res st
  | TaskRetryBatch l retryAttempts itemsToRetry i _ =>
      retryFor (addResult res l) retryAttempts itemsToRetry (i + 4) st
  | TaskAuto _ =>
      let st := showStatus MsgNewDone false st in
      ({| globals := set_translationInProgress false st; pending := None |}, [])
  | TaskRetryWait _ _ => ({| globals := st; pending := Some t |}, [])
  end.

Definition withCall (t : task) (c : batch_call) : task :=
  match t with
  | TaskDrain l _ => TaskDrain l c
  | TaskRetryBatch l retryAttempts itemsToRetry i _ =>
      TaskRetryBatch l retryAttempts itemsToRetry i c
  | TaskAuto _ => TaskAuto c
  | TaskRetryWait _ _ => t
  end.

Definition callOf (t : task) : option batch_call :=
  match t with
  | TaskDrain _ c | TaskRetryBatch _ _ _ _ c | TaskAuto c => Some c
  | TaskRetryWait _ _ => None
  end.

(** One turn of the event loop. *)
Definition step (ev : event) (m : mstate) : mstate * list action :=
  let st := globals m in
  match ev with
  | EvStart targetLanguage sourceLanguage glow =>
      let st := match glow with Some b => set_showGlow b st | None => st end in
      let '(m', acts) :=
        translatePage targetLanguage
          (match sourceLanguage with Some s => s | None => "auto" end) true
          {| globals := st; pending := pending m |} in
      (m', acts ++ [ARespond (RStarted true)])
  | EvCancel =>
      let st := set_translationCancelled true st in
      let st := set_pendingTranslationQueue [] st in
      let st := stopAutoTranslate st in
      ({| globals := st; pending := pending m |}, [ARespond (RCancelled true)])
  | EvReply o =>
      match pending m with
      | Some t =>
          match callOf t with
          | Some c =>
              match bc_awaiting c with
              | AwaitReply =>
                  match onReply o c st with
                  | CallPending c' acts =>
                      ({| globals := st; pending := Some (withCall t c') |}, acts)
                  | CallReturns st' res => resume t res st'
                  end
              | AwaitBackoff => (m, [])
              end
          | None => (m, [])
          end
      | None => (m, [])
      end
  | EvTimer =>
      match pending m with
      | Some (TaskRetryWait l retryAttempts) =>
          retryFor (clearFailed l) retryAttempts (failedItems l) 0 st
      | Some t =>
          match callOf t with
          | Some c =>
              match bc_awaiting c with
              | AwaitBackoff =>
                  let '(c', acts) := onBackoff c in
                  ({| globals := st; pending := Some (withCall t c') |}, acts)
              | AwaitReply => (m, [])
              end
          | None => (m, [])
          end
      | None => (m, [])
      end
  | EvScroll =>
      if scrollListener st
      then ({| globals := set_scrollDebounceTimer true st; pending := pending m |}, [])
      else (m, [])
  | EvScrollSettled =>
      if scrollDebounceTimer st then
        let st := set_scrollDebounceTimer false st in
        let st :=
          match pendingTranslationQueue st with
          | [] => st
          | _ => recalculatePendingPriorities st
          end in
        ({| globals := st; pending := pending m |}, [])
      else (m, [])
  | EvMutations added =>
      if mutationObserver st && autoTranslateEnabled st then
        let st := set_pendingNewNodes (pendingNewNodes st ++ added) st in
        ({| globals := set_autoTranslateDebounceTimer true st;
            pending := pending m |}, [])
      else (m, [])
  | EvDebounce =>
      if autoTranslateDebounceTimer st then
        translatePendingNodes
          {| globals := set_autoTranslateDebounceTimer false st;
             pending := pending m |}
      else (m, [])
  | EvRestoreOriginal =>
      let st := restoreOriginalText st in
      let st := showStatus MsgRestoredOriginal false st in
      ({| globals := st; pending := pending m |},
       [ARespond (RRestored true (hasTranslationCache st))])
  | EvToggle =>
      if isShowingTranslations st then
        let st := restoreOriginalText st in
        let st := showStatus MsgShowingOriginal false st in
        ({| globals := st; pending := pending m |},
         [ARespond (RShowing false (hasTranslationCache st))])
      else if hasTranslationCache st then
        let st := fst (restoreCachedTranslations st) in
        let st := showStatus MsgRestoredTranslations false st in
        ({| globals := st; pending := pending m |},
         [ARespond (RShowing true (hasTranslationCache st))])
      else (m, [ARespond (RShowing false false)])
  | EvPartial translations =>
      ({| globals := applyPartial translations st; pending := pending m |},
       [ARespond (RApplied true)])
  | EvToggleAuto targetLanguage =>
      let st :=
        if autoTranslateEnabled st then
          showStatus MsgAutoDisabled false (stopAutoTranslate st)
        else
          let target :=
            match targetLanguage with
            | Some s => if truthy s then s else currentTargetLanguage st
            | None => currentTargetLanguage st
            end in
          showStatus MsgAutoEnabled false (startAutoTranslate target st) in
      ({| globals := st; pending := pending m |},
       [ARespond (RAutoTranslate (autoTranslateEnabled st))])
  | EvSetGlow enabled =>
      let st := set_showGlow enabled st in
      let st := set_doc (setGlowOnTranslated enabled (doc st)) st in
      ({| globals := st; pending := pending m |}, [ARespond (RShowGlow enabled)])
  | EvProgress s =>
      ({| globals := showStatus (MsgProgress s) false st; pending := pending m |},
       [ARespond RReceived])
  | EvGetStatus =>
      (m, [ARespond (RStatus (translationInProgress st) (autoTranslateEnabled st))])
  | EvGetLanguage => (m, [ARespond (RLanguage (getPageLanguage (doc st)))])
  | EvPage d =>
      ({| globals := set_doc d st; pending := pending m |}, [])
  end.

(** A sequence of turns. *)
Fixpoint run (evs : list event) (m : mstate) : mstate * list action :=
  match evs with
  | [] => (m, [])
  | ev :: rest =>
      let '(m', acts) := step ev m in
      let '(m'', acts') := run rest m' in
      (m'', acts ++ acts')
  end.

(** The state of a page on which the script has just been loaded. *)
Definition initialState (d : document) : mstate :=
  {| globals :=
       {| doc := d; textNodeMap := []; translatedNodeSet := ∅;
          translationInProgress := false; translationCancelled := false;
          nextId := 0; currentTargetLanguage := "en";
          autoTranslateEnabled := false; showGlow := false;
          mutationObserver := false; pendingNewNodes := [];
          autoTranslateDebounceTimer := false; hasTranslationCache := false;
          isShowingTranslations := false; pendingTranslationQueue := [];
          scrollDebounceTimer := false; status := None;
          scrollListener := false |};
     pending := None |}.


(** ** Batching by token budget ([utils.js]) *)

(** [estimateTokens]: about four characters per token, rounded up. *)
Definition estimateTokens (text : string) : Z :=
  if negb (truthy text) then 0
  else (Z.of_nat (String.length text) + 3) / 4.

(** The loop of [batchTexts] over the items, with its three variables. *)
Fixpoint batchLoop (effectiveMax : Z) (textItems : list QueueItem)
    (batches : list (list QueueItem)) (currentBatch : list QueueItem)
    (currentTokens : Z) : list (list QueueItem) :=
  match textItems with
  | [] =>
      if (0 <? length currentBatch)%nat then batches ++ [currentBatch] else batches
  | item :: rest =>
      let itemTokens := estimateTokens (qi_text item) in
      if effectiveMax <? itemTokens then
        if (0 <? length currentBatch)%nat then
          batchLoop effectiveMax rest ((batches ++ [currentBatch]) ++ [[item]]) [] 0
        else
          batchLoop effectiveMax rest (batches ++ [[item]]) currentBatch currentTokens
      else if effectiveMax <? currentTokens + itemTokens then
        batchLoop effectiveMax rest (batches ++ [currentBatch]) [item] itemTokens
      else
        batchLoop effectiveMax rest batches (currentBatch ++ [item])
          (currentTokens + itemTokens)
  end.

Definition batchTexts (textItems : list QueueItem) (maxTokens : Z)
    : list (list QueueItem) :=
  let promptOverhead := 200 in
  let effectiveMax := maxTokens - promptOverhead in
  batchLoop effectiveMax textItems [] [] 0.

(** ** Matching the answer of the model to the request ([background.js])

    The branch of [parseTranslationResponse] that is taken once the answer
    has been parsed as JSON into a list of translations that is not empty:
    the texts are cleaned, and the ids are replaced by the ids of the
    requested items, position by position, when the model numbered its
    answers 0, 1, 2, ... or when none of its ids was requested.
    [cleanTranslationText] works by regular expressions and is a parameter
    here. *)
Definition remapTranslations (cleanTranslationText : option string -> option string)
    (translations : list translation) (originalItems : list QueueItem)
    : list translation :=
  let translations :=
    map (fun t => {| t_id := t_id t; t_text := cleanTranslationText (t_text t);
                     t_error := t_error t |}) translations in
  let llmIds := map t_id translations in
  let ourIds := map qi_id originalItems in
  let llmUsedSequential :=
    forallb (fun p => Nat.eqb (snd p) (fst p))
      (combine (seq 0 (length llmIds)) llmIds) in
  let idsMismatch :=
    negb (existsb (fun id => existsb (Nat.eqb id) ourIds) llmIds) in
  if llmUsedSequential || idsMismatch then
    map (fun p =>
           {| t_id := match nth_error originalItems (fst p) with
                      | Some item => qi_id item
                      | None => t_id (snd p)
                      end;
              t_text := t_text (snd p); t_error := t_error (snd p) |})
      (combine (seq 0 (length translations)) translations)
  else translations.
(** * Vocabulary of the properties *)

(** [a] is the element referred to by [r] or one of its ancestors. *)
Inductive ancestorOf (d : document) : option nat -> element -> Prop :=
| ancestor_self r e : getElement d r = Some e -> ancestorOf d r e
| ancestor_up r e a :
    getElement d r = Some e -> ancestorOf d (el_parent e) a -> ancestorOf d r a.

(** The text node lies inside an element with the given tag. *)
Definition insideTag (d : document) (n : text_node) (tag : string) : Prop :=
  exists a, ancestorOf d (parentElement n) a /\ tagName a = tag.


(** The text a live node shows. *)
Definition shownText (d : document) (n : nat) : option string :=
  textContent <$> nodes d !! n.


(** A call of the capability fails at the transport or parse level: it
    throws, or its response carries a top-level error. *)
Definition transportFailure (o : outcome) : bool :=
  match o with
  | Throws => true
  | Returns r => truthyOpt (r_error r)
  end.

(** The schedule of a batch call whose [n] remaining attempts all fail,
    from attempt [k] on: a send per attempt and, between two consecutive
    attempts, a wait of 500 ms times the number of the attempt that has
    just failed, counted from one. *)
Fixpoint failingSchedule (req : request) (k n : nat) : list action :=
  match n with
  | O => []
  | S n' =>
      match n' with
      | O => [ASend k req]
      | S _ =>
          ASend k req :: AWait (500 * (Z.of_nat k + 1)) :: failingSchedule req (S k) n'
      end
  end.

(** The attempts of a trace. *)
Definition sends (acts : list action) : list nat :=
  flat_map (fun a => match a with ASend k _ => [k] | _ => [] end) acts.

(** The waits of a trace, in milliseconds. *)
Definition waits (acts : list action) : list Z :=
  flat_map (fun a => match a with AWait ms => [ms] | _ => [] end) acts.

(** The text of a response entry that has no per-item error and a
    non-empty text. *)
Definition usableText (t : translation) : option string :=
  if truthyOpt (t_error t) then None
  else match t_text t with
       | Some text => if truthy text then Some text else None
       | None => None
       end.

(** The id resolves in the registry to a node that can be written. *)
Definition writable (st : state) (id : nat) : bool :=
  match Registry.get (textNodeMap st) id with
  | Some e => bool_decide (is_Some (nodes (doc st) !! node e))
  | None => false
  end.

(** A response entry that gets applied: usable text and a successful
    write. *)
Definition applicable (st : state) (t : translation) : bool :=
  match usableText t with
  | Some _ => writable st (t_id t)
  | None => false
  end.

(** The response entries applied one after the other. *)
Definition applyEntries (translations : list translation) (st : state) : state :=
  fold_left
    (fun s t =>
       match usableText t with
       | Some text => fst (replaceTextNode (t_id t) text s)
       | None => s
       end) translations st.

(** The text of the last applied response entry for [id], if any. *)
Definition lastApplied (st : state) (id : nat) (translations : list translation)
    : option string :=
  fold_left
    (fun acc t =>
       if Nat.eqb (t_id t) id && applicable st t then usableText t else acc)
    translations None.

Definition requested (textItems : list QueueItem) (id : nat) : Prop :=
  In id (map qi_id textItems).

Definition returnedWithError (translations : list translation) (id : nat) : Prop :=
  exists t, In t translations /\ t_id t = id /\ truthyOpt (t_error t) = true.

Definition absentFrom (translations : list translation) (id : nat) : Prop :=
  forall t, In t translations -> t_id t <> id.

Definition translationsOf (r : response) : list translation :=
  match r_translations r with Some l => l | None => [] end.

(** The items pushed to [failed] while the response entries are processed:
    for an entry whose write fails or that carries an error, the requested
    item with that id, if there is one. *)
Definition failedWhileProcessing (st : state) (textItems : list QueueItem)
    (translations : list translation) : list QueueItem :=
  flat_map
    (fun t =>
       let found := match findItem textItems (t_id t) with
                    | Some item => [item]
                    | None => []
                    end in
       match usableText t with
       | Some _ => if writable st (t_id t) then [] else found
       | None => if truthyOpt (t_error t) then found else []
       end) translations.

(** Every id of the registry is below the id counter. *)
Definition keysBelow (st : state) : Prop :=
  Forall (fun k => (k < nextId st)%nat) (Registry.keys (textNodeMap st)).

(** Descending order of priority. *)
Definition descending (items : list QueueItem) : Prop :=
  StronglySorted (fun a b => qi_priority b <= qi_priority a) items.

(** [st'] is [st] after an extraction that emitted [items]: the registry
    has grown at its end by one entry per item, under consecutive ids from
    the counter of [st] on; each item carries the id of its entry and the
    trimmed original text; in an incremental run the nodes of the new
    entries are not in the processed set; the counter has advanced by the
    number of items; the document and the processed set are as before. *)
Definition extends (onlyNew : bool) (st st' : state) (items : list QueueItem) : Prop :=
  exists es,
    textNodeMap st' = textNodeMap st ++ es /\
    Registry.keys es = seq (nextId st) (length es) /\
    nextId st' = (nextId st + length es)%nat /\
    Permutation (map qi_id items) (Registry.keys es) /\
    Forall (fun item =>
              exists e, In (qi_id item, e) es /\
                        trim (originalText e) = qi_text item /\
                        (onlyNew = true -> node e ∉ translatedNodeSet st)) items /\
    doc st' = doc st /\
    translatedNodeSet st' = translatedNodeSet st.

(** What an extraction run owes its caller: the emitted ids are pairwise
    distinct and, in an incremental run, distinct from every id the
    registry already holds; each id resolves in the registry to an entry
    whose original text, trimmed, is the text of the item; the items come
    in descending order of priority. *)
Definition emittedOk (onlyNew : bool) (st st' : state) (items : list QueueItem)
    : Prop :=
  List.NoDup (map qi_id items) /\
  (forall item, In item items ->
     (onlyNew = true -> ~ In (qi_id item) (Registry.keys (textNodeMap st))) /\
     exists e, Registry.get (textNodeMap st') (qi_id item) = Some e /\
               trim (originalText e) = qi_text item) /\
  descending items.

(** What an incremental extraction leaves in place whatever the state. *)
Definition keeps (st st' : state) : Prop :=
  translatedNodeSet st' = translatedNodeSet st /\
  (nextId st <= nextId st')%nat /\
  (forall k, In k (Registry.keys (textNodeMap st)) ->
             In k (Registry.keys (textNodeMap st'))).

(** The registry has only grown at its end, by entries for unprocessed
    nodes, one per emitted item. *)
Definition appendsOnly (st st' : state) (items : list QueueItem) : Prop :=
  exists es,
    textNodeMap st' = textNodeMap st ++ es /\
    length es = length items /\
    forall item, In item items ->
      exists e, In (qi_id item, e) es /\ node e ∉ translatedNodeSet st.

(** An entry as the write paths leave it: [translated] is set exactly
    when [translatedText] is, and a stored translation is not empty. *)
Definition entryConsistent (e : entry) : Prop :=
  match translatedText e with
  | Some t => translated e = true /\ truthy t = true
  | None => translated e = false
  end.

Definition registryConsistent (st : state) : Prop :=
  Forall (fun p => entryConsistent (snd p)) (textNodeMap st).

(** The node has an entry with an applied translation. *)
Definition translatedNode (st : state) (n : nat) : Prop :=
  exists k e, In (k, e) (textNodeMap st) /\ node e = n /\ translated e = true.

(** The text [replaceTextNode] writes on the node of [e] for the
    translation [t]: the translation between the leading and the trailing
    white space of the original text. *)
Definition appliedText (e : entry) (t : string) : string :=
  (leadingSpace (originalText e) ++ t ++ trailingSpace (originalText e))%string.

(** Node [n] shows the text [s], the white space around it apart. *)
Definition showsUpToSpace (d : document) (n : nat) (s : string) : Prop :=
  exists shown, shownText d n = Some shown /\ trim shown = trim s.

(** The text left on node [n] by a loop over the entries that writes
    [write e], when defined, on the node of [e]: the last such write, or
    [before] when there is none. *)
Fixpoint lastWrite (write : entry -> option string) (n : nat)
    (m : list (nat * entry)) (before : option string) : option string :=
  match m with
  | [] => before
  | (_, e) :: m' =>
      lastWrite write n m'
        (if Nat.eqb (node e) n
         then match write e with Some s => Some s | None => before end
         else before)
  end.

Definition originalWrite (e : entry) : option string :=
  if translated e then Some (originalText e) else None.

Definition cachedWrite (e : entry) : option string :=
  if restorable e then translatedText e else None.

(** A run of [translatePage] is suspended. *)
Definition runActive (m : mstate) : bool :=
  match pending m with
  | Some (TaskDrain _ _) | Some (TaskRetryWait _ _)
  | Some (TaskRetryBatch _ _ _ _ _) => true
  | Some (TaskAuto _) | None => false
  end.

(** The request of the batch call in flight, if there is one. *)
Definition inFlight (m : mstate) : option request :=
  match pending m with
  | Some t => option_map bc_request (callOf t)
  | None => None
  end.

(** The two flags of the run are the same in both states. *)
Definition sameRunFlags (st st' : state) : Prop :=
  translationInProgress st' = translationInProgress st /\
  translationCancelled st' = translationCancelled st.

(** A run that has been cancelled and has not ended yet; [req] is the
    request of its batch call in flight. *)
Definition cancelledRun (req : option request) (m : mstate) : Prop :=
  runActive m = true /\
  translationInProgress (globals m) = true /\
  translationCancelled (globals m) = true /\
  inFlight m = req.

(** The run has ended: nothing is suspended, the run flags are down and
    the pending queue is empty. *)
Definition runEnded (m : mstate) : Prop :=
  pending m = None /\
  translationInProgress (globals m) = false /\
  pendingTranslationQueue (globals m) = [].

(** The turns of the event loop up to the end of the run. *)
Fixpoint runToEnd (evs : list event) (m : mstate) : mstate * list action :=
  match evs with
  | [] => (m, [])
  | ev :: rest =>
      if runActive m then
        let '(m', acts) := step ev m in
        let '(m'', acts') := runToEnd rest m' in
        (m'', acts ++ acts')
      else (m, [])
  end.

(** The event a suspended activation waits for, when the capability
    answers attempt [n] with [answers n]. *)
Definition awaitedEvent (answers : nat -> outcome) (m : mstate) : option event :=
  match pending m with
  | Some (TaskRetryWait _ _) => Some EvTimer
  | Some t =>
      match callOf t with
      | Some c =>
          match bc_awaiting c with
          | AwaitReply => Some (EvReply (answers (bc_attempt c)))
          | AwaitBackoff => Some EvTimer
          end
      | None => None
      end
  | None => None
  end.

(** The environment settles what the activation waits for, [fuel] times
    at most. *)
Fixpoint settle (answers : nat -> outcome) (fuel : nat) (m : mstate)
    : mstate * list action :=
  match fuel with
  | O => (m, [])
  | S fuel' =>
      match awaitedEvent answers m with
      | Some ev =>
          let '(m', acts) := step ev m in
          let '(m'', acts') := settle answers fuel' m' in
          (m'', acts ++ acts')
      | None => (m, [])
      end
  end.

(** The number of settled awaits within which a batch call returns. *)
Definition callBound (c : batch_call) : nat :=
  match bc_awaiting c with
  | AwaitReply => 2 * (bc_retries c - 1 - bc_attempt c) + 1
  | AwaitBackoff => 2 * (bc_retries c - 1 - S (bc_attempt c)) + 2
  end.

Definition taskBound (m : mstate) : nat :=
  match pending m with
  | Some t => match callOf t with Some c => callBound c | None => 1 end
  | None => 0
  end.

(** The in-progress flag is up exactly when an activation is suspended. *)
Definition busyConsistent (m : mstate) : Prop :=
  is_Some (pending m) <-> translationInProgress (globals m) = true.

(** The registry and the id counter of a state. *)
Definition registryView (st : state) : list (nat * entry) * nat :=
  (textNodeMap st, nextId st).

(** The states the script keeps to. *)
Definition wellFormed (m : mstate) : Prop :=
  busyConsistent m /\ keysBelow (globals m) /\ registryConsistent (globals m).

(** The states reached from a freshly loaded page. *)
Inductive reachable : mstate -> Prop :=
| reachable_initial d : reachable (initialState d)
| reachable_step m ev : reachable m -> reachable (fst (step ev m)).

Definition registryOk (st : state) : Prop :=
  keysBelow st /\ registryConsistent st.

(** A suspended batch call settled by the capability, turn after turn, up
    to its return; [None] when [fuel] turns do not suffice. *)
Fixpoint settleCall (Translator : nat -> request -> outcome) (fuel : nat)
    (c : batch_call) (st : state) : option (state * batch_result * list action) :=
  match fuel with
  | O => None
  | S fuel' =>
      match bc_awaiting c with
      | AwaitReply =>
          match onReply (Translator (bc_attempt c) (bc_request c)) c st with
          | CallReturns st' res => Some (st', res, [])
          | CallPending c' acts =>
              match settleCall Translator fuel' c' st with
              | Some (st', res, acts') => Some (st', res, acts ++ acts')
              | None => None
              end
          end
      | AwaitBackoff =>
          let '(c', acts) := onBackoff c in
          match settleCall Translator fuel' c' st with
          | Some (st', res, acts') => Some (st', res, acts ++ acts')
          | None => None
          end
      end
  end.

(** * Vocabulary of the further properties *)

(** The nodes of the candidate list that the walker accepts, with their
    contents, in document order. *)
Definition acceptedNodes (st : state) (onlyNew : bool) (candidates : list nat)
    : list (nat * text_node) :=
  flat_map
    (fun n =>
       match nodes (doc st) !! n with
       | Some nd => if acceptNode st onlyNew n nd then [(n, nd)] else []
       | None => []
       end) candidates.

(** The entries recorded for a list of accepted nodes, under consecutive
    ids from [k] on, and the items emitted for them. *)
Fixpoint entriesFrom (k : nat) (accepted : list (nat * text_node))
    : list (nat * entry) :=
  match accepted with
  | [] => []
  | (n, nd) :: rest =>
      (k, {| node := n; originalText := textContent nd;
             translated := false; translatedText := None |})
      :: entriesFrom (S k) rest
  end.

Fixpoint itemsFrom (d : document) (k : nat) (accepted : list (nat * text_node))
    : list QueueItem :=
  match accepted with
  | [] => []
  | (n, nd) :: rest =>
      {| qi_id := k; qi_text := trim (textContent nd);
         qi_priority := calculatePriority d nd |}
      :: itemsFrom d (S k) rest
  end.

(** A text node that the extractor may emit: its text has at least two
    characters once trimmed and holds a letter, its parent element exists,
    has a tag name, is none of the skipped kinds and is displayed. *)
Definition eligible (d : document) (nd : text_node) : Prop :=
  (2 <= String.length (trim (textContent nd)))%nat /\
  hasLetter (trim (textContent nd)) = true /\
  exists p,
    getElement d (parentElement nd) = Some p /\
    tagName p <> "" /\
    ~ In (tagName p) SKIP_TAGS /\
    isContentEditable p = false /\
    translate_attr p <> Some "no" /\
    el_id p <> "llm-translator-status" /\
    display p <> "none" /\
    visibility p <> "hidden".

(** The trace of [k] failed attempts that are each followed by a wait,
    from attempt [from] on. *)
Definition retrySchedule (req : request) (from k : nat) : list action :=
  flat_map (fun j => [ASend j req; AWait (backoff j)]) (seq from k).

(** An action of a batch call for the request [req]: a send of [req] or a
    wait. *)
Definition ofCall (req : request) (a : action) : Prop :=
  match a with
  | ASend _ r => r = req
  | AWait _ => True
  | ARespond _ => False
  end.

(** A response entry that is neither applied nor an error: no per-item
    error and no (or an empty) text. *)
Definition blank (t : translation) : bool :=
  negb (truthyOpt (t_error t)) &&
  match t_text t with Some text => negb (truthy text) | None => true end.

(** The part of the state that lies outside the registry, the processed
    set and the document. *)
Definition control (st : state) :=
  (translationInProgress st, translationCancelled st, nextId st,
   currentTargetLanguage st, autoTranslateEnabled st, showGlow st,
   mutationObserver st, pendingNewNodes st, autoTranslateDebounceTimer st,
   hasTranslationCache st, isShowingTranslations st, pendingTranslationQueue st,
   scrollDebounceTimer st, status st, scrollListener st).

(** The part of the state that extraction leaves alone as well: the
    control part without the id counter. *)
Definition settings (st : state) :=
  (translationInProgress st, translationCancelled st,
   currentTargetLanguage st, autoTranslateEnabled st, showGlow st,
   mutationObserver st, pendingNewNodes st, autoTranslateDebounceTimer st,
   hasTranslationCache st, isShowingTranslations st, pendingTranslationQueue st,
   scrollDebounceTimer st, status st, scrollListener st).

(** The view flags are coherent: translations are shown only when a
    translation cache exists. *)
Definition viewCoherent (st : state) : Prop :=
  isShowingTranslations st = true -> hasTranslationCache st = true.

(** From [st] to [st'] the cache flag has not been taken down and the
    coherence of the view flags has been kept. *)
Definition cacheKept (st st' : state) : Prop :=
  (hasTranslationCache st = true -> hasTranslationCache st' = true) /\
  (viewCoherent st -> viewCoherent st').

(** Every item of the pending queue that has an entry in the registry has
    a node that can be accessed. *)
Definition queueAccessible (st : state) : bool :=
  forallb
    (fun item =>
       match Registry.get (textNodeMap st) (qi_id item) with
       | Some e => bool_decide (is_Some (nodes (doc st) !! node e))
       | None => true
       end) (pendingTranslationQueue st).

(** The priority of the item is the current score of its node, when the
    registry has the node and the node has a parent element. *)
Definition priorityCurrent (st : state) (item : QueueItem) : Prop :=
  forall e nd,
    Registry.get (textNodeMap st) (qi_id item) = Some e ->
    nodes (doc st) !! node e = Some nd ->
    is_Some (getElement (doc st) (parentElement nd)) ->
    qi_priority item = calculatePriority (doc st) nd.

Definition idAndText (item : QueueItem) : nat * string := (qi_id item, qi_text item).

(** A suspended batch call is in order: its request is not empty and has
    at most [size] items, it was started with [retries] attempts, and the
    attempt it is in, as well as the attempt a backoff leads to, is one of
    them. *)
Definition callInOrder (size retries : nat) (c : batch_call) : Prop :=
  texts (bc_request c) <> [] /\
  (length (texts (bc_request c)) <= size)%nat /\
  bc_retries c = retries /\
  (bc_attempt c < retries)%nat /\
  (bc_awaiting c = AwaitBackoff -> (S (bc_attempt c) < retries)%nat).

(** The suspended activation is in order: a batch of the drain loop has at
    most 8 items and 3 attempts, a batch of a retry round at most 4 items
    and one attempt, the batch of the watcher for new content 3 attempts
    and all the new items. *)
Definition taskInOrder (t : task) : Prop :=
  match t with
  | TaskDrain _ c => callInOrder 8 3 c
  | TaskRetryBatch _ _ _ _ c => callInOrder 4 1 c
  | TaskAuto c => callInOrder (length (texts (bc_request c))) 3 c
  | TaskRetryWait _ _ => True
  end.

Definition pendingInOrder (m : mstate) : Prop :=
  match pending m with
  | Some t => taskInOrder t
  | None => True
  end.

(** Every request sent in a turn is, after the turn, the request of the
    suspended batch call, which awaits its answer in the attempt of that
    number. *)
Definition sentInFlight (r : mstate * list action) : Prop :=
  forall k req,
    In (ASend k req) (snd r) ->
    exists t c,
      pending (fst r) = Some t /\ callOf t = Some c /\
      bc_request c = req /\ bc_attempt c = k /\ bc_awaiting c = AwaitReply.

(** The string holds a hyphen. *)
Fixpoint hasDash (s : string) : bool :=
  match s with
  | EmptyString => false
  | String c r => Ascii.eqb c "-"%char || hasDash r
  end.

(** The estimated tokens of a batch. *)
Definition batchTokens (batch : list QueueItem) : Z :=
  fold_right (fun item acc => estimateTokens (qi_text item) + acc) 0 batch.

(** A batch within the budget: its estimated tokens fit, or it is a single
    item that alone exceeds the budget. *)
Definition withinBudget (effectiveMax : Z) (batch : list QueueItem) : Prop :=
  batchTokens batch <= effectiveMax \/
  exists item, batch = [item] /\ effectiveMax < estimateTokens (qi_text item).

(** ** A run served by a faithful capability *)

(** A capability that answers every request with a translation of each of
    its items, given by [f] on the texts. *)
Definition translationOf (f : string -> string) (item : QueueItem) : translation :=
  {| t_id := qi_id item; t_text := Some (f (qi_text item)); t_error := None |}.

Definition translateAll (f : string -> string) (req : request) : outcome :=
  Returns {| r_error := None;
             r_translations := Some (map (translationOf f) (texts req)) |}.

(** The event a suspended activation waits for, when the capability is
    [Translator]. *)
Definition awaitedFrom (Translator : nat -> request -> outcome) (m : mstate)
    : option event :=
  match pending m with
  | Some (TaskRetryWait _ _) => Some EvTimer
  | Some t =>
      match callOf t with
      | Some c =>
          match bc_awaiting c with
          | AwaitReply => Some (EvReply (Translator (bc_attempt c) (bc_request c)))
          | AwaitBackoff => Some EvTimer
          end
      | None => None
      end
  | None => None
  end.

(** The capability and the timers serve the suspended activation, [fuel]
    times at most. *)
Fixpoint serve (Translator : nat -> request -> outcome) (fuel : nat) (m : mstate)
    : mstate * list action :=
  match fuel with
  | O => (m, [])
  | S fuel' =>
      match awaitedFrom Translator m with
      | Some ev =>
          let '(m', acts) := step ev m in
          let '(m'', acts') := serve Translator fuel' m' in
          (m'', acts ++ acts')
      | None => (m, [])
      end
  end.

(** The items requested in a trace, in the order of the requests. *)
Definition sentTexts (acts : list action) : list QueueItem :=
  flat_map (fun a => match a with ASend _ req => texts req | _ => [] end) acts.

(** The text a node shows once the translation by [f] of its entry is
    written. *)
Definition written (f : string -> string) (e : entry) : string :=
  (leadingSpace (originalText e) ++ f (trim (originalText e))
   ++ trailingSpace (originalText e))%string.

(** In the registry [E], the node of an entry determines its original
    text. *)
Definition nodeDetermines (E : list (nat * entry)) : Prop :=
  forall id id' e e',
    Registry.get E id = Some e -> Registry.get E id' = Some e' ->
    node e = node e' -> originalText e = originalText e'.

(** The state of a run over the extracted registry [E] whose remaining
    work is [queue], under a capability that translates by [f]: the
    registry has the ids of [E] with their nodes and original texts, the
    nodes can be written, every translated entry shows its translation,
    the queued items are items of [E], and every id of [E] is queued or
    translated. *)
Definition runInv (f : string -> string) (E : list (nat * entry)) (st : state)
    (queue : list QueueItem) : Prop :=
  (forall id e0,
     Registry.get E id = Some e0 ->
     exists e, Registry.get (textNodeMap st) id = Some e /\
               node e = node e0 /\ originalText e = originalText e0 /\
               is_Some (nodes (doc st) !! node e0)) /\
  (forall id e,
     Registry.get (textNodeMap st) id = Some e -> is_Some (Registry.get E id)) /\
  (forall id e,
     Registry.get (textNodeMap st) id = Some e -> translated e = true ->
     shownText (doc st) (node e) = Some (written f e)) /\
  (forall item,
     In item queue ->
     exists e0, Registry.get E (qi_id item) = Some e0 /\
                qi_text item = trim (originalText e0)) /\
  (forall id e0,
     Registry.get E id = Some e0 ->
     In id (map qi_id queue) \/
     exists e, Registry.get (textNodeMap st) id = Some e /\ translated e = true).

(** [a] is served before [b]: by higher priority, and at equal priority by
    lower id, which is document order. *)
Definition servedBefore (a b : QueueItem) : Prop :=
  qi_priority b < qi_priority a \/
  (qi_priority b = qi_priority a /\ (qi_id a < qi_id b)%nat).

(** The locals of a suspended run. *)
Definition localsOf (t : task) : option run_locals :=
  match t with
  | TaskDrain l _ | TaskRetryWait l _ | TaskRetryBatch l _ _ _ _ => Some l
  | TaskAuto _ => None
  end.

(** The watcher for new content has just been started for the given
    target language: it is enabled and connected, and its buffer is
    empty. *)
Definition watcherFresh (targetLanguage : string) (st : state) : Prop :=
  pendingNewNodes st = [] /\
  autoTranslateEnabled st = true /\
  mutationObserver st = true /\
  currentTargetLanguage st = targetLanguage.

(** Served by the capability and the timers, the machine reaches a state
    that satisfies [final]. *)
Definition Ends (Translator : nat -> request -> outcome) (final : mstate -> Prop)
    (m : mstate) : Prop :=
  exists fuel, final (fst (serve Translator fuel m)).

(** Nothing is suspended and the in-progress flag is down. *)
Definition quiet (m : mstate) : Prop :=
  pending m = None /\ translationInProgress (globals m) = false.

(** The state without its pending queue and its status line. *)
Definition withoutProgress (st : state) : state :=
  set_status None (set_pendingTranslationQueue [] st).

(** The state with another buffer of new nodes and another debounce
    timer: the two variables that the observer callback writes. *)
Definition withBuffer (buffer : list added_node) (timer : bool) (st : state)
    : state :=
  set_autoTranslateDebounceTimer timer (set_pendingNewNodes buffer st).

(** The state apart from the buffer of new nodes and the debounce timer. *)
Definition apartFromBuffer (st : state) : state := withBuffer [] false st.

(** * A sample page *)

Module Sample.

Definition mkRect (t l w h : Q) : DOMRect :=
  {| top := t; bottom := t + h; left := l; right := l + w; width := w |}.

Definition mkElement (tag : string) (parent : option nat) (r : DOMRect) : element :=
  {| tagName := tag; el_id := ""; className := Some ""; role := None;
     isContentEditable := false; translate_attr := None;
     display := "block"; visibility := "visible"; rect := r;
     el_parent := parent; textShadow := ""; dataset_translated := None |}.

Fixpoint repeatChar (c : ascii) (n : nat) : string :=
  match n with
  | O => EmptyString
  | S n' => String c (repeatChar c n')
  end.

(** [body > main > (h1, p, p, p)] in view, and [body > nav > label] far
    below the fold, in a window of 1000 by 800. *)
Definition page : document :=
  {| nodes :=
       <[10%nat := {| textContent := repeatChar "a" 200; parentElement := Some 2%nat |}]>
       (<[11%nat := {| textContent := "Name"; parentElement := Some 4%nat |}]>
       (<[12%nat := {| textContent := " Title "; parentElement := Some 5%nat |}]>
       (<[13%nat := {| textContent := "World"; parentElement := Some 7%nat |}]>
       (<[14%nat := {| textContent := "Hello"; parentElement := Some 6%nat |}]> ∅))));
     elems :=
       <[0%nat := mkElement "BODY" None (mkRect 0 0 1000 6000)]>
       (<[1%nat := mkElement "MAIN" (Some 0%nat) (mkRect 0 100 800 4000)]>
       (<[2%nat := mkElement "P" (Some 1%nat) (mkRect 300 100 800 200)]>
       (<[3%nat := mkElement "NAV" (Some 0%nat) (mkRect 5000 0 1000 100)]>
       (<[4%nat := mkElement "LABEL" (Some 3%nat) (mkRect 5000 0 100 20)]>
       (<[5%nat := mkElement "H1" (Some 1%nat) (mkRect 10 100 800 60)]>
       (<[6%nat := mkElement "P" (Some 1%nat) (mkRect 100 100 800 60)]>
       (<[7%nat := mkElement "P" (Some 1%nat) (mkRect 200 100 800 60)]> ∅)))))));
     innerWidth := 1000; innerHeight := 800;
     body := [12; 14; 13; 10; 11]%nat;
     html_lang := "en-US"; meta_lang := None |}.

Definition longParagraph : text_node :=
  {| textContent := repeatChar "a" 200; parentElement := Some 2%nat |}.

Definition shortLabel : text_node :=
  {| textContent := "Name"; parentElement := Some 4%nat |}.

(** The page right after the script is loaded, and after a full
    extraction. *)
Definition loaded : mstate := initialState page.

Definition extracted : state :=
  fst (extractTextNodes (body page) false (globals loaded)).

Definition items : list QueueItem :=
  snd (extractTextNodes (body page) false (globals loaded)).

(** The same state when the heading's text node can no longer be
    accessed. *)
Definition headingGone : state :=
  set_doc (set_nodes (delete 12%nat (nodes page)) page) extracted.

Definition headingEntry : entry :=
  {| node := 12; originalText := " Title ";
     translated := false; translatedText := None |}.

Definition hello : QueueItem :=
  {| qi_id := 1; qi_text := "Hello"; qi_priority := 10760 |}.

Definition world : QueueItem :=
  {| qi_id := 2; qi_text := "World"; qi_priority := 10760 |}.

Definition hola : translation :=
  {| t_id := 1; t_text := Some "Hola"; t_error := None |}.

Definition titel : translation :=
  {| t_id := 0; t_text := Some "Titel"; t_error := None |}.

(** A capability that answers every call with the given translations. *)
Definition stub (translations : list translation) : nat -> request -> outcome :=
  fun _ _ => Returns {| r_error := None; r_translations := Some translations |}.

(** A response that translates every text of the page. *)
Definition allTranslated : outcome :=
  Returns
    {| r_error := None;
       r_translations :=
         Some [ {| t_id := 3; t_text := Some (repeatChar "b" 180); t_error := None |};
                hola;
                {| t_id := 2; t_text := Some "Mundo"; t_error := None |};
                {| t_id := 0; t_text := Some "Titulo"; t_error := None |};
                {| t_id := 4; t_text := Some "Nombre"; t_error := None |} ] |}.

(** The page after a completed run, and after a run that was cancelled
    while its only batch was in flight. *)
Definition translatedPage : state :=
  globals (fst (run [EvStart "es" None None; EvReply allTranslated] loaded)).

Definition cancelledPage : state :=
  globals (fst (run [EvStart "es" None None; EvCancel; EvReply allTranslated]
                  loaded)).

(** The page while the first batch of a run is in flight. *)
Definition busy : mstate := fst (run [EvStart "es" None None] loaded).

End Sample.

(** The sample page with one more paragraph, hidden by its style. *)
Module SampleHidden.

Definition hiddenParagraph : element :=
  {| tagName := "P"; el_id := ""; className := Some ""; role := None;
     isContentEditable := false; translate_attr := None;
     display := "none"; visibility := "visible";
     rect := Sample.mkRect 0 0 0 0;
     el_parent := Some 1%nat; textShadow := ""; dataset_translated := None |}.

Definition hiddenText : text_node :=
  {| textContent := "Hidden words"; parentElement := Some 8%nat |}.

Definition page : document :=
  set_elems (<[8%nat := hiddenParagraph]> (elems Sample.page))
    (set_nodes (<[15%nat := hiddenText]> (nodes Sample.page)) Sample.page).

Definition extracted : state := set_doc page Sample.extracted.

(** A page with the same elements and no text, and that page once the
    hidden text has been added to it. *)
Definition noText : document :=
  {| nodes := ∅; elems := elems page; innerWidth := 1000; innerHeight := 800;
     body := []; html_lang := "en-US"; meta_lang := None |}.

Definition onlyHidden : document :=
  {| nodes := <[15%nat := hiddenText]> ∅; elems := elems page;
     innerWidth := 1000; innerHeight := 800; body := [15%nat];
     html_lang := "en-US"; meta_lang := None |}.

End SampleHidden.

(** A capability whose first two calls throw and whose later calls answer
    with the given translations. *)
Definition flaky (translations : list translation) : nat -> request -> outcome :=
  fun n _ =>
    if (n <? 2)%nat then Throws
    else Returns {| r_error := None; r_translations := Some translations |}.

(** * Tactics *)

(** [keysBelow] on a closed state. *)
Ltac keysBelow_closed :=
  unfold keysBelow; vm_compute; repeat (constructor; [repeat constructor |]);
  constructor.


Ltac split_ifs :=
  repeat match goal with
         | |- context [if ?b then _ else _] => destruct b
         | |- context [match ?x with _ => _ end] => destruct x
         end.

(** A turn that answers a message and touches the globals only: it sends
    nothing, and the run is kept by the frame lemma [frame]. *)
Ltac keep_run frame :=
  split; [intros ? ? [Hin | []]; discriminate Hin
         | left; eapply frame; [eassumption | ]].

(** * Properties *)

(** ** JS strings *)

Lemma trimEnd_empty s : trimEnd s = EmptyString <-> allWhiteSpace s = true.
Proof.
  induction s as [|c r IH]; simpl; [tauto |].
  destruct (trimEnd r) as [|c' r'] eqn:Hr.
  - destruct (isWhiteSpace c); simpl.
    + tauto.
    + split; discriminate.
  - split; [discriminate |]. intros H. apply andb_true_iff in H as [_ H].
    apply IH in H. discriminate.
Qed.

Lemma trailingSpace_all s : allWhiteSpace s = true -> trailingSpace s = s.
Proof. destruct s as [|c r]; [reflexivity |]. cbn [trailingSpace]. now intros ->. Qed.

(** A string is its right-trimmed part followed by its trailing white
    space. *)
Lemma trimEnd_trailingSpace s : s = (trimEnd s ++ trailingSpace s)%string.
Proof.
  induction s as [|c r IH]; [reflexivity |].
  cbn [trimEnd trailingSpace].
  destruct (trimEnd r) as [|c' r'] eqn:Hr.
  - assert (Hall : allWhiteSpace r = true) by now apply trimEnd_empty.
    cbn [allWhiteSpace]. rewrite Hall, andb_true_r.
    destruct (isWhiteSpace c); [reflexivity |].
    now rewrite (trailingSpace_all r Hall).
  - assert (Hall : allWhiteSpace r = false).
    { destruct (allWhiteSpace r) eqn:H; [| reflexivity].
      apply trimEnd_empty in H. congruence. }
    cbn [allWhiteSpace]. rewrite Hall, andb_false_r.
    change (String c (String c' r') ++ trailingSpace r)%string
      with (String c (String c' r' ++ trailingSpace r)%string).
    now rewrite <- IH.
Qed.

(** A text that is not all white space is its leading white space, its
    trimmed text and its trailing white space: what [replaceTextNode]
    writes differs from the original text in the trimmed part only. *)
Lemma leading_trim_trailing s :
  allWhiteSpace s = false ->
  s = (leadingSpace s ++ trim s ++ trailingSpace s)%string.
Proof.
  induction s as [|c r IH]; [discriminate |].
  cbn [allWhiteSpace leadingSpace trailingSpace]. unfold trim. cbn [trimStart].
  destruct (isWhiteSpace c) eqn:Hc; cbn [andb].
  - intros Hr. rewrite Hr.
    change (String c r
            = String c (leadingSpace r ++ trim r ++ trailingSpace r)%string).
    f_equal. now apply IH.
  - intros _. rewrite (trimEnd_trailingSpace (String c r)) at 1.
    cbn [trailingSpace allWhiteSpace]. rewrite Hc. reflexivity.
Qed.

Lemma leadingSpace_all s : allWhiteSpace (leadingSpace s) = true.
Proof.
  induction s as [|c r IH]; [reflexivity |]. cbn [leadingSpace].
  destruct (isWhiteSpace c) eqn:Hc; [| reflexivity]. simpl. now rewrite Hc.
Qed.

Lemma trailingSpace_allWhiteSpace s : allWhiteSpace (trailingSpace s) = true.
Proof.
  induction s as [|c r IH]; [reflexivity |]. cbn [trailingSpace].
  destruct (allWhiteSpace (String c r)) eqn:H; [exact H | exact IH].
Qed.

Lemma trimStart_all s : allWhiteSpace s = true -> trimStart s = EmptyString.
Proof.
  induction s as [|c r IH]; [reflexivity |]. cbn [allWhiteSpace trimStart].
  intros H. apply andb_true_iff in H as [-> H]. now apply IH.
Qed.

Lemma trimStart_app_space l s :
  allWhiteSpace l = true -> trimStart (l ++ s) = trimStart s.
Proof.
  induction l as [|c r IH]; [reflexivity |]. cbn [allWhiteSpace].
  intros H. apply andb_true_iff in H as [Hc H].
  change (String c r ++ s)%string with (String c (r ++ s)%string).
  cbn [trimStart]. rewrite Hc. now apply IH.
Qed.

Lemma trimEnd_app_space s r :
  allWhiteSpace r = true -> trimEnd (s ++ r) = trimEnd s.
Proof.
  intros Hr. induction s as [|c s IH].
  - now apply trimEnd_empty.
  - change (String c s ++ r)%string with (String c (s ++ r)%string).
    cbn [trimEnd]. now rewrite IH.
Qed.

(** White space around a text does not change what [trim] makes of it. *)
Lemma trim_surrounded l s r :
  allWhiteSpace l = true -> allWhiteSpace r = true ->
  trim (l ++ s ++ r) = trim s.
Proof.
  intros Hl Hr. unfold trim. rewrite (trimStart_app_space l _ Hl).
  induction s as [|c s IH].
  - change (EmptyString ++ r)%string with r. now rewrite (trimStart_all r Hr).
  - change (String c s ++ r)%string with (String c (s ++ r)%string).
    cbn [trimStart]. destruct (isWhiteSpace c); [exact IH |].
    change (String c (s ++ r)%string) with (String c s ++ r)%string.
    now apply trimEnd_app_space.
Qed.

(** ** The definitions on small inputs *)

Example trim_example : trim "  Hello world  " = "Hello world".
Proof. reflexivity. Qed.

Example leadingSpace_example : leadingSpace " Hi  " = " ".
Proof. reflexivity. Qed.

Example trailingSpace_example : trailingSpace " Hi  " = "  ".
Proof. reflexivity. Qed.

Example includes_example :
  includes (toLowerCase "Main-Content") "content" = true
  /\ includes "navbar" "menu" = false.
Proof. split; reflexivity. Qed.

Example isTranslatableText_example :
  isTranslatableText "  ok " = true /\ isTranslatableText " a " = false
  /\ isTranslatableText "2024 - 25" = false /\ isTranslatableText "" = false.
Proof. repeat split; reflexivity. Qed.

Example getPageLanguage_example : getPageLanguage Sample.page = "en".
Proof. reflexivity. Qed.

(** The full extraction of the sample page: five entries in document
    order, and the work list in descending order of priority, the two
    equal priorities in document order. *)
Example extraction_example :
  map qi_id Sample.items = [3; 1; 2; 0; 4]%nat
  /\ map qi_priority Sample.items = [10930; 10760; 10760; 10750; 0]
  /\ map (fun p => (fst p, node (snd p))) (textNodeMap Sample.extracted)
     = [(0, 12); (1, 14); (2, 13); (3, 10); (4, 11)]%nat.
Proof. vm_compute. repeat split; reflexivity. Qed.

(** A run on the sample page with a capability that translates
    everything: one batch is sent, and the run ends with the cache and
    showing flags up and auto-translate on. *)
Example completed_run_example :
  sends (snd (run [EvStart "es" None None; EvReply Sample.allTranslated] Sample.loaded))
  = [0%nat]
  /\ status Sample.translatedPage = Some (MsgSummary 5 5 100 0, false)
  /\ hasTranslationCache Sample.translatedPage = true
  /\ isShowingTranslations Sample.translatedPage = true
  /\ autoTranslateEnabled Sample.translatedPage = true
  /\ translationInProgress Sample.translatedPage = false
  /\ shownText (doc Sample.translatedPage) 12 = Some " Titulo ".
Proof. vm_compute. repeat split; reflexivity. Qed.

(** A run whose every call fails: three attempts of the drain batch with
    waits of 500 and 1000 ms, then two retry rounds, each after its wait
    of 500 and 1000 ms, with batches of four and one attempt per batch. *)
Example failing_run_example :
  let answers := [EvReply Throws; EvTimer; EvReply Throws; EvTimer; EvReply Throws;
                  EvTimer; EvReply Throws; EvReply Throws;
                  EvTimer; EvReply Throws; EvReply Throws] in
  let out := run (EvStart "es" None None :: answers) Sample.loaded in
  sends (snd out) = [0; 1; 2; 0; 0; 0; 0]%nat
  /\ waits (snd out) = [500; 1000; 500; 1000]
  /\ status (globals (fst out)) = Some (MsgSummary 0 5 0 5, false)
  /\ pending (fst out) = None
  /\ hasTranslationCache (globals (fst out)) = false.
Proof. vm_compute. repeat split; reflexivity. Qed.


(** ** Priority scorer *)

Lemma semanticScore_bounds flags : -300 <= semanticScore flags <= 500.
Proof. destruct flags as [[] []]; simpl; lia. Qed.

Lemma viewportScore_in d r : inViewport d r = true -> 10000 <= viewportScore d r.
Proof. unfold viewportScore. intros ->. destruct (inTopHalf d r); lia. Qed.

Lemma viewportScore_out d r : inViewport d r = false -> viewportScore d r = 0.
Proof. unfold viewportScore. now intros ->. Qed.

Lemma lengthScore_long n : (200 <= n)%nat -> lengthScore (Z.of_nat n) = 150.
Proof.
  intros H. unfold lengthScore.
  destruct (Z.leb_spec 200 (Z.of_nat n)); [reflexivity | lia].
Qed.

Lemma lengthScore_short n : (n < 20)%nat -> lengthScore (Z.of_nat n) = -20.
Proof.
  intros H. unfold lengthScore.
  repeat (match goal with |- context [?a <=? ?b] => destruct (Z.leb_spec a b) end;
          try lia).
Qed.

Lemma calculatePriority_nonneg d n : 0 <= calculatePriority d n.
Proof.
  unfold calculatePriority. destruct (getElement d (parentElement n)); lia.
Qed.

(** An in-viewport text of at least 200 characters in a paragraph scores
    at least 9830, whatever surrounds it. *)
Lemma calculatePriority_visible_paragraph d n p :
  getElement d (parentElement n) = Some p ->
  tagName p = "P" ->
  inViewport d (rect p) = true ->
  (200 <= String.length (trim (textContent n)))%nat ->
  9830 <= calculatePriority d n.
Proof.
  intros Hp Htag Hin Hlen. unfold calculatePriority. rewrite Hp, Htag.
  rewrite (lengthScore_long _ Hlen).
  pose proof (viewportScore_in _ _ Hin).
  pose proof (semanticScore_bounds (semanticWalk d 15 (parentElement n) false false)).
  change (tagScore "P") with 80.
  destruct (farFromCenter d (rect p)); lia.
Qed.

(** An off-viewport text of fewer than 20 characters in a label scores at
    most 450. *)
Lemma calculatePriority_hidden_label d n p :
  getElement d (parentElement n) = Some p ->
  tagName p = "LABEL" ->
  inViewport d (rect p) = false ->
  (String.length (trim (textContent n)) < 20)%nat ->
  calculatePriority d n <= 450.
Proof.
  intros Hp Htag Hout Hlen. unfold calculatePriority. rewrite Hp, Htag.
  rewrite (lengthScore_short _ Hlen), (viewportScore_out _ _ Hout).
  pose proof (semanticScore_bounds (semanticWalk d 15 (parentElement n) false false)).
  change (tagScore "LABEL") with (-30).
  destruct (farFromCenter d (rect p)); lia.
Qed.

(** C9. The priority of every text node is non-negative; and a text of at
    least 200 trimmed characters whose parent is a [P] element that
    intersects the viewport, inside a [MAIN] element, scores strictly
    higher than a text of fewer than 20 trimmed characters whose parent is
    a [LABEL] element outside the viewport, inside a [NAV] element. *)
Theorem priority_nonneg_and_main_paragraph_beats_nav_label :
  (forall d n, 0 <= calculatePriority d n) /\
  (forall d n1 n2 p1 p2,
      getElement d (parentElement n1) = Some p1 ->
      tagName p1 = "P" ->
      inViewport d (rect p1) = true ->
      (200 <= String.length (trim (textContent n1)))%nat ->
      insideTag d n1 "MAIN" ->
      getElement d (parentElement n2) = Some p2 ->
      tagName p2 = "LABEL" ->
      inViewport d (rect p2) = false ->
      (String.length (trim (textContent n2)) < 20)%nat ->
      insideTag d n2 "NAV" ->
      calculatePriority d n2 < calculatePriority d n1).
Proof.
  split.
  - apply calculatePriority_nonneg.
  - intros d n1 n2 p1 p2 Hp1 Ht1 Hin Hlong _ Hp2 Ht2 Hout Hshort _.
    pose proof (calculatePriority_visible_paragraph d n1 p1 Hp1 Ht1 Hin Hlong).
    pose proof (calculatePriority_hidden_label d n2 p2 Hp2 Ht2 Hout Hshort).
    lia.
Qed.

Lemma priority_nonneg_and_main_paragraph_beats_nav_label_witness :
  calculatePriority Sample.page Sample.shortLabel
  < calculatePriority Sample.page Sample.longParagraph.
Proof.
  apply (proj2 priority_nonneg_and_main_paragraph_beats_nav_label Sample.page
           Sample.longParagraph Sample.shortLabel
           (Sample.mkElement "P" (Some 1%nat) (Sample.mkRect 300 100 800 200))
           (Sample.mkElement "LABEL" (Some 3%nat) (Sample.mkRect 5000 0 100 20))).
  - reflexivity.
  - reflexivity.
  - vm_compute. reflexivity.
  - vm_compute. lia.
  - exists (Sample.mkElement "MAIN" (Some 0%nat) (Sample.mkRect 0 100 800 4000)).
    split; [| reflexivity].
    eapply ancestor_up; [reflexivity |]. apply ancestor_self. reflexivity.
  - reflexivity.
  - reflexivity.
  - vm_compute. reflexivity.
  - vm_compute. lia.
  - exists (Sample.mkElement "NAV" (Some 0%nat) (Sample.mkRect 5000 0 1000 100)).
    split; [| reflexivity].
    eapply ancestor_up; [reflexivity |]. apply ancestor_self. reflexivity.
Defined.

(** ** Registry *)

Lemma get_update_eq k f m :
  Registry.get (Registry.update k f m) k = option_map f (Registry.get m k).
Proof.
  induction m as [|[k' e] m IH]; simpl; [reflexivity |].
  destruct (Nat.eqb_spec k' k) as [->|Hne]; simpl.
  - now rewrite Nat.eqb_refl.
  - destruct (Nat.eqb_spec k' k); [contradiction | exact IH].
Qed.

Lemma get_update_ne k k' f m :
  k <> k' -> Registry.get (Registry.update k f m) k' = Registry.get m k'.
Proof.
  intros Hne. induction m as [|[j e] m IH]; simpl; [reflexivity |].
  destruct (Nat.eqb_spec j k) as [->|Hjk]; simpl.
  - destruct (Nat.eqb_spec k k'); [contradiction | reflexivity].
  - destruct (Nat.eqb_spec j k'); [reflexivity | exact IH].
Qed.

Lemma keys_update k f m : Registry.keys (Registry.update k f m) = Registry.keys m.
Proof.
  induction m as [|[j e] m IH]; simpl; [reflexivity |].
  destruct (Nat.eqb j k); simpl; [reflexivity | now f_equal].
Qed.

Lemma nodes_markParent glow n d : nodes (markParent glow n d) = nodes d.
Proof.
  unfold markParent.
  destruct (nodes d !! n) as [nd|]; [| reflexivity].
  destruct (parentElement nd); [| reflexivity].
  destruct (getElement d (Some n0)); reflexivity.
Qed.

Lemma writeText_Some n s d nd :
  nodes d !! n = Some nd ->
  writeText n s d =
    Some (set_nodes (<[n := {| textContent := s; parentElement := parentElement nd |}]>
                       (nodes d)) d).
Proof. unfold writeText. now intros ->. Qed.

Lemma writeText_None n s d : nodes d !! n = None -> writeText n s d = None.
Proof. unfold writeText. now intros ->. Qed.

(** C7. For an entry that is present under [id]: when its node can be
    written, [replaceTextNode] returns [true], the node shows the leading
    white space of [originalText], then the translated text, then the
    trailing white space of [originalText], the node is in the processed
    set, and the entry holds [translatedText] with its [translated] flag
    set; when the write throws, it returns [false] and leaves the whole
    state, the processed set included, as it was. *)
Theorem replaceTextNode_writes_or_fails_cleanly st id e t :
  Registry.get (textNodeMap st) id = Some e ->
  (is_Some (nodes (doc st) !! node e) ->
     snd (replaceTextNode id t st) = true /\
     shownText (doc (fst (replaceTextNode id t st))) (node e)
       = Some (leadingSpace (originalText e) ++ t ++ trailingSpace (originalText e))%string /\
     node e ∈ translatedNodeSet (fst (replaceTextNode id t st)) /\
     Registry.get (textNodeMap (fst (replaceTextNode id t st))) id
       = Some {| node := node e; originalText := originalText e;
                 translated := true; translatedText := Some t |}) /\
  (nodes (doc st) !! node e = None ->
     replaceTextNode id t st = (st, false)).
Proof.
  intros Hget. split.
  - intros [nd Hnd]. unfold replaceTextNode. rewrite Hget.
    rewrite (writeText_Some _ _ _ _ Hnd). simpl.
    repeat split.
    + unfold shownText. rewrite nodes_markParent. simpl.
      now rewrite lookup_insert_eq.
    + set_solver.
    + rewrite get_update_eq, Hget. reflexivity.
  - intros Hnd. unfold replaceTextNode. rewrite Hget.
    now rewrite (writeText_None _ _ _ Hnd).
Qed.

Lemma replaceTextNode_writes_or_fails_cleanly_witness :
  (snd (replaceTextNode 0 "Titel" Sample.extracted) = true /\
   shownText (doc (fst (replaceTextNode 0 "Titel" Sample.extracted))) 12
     = Some " Titel ") /\
  replaceTextNode 0 "Titel" Sample.headingGone = (Sample.headingGone, false).
Proof.
  split.
  - destruct (proj1 (replaceTextNode_writes_or_fails_cleanly
                       Sample.extracted 0 Sample.headingEntry "Titel" eq_refl))
      as (Hok & Hshown & _).
    + exists {| textContent := " Title "; parentElement := Some 5%nat |}.
      reflexivity.
    + split; [exact Hok | exact Hshown].
  - apply (proj2 (replaceTextNode_writes_or_fails_cleanly
                    Sample.headingGone 0 Sample.headingEntry "Titel" eq_refl)).
    reflexivity.
Defined.

(** ** Batch translation *)

(** C10. With an empty list of items, [translateBatch] returns
    [{ applied: 0, failed: [] }] at once, for every capability, target
    language, source language and number of retries: its trace is empty,
    so it sends nothing and waits for nothing, and it leaves the state as
    it is. *)
Theorem translateBatch_empty :
  forall Translator targetLanguage sourceLanguage retries st,
    let out :=
      translateBatch Translator [] targetLanguage sourceLanguage retries st in
    snd (fst out) = {| applied := 0; failed := [] |} /\
    snd out = [] /\
    sends (snd out) = [] /\
    waits (snd out) = [] /\
    fst (fst out) = st.
Proof.
  intros Translator targetLanguage sourceLanguage retries st out.
  subst out. unfold translateBatch. cbn [fst snd sends waits flat_map].
  repeat split.
Qed.

Lemma attemptLoop_all_fail Translator retries req st :
  (forall n r, transportFailure (Translator n r) = true) ->
  forall remaining attempt,
    (attempt + remaining = retries)%nat ->
    attemptLoop Translator retries remaining attempt req st
    = (st, {| applied := 0; failed := texts req |},
       failingSchedule req attempt remaining).
Proof.
  intros Hfail. induction remaining as [|rem IH]; intros attempt Hsum.
  - reflexivity.
  - cbn [attemptLoop].
    assert (Hc : handleOutcome (Translator attempt req) (texts req) st = AttemptCaught).
    { specialize (Hfail attempt req). unfold handleOutcome.
      destruct (Translator attempt req) as [|r]; [reflexivity |].
      simpl in Hfail. now rewrite Hfail. }
    rewrite Hc, (IH (S attempt)) by lia.
    destruct rem as [|rem'].
    + destruct (Nat.ltb_spec attempt (retries - 1)); [lia | reflexivity].
    + destruct (Nat.ltb_spec attempt (retries - 1)); [| lia].
      unfold backoff. reflexivity.
Qed.

Lemma sends_failingSchedule req n : forall k,
  sends (failingSchedule req k n) = seq k n.
Proof.
  induction n as [|n IH]; intros k; [reflexivity |].
  destruct n as [|n']; [reflexivity |].
  change (sends (failingSchedule req k (S (S n'))))
    with (k :: sends (failingSchedule req (S k) (S n'))).
  now rewrite IH.
Qed.

Lemma waits_failingSchedule req n : forall k,
  waits (failingSchedule req k n)
  = map (fun j => 500 * (Z.of_nat j + 1)) (seq k (n - 1)).
Proof.
  induction n as [|n IH]; intros k; [reflexivity |].
  destruct n as [|n']; [reflexivity |].
  change (waits (failingSchedule req k (S (S n'))))
    with (500 * (Z.of_nat k + 1) :: waits (failingSchedule req (S k) (S n'))).
  rewrite IH. cbn [Nat.sub]. rewrite Nat.sub_0_r. reflexivity.
Qed.

(** C3. For a batch that is not empty and a capability all of whose calls
    throw or return a top-level error, [translateBatch] makes exactly
    [retries] attempts, numbered from 0, waits 500 ms times the number of
    the failed attempt (counted from one) between two consecutive
    attempts, and returns [applied = 0] with all requested items as
    [failed]; the state is left as it is. *)
Theorem translateBatch_retries_then_fails_all
    Translator textItems targetLanguage sourceLanguage retries st :
  textItems <> [] ->
  (forall n req, transportFailure (Translator n req) = true) ->
  let req := {| texts := textItems; targetLanguage := targetLanguage;
                sourceLanguage := pageLanguageFor sourceLanguage (doc st) |} in
  let out :=
    translateBatch Translator textItems targetLanguage sourceLanguage retries st in
  out = (st, {| applied := 0; failed := textItems |}, failingSchedule req 0 retries)
  /\ sends (snd out) = seq 0 retries
  /\ waits (snd out)
     = map (fun k => 500 * (Z.of_nat k + 1)) (seq 0 (retries - 1)).
Proof.
  intros Hne Hfail req out.
  assert (Hout : out = (st, {| applied := 0; failed := textItems |},
                        failingSchedule req 0 retries)).
  { subst out. unfold translateBatch. destruct textItems as [|x l]; [contradiction |].
    now rewrite (attemptLoop_all_fail _ _ _ _ Hfail retries 0%nat). }
  rewrite Hout. cbn [snd].
  split; [reflexivity |]. split.
  - apply sends_failingSchedule.
  - apply waits_failingSchedule.
Qed.

Lemma translateBatch_retries_then_fails_all_witness :
  translateBatch (fun _ _ => Throws) Sample.items "es" "auto" 3 Sample.extracted
  = (Sample.extracted, {| applied := 0; failed := Sample.items |},
     [ASend 0 {| texts := Sample.items; targetLanguage := "es"; sourceLanguage := "en" |};
      AWait 500;
      ASend 1 {| texts := Sample.items; targetLanguage := "es"; sourceLanguage := "en" |};
      AWait 1000;
      ASend 2 {| texts := Sample.items; targetLanguage := "es"; sourceLanguage := "en" |}]).
Proof.
  refine (proj1 (translateBatch_retries_then_fails_all
                   (fun _ _ => Throws) Sample.items "es" "auto" 3 Sample.extracted _ _)).
  - vm_compute. discriminate.
  - reflexivity.
Defined.

Lemma replaceTextNode_snd id t st :
  snd (replaceTextNode id t st) = writable st id.
Proof.
  unfold replaceTextNode, writable, writeText.
  destruct (Registry.get (textNodeMap st) id) as [e|]; [| reflexivity].
  destruct (nodes (doc st) !! node e) as [nd|] eqn:Hnd; reflexivity.
Qed.

Lemma replaceTextNode_get id t st id' :
  Registry.get (textNodeMap (fst (replaceTextNode id t st))) id'
  = if writable st id && Nat.eqb id id'
    then option_map (markTranslated t) (Registry.get (textNodeMap st) id')
    else Registry.get (textNodeMap st) id'.
Proof.
  pose proof (replaceTextNode_snd id t st) as Hsnd. revert Hsnd.
  unfold replaceTextNode.
  destruct (Registry.get (textNodeMap st) id) as [e|] eqn:Hget.
  - destruct (writeText (node e) _ (doc st)) as [d|]; simpl; intros <-; simpl;
      [| reflexivity].
    destruct (Nat.eqb_spec id id') as [->|Hne].
    + apply get_update_eq.
    + now apply get_update_ne.
  - simpl. intros <-. reflexivity.
Qed.

Lemma replaceTextNode_nodes_dom id t st n :
  is_Some (nodes (doc (fst (replaceTextNode id t st))) !! n)
  <-> is_Some (nodes (doc st) !! n).
Proof.
  unfold replaceTextNode.
  destruct (Registry.get (textNodeMap st) id) as [e|]; [| reflexivity].
  unfold writeText.
  destruct (nodes (doc st) !! node e) as [nd|] eqn:Hnd; [| reflexivity].
  simpl. rewrite nodes_markParent. simpl.
  destruct (decide (node e = n)) as [<-|Hne].
  - rewrite lookup_insert_eq, Hnd. split; eauto.
  - now rewrite lookup_insert_ne.
Qed.

Lemma writable_replaceTextNode id t st id' :
  writable (fst (replaceTextNode id t st)) id' = writable st id'.
Proof.
  unfold writable at 1. rewrite replaceTextNode_get.
  destruct (writable st id && Nat.eqb id id') eqn:Hc.
  - unfold writable.
    destruct (Registry.get (textNodeMap st) id') as [e|]; simpl; [| reflexivity].
    apply bool_decide_ext, replaceTextNode_nodes_dom.
  - unfold writable.
    destruct (Registry.get (textNodeMap st) id') as [e|]; [| reflexivity].
    apply bool_decide_ext, replaceTextNode_nodes_dom.
Qed.

Lemma applyEntries_snoc ts t st :
  applyEntries (ts ++ [t]) st
  = match usableText t with
    | Some text => fst (replaceTextNode (t_id t) text (applyEntries ts st))
    | None => applyEntries ts st
    end.
Proof. unfold applyEntries. now rewrite fold_left_app. Qed.

Lemma writable_applyEntries ts st id :
  writable (applyEntries ts st) id = writable st id.
Proof.
  induction ts as [|t ts IH] using rev_ind; [reflexivity |].
  rewrite applyEntries_snoc. destruct (usableText t); [| exact IH].
  now rewrite writable_replaceTextNode.
Qed.

Lemma lastApplied_snoc st id ts t :
  lastApplied st id (ts ++ [t])
  = if Nat.eqb (t_id t) id && applicable st t then usableText t
    else lastApplied st id ts.
Proof. unfold lastApplied. now rewrite fold_left_app. Qed.

(** The registry after the response entries are applied: an id keeps its
    entry unless some applied response entry names it; then its entry
    holds the text of the last such response entry. *)
Lemma applyEntries_get ts st id :
  Registry.get (textNodeMap (applyEntries ts st)) id
  = match lastApplied st id ts with
    | Some text => option_map (markTranslated text) (Registry.get (textNodeMap st) id)
    | None => Registry.get (textNodeMap st) id
    end.
Proof.
  induction ts as [|t ts IH] using rev_ind; [reflexivity |].
  rewrite applyEntries_snoc, lastApplied_snoc. unfold applicable.
  destruct (usableText t) as [text|] eqn:Hu.
  - rewrite replaceTextNode_get, writable_applyEntries, IH.
    rewrite (andb_comm (writable st (t_id t))).
    destruct (Nat.eqb (t_id t) id && writable st (t_id t)); [| reflexivity].
    destruct (lastApplied st id ts); [| reflexivity].
    now destruct (Registry.get (textNodeMap st) id).
  - now rewrite andb_false_r.
Qed.


Lemma processTranslations_cons t ts textItems st a f r :
  processTranslations (t :: ts) textItems st a f r
  = match usableText t with
    | Some text =>
        let st' := fst (replaceTextNode (t_id t) text st) in
        if writable st (t_id t)
        then processTranslations ts textItems st' (S a) f ({[t_id t]} ∪ r)
        else processTranslations ts textItems st' a
               (pushFound f (findItem textItems (t_id t))) ({[t_id t]} ∪ r)
    | None =>
        if truthyOpt (t_error t)
        then processTranslations ts textItems st a
               (pushFound f (findItem textItems (t_id t))) ({[t_id t]} ∪ r)
        else processTranslations ts textItems st a f ({[t_id t]} ∪ r)
    end.
Proof.
  cbn [processTranslations]. unfold usableText.
  destruct (truthyOpt (t_error t)); [reflexivity |].
  destruct (t_text t) as [text|]; [| reflexivity].
  destruct (truthy text); [| reflexivity].
  rewrite <- (replaceTextNode_snd (t_id t) text st).
  now destruct (replaceTextNode (t_id t) text st) as [st' []].
Qed.

Lemma processTranslations_closed ts textItems : forall st0 st a f r,
  (forall id, writable st id = writable st0 id) ->
  processTranslations ts textItems st a f r
  = (applyEntries ts st,
     (a + length (List.filter (applicable st0) ts))%nat,
     f ++ failedWhileProcessing st0 textItems ts,
     list_to_set (map t_id ts) ∪ r).
Proof.
  induction ts as [|t ts IH]; intros st0 st a f r Hw.
  - simpl. rewrite Nat.add_0_r, app_nil_r. f_equal. set_solver.
  - rewrite processTranslations_cons. unfold failedWhileProcessing.
    cbn [flat_map List.filter map list_to_set applyEntries fold_left].
    fold (failedWhileProcessing st0 textItems ts).
    unfold applicable at 1.
    assert (Hassoc : forall x : gset nat,
               x ∪ ({[t_id t]} ∪ r) = {[t_id t]} ∪ x ∪ r) by set_solver.
    destruct (usableText t) as [text|] eqn:Hu.
    + assert (Hw' : forall id,
                 writable (fst (replaceTextNode (t_id t) text st)) id
                 = writable st0 id).
      { intros id. rewrite writable_replaceTextNode. apply Hw. }
      cbv zeta. rewrite Hw.
      destruct (writable st0 (t_id t)).
      * rewrite (IH st0) by assumption. cbn [length].
        rewrite Hassoc, Nat.add_succ_r. reflexivity.
      * rewrite (IH st0) by assumption. rewrite Hassoc.
        unfold pushFound.
        destruct (findItem textItems (t_id t)); rewrite <- ?app_assoc; reflexivity.
    + destruct (truthyOpt (t_error t)).
      * rewrite (IH st0) by assumption. rewrite Hassoc.
        unfold pushFound.
        destruct (findItem textItems (t_id t)); rewrite <- ?app_assoc; reflexivity.
      * rewrite (IH st0) by assumption. now rewrite Hassoc.
Qed.

Lemma findItem_Some textItems id :
  In id (map qi_id textItems) ->
  exists item, findItem textItems id = Some item /\ In item textItems /\ qi_id item = id.
Proof.
  intros Hin. unfold findItem.
  destruct (find (fun item => Nat.eqb (qi_id item) id) textItems) as [item|] eqn:Hf.
  - apply find_some in Hf as [Hi He]. apply Nat.eqb_eq in He. eauto.
  - apply in_map_iff in Hin as (x & Hx & Hin).
    pose proof (find_none _ _ Hf x Hin) as Hn. simpl in Hn.
    rewrite Hx, Nat.eqb_refl in Hn. discriminate.
Qed.

Lemma failedWhileProcessing_error st textItems ts item :
  In item textItems ->
  returnedWithError ts (qi_id item) ->
  In (qi_id item) (map qi_id (failedWhileProcessing st textItems ts)).
Proof.
  intros Hin (t & Ht & Hid & Herr).
  destruct (findItem_Some textItems (t_id t)) as (item' & Hf & _ & Hid').
  { rewrite Hid. now apply in_map. }
  apply in_map_iff. exists item'. split; [congruence |].
  unfold failedWhileProcessing. apply in_flat_map. exists t. split; [exact Ht |].
  unfold usableText. rewrite Herr, Hf. now left.
Qed.

Lemma notReturned_absent textItems ts item :
  In item textItems ->
  absentFrom ts (qi_id item) ->
  In item
    (List.filter
       (fun item => negb (bool_decide (qi_id item ∈ (list_to_set (map t_id ts) ∪ ∅ : gset nat))))
       textItems).
Proof.
  intros Hin Habs. apply filter_In. split; [exact Hin |].
  apply negb_true_iff, bool_decide_eq_false.
  rewrite elem_of_union, elem_of_list_to_set, list_elem_of_In, in_map_iff.
  intros [(t & Hid & Ht) | Hemp]; [| set_solver].
  exact (Habs t Ht Hid).
Qed.

Lemma translateBatch_returns Translator textItems targetLanguage sourceLanguage
    retries st r :
  textItems <> [] ->
  (0 < retries)%nat ->
  Translator 0%nat
    {| texts := textItems; targetLanguage := targetLanguage;
       sourceLanguage := pageLanguageFor sourceLanguage (doc st) |} = Returns r ->
  truthyOpt (r_error r) = false ->
  translateBatch Translator textItems targetLanguage sourceLanguage retries st
  = (applyEntries (translationsOf r) st,
     {| applied := length (List.filter (applicable st) (translationsOf r));
        failed :=
          failedWhileProcessing st textItems (translationsOf r)
          ++ List.filter
               (fun item =>
                  negb (bool_decide
                          (qi_id item ∈ (list_to_set (map t_id (translationsOf r)) ∪ ∅
                                         : gset nat))))
               textItems |},
     [ASend 0 {| texts := textItems; targetLanguage := targetLanguage;
                 sourceLanguage := pageLanguageFor sourceLanguage (doc st) |}]).
Proof.
  intros Hne Hpos HT Herr. unfold translateBatch.
  destruct textItems as [|x l]; [contradiction |].
  destruct retries as [|n]; [lia |].
  cbn [attemptLoop]. rewrite HT. unfold handleOutcome. rewrite Herr.
  unfold processResponse. fold (translationsOf r).
  rewrite (processTranslations_closed _ _ st st) by reflexivity.
  reflexivity.
Qed.

(** C1, as the code has it.  When the first call of the capability returns
    a response without top-level error, [translateBatch] applies every
    response entry that has a non-empty text and no per-item error and
    whose node write succeeds, whether its id was requested or not: the
    state is the one reached by these writes in response order, [applied]
    counts these response entries, and an id of the registry keeps its
    entry unless such a response entry names it.  Every requested id that
    is returned with an error has an item in [failed], and every requested
    item whose id is absent from the response is in [failed].  In
    particular, for the request [{1, Hello}, {2, World}] and the response
    [{1, Hola}], with id 1 writable, it returns [applied = 1] and
    [failed = [{2, World}]]. *)
Theorem translateBatch_applies_response_entries :
  (forall Translator textItems targetLanguage sourceLanguage retries st r,
      textItems <> [] ->
      (0 < retries)%nat ->
      Translator 0%nat
        {| texts := textItems; targetLanguage := targetLanguage;
           sourceLanguage := pageLanguageFor sourceLanguage (doc st) |} = Returns r ->
      truthyOpt (r_error r) = false ->
      let out :=
        translateBatch Translator textItems targetLanguage sourceLanguage retries st in
      let st' := fst (fst out) in
      let res := snd (fst out) in
      st' = applyEntries (translationsOf r) st /\
      applied res = length (List.filter (applicable st) (translationsOf r)) /\
      (forall id,
          Registry.get (textNodeMap st') id
          = match lastApplied st id (translationsOf r) with
            | Some text =>
                option_map (markTranslated text) (Registry.get (textNodeMap st) id)
            | None => Registry.get (textNodeMap st) id
            end) /\
      (forall item, In item textItems ->
          returnedWithError (translationsOf r) (qi_id item) ->
          In (qi_id item) (map qi_id (failed res))) /\
      (forall item, In item textItems ->
          absentFrom (translationsOf r) (qi_id item) ->
          In item (failed res))) /\
  (forall Translator targetLanguage sourceLanguage retries st p1 p2,
      (0 < retries)%nat ->
      writable st 1 = true ->
      let hello := {| qi_id := 1; qi_text := "Hello"; qi_priority := p1 |} in
      let world := {| qi_id := 2; qi_text := "World"; qi_priority := p2 |} in
      Translator 0%nat
        {| texts := [hello; world]; targetLanguage := targetLanguage;
           sourceLanguage := pageLanguageFor sourceLanguage (doc st) |}
      = Returns {| r_error := None;
                   r_translations :=
                     Some [{| t_id := 1; t_text := Some "Hola"; t_error := None |}] |} ->
      snd (fst (translateBatch Translator [hello; world] targetLanguage
                  sourceLanguage retries st))
      = {| applied := 1; failed := [world] |}).
Proof.
  split.
  - intros Translator textItems targetLanguage sourceLanguage retries st r
      Hne Hpos HT Herr out st' res.
    subst out st' res.
    rewrite (translateBatch_returns _ _ _ _ _ _ _ Hne Hpos HT Herr).
    cbn [fst snd applied failed].
    split; [reflexivity |]. split; [reflexivity |].
    split; [intros id; apply applyEntries_get |]. split.
    + intros item Hin Herror. rewrite map_app. apply in_or_app. left.
      now apply failedWhileProcessing_error.
    + intros item Hin Habs. apply in_or_app. right.
      now apply notReturned_absent.
  - intros Translator targetLanguage sourceLanguage retries st p1 p2
      Hpos Hw hello world HT.
    assert (Hne : [hello; world] <> []) by discriminate.
    rewrite (translateBatch_returns _ _ _ _ _ _ _ Hne Hpos HT eq_refl).
    cbn [fst snd translationsOf r_translations].
    unfold failedWhileProcessing, applicable, usableText.
    cbn [List.filter flat_map t_error t_text t_id truthyOpt truthy].
    rewrite Hw. reflexivity.
Qed.

Lemma translateBatch_applies_response_entries_witness :
  snd (fst (translateBatch (Sample.stub [Sample.hola]) [Sample.hello; Sample.world]
              "es" "auto" 3 Sample.extracted))
  = {| applied := 1; failed := [Sample.world] |}
  /\ shownText
       (doc (fst (fst (translateBatch (Sample.stub [Sample.hola])
                         [Sample.hello; Sample.world] "es" "auto" 3 Sample.extracted))))
       14 = Some "Hola".
Proof.
  split.
  - apply (proj2 translateBatch_applies_response_entries
             (Sample.stub [Sample.hola]) "es" "auto" 3%nat Sample.extracted 10760 10760).
    + lia.
    + reflexivity.
    + reflexivity.
  - destruct (proj1 translateBatch_applies_response_entries
                (Sample.stub [Sample.hola]) [Sample.hello; Sample.world]
                "es" "auto" 3%nat Sample.extracted
                {| r_error := None; r_translations := Some [Sample.hola] |})
      as (Hst & _).
    + discriminate.
    + lia.
    + reflexivity.
    + reflexivity.
    + cbv zeta in Hst. rewrite Hst. reflexivity.
Defined.

(** C1 as stated fails: the response entry for id 0, which was not
    requested, is applied too.  Before the call no entry of the registry
    is translated; after it the entry of id 0 is, its node shows the
    translation, and [applied] is 2 for one requested id in the response. *)
Lemma translateBatch_applies_unrequested_id :
  let out :=
    translateBatch (Sample.stub [Sample.hola; Sample.titel])
      [Sample.hello; Sample.world] "es" "auto" 3 Sample.extracted in
  (forall id e, Registry.get (textNodeMap Sample.extracted) id = Some e ->
                translated e = false) /\
  ~ (forall id e,
        Registry.get (textNodeMap (fst (fst out))) id = Some e ->
        translated e = true ->
        requested [Sample.hello; Sample.world] id) /\
  shownText (doc (fst (fst out))) 12 = Some " Titel " /\
  applied (snd (fst out)) = 2%nat.
Proof.
  cbv zeta. split; [| split; [| split]].
  - intros id e.
    destruct id as [|[|[|[|[|id]]]]]; vm_compute; intros H; inversion H; reflexivity.
  - intros H.
    specialize (H 0%nat
                  {| node := 12; originalText := " Title ";
                     translated := true; translatedText := Some "Titel" |}
                  eq_refl eq_refl).
    vm_compute in H. intuition discriminate.
  - reflexivity.
  - reflexivity.
Qed.

(** ** Text extractor *)

Lemma insertByPriority_perm x l : Permutation (x :: l) (insertByPriority x l).
Proof.
  induction l as [|y l IH]; simpl; [reflexivity |].
  destruct (qi_priority y <=? qi_priority x); [reflexivity |].
  rewrite perm_swap. now apply perm_skip.
Qed.

Lemma sortByPriority_perm l : Permutation l (sortByPriority l).
Proof.
  induction l as [|x l IH]; simpl; [reflexivity |].
  rewrite <- insertByPriority_perm. now apply perm_skip.
Qed.

Lemma insertByPriority_descending x l :
  descending l -> descending (insertByPriority x l).
Proof.
  unfold descending. induction l as [|y l IH]; intros Hs; simpl.
  - constructor; constructor.
  - apply StronglySorted_inv in Hs as [Hl Hy].
    destruct (Z.leb_spec (qi_priority y) (qi_priority x)) as [Hle|Hgt].
    + constructor; [constructor; assumption |].
      constructor; [exact Hle |].
      eapply List.Forall_impl; [| exact Hy]. simpl. intros a Ha. lia.
    + constructor; [now apply IH |].
      apply (Permutation_Forall (insertByPriority_perm x l)).
      constructor; [lia | exact Hy].
Qed.

Lemma sortByPriority_descending l : descending (sortByPriority l).
Proof.
  induction l as [|x l IH]; simpl; [constructor |].
  now apply insertByPriority_descending.
Qed.

Lemma get_app_fresh m es k :
  ~ In k (Registry.keys m) ->
  Registry.get (m ++ es) k = Registry.get es k.
Proof.
  induction m as [|[j e] m IH]; simpl; intros Hk; [reflexivity |].
  destruct (Nat.eqb_spec j k) as [->|Hne]; [tauto |].
  apply IH. tauto.
Qed.

Lemma get_In_NoDup es k e :
  List.NoDup (Registry.keys es) -> In (k, e) es -> Registry.get es k = Some e.
Proof.
  induction es as [|[j e'] es IH]; simpl; intros Hnd Hin; [contradiction |].
  apply List.NoDup_cons_iff in Hnd as [Hj Hnd].
  destruct Hin as [Heq|Hin].
  - inversion Heq; subst. now rewrite Nat.eqb_refl.
  - destruct (Nat.eqb_spec j k) as [->|Hne]; [| now apply IH].
    exfalso. apply Hj. unfold Registry.keys. apply in_map_iff.
    now exists (k, e).
Qed.

Lemma has_fresh m k : ~ In k (Registry.keys m) -> Registry.has m k = false.
Proof.
  unfold Registry.has.
  induction m as [|[j e] m IH]; simpl; intros Hk; [reflexivity |].
  destruct (Nat.eqb_spec j k) as [->|Hne]; [tauto |].
  apply IH. tauto.
Qed.

Lemma keysBelow_fresh st k :
  keysBelow st -> (nextId st <= k)%nat -> ~ In k (Registry.keys (textNodeMap st)).
Proof.
  unfold keysBelow. rewrite List.Forall_forall. intros Hb Hk Hin.
  specialize (Hb k Hin). lia.
Qed.

Lemma extends_refl b st : extends b st st [].
Proof.
  exists []. rewrite app_nil_r, Nat.add_0_r. simpl.
  repeat split; auto.
Qed.

Lemma extends_perm b st st' items items' :
  Permutation items items' -> extends b st st' items -> extends b st st' items'.
Proof.
  intros Hp (es & Hm & Hk & Hn & Hperm & Hall & Hd & Hs).
  exists es. repeat split; auto.
  - now rewrite <- Hp.
  - now apply (Permutation_Forall Hp).
Qed.

Lemma extends_trans b st st1 st2 items1 items2 :
  extends b st st1 items1 -> extends b st1 st2 items2 ->
  extends b st st2 (items1 ++ items2).
Proof.
  intros (es1 & Hm1 & Hk1 & Hn1 & Hp1 & Ha1 & Hd1 & Hs1)
         (es2 & Hm2 & Hk2 & Hn2 & Hp2 & Ha2 & Hd2 & Hs2).
  exists (es1 ++ es2). repeat split.
  - now rewrite Hm2, Hm1, app_assoc.
  - unfold Registry.keys in *. rewrite map_app, length_app, seq_app.
    now rewrite Hk1, Hk2, Hn1.
  - rewrite length_app. lia.
  - unfold Registry.keys in *. rewrite !map_app. now apply Permutation_app.
  - apply List.Forall_app. split.
    + eapply List.Forall_impl; [| exact Ha1]. simpl.
      intros item (e & Hin & Ht & Hnp). exists e. repeat split; auto.
      apply in_or_app. now left.
    + eapply List.Forall_impl; [| exact Ha2]. simpl.
      intros item (e & Hin & Ht & Hnp). exists e. repeat split; auto.
      * apply in_or_app. now right.
      * now rewrite <- Hs1.
  - congruence.
  - congruence.
Qed.

Lemma recordNode_extends b n nd st :
  keysBelow st ->
  (b = true -> n ∉ translatedNodeSet st) ->
  extends b st (fst (recordNode n nd st)) [snd (recordNode n nd st)]
  /\ keysBelow (fst (recordNode n nd st)).
Proof.
  intros Hb Hnp. unfold recordNode. cbn [fst snd].
  assert (Hset :
    Registry.set (nextId st)
      {| node := n; originalText := textContent nd;
         translated := false; translatedText := None |} (textNodeMap st)
    = textNodeMap st
      ++ [(nextId st, {| node := n; originalText := textContent nd;
                         translated := false; translatedText := None |})]).
  { unfold Registry.set. rewrite has_fresh; [reflexivity |].
    now apply keysBelow_fresh. }
  split.
  - exists [(nextId st, {| node := n; originalText := textContent nd;
                           translated := false; translatedText := None |})].
    simpl. rewrite Hset. repeat split.
    all: try reflexivity.
    + lia.
    + constructor; [| constructor]. eexists. simpl.
      split; [left; reflexivity |]. split; [reflexivity | exact Hnp].
  - unfold keysBelow in *. simpl. rewrite Hset.
    unfold Registry.keys in *. rewrite map_app. apply List.Forall_app. split.
    + eapply List.Forall_impl; [| exact Hb]. simpl. lia.
    + constructor; [simpl; lia | constructor].
Qed.

Lemma acceptNode_not_processed st b n nd :
  acceptNode st b n nd = true -> b = true -> n ∉ translatedNodeSet st.
Proof.
  unfold acceptNode, isNodeProcessed. intros Hacc ->. simpl in Hacc.
  destruct (bool_decide (n ∈ translatedNodeSet st)) eqn:Hp; [discriminate |].
  now apply bool_decide_eq_false in Hp.
Qed.

Lemma walkTextNodes_extends b candidates : forall st acc,
  keysBelow st ->
  exists new,
    snd (walkTextNodes b candidates st acc) = acc ++ new /\
    extends b st (fst (walkTextNodes b candidates st acc)) new /\
    keysBelow (fst (walkTextNodes b candidates st acc)).
Proof.
  induction candidates as [|n rest IH]; intros st acc Hb; cbn [walkTextNodes].
  - exists []. rewrite app_nil_r. auto using extends_refl.
  - destruct (nodes (doc st) !! n) as [nd|]; [| now apply IH].
    destruct (acceptNode st b n nd) eqn:Hacc; [| now apply IH].
    destruct (recordNode_extends b n nd st Hb (acceptNode_not_processed _ _ _ _ Hacc))
      as [Hext Hb'].
    destruct (recordNode n nd st) as [st1 item]. cbn [fst snd] in *.
    destruct (IH st1 (acc ++ [item]) Hb') as (new & Hout & Hext' & Hb'').
    exists (item :: new). split; [| split].
    + rewrite Hout, <- app_assoc. reflexivity.
    + exact (extends_trans _ _ _ _ _ _ Hext Hext').
    + exact Hb''.
Qed.

Lemma keysBelow_clearRegistry st : keysBelow (clearRegistry st).
Proof. constructor. Qed.

Lemma extractTextNodes_incremental_extends root st :
  keysBelow st ->
  extends true st (fst (extractTextNodes root true st))
    (snd (extractTextNodes root true st))
  /\ keysBelow (fst (extractTextNodes root true st)).
Proof.
  intros Hb. unfold extractTextNodes.
  destruct (walkTextNodes_extends true root st [] Hb) as (new & Hout & Hext & Hb').
  destruct (walkTextNodes true root st []) as [st' items]. cbn [fst snd] in *.
  subst items. split; [| exact Hb'].
  eapply extends_perm; [apply sortByPriority_perm | exact Hext].
Qed.

Lemma extractTextNodes_full_extends root st :
  extends false (clearRegistry st) (fst (extractTextNodes root false st))
    (snd (extractTextNodes root false st))
  /\ keysBelow (fst (extractTextNodes root false st)).
Proof.
  unfold extractTextNodes.
  destruct (walkTextNodes_extends false root (clearRegistry st) []
              (keysBelow_clearRegistry st)) as (new & Hout & Hext & Hb').
  destruct (walkTextNodes false root (clearRegistry st) []) as [st' items].
  cbn [fst snd] in *. subst items. split; [| exact Hb'].
  eapply extends_perm; [apply sortByPriority_perm | exact Hext].
Qed.

Lemma extractAdded_extends addedNodes : forall st acc,
  keysBelow st ->
  exists new,
    snd (extractAdded addedNodes st acc) = acc ++ new /\
    extends true st (fst (extractAdded addedNodes st acc)) new /\
    keysBelow (fst (extractAdded addedNodes st acc)).
Proof.
  induction addedNodes as [|a rest IH]; intros st acc Hb; cbn [extractAdded].
  - exists []. rewrite app_nil_r. auto using extends_refl.
  - destruct a as [n|texts|].
    + destruct (nodes (doc st) !! n) as [nd|]; [| now apply IH].
      destruct (negb (isNodeProcessed st n) && isTranslatableText (textContent nd))
        eqn:Hc; [| now apply IH].
      destruct (negb (shouldSkipElement (getElement (doc st) (parentElement nd))));
        [| now apply IH].
      assert (Hnp : true = true -> n ∉ translatedNodeSet st).
      { intros _. apply andb_true_iff in Hc as [Hc _].
        apply negb_true_iff in Hc. unfold isNodeProcessed in Hc.
        now apply bool_decide_eq_false in Hc. }
      destruct (recordNode_extends true n nd st Hb Hnp) as [Hext Hb'].
      destruct (recordNode n nd st) as [st1 item]. cbn [fst snd] in *.
      destruct (IH st1 (acc ++ [item]) Hb') as (new & Hout & Hext' & Hb'').
      exists (item :: new). split; [| split].
      * rewrite Hout, <- app_assoc. reflexivity.
      * exact (extends_trans _ _ _ _ _ _ Hext Hext').
      * exact Hb''.
    + destruct (extractTextNodes_incremental_extends texts st Hb) as [Hext Hb'].
      destruct (extractTextNodes texts true st) as [st1 items]. cbn [fst snd] in *.
      destruct (IH st1 (acc ++ items) Hb') as (new & Hout & Hext' & Hb'').
      exists (items ++ new). split; [| split].
      * rewrite Hout, <- app_assoc. reflexivity.
      * exact (extends_trans _ _ _ _ _ _ Hext Hext').
      * exact Hb''.
    + now apply IH.
Qed.

Lemma extractNewTextNodes_extends addedNodes st :
  keysBelow st ->
  extends true st (fst (extractNewTextNodes addedNodes st))
    (snd (extractNewTextNodes addedNodes st))
  /\ keysBelow (fst (extractNewTextNodes addedNodes st)).
Proof.
  intros Hb. unfold extractNewTextNodes.
  destruct (extractAdded_extends addedNodes st [] Hb) as (new & Hout & Hext & Hb').
  destruct (extractAdded addedNodes st []) as [st' items]. cbn [fst snd] in *.
  subst items. split; [| exact Hb'].
  eapply extends_perm; [apply sortByPriority_perm | exact Hext].
Qed.

Lemma extends_emittedOk b st0 st st' items :
  keysBelow st ->
  (b = true -> textNodeMap st0 = textNodeMap st) ->
  extends b st st' items ->
  descending items ->
  emittedOk b st0 st' items.
Proof.
  intros Hb Hm0 (es & Hm & Hk & Hn & Hp & Hall & _ & _) Hdesc.
  assert (Hnd : List.NoDup (Registry.keys es)) by (rewrite Hk; apply List.seq_NoDup).
  assert (Hfresh : forall k, In k (Registry.keys es) ->
                             ~ In k (Registry.keys (textNodeMap st))).
  { intros k Hin. apply keysBelow_fresh; [exact Hb |].
    rewrite Hk in Hin. apply in_seq in Hin. lia. }
  split; [| split; [| exact Hdesc]].
  - apply (Permutation_NoDup (Permutation_sym Hp) Hnd).
  - intros item Hin.
    assert (Hkey : In (qi_id item) (Registry.keys es)).
    { apply (Permutation_in _ Hp). now apply in_map. }
    split.
    + intros Hb1. rewrite (Hm0 Hb1). now apply Hfresh.
    + rewrite List.Forall_forall in Hall.
      destruct (Hall item Hin) as (e & Hine & Ht & _).
      exists e. split; [| exact Ht].
      rewrite Hm, get_app_fresh by now apply Hfresh.
      now apply get_In_NoDup.
Qed.

(** C5. Every extraction run, full or incremental, by the tree walk or
    over the nodes reported by the observer, emits items whose ids are
    pairwise distinct and distinct from the ids already in the registry of
    the epoch, each resolving in the registry to an entry whose original
    text, trimmed, is the text of the item; the items are in descending
    order of priority.  (An incremental run starts from a registry whose
    ids are below the id counter, as they are in every state the script
    reaches.) *)
Theorem extraction_emits_unique_resolving_sorted_items :
  (forall root onlyNew st,
      (onlyNew = true -> keysBelow st) ->
      emittedOk onlyNew st (fst (extractTextNodes root onlyNew st))
        (snd (extractTextNodes root onlyNew st))) /\
  (forall addedNodes st,
      keysBelow st ->
      emittedOk true st (fst (extractNewTextNodes addedNodes st))
        (snd (extractNewTextNodes addedNodes st))).
Proof.
  split.
  - intros root [|] st Hb.
    + destruct (extractTextNodes_incremental_extends root st (Hb eq_refl)) as [Hext _].
      apply (extends_emittedOk true st st); auto.
      unfold extractTextNodes.
      destruct (walkTextNodes true root st []). apply sortByPriority_descending.
    + destruct (extractTextNodes_full_extends root st) as [Hext _].
      apply (extends_emittedOk false st (clearRegistry st)); auto.
      * apply keysBelow_clearRegistry.
      * discriminate.
      * unfold extractTextNodes.
        destruct (walkTextNodes false root (clearRegistry st) []).
        apply sortByPriority_descending.
  - intros addedNodes st Hb.
    destruct (extractNewTextNodes_extends addedNodes st Hb) as [Hext _].
    apply (extends_emittedOk true st st); auto.
    unfold extractNewTextNodes.
    destruct (extractAdded addedNodes st []). apply sortByPriority_descending.
Qed.


Lemma extraction_emits_unique_resolving_sorted_items_witness :
  emittedOk true Sample.extracted
    (fst (extractTextNodes [12; 14]%nat true Sample.extracted))
    (snd (extractTextNodes [12; 14]%nat true Sample.extracted))
  /\ emittedOk true Sample.extracted
       (fst (extractNewTextNodes [AddedElement [14; 13]%nat; AddedText 11]
               Sample.extracted))
       (snd (extractNewTextNodes [AddedElement [14; 13]%nat; AddedText 11]
               Sample.extracted)).
Proof.
  split.
  - apply (proj1 extraction_emits_unique_resolving_sorted_items
             [12; 14]%nat true Sample.extracted).
    intros _. keysBelow_closed.
  - apply (proj2 extraction_emits_unique_resolving_sorted_items
             [AddedElement [14; 13]%nat; AddedText 11] Sample.extracted).
    keysBelow_closed.
Defined.

Lemma keys_set_incl k e m j :
  In j (Registry.keys m) -> In j (Registry.keys (Registry.set k e m)).
Proof.
  unfold Registry.set. destruct (Registry.has m k).
  - now rewrite keys_update.
  - unfold Registry.keys. rewrite map_app. intros H. apply in_or_app. now left.
Qed.

Lemma keeps_refl st : keeps st st.
Proof. unfold keeps. auto. Qed.

Lemma keeps_trans st st1 st2 : keeps st st1 -> keeps st1 st2 -> keeps st st2.
Proof.
  intros (Hs1 & Hn1 & Hk1) (Hs2 & Hn2 & Hk2). unfold keeps.
  split; [congruence |]. split; [lia | auto].
Qed.

Lemma recordNode_keeps n nd st : keeps st (fst (recordNode n nd st)).
Proof.
  unfold keeps, recordNode. cbn. split; [reflexivity |]. split; [lia |].
  intros k. apply keys_set_incl.
Qed.

Lemma walkTextNodes_keeps candidates : forall st acc,
  keeps st (fst (walkTextNodes true candidates st acc)).
Proof.
  induction candidates as [|n rest IH]; intros st acc; cbn [walkTextNodes].
  - apply keeps_refl.
  - destruct (nodes (doc st) !! n) as [nd|]; [| apply IH].
    destruct (acceptNode st true n nd); [| apply IH].
    pose proof (recordNode_keeps n nd st) as Hk.
    destruct (recordNode n nd st) as [st1 item].
    exact (keeps_trans _ _ _ Hk (IH st1 _)).
Qed.

Lemma extractTextNodes_keeps root st :
  keeps st (fst (extractTextNodes root true st)).
Proof.
  unfold extractTextNodes.
  pose proof (walkTextNodes_keeps root st []) as Hk.
  now destruct (walkTextNodes true root st []).
Qed.

Lemma extractAdded_keeps addedNodes : forall st acc,
  keeps st (fst (extractAdded addedNodes st acc)).
Proof.
  induction addedNodes as [|a rest IH]; intros st acc; cbn [extractAdded].
  - apply keeps_refl.
  - destruct a as [n|texts|]; [| | apply IH].
    + destruct (nodes (doc st) !! n) as [nd|]; [| apply IH].
      destruct (negb (isNodeProcessed st n) && isTranslatableText (textContent nd));
        [| apply IH].
      destruct (negb (shouldSkipElement (getElement (doc st) (parentElement nd))));
        [| apply IH].
      pose proof (recordNode_keeps n nd st) as Hk.
      destruct (recordNode n nd st) as [st1 item].
      exact (keeps_trans _ _ _ Hk (IH st1 _)).
    + pose proof (extractTextNodes_keeps texts st) as Hk.
      destruct (extractTextNodes texts true st) as [st1 items].
      exact (keeps_trans _ _ _ Hk (IH st1 _)).
Qed.

Lemma extractNewTextNodes_keeps addedNodes st :
  keeps st (fst (extractNewTextNodes addedNodes st)).
Proof.
  unfold extractNewTextNodes.
  pose proof (extractAdded_keeps addedNodes st []) as Hk.
  now destruct (extractAdded addedNodes st []).
Qed.

Lemma extends_appendsOnly st st' items :
  extends true st st' items -> appendsOnly st st' items.
Proof.
  intros (es & Hm & Hk & Hn & Hp & Hall & _ & _). exists es.
  split; [exact Hm |]. split.
  - apply Permutation_length in Hp. unfold Registry.keys in Hp.
    rewrite !length_map in Hp. congruence.
  - intros item Hin. rewrite List.Forall_forall in Hall.
    destruct (Hall item Hin) as (e & Hine & _ & Hnp). eauto.
Qed.

(** C6. A full extraction walks the subtree from the cleared state: the
    registry empty, the processed set empty, the id counter at zero; what
    it leaves is a registry holding exactly the ids [0 .. n-1] of the [n]
    emitted items, the counter at [n], and an empty processed set.  An
    incremental extraction leaves the processed set as it is, never lowers
    the id counter and keeps every id of the registry; from a registry
    whose ids are below the counter it only appends entries, one per
    emitted item, all for nodes that are not in the processed set. *)
Theorem full_extraction_clears_incremental_only_appends :
  (forall root st,
      extractTextNodes root false st
      = (let '(s, textItems) := walkTextNodes false root (clearRegistry st) [] in
         (s, sortByPriority textItems)) /\
      textNodeMap (clearRegistry st) = [] /\
      translatedNodeSet (clearRegistry st) = ∅ /\
      nextId (clearRegistry st) = 0%nat /\
      Registry.keys (textNodeMap (fst (extractTextNodes root false st)))
      = seq 0 (length (snd (extractTextNodes root false st))) /\
      nextId (fst (extractTextNodes root false st))
      = length (snd (extractTextNodes root false st)) /\
      translatedNodeSet (fst (extractTextNodes root false st)) = ∅) /\
  (forall root st,
      keeps st (fst (extractTextNodes root true st)) /\
      (keysBelow st ->
       appendsOnly st (fst (extractTextNodes root true st))
         (snd (extractTextNodes root true st)))) /\
  (forall addedNodes st,
      keeps st (fst (extractNewTextNodes addedNodes st)) /\
      (keysBelow st ->
       appendsOnly st (fst (extractNewTextNodes addedNodes st))
         (snd (extractNewTextNodes addedNodes st)))).
Proof.
  split; [| split].
  - intros root st. split; [reflexivity |].
    do 3 (split; [reflexivity |]).
    destruct (extractTextNodes_full_extends root st)
      as [(es & Hm & Hk & Hn & Hp & _ & _ & Hs) _].
    assert (Hlen : length (snd (extractTextNodes root false st)) = length es).
    { apply Permutation_length in Hp. unfold Registry.keys in Hp.
      now rewrite !length_map in Hp. }
    rewrite Hlen, Hm, Hn, Hs. simpl. auto.
  - intros root st. split; [apply extractTextNodes_keeps |].
    intros Hb. apply extends_appendsOnly.
    now apply extractTextNodes_incremental_extends.
  - intros addedNodes st. split; [apply extractNewTextNodes_keeps |].
    intros Hb. apply extends_appendsOnly.
    now apply extractNewTextNodes_extends.
Qed.

Lemma full_extraction_clears_incremental_only_appends_witness :
  appendsOnly Sample.extracted
    (fst (extractTextNodes [12; 14]%nat true Sample.extracted))
    (snd (extractTextNodes [12; 14]%nat true Sample.extracted))
  /\ appendsOnly Sample.extracted
       (fst (extractNewTextNodes [AddedElement [14; 13]%nat; AddedText 11]
               Sample.extracted))
       (snd (extractNewTextNodes [AddedElement [14; 13]%nat; AddedText 11]
               Sample.extracted)).
Proof.
  split.
  - apply (proj2 (proj1 (proj2 full_extraction_clears_incremental_only_appends)
                    [12; 14]%nat Sample.extracted)).
    keysBelow_closed.
  - apply (proj2 (proj2 (proj2 full_extraction_clears_incremental_only_appends)
                    [AddedElement [14; 13]%nat; AddedText 11] Sample.extracted)).
    keysBelow_closed.
Defined.

(** ** Toggle: restore original, restore cached *)

Lemma shownText_writeText n s d d' n' :
  writeText n s d = Some d' ->
  shownText d' n' = if Nat.eqb n n' then Some s else shownText d n'.
Proof.
  unfold writeText, shownText.
  destruct (nodes d !! n) as [nd|] eqn:Hnd; [| discriminate].
  intros [= <-]. simpl.
  destruct (Nat.eqb_spec n n') as [->|Hne].
  - now rewrite lookup_insert_eq.
  - now rewrite lookup_insert_ne.
Qed.

Lemma writeText_live n s d d' n' :
  writeText n s d = Some d' ->
  is_Some (nodes d' !! n') <-> is_Some (nodes d !! n').
Proof.
  unfold writeText.
  destruct (nodes d !! n) as [nd|] eqn:Hnd; [| discriminate].
  intros [= <-]. simpl.
  destruct (decide (n = n')) as [<-|Hne].
  - rewrite lookup_insert_eq, Hnd. split; eauto.
  - now rewrite lookup_insert_ne.
Qed.

Lemma writeText_is_Some n s d :
  is_Some (nodes d !! n) -> is_Some (writeText n s d).
Proof. unfold writeText. intros [nd ->]. eauto. Qed.

Lemma restoreOriginalLoop_shown n m : forall d s,
  is_Some (nodes d !! n) ->
  shownText (fst (restoreOriginalLoop m d s)) n
  = lastWrite originalWrite n m (shownText d n)
  /\ is_Some (nodes (fst (restoreOriginalLoop m d s)) !! n).
Proof.
  induction m as [|[k e] m IH]; intros d s Hlive; cbn [restoreOriginalLoop lastWrite].
  - auto.
  - change (originalWrite e)
      with (if translated e then Some (originalText e) else None).
    destruct (translated e).
    + destruct (writeText (node e) (originalText e) d) as [d'|] eqn:Hw.
      * destruct (IH d' (s ∖ {[node e]})) as [Hs Hl].
        { exact (proj2 (writeText_live _ _ _ _ n Hw) Hlive). }
        rewrite Hs, (shownText_writeText _ _ _ _ n Hw).
        split; [| exact Hl]. now destruct (Nat.eqb (node e) n).
      * destruct (Nat.eqb_spec (node e) n) as [Heq|Hne].
        -- rewrite <- Heq in Hlive.
           destruct (writeText_is_Some (node e) (originalText e) d Hlive) as [x Hx].
           congruence.
        -- now apply IH.
    + destruct (Nat.eqb (node e) n); now apply IH.
Qed.

Lemma restoreCachedLoop_shown n m : forall d s c,
  is_Some (nodes d !! n) ->
  shownText (snd (fst (fst (restoreCachedLoop m d s c)))) n
  = lastWrite cachedWrite n m (shownText d n).
Proof.
  induction m as [|[k e] m IH]; intros d s c Hlive;
    cbn [restoreCachedLoop lastWrite]; [reflexivity |].
  change (cachedWrite e) with (if restorable e then translatedText e else None).
  destruct (restorable e) eqn:Hr.
  - destruct (translatedText e) as [t|] eqn:Ht.
    + destruct (writeText (node e) t d) as [d'|] eqn:Hw.
      * specialize (IH d' ({[node e]} ∪ s) (S c)).
        destruct (restoreCachedLoop m d' ({[node e]} ∪ s) (S c)) as [[[m2 d2] s2] c2].
        cbn [fst snd] in *. rewrite IH.
        -- rewrite (shownText_writeText _ _ _ _ n Hw).
           now destruct (Nat.eqb (node e) n).
        -- exact (proj2 (writeText_live _ _ _ _ n Hw) Hlive).
      * specialize (IH d s c Hlive).
        destruct (restoreCachedLoop m d s c) as [[[m2 d2] s2] c2].
        cbn [fst snd] in *. rewrite IH.
        destruct (Nat.eqb_spec (node e) n) as [Heq|Hne]; [| reflexivity].
        rewrite <- Heq in Hlive.
        destruct (writeText_is_Some (node e) t d Hlive) as [x Hx]. congruence.
    + specialize (IH d s c Hlive).
      destruct (restoreCachedLoop m d s c) as [[[m2 d2] s2] c2].
      cbn [fst snd] in *. rewrite IH. now destruct (Nat.eqb (node e) n).
  - specialize (IH d s c Hlive).
    destruct (restoreCachedLoop m d s c) as [[[m2 d2] s2] c2].
    cbn [fst snd] in *. rewrite IH. now destruct (Nat.eqb (node e) n).
Qed.

Lemma lastWrite_cases write n m : forall before,
  (lastWrite write n m before = before /\
   forall k e, In (k, e) m -> node e = n -> write e = None)
  \/ exists k e s, In (k, e) m /\ node e = n /\ write e = Some s /\
                   lastWrite write n m before = Some s.
Proof.
  induction m as [|[k e] m IH]; intros before; cbn [lastWrite].
  - left. split; [reflexivity | intros k e []].
  - destruct (Nat.eqb_spec (node e) n) as [Heq|Hne].
    + destruct (write e) as [s|] eqn:Hw.
      * destruct (IH (Some s)) as [[Hl Hnone] | (k' & e' & s' & Hin & Hn & Hw' & Hl)].
        -- right. exists k, e, s. split; [now left | auto].
        -- right. exists k', e', s'. split; [now right | auto].
      * destruct (IH before) as [[Hl Hnone] | (k' & e' & s' & Hin & Hn & Hw' & Hl)].
        -- left. split; [exact Hl |].
           intros k' e' [[= <- <-] | Hin] Hn; [exact Hw | eauto].
        -- right. exists k', e', s'. split; [now right | auto].
    + destruct (IH before) as [[Hl Hnone] | (k' & e' & s' & Hin & Hn & Hw' & Hl)].
      * left. split; [exact Hl |].
        intros k' e' [[= <- <-] | Hin] Hn; [contradiction | eauto].
      * right. exists k', e', s'. split; [now right | auto].
Qed.

Lemma restoreOriginalText_textNodeMap st :
  textNodeMap (restoreOriginalText st) = textNodeMap st.
Proof.
  unfold restoreOriginalText.
  now destruct (restoreOriginalLoop (textNodeMap st) (doc st) (translatedNodeSet st)).
Qed.

Lemma restoreOriginalText_hasTranslationCache st :
  hasTranslationCache (restoreOriginalText st) = hasTranslationCache st.
Proof.
  unfold restoreOriginalText.
  now destruct (restoreOriginalLoop (textNodeMap st) (doc st) (translatedNodeSet st)).
Qed.

Lemma restoreOriginalText_doc st :
  doc (restoreOriginalText st)
  = fst (restoreOriginalLoop (textNodeMap st) (doc st) (translatedNodeSet st)).
Proof.
  unfold restoreOriginalText.
  now destruct (restoreOriginalLoop (textNodeMap st) (doc st) (translatedNodeSet st)).
Qed.

Lemma restoreCachedTranslations_doc st :
  hasTranslationCache st = true ->
  doc (fst (restoreCachedTranslations st))
  = snd (fst (fst (restoreCachedLoop (textNodeMap st) (doc st)
                     (translatedNodeSet st) 0%nat))).
Proof.
  unfold restoreCachedTranslations. intros ->. simpl.
  now destruct (restoreCachedLoop (textNodeMap st) (doc st) (translatedNodeSet st) 0%nat)
    as [[[m d] s] c].
Qed.

(** After the round trip a live node with a translated entry shows the
    stored translation of one of its translated entries. *)
Lemma roundTrip_shown st n :
  hasTranslationCache st = true ->
  registryConsistent st ->
  is_Some (nodes (doc st) !! n) ->
  translatedNode st n ->
  exists k e t,
    In (k, e) (textNodeMap st) /\ node e = n /\ translated e = true /\
    translatedText e = Some t /\
    shownText (doc (fst (restoreCachedTranslations (restoreOriginalText st)))) n
    = Some t.
Proof.
  intros Hcache Hcons Hlive (k0 & e0 & Hin0 & Hn0 & Ht0).
  unfold registryConsistent in Hcons. rewrite List.Forall_forall in Hcons.
  rewrite restoreCachedTranslations_doc
    by now rewrite restoreOriginalText_hasTranslationCache.
  rewrite restoreOriginalText_textNodeMap, restoreOriginalText_doc.
  destruct (restoreOriginalLoop_shown n (textNodeMap st) (doc st)
              (translatedNodeSet st) Hlive) as [Hshown Hlive'].
  rewrite restoreCachedLoop_shown by exact Hlive'.
  rewrite Hshown.
  destruct (lastWrite_cases cachedWrite n (textNodeMap st)
              (lastWrite originalWrite n (textNodeMap st) (shownText (doc st) n)))
    as [[Hl Hnone] | (k & e & s & Hin & Hn & Hw & Hl)].
  - rewrite Hl.
    destruct (lastWrite_cases originalWrite n (textNodeMap st) (shownText (doc st) n))
      as [[_ Hnone'] | (k & e & s & Hin & Hn & Hw & Hl')].
    + specialize (Hnone' k0 e0 Hin0 Hn0). unfold originalWrite in Hnone'.
      rewrite Ht0 in Hnone'. discriminate.
    + unfold originalWrite in Hw.
      destruct (translated e) eqn:Hte; [| discriminate]. injection Hw as <-.
      specialize (Hnone k e Hin Hn). specialize (Hcons (k, e) Hin).
      unfold entryConsistent in Hcons. simpl in Hcons.
      unfold cachedWrite, restorable in Hnone.
      destruct (translatedText e) as [t|] eqn:Htt; [| congruence].
      destruct Hcons as [_ Htr]. rewrite Htr in Hnone. simpl in Hnone.
      destruct (String.eqb_spec (originalText e) t) as [Heq|Hne];
        [| discriminate].
      exists k, e, t. rewrite Hl', Heq. auto.
  - unfold cachedWrite in Hw. destruct (restorable e); [| discriminate].
    specialize (Hcons (k, e) Hin). unfold entryConsistent in Hcons.
    simpl in Hcons. rewrite Hw in Hcons. destruct Hcons as [Hte _].
    exists k, e, s. rewrite Hl. auto.
Qed.

Lemma toggle_sends_nothing m :
  sends (snd (step EvToggle m)) = [] /\
  sends (snd (step EvRestoreOriginal m)) = [] /\
  pending (fst (step EvToggle m)) = pending m /\
  pending (fst (step EvRestoreOriginal m)) = pending m.
Proof.
  cbn [step].
  destruct (isShowingTranslations (globals m)), (hasTranslationCache (globals m));
    repeat split; reflexivity.
Qed.

(** White space apart, a node that shows the stored translation shows
    the text [replaceTextNode] wrote from it. *)
Lemma shows_appliedText d n e t :
  shownText d n = Some t -> showsUpToSpace d n (appliedText e t).
Proof.
  intros Hshown. exists t. split; [exact Hshown |].
  unfold appliedText. symmetry.
  apply trim_surrounded; [apply leadingSpace_all | apply trailingSpace_allWhiteSpace].
Qed.

(** C8, as the code has it.  [restoreOriginalText] keeps every entry of
    the registry as it is, its [translated] flag and [translatedText]
    included.  When the page has its translation cache flag set, running
    [restoreOriginalText] and then [restoreCachedTranslations] leaves every
    node that can still be written and has a translated entry showing
    again the text that [replaceTextNode] wrote from the stored
    [translatedText] of one of its translated entries, the white space
    around the text apart; for a node with a single entry, that entry's
    text.  Without the flag [restoreCachedTranslations] does nothing.  The
    toggle and restore messages send nothing to the Translator and leave
    the suspended activation alone. *)
Theorem restore_then_cached_round_trip st :
  hasTranslationCache st = true ->
  registryConsistent st ->
  textNodeMap (restoreOriginalText st) = textNodeMap st /\
  (forall n,
      is_Some (nodes (doc st) !! n) ->
      translatedNode st n ->
      exists k e t,
        In (k, e) (textNodeMap st) /\ node e = n /\ translated e = true /\
        translatedText e = Some t /\
        showsUpToSpace
          (doc (fst (restoreCachedTranslations (restoreOriginalText st)))) n
          (appliedText e t)) /\
  (forall k e t,
      In (k, e) (textNodeMap st) ->
      translated e = true ->
      translatedText e = Some t ->
      is_Some (nodes (doc st) !! node e) ->
      (forall k' e', In (k', e') (textNodeMap st) -> node e' = node e -> e' = e) ->
      showsUpToSpace
        (doc (fst (restoreCachedTranslations (restoreOriginalText st)))) (node e)
        (appliedText e t)) /\
  (forall st0,
      hasTranslationCache st0 = false ->
      restoreCachedTranslations st0 = (st0, false)) /\
  (forall m : mstate,
      sends (snd (step EvToggle m)) = [] /\
      sends (snd (step EvRestoreOriginal m)) = [] /\
      pending (fst (step EvToggle m)) = pending m /\
      pending (fst (step EvRestoreOriginal m)) = pending m).
Proof.
  intros Hcache Hcons.
  split; [apply restoreOriginalText_textNodeMap |].
  split.
  { intros n Hlive Htr.
    destruct (roundTrip_shown st n Hcache Hcons Hlive Htr)
      as (k & e & t & Hin & Hn & Hte & Htt & Hshown).
    exists k, e, t. split_and!; auto. now apply shows_appliedText. }
  split; [| split; [| apply toggle_sends_nothing]].
  2: { intros st0 H0. unfold restoreCachedTranslations. now rewrite H0. }
  intros k e t Hin Htr Htt Hlive Huniq.
  destruct (roundTrip_shown st (node e) Hcache Hcons Hlive)
    as (k' & e' & t' & Hin' & Hn' & _ & Htt' & Hshown).
  { exists k, e. auto. }
  rewrite (Huniq k' e' Hin' Hn') in Htt'.
  apply shows_appliedText. congruence.
Qed.

Lemma restore_then_cached_round_trip_witness :
  showsUpToSpace
    (doc (fst (restoreCachedTranslations (restoreOriginalText Sample.translatedPage))))
    12 " Titulo ".
Proof.
  refine (proj1 (proj2 (proj2 (restore_then_cached_round_trip Sample.translatedPage _ _)))
            0%nat
            {| node := 12; originalText := " Title "; translated := true;
               translatedText := Some "Titulo" |} "Titulo" _ _ _ _ _).
  - reflexivity.
  - unfold registryConsistent. vm_compute.
    repeat (constructor; [split; reflexivity |]). constructor.
  - vm_compute. tauto.
  - reflexivity.
  - reflexivity.
  - exists {| textContent := " Titulo "; parentElement := Some 5%nat |}. reflexivity.
  - intros k' e' Hin Hn. vm_compute in Hin.
    repeat (destruct Hin as [Hin|Hin];
            [inversion Hin; subst; try reflexivity; discriminate |]).
    contradiction.
Defined.

(** C8 as stated fails.  A run that is cancelled while its batch is in
    flight applies the translations of that batch and ends without setting
    the cache flag: [restoreCachedTranslations] then returns at once, and
    after the round trip the node shows the original text. *)
Lemma restore_round_trip_needs_cache_flag :
  translatedNode Sample.cancelledPage 14 /\
  is_Some (nodes (doc Sample.cancelledPage) !! 14%nat) /\
  shownText (doc Sample.cancelledPage) 14 = Some "Hola" /\
  hasTranslationCache Sample.cancelledPage = false /\
  shownText
    (doc (fst (restoreCachedTranslations (restoreOriginalText Sample.cancelledPage))))
    14 = Some "Hello".
Proof.
  split; [| split; [| repeat split; reflexivity]].
  - exists 1%nat, {| node := 14; originalText := "Hello"; translated := true;
                     translatedText := Some "Hola" |}.
    split; [| split; reflexivity]. vm_compute. tauto.
  - exists {| textContent := "Hola"; parentElement := Some 6%nat |}. reflexivity.
Qed.

(** The white space around a restored translation is another matter:
    [restoreCachedTranslations] writes the stored text as it is, where
    [replaceTextNode] had put it between the white space of the original
    text.  On the sample page the heading shows [" Titulo "] after the run
    and ["Titulo"] after the round trip. *)
Lemma round_trip_of_spaced_heading :
  shownText (doc Sample.translatedPage) 12 = Some " Titulo " /\
  shownText
    (doc (fst (restoreCachedTranslations (restoreOriginalText Sample.translatedPage))))
    12 = Some "Titulo".
Proof. split; vm_compute; reflexivity. Qed.

(** ** The run: single flight and cancellation *)

Lemma sameRunFlags_refl st : sameRunFlags st st.
Proof. split; reflexivity. Qed.

Lemma sameRunFlags_trans st st1 st2 :
  sameRunFlags st st1 -> sameRunFlags st1 st2 -> sameRunFlags st st2.
Proof. intros [H1 H2] [H3 H4]. split; congruence. Qed.

Lemma replaceTextNode_flags id t st : sameRunFlags st (fst (replaceTextNode id t st)).
Proof.
  unfold replaceTextNode.
  destruct (Registry.get (textNodeMap st) id) as [e|]; [| apply sameRunFlags_refl].
  destruct (writeText (node e) _ (doc st)); [split; reflexivity | apply sameRunFlags_refl].
Qed.

Lemma applyEntries_flags ts st : sameRunFlags st (applyEntries ts st).
Proof.
  induction ts as [|t ts IH] using rev_ind; [apply sameRunFlags_refl |].
  rewrite applyEntries_snoc. destruct (usableText t); [| exact IH].
  eapply sameRunFlags_trans; [exact IH | apply replaceTextNode_flags].
Qed.

Lemma handleOutcome_flags o textItems st st' res :
  handleOutcome o textItems st = AttemptReturns st' res -> sameRunFlags st st'.
Proof.
  unfold handleOutcome. destruct o as [|r]; [discriminate |].
  destruct (truthyOpt (r_error r)); [discriminate |].
  unfold processResponse.
  rewrite (processTranslations_closed _ _ st st) by reflexivity.
  intros [= <- _]. apply applyEntries_flags.
Qed.

Lemma applyPartial_flags ts : forall st, sameRunFlags st (applyPartial ts st).
Proof.
  induction ts as [|t ts IH]; intros st; cbn [applyPartial];
    [apply sameRunFlags_refl |].
  destruct (if truthyOpt (t_error t) then None else t_text t) as [text|]; [| apply IH].
  destruct (truthy text); [| apply IH].
  eapply sameRunFlags_trans; [apply replaceTextNode_flags | apply IH].
Qed.

Lemma restoreOriginalText_flags st : sameRunFlags st (restoreOriginalText st).
Proof.
  unfold restoreOriginalText.
  destruct (restoreOriginalLoop (textNodeMap st) (doc st) (translatedNodeSet st)).
  split; reflexivity.
Qed.

Lemma restoreCachedTranslations_flags st :
  sameRunFlags st (fst (restoreCachedTranslations st)).
Proof.
  unfold restoreCachedTranslations.
  destruct (hasTranslationCache st); simpl; [| apply sameRunFlags_refl].
  destruct (restoreCachedLoop (textNodeMap st) (doc st) (translatedNodeSet st) 0%nat)
    as [[[m d] s] c].
  split; reflexivity.
Qed.

Lemma recalculatePendingPriorities_flags st :
  sameRunFlags st (recalculatePendingPriorities st).
Proof.
  unfold recalculatePendingPriorities.
  destruct (recalculateLoop st (pendingTranslationQueue st)) as [q []];
    split; reflexivity.
Qed.

(** C2, as the code has it.  A start request that arrives while the
    in-progress flag is set starts no run: the suspended activation is
    left as it is, nothing is sent to the Translator and nothing is
    queued; the only changes to the globals are the busy message on the
    status indicator and the glow setting, which is taken from the
    message when the message carries one.  The response is
    [{ started: true }] for every start request, whether a run was
    started or not. *)
Theorem start_while_busy_is_rejected :
  (forall m targetLanguage sourceLanguage glow,
      translationInProgress (globals m) = true ->
      step (EvStart targetLanguage sourceLanguage glow) m
      = ({| globals :=
              showStatus MsgBusy true
                (match glow with
                 | Some b => set_showGlow b (globals m)
                 | None => globals m
                 end);
            pending := pending m |},
         [ARespond (RStarted true)])) /\
  (forall m targetLanguage sourceLanguage glow,
      exists acts,
        snd (step (EvStart targetLanguage sourceLanguage glow) m)
        = acts ++ [ARespond (RStarted true)]).
Proof.
  split.
  - intros m targetLanguage sourceLanguage glow Hbusy.
    cbn [step]. unfold translatePage. cbn [globals pending].
    destruct glow as [b|]; cbn; rewrite Hbusy; reflexivity.
  - intros m targetLanguage sourceLanguage glow. cbn [step].
    destruct (translatePage _ _ _ _) as [m' acts]. now exists acts.
Qed.

Lemma start_while_busy_is_rejected_witness :
  step (EvStart "fr" None (Some true)) Sample.busy
  = ({| globals := showStatus MsgBusy true (set_showGlow true (globals Sample.busy));
        pending := pending Sample.busy |},
     [ARespond (RStarted true)]).
Proof.
  exact (proj1 start_while_busy_is_rejected Sample.busy "fr" None (Some true) eq_refl).
Defined.

(** C2 as stated fails in its last part: a start request that is rejected
    because a run is active is answered with [started: true], although the
    suspended run is the one that was already there and nothing was sent;
    and the glow setting of the page has changed. *)
Lemma start_rejected_but_answered_started :
  translationInProgress (globals Sample.busy) = true /\
  pending (fst (step (EvStart "fr" None (Some true)) Sample.busy))
  = pending Sample.busy /\
  sends (snd (step (EvStart "fr" None (Some true)) Sample.busy)) = [] /\
  snd (step (EvStart "fr" None (Some true)) Sample.busy) = [ARespond (RStarted true)] /\
  showGlow (globals Sample.busy) = false /\
  showGlow (globals (fst (step (EvStart "fr" None (Some true)) Sample.busy))) = true.
Proof. vm_compute. repeat split; reflexivity. Qed.

Lemma finishRun_ended st : runEnded (finishRun st).
Proof. repeat split. Qed.

Lemma completeRun_ended l st : runEnded (completeRun l st).
Proof. unfold completeRun. apply finishRun_ended. Qed.

Lemma retryLoopHead_cancelled l retryAttempts st :
  translationCancelled st = true ->
  retryLoopHead l retryAttempts st = (completeRun l st, []).
Proof.
  intros Hc. unfold retryLoopHead. rewrite Hc.
  now rewrite !andb_false_r.
Qed.

Lemma retryFor_cancelled l retryAttempts itemsToRetry i st :
  translationCancelled st = true ->
  retryFor l retryAttempts itemsToRetry i st = (completeRun l st, []).
Proof.
  intros Hc. unfold retryFor. rewrite Hc. now apply retryLoopHead_cancelled.
Qed.

Lemma drainResumed_cancelled l res st :
  translationCancelled st = true ->
  drainResumed l res st = (finishRun (showStatus MsgCancelled false st), []).
Proof.
  intros Hc. unfold drainResumed. rewrite Hc. unfold afterDrain. cbn.
  now rewrite Hc.
Qed.

(** A cancelled run that resumes with the result of its batch call ends at
    once and sends nothing. *)
Lemma resume_cancelled t res st :
  runActive {| globals := st; pending := Some t |} = true ->
  is_Some (callOf t) ->
  translationCancelled st = true ->
  runEnded (fst (resume t res st)) /\ snd (resume t res st) = [].
Proof.
  intros Hact [c Hc] Hcan. destruct t; try discriminate; cbn [resume].
  - rewrite drainResumed_cancelled by assumption. split; [apply finishRun_ended | reflexivity].
  - rewrite retryFor_cancelled by assumption. split; [apply completeRun_ended | reflexivity].
Qed.

Lemma withCall_runActive st t c :
  runActive {| globals := st; pending := Some (withCall t c) |}
  = runActive {| globals := st; pending := Some t |}.
Proof. now destruct t. Qed.

Lemma callOf_withCall t c c' : callOf t = Some c -> callOf (withCall t c') = Some c'.
Proof. destruct t; simpl; congruence. Qed.

(** A globals-only turn keeps a cancelled run as it is. *)
Lemma cancelledRun_frame req st p st' :
  cancelledRun req {| globals := st; pending := p |} ->
  sameRunFlags st st' ->
  cancelledRun req {| globals := st'; pending := p |}.
Proof.
  intros (Ha & Hp & Hc & Hf) [H1 H2]. cbn [globals pending] in *.
  unfold cancelledRun. cbn [globals pending].
  rewrite H1, H2. auto.
Qed.


(** One turn of a cancelled run: it sends at most a further attempt of the
    request that is in flight, and either the run is still the cancelled
    run with that request in flight, or it has ended and the turn has sent
    nothing. *)
Lemma cancelled_step ev m req :
  cancelledRun req m ->
  (forall k r, In (ASend k r) (snd (step ev m)) -> k <> 0%nat /\ req = Some r) /\
  (cancelledRun req (fst (step ev m)) \/
   (runEnded (fst (step ev m)) /\ sends (snd (step ev m)) = [])).
Proof.
  intros Hrun. pose proof Hrun as (Hact & Hbusy & Hcan & Hreq).
  destruct m as [st p]. cbn [globals pending] in *.
  destruct ev; cbn [step globals pending].
  - (* start *)
    unfold translatePage. cbn [globals pending].
    assert (Hb : translationInProgress
                   (match glow with Some b => set_showGlow b st | None => st end) = true)
      by (destruct glow; exact Hbusy).
    rewrite Hb. cbn [app snd fst].
    keep_run cancelledRun_frame. destruct glow; split; reflexivity.
  - (* cancel *)
    cbn [snd fst]. split; [intros ? ? [Hin | []]; discriminate Hin |].
    left. destruct Hrun as (? & ? & ? & ?). repeat split; assumption.
  - (* the Translator answers *)
    destruct p as [t|]; [| discriminate].
    destruct (callOf t) as [c|] eqn:Hcall;
      [| split; [intros ? ? [] | left; exact Hrun]].
    destruct (bc_awaiting c) eqn:Haw;
      [| split; [intros ? ? [] | left; exact Hrun]].
    unfold onReply.
    destruct (handleOutcome o (texts (bc_request c)) st) as [st' res|] eqn:Ho.
    + destruct (resume_cancelled t res st' Hact) as [Hend Hnil]; [eauto | |].
      { destruct (handleOutcome_flags _ _ _ _ _ Ho) as [_ H2]. congruence. }
      rewrite Hnil. split; [intros ? ? [] | right; auto].
    + destruct (bc_attempt c <? bc_retries c - 1)%nat.
      * cbn [fst snd]. split; [intros ? ? [Hin | []]; discriminate Hin |].
        left. repeat split; cbn [globals pending]; try assumption.
        -- now rewrite withCall_runActive.
        -- unfold inFlight in *. cbn [pending] in *.
           rewrite (callOf_withCall _ _ _ Hcall). rewrite Hcall in Hreq. exact Hreq.
      * destruct (resume_cancelled t {| applied := 0; failed := texts (bc_request c) |}
                    st Hact) as [Hend Hnil]; [eauto | assumption |].
        rewrite Hnil. split; [intros ? ? [] | right; auto].
  - (* the timer fires *)
    destruct p as [t|]; [| discriminate].
    destruct t as [l c|l ra|l ra its i c|c]; try discriminate.
    + cbn [callOf]. destruct (bc_awaiting c) eqn:Haw;
        [split; [intros ? ? [] | left; exact Hrun] |].
      cbn [onBackoff fst snd withCall]. split.
      * intros k r [Hin | []]. injection Hin as <- <-. split; [lia |].
        rewrite <- Hreq. reflexivity.
      * left. repeat split; assumption.
    + rewrite retryFor_cancelled by assumption.
      split; [intros ? ? [] | right]. split; [apply completeRun_ended | reflexivity].
    + cbn [callOf]. destruct (bc_awaiting c) eqn:Haw;
        [split; [intros ? ? [] | left; exact Hrun] |].
      cbn [onBackoff fst snd withCall]. split.
      * intros k r [Hin | []]. injection Hin as <- <-. split; [lia |].
        rewrite <- Hreq. reflexivity.
      * left. repeat split; assumption.
  - (* scroll *)
    destruct (scrollListener st); cbn [fst snd];
      (split; [intros ? ? [] |]); left; [| exact Hrun].
    eapply cancelledRun_frame; [exact Hrun | split; reflexivity].
  - (* scroll settled *)
    destruct (scrollDebounceTimer st); cbn [fst snd];
      (split; [intros ? ? [] |]); left; [| exact Hrun].
    eapply cancelledRun_frame; [exact Hrun |].
    cbn [pendingTranslationQueue set_scrollDebounceTimer].
    destruct (pendingTranslationQueue st); [split; reflexivity |].
    eapply sameRunFlags_trans; [| apply recalculatePendingPriorities_flags].
    split; reflexivity.
  - (* mutations *)
    destruct (mutationObserver st && autoTranslateEnabled st); cbn [fst snd];
      (split; [intros ? ? [] |]); left; [| exact Hrun].
    eapply cancelledRun_frame; [exact Hrun | split; reflexivity].
  - (* the auto-translate debounce fires *)
    destruct (autoTranslateDebounceTimer st); cbn [fst snd];
      [| split; [intros ? ? [] | left; exact Hrun]].
    unfold translatePendingNodes. cbn [globals pending pendingNewNodes
      set_autoTranslateDebounceTimer translationInProgress].
    rewrite Hbusy.
    destruct (pendingNewNodes st); cbn [fst snd];
      (split; [intros ? ? [] |]); left;
      (eapply cancelledRun_frame; [exact Hrun | split; reflexivity]).
  - (* restore original *)
    cbn [fst snd]. keep_run cancelledRun_frame.
    eapply sameRunFlags_trans; [apply restoreOriginalText_flags | split; reflexivity].
  - (* toggle *)
    destruct (isShowingTranslations st); cbn [fst snd].
    + keep_run cancelledRun_frame.
      eapply sameRunFlags_trans; [apply restoreOriginalText_flags | split; reflexivity].
    + destruct (hasTranslationCache st); cbn [fst snd].
      * keep_run cancelledRun_frame.
        eapply sameRunFlags_trans;
          [apply restoreCachedTranslations_flags | split; reflexivity].
      * split; [intros ? ? [Hin | []]; discriminate Hin | left; exact Hrun].
  - (* partial translation *)
    cbn [fst snd]. keep_run cancelledRun_frame. apply applyPartial_flags.
  - (* toggle auto-translate *)
    cbn [fst snd]. keep_run cancelledRun_frame.
    destruct (autoTranslateEnabled st); split; reflexivity.
  - (* glow *)
    cbn [fst snd]. keep_run cancelledRun_frame. split; reflexivity.
  - (* progress *)
    cbn [fst snd]. keep_run cancelledRun_frame. split; reflexivity.
  - (* status query *)
    cbn [fst snd]. split; [intros ? ? [Hin | []]; discriminate Hin | left; exact Hrun].
  - (* language query *)
    cbn [fst snd]. split; [intros ? ? [Hin | []]; discriminate Hin | left; exact Hrun].
  - (* the page changes the document *)
    cbn [fst snd]. split; [intros ? ? [] |]. left.
    eapply cancelledRun_frame; [exact Hrun | split; reflexivity].
Qed.

Lemma cancel_makes_cancelledRun m :
  runActive m = true ->
  translationInProgress (globals m) = true ->
  cancelledRun (inFlight m) (fst (step EvCancel m)) /\
  pendingTranslationQueue (globals (fst (step EvCancel m))) = [].
Proof.
  intros Hact Hbusy. destruct m as [st p]. cbn [step fst globals pending] in *.
  repeat split; assumption.
Qed.

Lemma runEnded_runToEnd evs m :
  runEnded m -> runToEnd evs m = (m, []).
Proof.
  intros (Hp & _ & _). destruct evs as [|ev rest]; [reflexivity |].
  cbn [runToEnd]. unfold runActive. now rewrite Hp.
Qed.

Lemma runToEnd_cancelled evs : forall m req,
  cancelledRun req m ->
  (forall k r, In (ASend k r) (snd (runToEnd evs m)) -> k <> 0%nat /\ req = Some r) /\
  (cancelledRun req (fst (runToEnd evs m)) \/ runEnded (fst (runToEnd evs m))).
Proof.
  induction evs as [|ev rest IH]; intros m req Hrun; cbn [runToEnd].
  - split; [intros ? ? [] | now left].
  - destruct Hrun as (Hact & Hrest). rewrite Hact.
    destruct (cancelled_step ev m req (conj Hact Hrest)) as [Hsend Hnext].
    destruct (step ev m) as [m' acts]. cbn [fst snd] in *.
    destruct Hnext as [Hrun' | [Hend _]].
    + destruct (IH m' req Hrun') as [Hsend' Hnext'].
      destruct (runToEnd rest m') as [m'' acts']. cbn [fst snd] in *.
      split; [| exact Hnext'].
      intros k r Hin. apply in_app_or in Hin as [Hin|Hin]; eauto.
    + rewrite (runEnded_runToEnd rest m' Hend). cbn [fst snd].
      split; [| now right].
      intros k r Hin. apply in_app_or in Hin as [Hin|[]]. eauto.
Qed.

Lemma cancelledRun_taskBound req m : cancelledRun req m -> (1 <= taskBound m)%nat.
Proof.
  intros (Hact & _). unfold taskBound, runActive in *.
  destruct (pending m) as [t|]; [| discriminate].
  destruct (callOf t) as [c|]; [| lia].
  unfold callBound. destruct (bc_awaiting c); lia.
Qed.

(** When the environment settles what a cancelled run waits for, the run
    ends or comes closer to its end. *)
Lemma cancelled_awaited_step answers ev m req :
  cancelledRun req m ->
  awaitedEvent answers m = Some ev ->
  runEnded (fst (step ev m)) \/
  (cancelledRun req (fst (step ev m)) /\ (taskBound (fst (step ev m)) < taskBound m)%nat).
Proof.
  intros Hrun Hev. pose proof Hrun as (Hact & Hbusy & Hcan & Hreq).
  destruct m as [st p]. cbn [globals pending] in *.
  unfold awaitedEvent in Hev. cbn [pending] in Hev.
  destruct p as [t|]; [| discriminate].
  destruct t as [l c|l ra|l ra its i c|c]; try discriminate.
  - cbn [callOf] in Hev. destruct (bc_awaiting c) eqn:Haw; injection Hev as <-;
      cbn [step globals pending callOf]; rewrite Haw.
    + unfold onReply.
      destruct (handleOutcome _ (texts (bc_request c)) st) as [st' res|] eqn:Ho.
      * left. cbn [resume]. rewrite drainResumed_cancelled; [apply finishRun_ended |].
        destruct (handleOutcome_flags _ _ _ _ _ Ho) as [_ H2]. congruence.
      * destruct (Nat.ltb_spec (bc_attempt c) (bc_retries c - 1)).
        -- right. split.
           ++ repeat split; cbn [globals pending]; assumption.
           ++ unfold taskBound, callBound. cbn. rewrite Haw. lia.
        -- left. cbn [resume]. rewrite drainResumed_cancelled by assumption.
           apply finishRun_ended.
    + right. cbn [onBackoff fst withCall]. split.
      * repeat split; cbn [globals pending]; assumption.
      * unfold taskBound, callBound. cbn. rewrite Haw. lia.
  - injection Hev as <-. left. cbn [step globals pending].
    rewrite retryFor_cancelled by assumption. apply completeRun_ended.
  - cbn [callOf] in Hev. destruct (bc_awaiting c) eqn:Haw; injection Hev as <-;
      cbn [step globals pending callOf]; rewrite Haw.
    + unfold onReply.
      destruct (handleOutcome _ (texts (bc_request c)) st) as [st' res|] eqn:Ho.
      * left. cbn [resume]. rewrite retryFor_cancelled; [apply completeRun_ended |].
        destruct (handleOutcome_flags _ _ _ _ _ Ho) as [_ H2]. congruence.
      * destruct (Nat.ltb_spec (bc_attempt c) (bc_retries c - 1)).
        -- right. split.
           ++ repeat split; cbn [globals pending]; assumption.
           ++ unfold taskBound, callBound. cbn. rewrite Haw. lia.
        -- left. cbn [resume]. rewrite retryFor_cancelled by assumption.
           apply completeRun_ended.
    + right. cbn [onBackoff fst withCall]. split.
      * repeat split; cbn [globals pending]; assumption.
      * unfold taskBound, callBound. cbn. rewrite Haw. lia.
Qed.

Lemma settle_cancelled answers : forall fuel m req,
  cancelledRun req m ->
  (taskBound m <= fuel)%nat ->
  runEnded (fst (settle answers fuel m)) /\
  (forall k r, In (ASend k r) (snd (settle answers fuel m)) ->
               k <> 0%nat /\ req = Some r).
Proof.
  induction fuel as [|fuel IH]; intros m req Hrun Hfuel.
  - pose proof (cancelledRun_taskBound _ _ Hrun). lia.
  - cbn [settle].
    destruct (awaitedEvent answers m) as [ev|] eqn:Hev.
    + destruct (cancelled_step ev m req Hrun) as [Hsend _].
      destruct (cancelled_awaited_step answers ev m req Hrun Hev) as [Hend | [Hrun' Hlt]].
      * destruct (step ev m) as [m' acts]. cbn [fst snd] in *.
        destruct Hend as (Hp & Hrest).
        assert (Hs : settle answers fuel m' = (m', [])).
        { destruct fuel; [reflexivity |]. cbn [settle]. unfold awaitedEvent.
          now rewrite Hp. }
        rewrite Hs. cbn [fst snd]. split; [exact (conj Hp Hrest) |].
        intros k r Hin. apply in_app_or in Hin as [Hin|[]]. eauto.
      * destruct (step ev m) as [m' acts]. cbn [fst snd] in *.
        destruct (IH m' req Hrun') as [Hend Hsend']; [lia |].
        destruct (settle answers fuel m') as [m'' acts']. cbn [fst snd] in *.
        split; [exact Hend |].
        intros k r Hin. apply in_app_or in Hin as [Hin|Hin]; eauto.
    + exfalso. destruct Hrun as (Hact & _). unfold awaitedEvent, runActive in *.
      destruct (pending m) as [[l c|l ra|l ra its i c|c]|]; try discriminate;
        cbn [callOf] in Hev; destruct (bc_awaiting c); discriminate.
Qed.

(** C4. Once cancellation is signalled to a run of [translatePage], the
    pending queue is empty and, whatever happens next, the run takes no
    further batch to the Translator, neither from the drain loop nor from
    the retry rounds: up to its end every send is a further attempt
    (attempt number above zero) made by the batch call that was in flight
    at the signal, for the same request; with no batch call in flight
    nothing is sent at all.  The turn in which the batch call returns is
    the last turn of the run.  The run ends as soon as the Translator has
    answered and the backoff timers have fired, at most [taskBound]
    times, and then nothing is suspended, the in-progress flag is down and
    the pending queue is empty.  (The in-progress flag is up whenever a
    run is suspended, in every state the script reaches.) *)
Theorem cancelled_run_dispatches_no_further_batch m :
  runActive m = true ->
  translationInProgress (globals m) = true ->
  let m1 := fst (step EvCancel m) in
  pendingTranslationQueue (globals m1) = [] /\
  (forall evs,
      (forall k r, In (ASend k r) (snd (runToEnd evs m1)) ->
                   k <> 0%nat /\ inFlight m = Some r) /\
      (cancelledRun (inFlight m) (fst (runToEnd evs m1))
       \/ runEnded (fst (runToEnd evs m1)))) /\
  (forall t res st,
      pending m = Some t -> is_Some (callOf t) -> translationCancelled st = true ->
      runEnded (fst (resume t res st)) /\ snd (resume t res st) = []) /\
  (forall answers,
      runEnded (fst (settle answers (taskBound m1) m1)) /\
      (forall k r, In (ASend k r) (snd (settle answers (taskBound m1) m1)) ->
                   k <> 0%nat /\ inFlight m = Some r)).
Proof.
  intros Hact Hbusy m1.
  destruct (cancel_makes_cancelledRun m Hact Hbusy) as [Hrun Hq].
  split; [exact Hq |]. split; [| split].
  - intros evs. now apply runToEnd_cancelled.
  - intros t res st Hp Hcall Hcan. apply resume_cancelled; auto.
    unfold runActive in *. cbn [pending]. now rewrite Hp in Hact.
  - intros answers. now apply settle_cancelled.
Qed.

Lemma cancelled_run_dispatches_no_further_batch_witness :
  pendingTranslationQueue (globals (fst (step EvCancel Sample.busy))) = [] /\
  runEnded
    (fst (settle (fun _ => Throws) (taskBound (fst (step EvCancel Sample.busy)))
            (fst (step EvCancel Sample.busy)))).
Proof.
  destruct (cancelled_run_dispatches_no_further_batch Sample.busy)
    as (Hq & _ & _ & Hs).
  - reflexivity.
  - reflexivity.
  - split; [exact Hq | exact (proj1 (Hs _))].
Defined.

(** ** The states the script reaches *)


Lemma recordNode_flags n nd st : sameRunFlags st (fst (recordNode n nd st)).
Proof. split; reflexivity. Qed.

Lemma walkTextNodes_flags b candidates : forall st acc,
  sameRunFlags st (fst (walkTextNodes b candidates st acc)).
Proof.
  induction candidates as [|n rest IH]; intros st acc; cbn [walkTextNodes].
  - apply sameRunFlags_refl.
  - destruct (nodes (doc st) !! n) as [nd|]; [| apply IH].
    destruct (acceptNode st b n nd); [| apply IH].
    pose proof (recordNode_flags n nd st) as Hf.
    destruct (recordNode n nd st) as [st1 item].
    exact (sameRunFlags_trans _ _ _ Hf (IH st1 _)).
Qed.

Lemma extractTextNodes_flags root b st :
  sameRunFlags st (fst (extractTextNodes root b st)).
Proof.
  unfold extractTextNodes.
  pose proof (walkTextNodes_flags b root (if b then st else clearRegistry st) []) as Hf.
  destruct (walkTextNodes b root (if b then st else clearRegistry st) []) as [st' items].
  cbn [fst] in *. eapply sameRunFlags_trans; [| exact Hf].
  destruct b; split; reflexivity.
Qed.

Lemma extractAdded_flags addedNodes : forall st acc,
  sameRunFlags st (fst (extractAdded addedNodes st acc)).
Proof.
  induction addedNodes as [|a rest IH]; intros st acc; cbn [extractAdded].
  - apply sameRunFlags_refl.
  - destruct a as [n|texts|]; [| | apply IH].
    + destruct (nodes (doc st) !! n) as [nd|]; [| apply IH].
      destruct (negb (isNodeProcessed st n) && isTranslatableText (textContent nd));
        [| apply IH].
      destruct (negb (shouldSkipElement (getElement (doc st) (parentElement nd))));
        [| apply IH].
      pose proof (recordNode_flags n nd st) as Hf.
      destruct (recordNode n nd st) as [st1 item].
      exact (sameRunFlags_trans _ _ _ Hf (IH st1 _)).
    + pose proof (extractTextNodes_flags texts true st) as Hf.
      destruct (extractTextNodes texts true st) as [st1 items].
      exact (sameRunFlags_trans _ _ _ Hf (IH st1 _)).
Qed.

Lemma extractNewTextNodes_flags addedNodes st :
  sameRunFlags st (fst (extractNewTextNodes addedNodes st)).
Proof.
  unfold extractNewTextNodes.
  pose proof (extractAdded_flags addedNodes st []) as Hf.
  now destruct (extractAdded addedNodes st []).
Qed.

(** *** The in-progress flag *)

Lemma busy_retryLoopHead l ra st :
  translationInProgress st = true -> busyConsistent (fst (retryLoopHead l ra st)).
Proof.
  intros Hb. unfold retryLoopHead, busyConsistent.
  destruct (_ && _ && _); cbn.
  - split; eauto.
  - split; [intros [x Hx]; discriminate | discriminate].
Qed.

Lemma busy_retryFor l ra its i st :
  translationInProgress st = true -> busyConsistent (fst (retryFor l ra its i st)).
Proof.
  intros Hb. unfold retryFor.
  destruct (translationCancelled st); [now apply busy_retryLoopHead |].
  destruct (skipn i its); [now apply busy_retryLoopHead |].
  unfold busyConsistent. cbn. split; eauto.
Qed.

Lemma busy_finishRun st : busyConsistent (finishRun st).
Proof. unfold busyConsistent. cbn. split; [intros [x Hx]; discriminate | discriminate]. Qed.

Lemma busy_afterDrain l st :
  translationInProgress st = true -> busyConsistent (fst (afterDrain l st)).
Proof.
  intros Hb. unfold afterDrain.
  destruct (negb (translationCancelled st)); [now apply busy_retryLoopHead |].
  apply busy_finishRun.
Qed.

Lemma busy_drainLoop l st :
  translationInProgress st = true -> busyConsistent (fst (drainLoop l st)).
Proof.
  intros Hb. unfold drainLoop.
  destruct (translationCancelled st); [now apply busy_afterDrain |].
  destruct (pendingTranslationQueue st); [now apply busy_afterDrain |].
  unfold busyConsistent. cbn. split; eauto.
Qed.

Lemma busy_resume t res st :
  translationInProgress st = true -> busyConsistent (fst (resume t res st)).
Proof.
  intros Hb. destruct t; cbn [resume].
  - unfold drainResumed.
    destruct (translationCancelled st); [now apply busy_afterDrain | now apply busy_drainLoop].
  - unfold busyConsistent. cbn. split; eauto.
  - now apply busy_retryFor.
  - unfold busyConsistent. cbn. split; [intros [x Hx]; discriminate | discriminate].
Qed.

Lemma busy_same_flag st p st' :
  busyConsistent {| globals := st; pending := p |} ->
  translationInProgress st' = translationInProgress st ->
  busyConsistent {| globals := st'; pending := p |}.
Proof. unfold busyConsistent. cbn. intros H H1. now rewrite H1. Qed.

Lemma busy_frame st p st' :
  busyConsistent {| globals := st; pending := p |} ->
  sameRunFlags st st' ->
  busyConsistent {| globals := st'; pending := p |}.
Proof. intros H [H1 _]. now apply (busy_same_flag st). Qed.

Lemma busy_step ev m : busyConsistent m -> busyConsistent (fst (step ev m)).
Proof.
  intros Hm. destruct m as [st p].
  assert (Hnone : translationInProgress st = false -> p = None).
  { intros Hf. destruct p as [t|]; [| reflexivity].
    destruct Hm as [Hm _]. cbn in Hm. rewrite Hm in Hf; [discriminate | eauto]. }
  assert (Hsome : is_Some p -> translationInProgress st = true) by apply Hm.
  destruct ev; cbn [step globals pending].
  - (* start *)
    unfold translatePage. cbn [globals pending].
    set (st0 := match glow with Some b => set_showGlow b st | None => st end).
    assert (Hst0 : translationInProgress st0 = translationInProgress st)
      by (subst st0; now destruct glow).
    rewrite Hst0. destruct (translationInProgress st) eqn:Hb.
    + cbn [fst]. eapply busy_frame; [exact Hm |]. subst st0.
      destruct glow; split; reflexivity.
    + match goal with
      | |- context [extractTextNodes ?r false ?s] =>
          pose proof (extractTextNodes_flags r false s) as [Hf1 Hf2];
          destruct (extractTextNodes r false s) as [st1 items]
      end.
      cbn [fst] in *. destruct items as [|x items].
      * cbn [fst]. apply busy_finishRun.
      * cbn [fst].
        match goal with |- busyConsistent (fst (let '(_, _) := ?e in _)) =>
          replace (fst (let '(m', acts) := e in (m', acts ++ [ARespond (RStarted true)])))
            with (fst e) by now destruct e
        end.
        apply busy_drainLoop. cbn. exact Hf1.
  - cbn [fst]. eapply busy_same_flag; [exact Hm | reflexivity].
  - (* the Translator answers *)
    destruct p as [t|]; [| exact Hm].
    destruct (callOf t) as [c|] eqn:Hc; [| exact Hm].
    destruct (bc_awaiting c); [| exact Hm].
    unfold onReply.
    destruct (handleOutcome o (texts (bc_request c)) st) as [st' res|] eqn:Ho.
    + apply busy_resume. destruct (handleOutcome_flags _ _ _ _ _ Ho) as [H1 _].
      rewrite H1. apply Hsome. eauto.
    + destruct (bc_attempt c <? bc_retries c - 1)%nat.
      * unfold busyConsistent. cbn. split; [intros _; apply Hsome; eauto | eauto].
      * apply busy_resume. apply Hsome. eauto.
  - (* the timer fires *)
    destruct p as [t|]; [| exact Hm].
    destruct t as [l c|l ra|l ra its i c|c]; cbn [callOf].
    + destruct (bc_awaiting c); [exact Hm |]. cbn.
      unfold busyConsistent. cbn. split; [intros _; apply Hsome; eauto | eauto].
    + apply busy_retryFor. apply Hsome. eauto.
    + destruct (bc_awaiting c); [exact Hm |]. cbn.
      unfold busyConsistent. cbn. split; [intros _; apply Hsome; eauto | eauto].
    + destruct (bc_awaiting c); [exact Hm |]. cbn.
      unfold busyConsistent. cbn. split; [intros _; apply Hsome; eauto | eauto].
  - destruct (scrollListener st); [| exact Hm].
    cbn [fst]. eapply busy_frame; [exact Hm | split; reflexivity].
  - destruct (scrollDebounceTimer st); [| exact Hm].
    cbn [fst]. eapply busy_frame; [exact Hm |].
    cbn [pendingTranslationQueue set_scrollDebounceTimer].
    destruct (pendingTranslationQueue st); [split; reflexivity |].
    eapply sameRunFlags_trans; [| apply recalculatePendingPriorities_flags].
    split; reflexivity.
  - destruct (mutationObserver st && autoTranslateEnabled st); [| exact Hm].
    cbn [fst]. eapply busy_frame; [exact Hm | split; reflexivity].
  - (* the auto-translate debounce fires *)
    destruct (autoTranslateDebounceTimer st); [| exact Hm].
    unfold translatePendingNodes.
    cbn [globals pending pendingNewNodes set_autoTranslateDebounceTimer
         translationInProgress].
    destruct (pendingNewNodes st) as [|a rest] eqn:Hq.
    + cbn [fst]. eapply busy_frame; [exact Hm | split; reflexivity].
    + destruct (translationInProgress st) eqn:Hb.
      * cbn [fst]. eapply busy_frame; [exact Hm | split; [cbn; congruence | reflexivity]].
      * match goal with
        | |- context [extractNewTextNodes ?a ?s] =>
            pose proof (extractNewTextNodes_flags a s) as [Hf1 Hf2];
            destruct (extractNewTextNodes a s) as [st1 items]
        end.
        cbn [fst] in *. destruct items as [|x items]; cbn [fst].
        -- rewrite (Hnone eq_refl). unfold busyConsistent. cbn.
           rewrite Hf1. cbn. rewrite Hb.
           split; [intros [y Hy]; discriminate | discriminate].
        -- unfold busyConsistent. cbn. split; eauto.
  - cbn [fst]. eapply busy_frame; [exact Hm |].
    eapply sameRunFlags_trans; [apply restoreOriginalText_flags | split; reflexivity].
  - destruct (isShowingTranslations st); cbn [fst].
    + eapply busy_frame; [exact Hm |].
      eapply sameRunFlags_trans; [apply restoreOriginalText_flags | split; reflexivity].
    + destruct (hasTranslationCache st); cbn [fst]; [| exact Hm].
      eapply busy_frame; [exact Hm |].
      eapply sameRunFlags_trans;
        [apply restoreCachedTranslations_flags | split; reflexivity].
  - cbn [fst]. eapply busy_frame; [exact Hm | apply applyPartial_flags].
  - cbn [fst]. eapply busy_frame; [exact Hm |].
    destruct (autoTranslateEnabled st); split; reflexivity.
  - cbn [fst]. eapply busy_frame; [exact Hm | split; reflexivity].
  - cbn [fst]. eapply busy_frame; [exact Hm | split; reflexivity].
  - exact Hm.
  - exact Hm.
  - cbn [fst]. eapply busy_frame; [exact Hm | split; reflexivity].
Qed.

(** *** The registry *)

Lemma registryOk_view st st' :
  registryView st' = registryView st -> registryOk st -> registryOk st'.
Proof.
  unfold registryView, registryOk, keysBelow, registryConsistent.
  intros [= -> ->]. auto.
Qed.

Lemma Forall_update (P : entry -> Prop) k f m :
  (forall e, P e -> P (f e)) ->
  Forall (fun p => P (snd p)) m ->
  Forall (fun p => P (snd p)) (Registry.update k f m).
Proof.
  intros Hf. induction m as [|[j e] m IH]; intros Hall; simpl; [constructor |].
  apply List.Forall_cons_iff in Hall as [He Hm]. cbn [snd] in He.
  destruct (Nat.eqb j k); constructor; cbn [snd]; auto.
Qed.

Lemma registryOk_replaceTextNode id t st :
  truthy t = true -> registryOk st -> registryOk (fst (replaceTextNode id t st)).
Proof.
  intros Ht [Hk Hc]. unfold replaceTextNode.
  destruct (Registry.get (textNodeMap st) id) as [e|]; [| now split].
  destruct (writeText (node e) _ (doc st)) as [d|]; [| now split].
  split.
  - unfold keysBelow in *. cbn -[Registry.keys]. now rewrite keys_update.
  - unfold registryConsistent in *. cbn.
    apply Forall_update; [| exact Hc].
    intros e' _. unfold entryConsistent. cbn. auto.
Qed.

Lemma usableText_truthy t text : usableText t = Some text -> truthy text = true.
Proof.
  unfold usableText. destruct (truthyOpt (t_error t)); [discriminate |].
  destruct (t_text t) as [s|]; [| discriminate].
  destruct (truthy s) eqn:Hs; [| discriminate]. congruence.
Qed.

Lemma registryOk_applyEntries ts st : registryOk st -> registryOk (applyEntries ts st).
Proof.
  intros Hok. induction ts as [|t ts IH] using rev_ind; [exact Hok |].
  rewrite applyEntries_snoc. destruct (usableText t) as [text|] eqn:Hu; [| exact IH].
  apply registryOk_replaceTextNode; [| exact IH].
  now apply (usableText_truthy t).
Qed.

Lemma registryOk_handleOutcome o textItems st st' res :
  handleOutcome o textItems st = AttemptReturns st' res ->
  registryOk st -> registryOk st'.
Proof.
  unfold handleOutcome. destruct o as [|r]; [discriminate |].
  destruct (truthyOpt (r_error r)); [discriminate |].
  unfold processResponse.
  rewrite (processTranslations_closed _ _ st st) by reflexivity.
  intros [= <- _]. apply registryOk_applyEntries.
Qed.

Lemma registryOk_applyPartial ts : forall st,
  registryOk st -> registryOk (applyPartial ts st).
Proof.
  induction ts as [|t ts IH]; intros st Hok; cbn [applyPartial]; [exact Hok |].
  destruct (if truthyOpt (t_error t) then None else t_text t) as [text|]; [| now apply IH].
  destruct (truthy text) eqn:Ht; [| now apply IH].
  apply IH. now apply registryOk_replaceTextNode.
Qed.

Lemma restoreCachedLoop_registry m : forall d s c,
  Forall (fun p => entryConsistent (snd p)) m ->
  Registry.keys (fst (fst (fst (restoreCachedLoop m d s c)))) = Registry.keys m /\
  Forall (fun p => entryConsistent (snd p)) (fst (fst (fst (restoreCachedLoop m d s c)))).
Proof.
  induction m as [|[k e] m IH]; intros d s c Hall; cbn [restoreCachedLoop].
  - split; [reflexivity | constructor].
  - apply List.Forall_cons_iff in Hall as [He Hm]. cbn [snd] in He.
    destruct (restorable e) eqn:Hr.
    + destruct (translatedText e) as [t|] eqn:Ht.
      * destruct (writeText (node e) t d) as [d'|].
        -- destruct (IH d' ({[node e]} ∪ s) (S c) Hm) as [Hk Hc].
           destruct (restoreCachedLoop m d' ({[node e]} ∪ s) (S c)) as [[[m2 d2] s2] c2].
           cbn [fst snd] in *. split; [cbn; now f_equal |].
           constructor; [| exact Hc]. cbn [snd].
           unfold entryConsistent in *. cbn. rewrite Ht in *. tauto.
        -- destruct (IH d s c Hm) as [Hk Hc].
           destruct (restoreCachedLoop m d s c) as [[[m2 d2] s2] c2].
           cbn [fst snd] in *. split; [cbn; now f_equal |].
           constructor; assumption.
      * destruct (IH d s c Hm) as [Hk Hc].
        destruct (restoreCachedLoop m d s c) as [[[m2 d2] s2] c2].
        cbn [fst snd] in *. split; [cbn; now f_equal |].
        constructor; assumption.
    + destruct (IH d s c Hm) as [Hk Hc].
      destruct (restoreCachedLoop m d s c) as [[[m2 d2] s2] c2].
      cbn [fst snd] in *. split; [cbn; now f_equal |].
      constructor; assumption.
Qed.

Lemma registryOk_restoreCachedTranslations st :
  registryOk st -> registryOk (fst (restoreCachedTranslations st)).
Proof.
  intros [Hk Hc]. unfold restoreCachedTranslations.
  destruct (hasTranslationCache st); cbn [negb]; [| now split].
  destruct (restoreCachedLoop_registry (textNodeMap st) (doc st)
              (translatedNodeSet st) 0%nat Hc) as [Hkeys Hcons].
  destruct (restoreCachedLoop (textNodeMap st) (doc st) (translatedNodeSet st) 0%nat)
    as [[[m d] s] c].
  cbn [fst snd] in *. split.
  - unfold keysBelow in *. cbn -[Registry.keys]. now rewrite Hkeys.
  - exact Hcons.
Qed.

Lemma registryOk_restoreOriginalText st :
  registryOk st -> registryOk (restoreOriginalText st).
Proof.
  apply registryOk_view. unfold restoreOriginalText, registryView.
  now destruct (restoreOriginalLoop (textNodeMap st) (doc st) (translatedNodeSet st)).
Qed.

Lemma registryConsistent_recordNode n nd st :
  registryConsistent st -> registryConsistent (fst (recordNode n nd st)).
Proof.
  unfold registryConsistent, recordNode. cbn. intros Hc.
  unfold Registry.set. destruct (Registry.has (textNodeMap st) (nextId st)).
  - apply Forall_update; [| exact Hc]. intros _ _. reflexivity.
  - apply List.Forall_app. split; [exact Hc |].
    constructor; [reflexivity | constructor].
Qed.

Lemma registryConsistent_walkTextNodes b candidates : forall st acc,
  registryConsistent st ->
  registryConsistent (fst (walkTextNodes b candidates st acc)).
Proof.
  induction candidates as [|n rest IH]; intros st acc Hc; cbn [walkTextNodes];
    [exact Hc |].
  destruct (nodes (doc st) !! n) as [nd|]; [| now apply IH].
  destruct (acceptNode st b n nd); [| now apply IH].
  pose proof (registryConsistent_recordNode n nd st Hc) as Hc'.
  destruct (recordNode n nd st) as [st1 item]. now apply IH.
Qed.

Lemma registryConsistent_extractTextNodes root b st :
  (b = true -> registryConsistent st) ->
  registryConsistent (fst (extractTextNodes root b st)).
Proof.
  intros Hc. unfold extractTextNodes.
  pose proof (registryConsistent_walkTextNodes b root
                (if b then st else clearRegistry st) []) as Hw.
  destruct (walkTextNodes b root (if b then st else clearRegistry st) []) as [st' items].
  apply Hw. destruct b; [now apply Hc | constructor].
Qed.

Lemma registryConsistent_extractAdded addedNodes : forall st acc,
  registryConsistent st ->
  registryConsistent (fst (extractAdded addedNodes st acc)).
Proof.
  induction addedNodes as [|a rest IH]; intros st acc Hc; cbn [extractAdded];
    [exact Hc |].
  destruct a as [n|texts|]; [| | now apply IH].
  - destruct (nodes (doc st) !! n) as [nd|]; [| now apply IH].
    destruct (negb (isNodeProcessed st n) && isTranslatableText (textContent nd));
      [| now apply IH].
    destruct (negb (shouldSkipElement (getElement (doc st) (parentElement nd))));
      [| now apply IH].
    pose proof (registryConsistent_recordNode n nd st Hc) as Hc'.
    destruct (recordNode n nd st) as [st1 item]. now apply IH.
  - pose proof (registryConsistent_extractTextNodes texts true st (fun _ => Hc)) as Hc'.
    destruct (extractTextNodes texts true st) as [st1 items]. now apply IH.
Qed.

Lemma registryOk_extractNewTextNodes addedNodes st :
  registryOk st -> registryOk (fst (extractNewTextNodes addedNodes st)).
Proof.
  intros [Hk Hc]. split.
  - now apply extractNewTextNodes_extends.
  - unfold extractNewTextNodes.
    pose proof (registryConsistent_extractAdded addedNodes st [] Hc) as Hc'.
    now destruct (extractAdded addedNodes st []).
Qed.

Lemma registryOk_extractTextNodes_full root st :
  registryOk (fst (extractTextNodes root false st)).
Proof.
  split.
  - apply extractTextNodes_full_extends.
  - apply registryConsistent_extractTextNodes. discriminate.
Qed.

Lemma view_completeRun l st :
  registryView (globals (completeRun l st)) = registryView st.
Proof. unfold completeRun. split_ifs; reflexivity. Qed.

Lemma view_retryLoopHead l ra st :
  registryView (globals (fst (retryLoopHead l ra st))) = registryView st.
Proof.
  unfold retryLoopHead. destruct (_ && _ && _); [reflexivity |].
  apply view_completeRun.
Qed.

Lemma view_retryFor l ra its i st :
  registryView (globals (fst (retryFor l ra its i st))) = registryView st.
Proof.
  unfold retryFor. destruct (translationCancelled st); [apply view_retryLoopHead |].
  destruct (skipn i its); [apply view_retryLoopHead | reflexivity].
Qed.

Lemma view_afterDrain l st :
  registryView (globals (fst (afterDrain l st))) = registryView st.
Proof.
  unfold afterDrain. destruct (negb (translationCancelled st));
    [apply view_retryLoopHead | reflexivity].
Qed.

Lemma view_drainLoop l st :
  registryView (globals (fst (drainLoop l st))) = registryView st.
Proof.
  unfold drainLoop. destruct (translationCancelled st); [apply view_afterDrain |].
  destruct (pendingTranslationQueue st); [apply view_afterDrain | reflexivity].
Qed.

Lemma view_resume t res st :
  registryView (globals (fst (resume t res st))) = registryView st.
Proof.
  destruct t; cbn [resume].
  - unfold drainResumed. destruct (translationCancelled st).
    + now rewrite view_afterDrain.
    + apply view_drainLoop.
  - reflexivity.
  - apply view_retryFor.
  - reflexivity.
Qed.

Lemma view_recalculatePendingPriorities st :
  registryView (recalculatePendingPriorities st) = registryView st.
Proof.
  unfold recalculatePendingPriorities.
  now destruct (recalculateLoop st (pendingTranslationQueue st)) as [q []].
Qed.

Lemma registryOk_step ev m :
  registryOk (globals m) -> registryOk (globals (fst (step ev m))).
Proof.
  intros Hok. destruct m as [st p]. cbn [globals] in Hok.
  destruct ev; cbn [step globals pending].
  - (* start *)
    unfold translatePage. cbn [globals pending].
    match goal with |- context [if ?b then _ else _] => destruct b end.
    + cbn [fst globals]. eapply registryOk_view; [| exact Hok]. now destruct glow.
    + match goal with
      | |- context [extractTextNodes ?r false ?s] =>
          pose proof (registryOk_extractTextNodes_full r s) as Hex;
          destruct (extractTextNodes r false s) as [st1 items]
      end.
      cbn [fst] in *. destruct items as [|x items].
      * cbn [fst]. eapply registryOk_view; [| exact Hex]. reflexivity.
      * match goal with |- registryOk (globals (fst (let '(_, _) := ?e in _))) =>
          replace (fst (let '(m', acts) := e in (m', acts ++ [ARespond (RStarted true)])))
            with (fst e) by now destruct e
        end.
        eapply registryOk_view; [apply view_drainLoop |].
        eapply registryOk_view; [| exact Hex]. reflexivity.
  - cbn [fst globals]. eapply registryOk_view; [| exact Hok]. reflexivity.
  - (* the Translator answers *)
    destruct p as [t|]; [| exact Hok].
    destruct (callOf t) as [c|]; [| exact Hok].
    destruct (bc_awaiting c); [| exact Hok].
    unfold onReply.
    destruct (handleOutcome o (texts (bc_request c)) st) as [st' res|] eqn:Ho.
    + eapply registryOk_view; [apply view_resume |].
      exact (registryOk_handleOutcome _ _ _ _ _ Ho Hok).
    + destruct (bc_attempt c <? bc_retries c - 1)%nat; [exact Hok |].
      eapply registryOk_view; [apply view_resume | exact Hok].
  - (* the timer fires *)
    destruct p as [t|]; [| exact Hok].
    destruct t as [l c|l ra|l ra its i c|c]; cbn [callOf];
      try (destruct (bc_awaiting c); exact Hok).
    eapply registryOk_view; [apply view_retryFor | exact Hok].
  - destruct (scrollListener st); [| exact Hok].
    eapply registryOk_view; [| exact Hok]. reflexivity.
  - destruct (scrollDebounceTimer st); [| exact Hok].
    cbn [fst globals]. eapply registryOk_view; [| exact Hok].
    cbn [pendingTranslationQueue set_scrollDebounceTimer].
    destruct (pendingTranslationQueue st); [reflexivity |].
    now rewrite view_recalculatePendingPriorities.
  - destruct (mutationObserver st && autoTranslateEnabled st); [| exact Hok].
    eapply registryOk_view; [| exact Hok]. reflexivity.
  - (* the auto-translate debounce fires *)
    destruct (autoTranslateDebounceTimer st); [| exact Hok].
    unfold translatePendingNodes.
    cbn [globals pending pendingNewNodes set_autoTranslateDebounceTimer
         translationInProgress].
    destruct (pendingNewNodes st) as [|a rest].
    + eapply registryOk_view; [| exact Hok]. reflexivity.
    + destruct (translationInProgress st).
      * eapply registryOk_view; [| exact Hok]. reflexivity.
      * match goal with
        | |- context [extractNewTextNodes ?a ?s] =>
            assert (Hex : registryOk (fst (extractNewTextNodes a s)))
              by (apply registryOk_extractNewTextNodes;
                  eapply registryOk_view; [| exact Hok]; reflexivity);
            destruct (extractNewTextNodes a s) as [st1 items]
        end.
        cbn [fst] in *. destruct items as [|x items]; cbn [fst globals];
          [exact Hex |].
        eapply registryOk_view; [| exact Hex]. reflexivity.
  - cbn [fst globals]. eapply registryOk_view;
      [| exact (registryOk_restoreOriginalText st Hok)]. reflexivity.
  - destruct (isShowingTranslations st); cbn [fst globals].
    + eapply registryOk_view;
        [| exact (registryOk_restoreOriginalText st Hok)]. reflexivity.
    + destruct (hasTranslationCache st) eqn:Hh; cbn [fst globals]; [| exact Hok].
      eapply registryOk_view;
        [| exact (registryOk_restoreCachedTranslations st Hok)]. reflexivity.
  - cbn [fst globals]. now apply registryOk_applyPartial.
  - cbn [fst globals]. eapply registryOk_view; [| exact Hok].
    now destruct (autoTranslateEnabled st).
  - cbn [fst globals]. eapply registryOk_view; [| exact Hok]. reflexivity.
  - cbn [fst globals]. eapply registryOk_view; [| exact Hok]. reflexivity.
  - exact Hok.
  - exact Hok.
  - cbn [fst globals]. eapply registryOk_view; [| exact Hok]. reflexivity.
Qed.

(** X22. Every state the script reaches from a freshly loaded page is well
    formed: the in-progress flag is up exactly when an activation is
    suspended, the ids of the registry are below the id counter, and the
    entries of the registry are consistent. *)
Lemma reachable_wellFormed m : reachable m -> wellFormed m.
Proof.
  induction 1 as [d | m ev Hr [Hb [Hk Hc]]].
  - split; [| split].
    + unfold busyConsistent. cbn.
      split; [intros [x Hx]; discriminate | discriminate].
    + constructor.
    + constructor.
  - split; [now apply busy_step |]. now apply registryOk_step.
Qed.

(** ** The batch call of the machine is [translateBatch] *)

Lemma attemptLoop_S Translator retries remaining attempt req st :
  attemptLoop Translator retries (S remaining) attempt req st
  = match handleOutcome (Translator attempt req) (texts req) st with
    | AttemptReturns st' res => (st', res, [ASend attempt req])
    | AttemptCaught =>
        let wait :=
          if (attempt <? retries - 1)%nat then [AWait (backoff attempt)] else [] in
        let '(st', res, acts) :=
          attemptLoop Translator retries remaining (S attempt) req st in
        (st', res, ASend attempt req :: wait ++ acts)
    end.
Proof. reflexivity. Qed.

Lemma settleCall_attemptLoop Translator retries req st : forall remaining attempt,
  (attempt + S remaining = retries)%nat ->
  exists st' res acts,
    settleCall Translator (2 * S remaining)
      {| bc_request := req; bc_retries := retries; bc_attempt := attempt;
         bc_awaiting := AwaitReply |} st = Some (st', res, acts) /\
    attemptLoop Translator retries (S remaining) attempt req st
    = (st', res, ASend attempt req :: acts).
Proof.
  induction remaining as [|rem IH]; intros attempt Hsum.
  - cbn [settleCall Nat.mul Nat.add bc_awaiting bc_attempt bc_request bc_retries
         attemptLoop].
    unfold onReply. cbn [bc_request bc_attempt bc_retries].
    destruct (handleOutcome (Translator attempt req) (texts req) st) as [st' res|].
    + eauto.
    + destruct (Nat.ltb_spec attempt (retries - 1)); [lia |].
      cbn [app]. eauto.
  - destruct (IH (S attempt)) as (st1 & res1 & acts1 & Hs & Ha); [lia |].
    rewrite attemptLoop_S, Ha.
    replace (2 * S (S rem))%nat with (S (S (2 * S rem))) by lia.
    remember (2 * S rem)%nat as fuel.
    cbn [settleCall bc_awaiting bc_attempt bc_request bc_retries].
    unfold onReply. cbn [bc_request bc_attempt bc_retries].
    destruct (handleOutcome (Translator attempt req) (texts req) st) as [st' res|].
    + eauto.
    + destruct (Nat.ltb_spec attempt (retries - 1)); [| lia].
      cbn [bc_awaiting onBackoff bc_attempt bc_request bc_retries].
      rewrite Hs. cbn [app]. eauto.
Qed.

(** A batch call started by the machine and settled by the capability
    returns what [translateBatch] returns, after the same sends and
    waits. *)
Lemma startCall_settles_as_translateBatch Translator textItems targetLanguage
    sourceLanguage retries st :
  textItems <> [] ->
  (0 < retries)%nat ->
  exists st' res acts,
    settleCall Translator (2 * retries)
      (fst (startCall textItems targetLanguage sourceLanguage retries st)) st
    = Some (st', res, acts) /\
    translateBatch Translator textItems targetLanguage sourceLanguage retries st
    = (st', res,
       snd (startCall textItems targetLanguage sourceLanguage retries st) ++ acts).
Proof.
  intros Hne Hpos. destruct retries as [|rem]; [lia |].
  unfold translateBatch, startCall. cbn [fst snd].
  destruct textItems as [|x l]; [contradiction |].
  apply settleCall_attemptLoop. lia.
Qed.

(** * Further properties *)

(** ** Frame of the registry writes *)

Lemma control_replaceTextNode id t st :
  control (fst (replaceTextNode id t st)) = control st.
Proof.
  unfold replaceTextNode.
  destruct (Registry.get (textNodeMap st) id) as [e|]; [| reflexivity].
  destruct (writeText (node e) _ (doc st)) as [d|]; reflexivity.
Qed.

Lemma control_applyEntries ts st : control (applyEntries ts st) = control st.
Proof.
  induction ts as [|t ts IH] using rev_ind; [reflexivity |].
  rewrite applyEntries_snoc. destruct (usableText t); [| exact IH].
  now rewrite control_replaceTextNode.
Qed.

Lemma control_nextId st st' : control st' = control st -> nextId st' = nextId st.
Proof. unfold control. congruence. Qed.

Lemma control_settings st st' : control st' = control st -> settings st' = settings st.
Proof. unfold control, settings. congruence. Qed.

Lemma settings_trans st st1 st2 :
  settings st1 = settings st -> settings st2 = settings st1 -> settings st2 = settings st.
Proof. congruence. Qed.

Lemma settings_recordNode n nd st : settings (fst (recordNode n nd st)) = settings st.
Proof. reflexivity. Qed.

Lemma settings_walkTextNodes b candidates : forall st acc,
  settings (fst (walkTextNodes b candidates st acc)) = settings st.
Proof.
  induction candidates as [|n rest IH]; intros st acc; cbn [walkTextNodes];
    [reflexivity |].
  destruct (nodes (doc st) !! n) as [nd|]; [| apply IH].
  destruct (acceptNode st b n nd); [| apply IH].
  pose proof (settings_recordNode n nd st) as Hf.
  destruct (recordNode n nd st) as [st1 item].
  exact (settings_trans _ _ _ Hf (IH st1 _)).
Qed.

Lemma settings_extractTextNodes root b st :
  settings (fst (extractTextNodes root b st)) = settings st.
Proof.
  unfold extractTextNodes.
  pose proof (settings_walkTextNodes b root (if b then st else clearRegistry st) [])
    as Hf.
  destruct (walkTextNodes b root (if b then st else clearRegistry st) []) as [st' items].
  cbn [fst] in *. rewrite Hf. now destruct b.
Qed.

Lemma settings_extractAdded addedNodes : forall st acc,
  settings (fst (extractAdded addedNodes st acc)) = settings st.
Proof.
  induction addedNodes as [|a rest IH]; intros st acc; cbn [extractAdded];
    [reflexivity |].
  destruct a as [n|texts|]; [| | apply IH].
  - destruct (nodes (doc st) !! n) as [nd|]; [| apply IH].
    destruct (negb (isNodeProcessed st n) && isTranslatableText (textContent nd));
      [| apply IH].
    destruct (negb (shouldSkipElement (getElement (doc st) (parentElement nd))));
      [| apply IH].
    pose proof (settings_recordNode n nd st) as Hf.
    destruct (recordNode n nd st) as [st1 item].
    exact (settings_trans _ _ _ Hf (IH st1 _)).
  - pose proof (settings_extractTextNodes texts true st) as Hf.
    destruct (extractTextNodes texts true st) as [st1 items].
    exact (settings_trans _ _ _ Hf (IH st1 _)).
Qed.

Lemma settings_extractNewTextNodes addedNodes st :
  settings (fst (extractNewTextNodes addedNodes st)) = settings st.
Proof.
  unfold extractNewTextNodes.
  pose proof (settings_extractAdded addedNodes st []) as Hf.
  now destruct (extractAdded addedNodes st []).
Qed.

Lemma applyPartial_applyEntries ts : forall st,
  applyPartial ts st = applyEntries ts st.
Proof.
  induction ts as [|t ts IH]; intros st; [reflexivity |].
  cbn [applyPartial]. unfold applyEntries. cbn [fold_left]. fold (applyEntries ts).
  unfold usableText.
  destruct (truthyOpt (t_error t)); [apply IH |].
  destruct (t_text t) as [text|]; [| apply IH].
  destruct (truthy text); apply IH.
Qed.

Lemma processResponse_closed r textItems st :
  processResponse r textItems st
  = (applyEntries (translationsOf r) st,
     {| applied := length (List.filter (applicable st) (translationsOf r));
        failed :=
          failedWhileProcessing st textItems (translationsOf r)
          ++ List.filter
               (fun item =>
                  negb (bool_decide
                          (qi_id item ∈ (list_to_set (map t_id (translationsOf r)) ∪ ∅
                                         : gset nat))))
               textItems |}).
Proof.
  unfold processResponse. fold (translationsOf r).
  now rewrite (processTranslations_closed _ _ st st) by reflexivity.
Qed.

Lemma control_handleOutcome o textItems st st' res :
  handleOutcome o textItems st = AttemptReturns st' res -> control st' = control st.
Proof.
  unfold handleOutcome. destruct o as [|r]; [discriminate |].
  destruct (truthyOpt (r_error r)); [discriminate |].
  rewrite processResponse_closed. intros [= <- _]. apply control_applyEntries.
Qed.

Lemma doc_walkTextNodes b candidates : forall st acc,
  doc (fst (walkTextNodes b candidates st acc)) = doc st.
Proof.
  induction candidates as [|n rest IH]; intros st acc; cbn [walkTextNodes];
    [reflexivity |].
  destruct (nodes (doc st) !! n) as [nd|]; [| apply IH].
  destruct (acceptNode st b n nd); [| apply IH].
  assert (Hd : doc (fst (recordNode n nd st)) = doc st) by reflexivity.
  destruct (recordNode n nd st) as [st1 item]. cbn [fst] in Hd.
  now rewrite IH.
Qed.

Lemma doc_extractTextNodes root b st :
  doc (fst (extractTextNodes root b st)) = doc st.
Proof.
  unfold extractTextNodes.
  pose proof (doc_walkTextNodes b root (if b then st else clearRegistry st) []) as Hd.
  destruct (walkTextNodes b root (if b then st else clearRegistry st) []) as [st' items].
  cbn [fst] in *. rewrite Hd. now destruct b.
Qed.

Lemma doc_extractAdded addedNodes : forall st acc,
  doc (fst (extractAdded addedNodes st acc)) = doc st.
Proof.
  induction addedNodes as [|a rest IH]; intros st acc; cbn [extractAdded];
    [reflexivity |].
  destruct a as [n|texts|]; [| | apply IH].
  - destruct (nodes (doc st) !! n) as [nd|]; [| apply IH].
    destruct (negb (isNodeProcessed st n) && isTranslatableText (textContent nd));
      [| apply IH].
    destruct (negb (shouldSkipElement (getElement (doc st) (parentElement nd))));
      [| apply IH].
    assert (Hd : doc (fst (recordNode n nd st)) = doc st) by reflexivity.
    destruct (recordNode n nd st) as [st1 item]. cbn [fst] in Hd.
    now rewrite IH.
  - pose proof (doc_extractTextNodes texts true st) as Hd.
    destruct (extractTextNodes texts true st) as [st1 items]. cbn [fst] in Hd.
    now rewrite IH.
Qed.

Lemma doc_extractNewTextNodes addedNodes st :
  doc (fst (extractNewTextNodes addedNodes st)) = doc st.
Proof.
  unfold extractNewTextNodes.
  pose proof (doc_extractAdded addedNodes st []) as Hd.
  now destruct (extractAdded addedNodes st []).
Qed.

(** ** Priority scorer: bounds and the weight of the viewport *)

Lemma tagScore_bounds tag : -50 <= tagScore tag <= 80.
Proof.
  unfold tagScore.
  repeat match goal with
         | |- context [if ?b then _ else _] => destruct b
         end; lia.
Qed.

Lemma lengthScore_bounds n : -20 <= lengthScore n <= 150.
Proof.
  unfold lengthScore.
  repeat match goal with
         | |- context [if ?b then _ else _] => destruct b
         end; lia.
Qed.

Lemma viewportScore_bounds d r : 0 <= viewportScore d r <= 10200.
Proof.
  unfold viewportScore. destruct (inViewport d r); [| lia].
  destruct (inTopHalf d r); lia.
Qed.

(** X1. The priority of a text node is at most 10930, and the viewport
    outweighs every other factor: a text whose parent element intersects
    the viewport scores strictly higher than any text whose parent element
    does not, or that has no parent element. *)
Theorem priority_bounded_and_viewport_dominates :
  (forall d n, calculatePriority d n <= 10930) /\
  (forall d n1 n2 p1,
      getElement d (parentElement n1) = Some p1 ->
      inViewport d (rect p1) = true ->
      match getElement d (parentElement n2) with
      | Some p2 => inViewport d (rect p2) = false
      | None => True
      end ->
      calculatePriority d n2 < calculatePriority d n1).
Proof.
  split.
  - intros d n. unfold calculatePriority.
    destruct (getElement d (parentElement n)) as [p|]; [| lia].
    pose proof (viewportScore_bounds d (rect p)).
    pose proof (lengthScore_bounds (Z.of_nat (String.length (trim (textContent n))))).
    pose proof (semanticScore_bounds (semanticWalk d 15 (parentElement n) false false)).
    pose proof (tagScore_bounds (tagName p)).
    destruct (farFromCenter d (rect p)); lia.
  - intros d n1 n2 p1 Hp1 Hin Hout.
    assert (H1 : 9530 <= calculatePriority d n1).
    { unfold calculatePriority. rewrite Hp1.
      pose proof (viewportScore_in _ _ Hin).
      pose proof (lengthScore_bounds (Z.of_nat (String.length (trim (textContent n1))))).
      pose proof (semanticScore_bounds (semanticWalk d 15 (parentElement n1) false false)).
      pose proof (tagScore_bounds (tagName p1)).
      destruct (farFromCenter d (rect p1)); lia. }
    assert (H2 : calculatePriority d n2 <= 730).
    { unfold calculatePriority.
      destruct (getElement d (parentElement n2)) as [p2|]; [| lia].
      rewrite (viewportScore_out _ _ Hout).
      pose proof (lengthScore_bounds (Z.of_nat (String.length (trim (textContent n2))))).
      pose proof (semanticScore_bounds (semanticWalk d 15 (parentElement n2) false false)).
      pose proof (tagScore_bounds (tagName p2)).
      destruct (farFromCenter d (rect p2)); lia. }
    lia.
Qed.

Lemma priority_bounded_and_viewport_dominates_witness :
  calculatePriority Sample.page Sample.shortLabel
  < calculatePriority Sample.page
      {| textContent := "ok"; parentElement := Some 5%nat |}.
Proof.
  apply (proj2 priority_bounded_and_viewport_dominates Sample.page
           {| textContent := "ok"; parentElement := Some 5%nat |} Sample.shortLabel
           (Sample.mkElement "H1" (Some 1%nat) (Sample.mkRect 10 100 800 60))).
  - reflexivity.
  - vm_compute. reflexivity.
  - vm_compute. reflexivity.
Defined.

(** ** Full extraction in closed form *)

Lemma acceptNode_ext st st' b n nd :
  doc st' = doc st -> translatedNodeSet st' = translatedNodeSet st ->
  acceptNode st' b n nd = acceptNode st b n nd.
Proof.
  intros Hd Hs. unfold acceptNode, isNodeProcessed. now rewrite Hd, Hs.
Qed.

Lemma acceptedNodes_ext st st' b candidates :
  doc st' = doc st -> translatedNodeSet st' = translatedNodeSet st ->
  acceptedNodes st' b candidates = acceptedNodes st b candidates.
Proof.
  intros Hd Hs. unfold acceptedNodes.
  induction candidates as [|n rest IH]; [reflexivity |].
  cbn [flat_map]. rewrite IH, Hd.
  destruct (nodes (doc st) !! n) as [nd|]; [| reflexivity].
  now rewrite (acceptNode_ext st st' b n nd Hd Hs).
Qed.

Lemma truthy_ne s : truthy s = true <-> s <> "".
Proof. destruct s; simpl; split; congruence. Qed.

Lemma existsb_eqb_In s l : existsb (String.eqb s) l = true <-> In s l.
Proof.
  rewrite existsb_exists. split.
  - intros (x & Hin & Heq). apply String.eqb_eq in Heq. now subst.
  - intros Hin. exists s. split; [exact Hin | apply String.eqb_refl].
Qed.

Lemma shouldSkipElement_false p :
  shouldSkipElement (Some p) = false <->
  tagName p <> "" /\ ~ In (tagName p) SKIP_TAGS /\ isContentEditable p = false /\
  translate_attr p <> Some "no" /\ el_id p <> "llm-translator-status".
Proof.
  unfold shouldSkipElement.
  destruct (truthy (tagName p)) eqn:Ht; cbn [negb].
  2:{ split; [discriminate |]. intros (H & _). apply truthy_ne in H. congruence. }
  apply truthy_ne in Ht.
  destruct (existsb (String.eqb (tagName p)) SKIP_TAGS) eqn:Hs.
  { apply existsb_eqb_In in Hs. split; [discriminate | tauto]. }
  assert (Hs' : ~ In (tagName p) SKIP_TAGS).
  { intros Hin. apply existsb_eqb_In in Hin. congruence. }
  destruct (isContentEditable p).
  { split; [discriminate |]. intros (_ & _ & H & _). discriminate. }
  destruct (translate_attr p) as [v|].
  - destruct (String.eqb_spec v "no") as [->|Hv].
    + split; [discriminate |]. intros (_ & _ & _ & H & _). congruence.
    + destruct (String.eqb_spec (el_id p) "llm-translator-status") as [He|He].
      * split; [discriminate | tauto].
      * split; [| reflexivity]. intros _. repeat split; try assumption. congruence.
  - destruct (String.eqb_spec (el_id p) "llm-translator-status") as [He|He].
    + split; [discriminate | tauto].
    + split; [| reflexivity]. intros _. repeat split; try assumption. discriminate.
Qed.

Lemma isTranslatableText_true text :
  isTranslatableText text = true <->
  (2 <= String.length (trim text))%nat /\ hasLetter (trim text) = true.
Proof.
  unfold isTranslatableText, MIN_TEXT_LENGTH.
  destruct text as [|c r]; cbn [truthy negb].
  - split; [discriminate |]. intros [H _]. simpl in H. lia.
  - destruct (Nat.ltb_spec (String.length (trim (String c r))) 2).
    + split; [discriminate |]. intros [H' _]. lia.
    + tauto.
Qed.

Lemma acceptNode_eligible st n nd :
  acceptNode st false n nd = true <-> eligible (doc st) nd.
Proof.
  unfold acceptNode, eligible. cbn [andb].
  destruct (getElement (doc st) (parentElement nd)) as [p|] eqn:Hp.
  2:{ cbn [shouldSkipElement]. split; [discriminate |].
      intros (_ & _ & p & H & _). discriminate. }
  destruct (shouldSkipElement (Some p)) eqn:Hskip.
  { split; [discriminate |]. intros (_ & _ & p' & H & H1 & H2 & H3 & H4 & H5 & _).
    inversion H; subst p'.
    assert (shouldSkipElement (Some p) = false) by (apply shouldSkipElement_false; tauto).
    congruence. }
  apply shouldSkipElement_false in Hskip.
  destruct (isTranslatableText (textContent nd)) eqn:Htr; cbn [negb].
  2:{ split; [discriminate |]. intros (H1 & H2 & _).
      assert (isTranslatableText (textContent nd) = true)
        by (apply isTranslatableText_true; tauto).
      congruence. }
  apply isTranslatableText_true in Htr.
  destruct (String.eqb_spec (display p) "none") as [Hd|Hd]; cbn [orb].
  { split; [discriminate |]. intros (_ & _ & p' & H & _ & _ & _ & _ & _ & H6 & _).
    inversion H; subst p'. contradiction. }
  destruct (String.eqb_spec (visibility p) "hidden") as [Hv|Hv].
  { split; [discriminate |]. intros (_ & _ & p' & H & _ & _ & _ & _ & _ & _ & H7).
    inversion H; subst p'. contradiction. }
  split; [| reflexivity]. intros _.
  split; [tauto |]. split; [tauto |]. exists p. tauto.
Qed.

Lemma acceptedNodes_In st b candidates n nd :
  In (n, nd) (acceptedNodes st b candidates) <->
  In n candidates /\ nodes (doc st) !! n = Some nd /\ acceptNode st b n nd = true.
Proof.
  unfold acceptedNodes. rewrite in_flat_map. split.
  - intros (x & Hin & Hx).
    destruct (nodes (doc st) !! x) as [nd'|] eqn:Hnd; [| contradiction].
    destruct (acceptNode st b x nd') eqn:Hacc; [| contradiction].
    destruct Hx as [Heq|[]]. inversion Heq; subst. auto.
  - intros (Hin & Hnd & Hacc). exists n. split; [exact Hin |].
    rewrite Hnd, Hacc. now left.
Qed.

Lemma length_entriesFrom accepted : forall k,
  length (entriesFrom k accepted) = length accepted.
Proof.
  induction accepted as [|[n nd] rest IH]; intros k; simpl; [reflexivity |].
  now rewrite IH.
Qed.

Lemma walkTextNodes_closed b candidates : forall st acc,
  keysBelow st ->
  textNodeMap (fst (walkTextNodes b candidates st acc))
  = textNodeMap st ++ entriesFrom (nextId st) (acceptedNodes st b candidates) /\
  snd (walkTextNodes b candidates st acc)
  = acc ++ itemsFrom (doc st) (nextId st) (acceptedNodes st b candidates) /\
  nextId (fst (walkTextNodes b candidates st acc))
  = (nextId st + length (acceptedNodes st b candidates))%nat /\
  doc (fst (walkTextNodes b candidates st acc)) = doc st /\
  translatedNodeSet (fst (walkTextNodes b candidates st acc)) = translatedNodeSet st.
Proof.
  induction candidates as [|n rest IH]; intros st acc Hb.
  - cbn. rewrite !app_nil_r, Nat.add_0_r. auto.
  - cbn [walkTextNodes]. unfold acceptedNodes. cbn [flat_map].
    fold (acceptedNodes st b rest).
    destruct (nodes (doc st) !! n) as [nd|]; [| now apply IH].
    destruct (acceptNode st b n nd) eqn:Hacc; [| now apply IH].
    destruct (recordNode_extends b n nd st Hb (acceptNode_not_processed _ _ _ _ Hacc))
      as [_ Hb'].
    assert (Hmap : textNodeMap (fst (recordNode n nd st))
                   = textNodeMap st
                     ++ [(nextId st, {| node := n; originalText := textContent nd;
                                        translated := false; translatedText := None |})]).
    { unfold recordNode. cbn. unfold Registry.set.
      rewrite has_fresh; [reflexivity |]. now apply keysBelow_fresh. }
    assert (Hitem : snd (recordNode n nd st)
                    = {| qi_id := nextId st; qi_text := trim (textContent nd);
                         qi_priority := calculatePriority (doc st) nd |})
      by reflexivity.
    assert (Hid : nextId (fst (recordNode n nd st)) = S (nextId st)) by reflexivity.
    assert (Hd : doc (fst (recordNode n nd st)) = doc st) by reflexivity.
    assert (Hs : translatedNodeSet (fst (recordNode n nd st)) = translatedNodeSet st)
      by reflexivity.
    destruct (recordNode n nd st) as [st1 item]. cbn [fst snd] in *.
    destruct (IH st1 (acc ++ [item]) Hb') as (H1 & H2 & H3 & H4 & H5).
    rewrite (acceptedNodes_ext st st1 b rest Hd Hs) in *.
    rewrite H1, H2, H3, H4, H5, Hmap, Hitem, Hid, Hd, Hs.
    cbn [app entriesFrom itemsFrom length]. rewrite <- !app_assoc.
    repeat split; try reflexivity. lia.
Qed.

(** X2. A full extraction leaves, whatever the registry held, exactly the
    eligible text nodes below the root in the registry: one entry per
    accepted node, in document order, under the ids 0, 1, 2, ..., with the
    node's text as original text and no translation; the work list is the
    priority-sorted list of their items; the processed set is empty and the
    document untouched.  A text node is accepted exactly when it is
    eligible. *)
Theorem full_extraction_closed_form root st :
  let accepted := acceptedNodes (clearRegistry st) false root in
  let r := extractTextNodes root false st in
  textNodeMap (fst r) = entriesFrom 0 accepted /\
  snd r = sortByPriority (itemsFrom (doc st) 0 accepted) /\
  nextId (fst r) = length accepted /\
  translatedNodeSet (fst r) = ∅ /\
  doc (fst r) = doc st /\
  (forall n nd, In (n, nd) accepted <->
                In n root /\ nodes (doc st) !! n = Some nd /\ eligible (doc st) nd).
Proof.
  intros accepted r. subst accepted r. unfold extractTextNodes.
  destruct (walkTextNodes_closed false root (clearRegistry st) []
              (keysBelow_clearRegistry st)) as (H1 & H2 & H3 & H4 & H5).
  destruct (walkTextNodes false root (clearRegistry st) []) as [st' items].
  cbn [fst snd] in *. rewrite H1, H2, H3, H4, H5.
  split_and!; try reflexivity.
  intros n nd. rewrite acceptedNodes_In, acceptNode_eligible. reflexivity.
Qed.

(** ** Incremental extraction of a bare text node *)

(** X3. The two branches of the incremental extractor disagree on hidden
    text.  For a text node that is not yet processed, is translatable and
    sits in a parent that is not skipped but is hidden ([display: none] or
    [visibility: hidden]): when the node arrives inside an added element,
    the walker rejects it and nothing is recorded; when the node itself is
    the added node, it is recorded under the next id and emitted, as the
    text-node branch does not look at the computed style. *)
Theorem added_text_node_is_extracted_though_hidden st n nd p :
  keysBelow st ->
  nodes (doc st) !! n = Some nd ->
  getElement (doc st) (parentElement nd) = Some p ->
  shouldSkipElement (Some p) = false ->
  isTranslatableText (textContent nd) = true ->
  n ∉ translatedNodeSet st ->
  display p = "none" \/ visibility p = "hidden" ->
  extractNewTextNodes [AddedElement [n]] st = (st, []) /\
  snd (extractNewTextNodes [AddedText n] st)
  = [{| qi_id := nextId st; qi_text := trim (textContent nd);
        qi_priority := calculatePriority (doc st) nd |}] /\
  Registry.get (textNodeMap (fst (extractNewTextNodes [AddedText n] st))) (nextId st)
  = Some {| node := n; originalText := textContent nd;
            translated := false; translatedText := None |}.
Proof.
  intros Hb Hnd Hp Hskip Htr Hnp Hhid.
  assert (Hproc : isNodeProcessed st n = false).
  { unfold isNodeProcessed. now apply bool_decide_eq_false. }
  split; [| split].
  - unfold extractNewTextNodes, extractAdded, extractTextNodes.
    cbn [walkTextNodes]. rewrite Hnd. unfold acceptNode.
    rewrite Hproc, Hp, Hskip, Htr. cbn [andb negb].
    destruct Hhid as [-> | ->]; cbn [String.eqb orb].
    + reflexivity.
    + rewrite orb_true_r. reflexivity.
  - unfold extractNewTextNodes, extractAdded. rewrite Hnd, Hproc, Htr, Hp, Hskip.
    reflexivity.
  - unfold extractNewTextNodes, extractAdded. rewrite Hnd, Hproc, Htr, Hp, Hskip.
    cbn. unfold Registry.set.
    rewrite has_fresh by (now apply keysBelow_fresh).
    rewrite get_app_fresh by (now apply keysBelow_fresh).
    cbn. now rewrite Nat.eqb_refl.
Qed.

Lemma added_text_node_is_extracted_though_hidden_witness :
  extractNewTextNodes [AddedElement [15%nat]] SampleHidden.extracted
  = (SampleHidden.extracted, []) /\
  snd (extractNewTextNodes [AddedText 15%nat] SampleHidden.extracted)
  = [{| qi_id := 5; qi_text := "Hidden words"; qi_priority := 460 |}].
Proof.
  destruct (added_text_node_is_extracted_though_hidden
              SampleHidden.extracted 15%nat SampleHidden.hiddenText
              SampleHidden.hiddenParagraph) as (H1 & H2 & _).
  - keysBelow_closed.
  - vm_compute. reflexivity.
  - vm_compute. reflexivity.
  - vm_compute. reflexivity.
  - vm_compute. reflexivity.
  - apply (proj1 (bool_decide_eq_false _)). vm_compute. reflexivity.
  - left. reflexivity.
  - split; [exact H1 |]. rewrite H2. vm_compute. reflexivity.
Defined.

(** ** The batch call under an arbitrary capability *)

Lemma handleOutcome_failure o textItems st :
  transportFailure o = true -> handleOutcome o textItems st = AttemptCaught.
Proof.
  destruct o as [|r]; [reflexivity |]. simpl. now intros ->.
Qed.

Lemma attemptLoop_fail_prefix Translator retries req st r : forall k remaining attempt,
  (k < remaining)%nat ->
  (attempt + remaining = retries)%nat ->
  (forall j, (attempt <= j < attempt + k)%nat ->
             transportFailure (Translator j req) = true) ->
  Translator (attempt + k)%nat req = Returns r ->
  truthyOpt (r_error r) = false ->
  attemptLoop Translator retries remaining attempt req st
  = (processResponse r (texts req) st,
     retrySchedule req attempt k ++ [ASend (attempt + k) req]).
Proof.
  induction k as [|k IH]; intros remaining attempt Hk Hsum Hfail HT Herr.
  - destruct remaining as [|rem]; [lia |]. cbn [attemptLoop].
    rewrite Nat.add_0_r in *. rewrite HT. unfold handleOutcome. rewrite Herr.
    destruct (processResponse r (texts req) st) as [st' res]. reflexivity.
  - destruct remaining as [|rem]; [lia |]. cbn [attemptLoop].
    rewrite handleOutcome_failure by (apply Hfail; lia).
    rewrite (IH rem (S attempt)); try lia; try exact Herr.
    + destruct (processResponse r (texts req) st) as [st' res].
      destruct (Nat.ltb_spec attempt (retries - 1)); [| lia].
      unfold retrySchedule. cbn [seq flat_map app].
      replace (S attempt + k)%nat with (attempt + S k)%nat by lia. reflexivity.
    + intros j Hj. apply Hfail. lia.
    + now replace (S attempt + k)%nat with (attempt + S k)%nat by lia.
Qed.

Lemma sends_retrySchedule req k : forall from,
  sends (retrySchedule req from k ++ [ASend (from + k) req]) = seq from (S k).
Proof.
  unfold retrySchedule.
  induction k as [|k IH]; intros from.
  - simpl. now rewrite Nat.add_0_r.
  - cbn [seq flat_map app sends]. fold sends.
    change (sends (ASend from req :: AWait (backoff from)
                   :: flat_map (fun j => [ASend j req; AWait (backoff j)]) (seq (S from) k)
                   ++ [ASend (from + S k) req]))
      with (from :: sends (flat_map (fun j => [ASend j req; AWait (backoff j)])
                             (seq (S from) k) ++ [ASend (from + S k) req])).
    replace (from + S k)%nat with (S from + k)%nat by lia.
    rewrite IH. reflexivity.
Qed.

Lemma waits_retrySchedule req k : forall from,
  waits (retrySchedule req from k ++ [ASend (from + k) req])
  = map backoff (seq from k).
Proof.
  unfold retrySchedule.
  induction k as [|k IH]; intros from.
  - reflexivity.
  - cbn [seq flat_map app map].
    change (waits (ASend from req :: AWait (backoff from)
                   :: flat_map (fun j => [ASend j req; AWait (backoff j)]) (seq (S from) k)
                   ++ [ASend (from + S k) req]))
      with (backoff from
            :: waits (flat_map (fun j => [ASend j req; AWait (backoff j)])
                        (seq (S from) k) ++ [ASend (from + S k) req])).
    replace (from + S k)%nat with (S from + k)%nat by lia.
    rewrite IH. reflexivity.
Qed.

(** X4. Transport failures before a success cost time, nothing else.  When
    the first [k] calls of the capability fail at the transport level
    ([k < retries]) and call [k] returns a response without top-level
    error, [translateBatch] sends [k + 1] requests, waits 500 ms, 1000 ms,
    ... after each of the failed ones, and returns the state and the
    result that processing this response on the state before the call
    gives: the failed attempts leave no trace in the state or in the
    counts. *)
Theorem translateBatch_succeeds_after_failures
    Translator textItems targetLanguage sourceLanguage retries st k r :
  textItems <> [] ->
  (k < retries)%nat ->
  let req := {| texts := textItems; targetLanguage := targetLanguage;
                sourceLanguage := pageLanguageFor sourceLanguage (doc st) |} in
  (forall j, (j < k)%nat -> transportFailure (Translator j req) = true) ->
  Translator k req = Returns r ->
  truthyOpt (r_error r) = false ->
  let out :=
    translateBatch Translator textItems targetLanguage sourceLanguage retries st in
  fst out = processResponse r textItems st /\
  snd out = retrySchedule req 0 k ++ [ASend k req] /\
  sends (snd out) = seq 0 (S k) /\
  waits (snd out) = map backoff (seq 0 k).
Proof.
  intros Hne Hk req Hfail HT Herr out.
  assert (Hout : out = (processResponse r textItems st,
                        retrySchedule req 0 k ++ [ASend (0 + k) req])).
  { subst out. unfold translateBatch. destruct textItems as [|x l]; [contradiction |].
    fold req.
    apply (attemptLoop_fail_prefix Translator retries req st r k retries 0%nat);
      try assumption; try lia.
    intros j Hj. apply Hfail. lia. }
  rewrite Hout. cbn [fst snd]. split; [reflexivity |]. split; [reflexivity |].
  split; [apply sends_retrySchedule | apply waits_retrySchedule].
Qed.

Lemma translateBatch_succeeds_after_failures_witness :
  let out :=
    translateBatch (flaky [Sample.hola]) [Sample.hello; Sample.world] "es" "auto" 3
      Sample.extracted in
  applied (snd (fst out)) = 1%nat /\
  failed (snd (fst out)) = [Sample.world] /\
  sends (snd out) = [0; 1; 2]%nat /\
  waits (snd out) = [500; 1000].
Proof.
  assert (Hne : [Sample.hello; Sample.world] <> []) by discriminate.
  destruct (translateBatch_succeeds_after_failures
              (flaky [Sample.hola]) [Sample.hello; Sample.world] "es" "auto" 3
              Sample.extracted 2
              {| r_error := None; r_translations := Some [Sample.hola] |} Hne)
    as (H1 & _ & H3 & H4).
  - lia.
  - intros j Hj. unfold flaky. destruct (Nat.ltb_spec j 2); [reflexivity | lia].
  - reflexivity.
  - reflexivity.
  - cbv zeta. rewrite H1, H3, H4. vm_compute. repeat split; reflexivity.
Defined.

Lemma attemptLoop_trace Translator retries req st : forall remaining attempt,
  (attempt + remaining = retries)%nat ->
  let acts := snd (attemptLoop Translator retries remaining attempt req st) in
  let n := length (sends acts) in
  sends acts = seq attempt n /\
  (n <= remaining)%nat /\
  (0 < remaining -> 0 < n)%nat /\
  waits acts = map backoff (seq attempt (n - 1)) /\
  Forall (ofCall req) acts.
Proof.
  induction remaining as [|rem IH]; intros attempt Hsum; cbv zeta.
  - cbn. repeat split; try lia. constructor.
  - rewrite attemptLoop_S.
    destruct (handleOutcome (Translator attempt req) (texts req) st) as [st' res|].
    + cbn. repeat split; try lia. repeat constructor.
    + specialize (IH (S attempt) ltac:(lia)).
      destruct rem as [|rem'].
      * cbn [attemptLoop] in *.
        destruct (Nat.ltb_spec attempt (retries - 1)); [lia |].
        cbn. repeat split; try lia. repeat constructor.
      * destruct (attemptLoop Translator retries (S rem') (S attempt) req st)
          as [[st' res] acts'].
        cbn [snd] in *. cbv zeta in IH.
        destruct IH as (Hs & Hle & Hpos & Hw & Hall).
        specialize (Hpos ltac:(lia)).
        destruct (Nat.ltb_spec attempt (retries - 1)); [| lia].
        change (sends (ASend attempt req :: [AWait (backoff attempt)] ++ acts'))
          with (attempt :: sends acts').
        change (waits (ASend attempt req :: [AWait (backoff attempt)] ++ acts'))
          with (backoff attempt :: waits acts').
        cbn [length]. rewrite Hw.
        destruct (length (sends acts')) as [|n'] eqn:Hn; [lia |].
        split; [| split; [| split; [| split]]].
        -- rewrite Hs. reflexivity.
        -- lia.
        -- lia.
        -- cbn [Nat.sub seq map]. rewrite Nat.sub_0_r. reflexivity.
        -- constructor; [reflexivity |]. constructor; [exact I | exact Hall].
Qed.

(** X5. Whatever the capability does, the trace of one [translateBatch]
    call has the same shape: its attempts are numbered 0, 1, 2, ... without
    a gap, there are at most [retries] of them, and none only for an empty
    batch or [retries = 0]; after each attempt but the last it waits
    500 ms times the number of that attempt counted from one; every send
    carries the same request, built from the items, the target language and
    the page language; and it answers no control message. *)
Theorem translateBatch_trace_shape
    Translator textItems targetLanguage sourceLanguage retries st :
  let req := {| texts := textItems; targetLanguage := targetLanguage;
                sourceLanguage := pageLanguageFor sourceLanguage (doc st) |} in
  let acts :=
    snd (translateBatch Translator textItems targetLanguage sourceLanguage retries st) in
  let n := length (sends acts) in
  sends acts = seq 0 n /\
  (n <= retries)%nat /\
  (n = 0%nat <-> textItems = [] \/ retries = 0%nat) /\
  waits acts = map backoff (seq 0 (n - 1)) /\
  Forall (ofCall req) acts.
Proof.
  intros req acts n. subst acts n. unfold translateBatch.
  destruct textItems as [|x l].
  - cbn. split_and!; try reflexivity; try lia; [tauto | constructor].
  - fold req.
    destruct (attemptLoop_trace Translator retries req st retries 0%nat eq_refl)
      as (Hs & Hle & Hpos & Hw & Hall).
    split; [exact Hs |]. split; [exact Hle |]. split; [| split; assumption].
    split.
    + intros H0. right. destruct retries; [reflexivity |].
      specialize (Hpos ltac:(lia)). lia.
    + intros [Hnil | Hr]; [discriminate |]. lia.
Qed.

(** ** What a batch call can do to the registry *)

Lemma replaceTextNode_keys id t st :
  Registry.keys (textNodeMap (fst (replaceTextNode id t st)))
  = Registry.keys (textNodeMap st).
Proof.
  unfold replaceTextNode.
  destruct (Registry.get (textNodeMap st) id) as [e|]; [| reflexivity].
  destruct (writeText (node e) _ (doc st)) as [d|]; [| reflexivity].
  cbn. apply keys_update.
Qed.

Lemma applyEntries_keys ts st :
  Registry.keys (textNodeMap (applyEntries ts st)) = Registry.keys (textNodeMap st).
Proof.
  induction ts as [|t ts IH] using rev_ind; [reflexivity |].
  rewrite applyEntries_snoc. destruct (usableText t); [| exact IH].
  now rewrite replaceTextNode_keys.
Qed.

Lemma applyEntries_nodes_dom ts st n :
  is_Some (nodes (doc (applyEntries ts st)) !! n) <-> is_Some (nodes (doc st) !! n).
Proof.
  induction ts as [|t ts IH] using rev_ind; [reflexivity |].
  rewrite applyEntries_snoc. destruct (usableText t); [| exact IH].
  now rewrite replaceTextNode_nodes_dom.
Qed.

Lemma failedWhileProcessing_requested st textItems ts item :
  In item (failedWhileProcessing st textItems ts) -> In item textItems.
Proof.
  unfold failedWhileProcessing. rewrite in_flat_map. intros (t & _ & Hin).
  assert (Hfound : forall x,
             In x match findItem textItems (t_id t) with
                  | Some i => [i] | None => [] end -> In x textItems).
  { intros x. unfold findItem.
    destruct (find _ textItems) as [i|] eqn:Hf; [| contradiction].
    intros [<-|[]]. now apply find_some in Hf. }
  destruct (usableText t).
  - destruct (writable st (t_id t)); [contradiction | now apply Hfound].
  - destruct (truthyOpt (t_error t)); [now apply Hfound | contradiction].
Qed.

Lemma attemptLoop_cases Translator retries req st : forall remaining attempt,
  fst (attemptLoop Translator retries remaining attempt req st)
  = (st, {| applied := 0; failed := texts req |})
  \/ exists r, fst (attemptLoop Translator retries remaining attempt req st)
               = processResponse r (texts req) st.
Proof.
  induction remaining as [|rem IH]; intros attempt.
  - left. reflexivity.
  - rewrite attemptLoop_S. unfold handleOutcome.
    destruct (Translator attempt req) as [|r].
    + specialize (IH (S attempt)).
      destruct (attemptLoop Translator retries rem (S attempt) req st) as [[st' res] acts].
      exact IH.
    + destruct (truthyOpt (r_error r)).
      * specialize (IH (S attempt)).
        destruct (attemptLoop Translator retries rem (S attempt) req st)
          as [[st' res] acts].
        exact IH.
      * right. exists r. now destruct (processResponse r (texts req) st).
Qed.

(** X6. Whatever the capability answers, a [translateBatch] call neither
    adds nor removes an id of the registry, never changes the node or the
    original text stored under an id, never makes a node inaccessible or
    accessible, and reports as failed only items it was asked to
    translate. *)
Theorem translateBatch_preserves_registry_shape
    Translator textItems targetLanguage sourceLanguage retries st :
  let out :=
    translateBatch Translator textItems targetLanguage sourceLanguage retries st in
  let st' := fst (fst out) in
  Registry.keys (textNodeMap st') = Registry.keys (textNodeMap st) /\
  nextId st' = nextId st /\
  (forall id,
     match Registry.get (textNodeMap st) id with
     | Some e =>
         exists e', Registry.get (textNodeMap st') id = Some e' /\
                    node e' = node e /\ originalText e' = originalText e
     | None => Registry.get (textNodeMap st') id = None
     end) /\
  (forall n, is_Some (nodes (doc st') !! n) <-> is_Some (nodes (doc st) !! n)) /\
  (forall item, In item (failed (snd (fst out))) -> In item textItems).
Proof.
  intros out st'. subst st' out. unfold translateBatch.
  assert (Hsame :
    Registry.keys (textNodeMap st) = Registry.keys (textNodeMap st) /\
    nextId st = nextId st /\
    (forall id,
       match Registry.get (textNodeMap st) id with
       | Some e =>
           exists e', Registry.get (textNodeMap st) id = Some e' /\
                      node e' = node e /\ originalText e' = originalText e
       | None => Registry.get (textNodeMap st) id = None
       end) /\
    (forall n, is_Some (nodes (doc st) !! n) <-> is_Some (nodes (doc st) !! n))).
  { split; [reflexivity |]. split; [reflexivity |]. split; [| tauto].
    intros id. destruct (Registry.get (textNodeMap st) id) as [e|] eqn:He; eauto. }
  destruct textItems as [|x l].
  - cbn [fst snd failed]. destruct Hsame as (H1 & H2 & H3 & H4).
    split_and!; try assumption. intros item [].
  - set (req := {| texts := x :: l; targetLanguage := targetLanguage;
                   sourceLanguage := pageLanguageFor sourceLanguage (doc st) |}).
    destruct (attemptLoop_cases Translator retries req st retries 0%nat) as [Heq | [r Heq]].
    + rewrite Heq. cbn [fst snd failed]. destruct Hsame as (H1 & H2 & H3 & H4).
      split_and!; try assumption. intros item Hin. exact Hin.
    + rewrite Heq, processResponse_closed. cbn [fst snd failed].
      split_and!.
      * apply applyEntries_keys.
      * apply control_nextId, control_applyEntries.
      * intros id. rewrite applyEntries_get.
        destruct (Registry.get (textNodeMap st) id) as [e|];
          destruct (lastApplied st id (translationsOf r)); cbn; eauto.
      * intros n. apply applyEntries_nodes_dom.
      * intros item Hin. apply in_app_or in Hin as [Hin | Hin].
        -- eapply failedWhileProcessing_requested, Hin.
        -- now apply filter_In in Hin.
Qed.

(** ** Accounting of a batch call *)

Lemma translateBatch_after_failures
    Translator textItems targetLanguage sourceLanguage retries st k r :
  textItems <> [] ->
  (k < retries)%nat ->
  (forall j, (j < k)%nat ->
     transportFailure
       (Translator j {| texts := textItems; targetLanguage := targetLanguage;
                        sourceLanguage := pageLanguageFor sourceLanguage (doc st) |})
     = true) ->
  Translator k {| texts := textItems; targetLanguage := targetLanguage;
                  sourceLanguage := pageLanguageFor sourceLanguage (doc st) |}
  = Returns r ->
  truthyOpt (r_error r) = false ->
  fst (translateBatch Translator textItems targetLanguage sourceLanguage retries st)
  = processResponse r textItems st.
Proof.
  intros Hne Hk Hfail HT Herr. unfold translateBatch.
  destruct textItems as [|x l]; [contradiction |].
  rewrite (attemptLoop_fail_prefix Translator retries _ st r k retries 0%nat);
    try assumption; try lia; [reflexivity |].
  intros j Hj. apply Hfail. lia.
Qed.

Lemma NoDup_map_filter {A B} (g : A -> B) (f : A -> bool) l :
  List.NoDup (map g l) -> List.NoDup (map g (List.filter f l)).
Proof.
  induction l as [|x l IH]; simpl; intros Hnd; [constructor |].
  apply List.NoDup_cons_iff in Hnd as [Hx Hnd].
  destruct (f x); [| now apply IH]. simpl. constructor; [| now apply IH].
  intros Hin. apply Hx. apply in_map_iff in Hin as (y & Hy & Hin).
  apply filter_In in Hin as [Hin _]. apply in_map_iff. eauto.
Qed.

Lemma received_In (ids : list nat) k :
  bool_decide (k ∈ (list_to_set ids ∪ ∅ : gset nat)) = true <-> In k ids.
Proof.
  rewrite bool_decide_eq_true, elem_of_union, elem_of_list_to_set, list_elem_of_In.
  split; [intros [H|H]; [exact H | set_solver] | auto].
Qed.

Lemma length_filter_received textItems (ids : list nat) :
  List.NoDup (map qi_id textItems) ->
  List.NoDup ids ->
  (forall k, In k ids -> In k (map qi_id textItems)) ->
  length (List.filter
            (fun item => bool_decide (qi_id item ∈ (list_to_set ids ∪ ∅ : gset nat)))
            textItems)
  = length ids.
Proof.
  intros Hitems Hids Hsub.
  rewrite <- (length_map qi_id).
  apply Permutation_length, Permutation.NoDup_Permutation.
  - now apply NoDup_map_filter.
  - exact Hids.
  - intros k. rewrite in_map_iff. split.
    + intros (item & <- & Hin). apply filter_In in Hin as [_ Hin].
      now apply received_In in Hin.
    + intros Hin. destruct (proj1 (in_map_iff _ _ _) (Hsub k Hin)) as (item & <- & Hi).
      exists item. split; [reflexivity |]. apply filter_In. split; [exact Hi |].
      now apply received_In.
Qed.

Lemma usableText_None_not_blank t :
  usableText t = None -> blank t = false -> truthyOpt (t_error t) = true.
Proof.
  unfold usableText, blank.
  destruct (truthyOpt (t_error t)); [reflexivity |].
  destruct (t_text t) as [text|]; [| discriminate].
  destruct (truthy text); discriminate.
Qed.

Lemma length_failedWhileProcessing st textItems ts :
  (forall t, In t ts -> requested textItems (t_id t) /\ blank t = false) ->
  (length (failedWhileProcessing st textItems ts)
   + length (List.filter (applicable st) ts))%nat
  = length ts.
Proof.
  unfold failedWhileProcessing.
  induction ts as [|t ts IH]; intros Hok; [reflexivity |].
  cbn [flat_map List.filter]. rewrite length_app.
  specialize (IH (fun t' Hin => Hok t' (or_intror Hin))).
  destruct (Hok t (or_introl eq_refl)) as [Hreq Hnb].
  destruct (findItem_Some textItems (t_id t) Hreq) as (item & -> & _).
  assert (Happ : applicable st t
                 = match usableText t with
                   | Some _ => writable st (t_id t)
                   | None => false
                   end) by reflexivity.
  rewrite Happ.
  destruct (usableText t) as [text|] eqn:Hu.
  - destruct (writable st (t_id t)); cbn [length]; lia.
  - rewrite (usableText_None_not_blank t Hu Hnb). cbn [length]. lia.
Qed.

(** X7. When the response that ends a [translateBatch] call is well
    formed for the request, every requested item is accounted for exactly
    once.  Let the first [k] calls fail at the transport level and call [k]
    return a response without top-level error whose entries have pairwise
    distinct ids, all of them requested, and each either a non-empty text
    or a per-item error; let the requested ids be pairwise distinct.  Then
    [applied] plus the number of [failed] items is the number of requested
    items. *)
Theorem translateBatch_accounts_for_every_item
    Translator textItems targetLanguage sourceLanguage retries st k r :
  textItems <> [] ->
  (k < retries)%nat ->
  let req := {| texts := textItems; targetLanguage := targetLanguage;
                sourceLanguage := pageLanguageFor sourceLanguage (doc st) |} in
  (forall j, (j < k)%nat -> transportFailure (Translator j req) = true) ->
  Translator k req = Returns r ->
  truthyOpt (r_error r) = false ->
  List.NoDup (map qi_id textItems) ->
  List.NoDup (map t_id (translationsOf r)) ->
  (forall t, In t (translationsOf r) ->
             requested textItems (t_id t) /\ blank t = false) ->
  let res :=
    snd (fst (translateBatch Translator textItems targetLanguage sourceLanguage
                retries st)) in
  (applied res + length (failed res))%nat = length textItems.
Proof.
  intros Hne Hk req Hfail HT Herr Hitems Hids Hok res. subst res.
  rewrite (translateBatch_after_failures _ _ _ _ _ _ k r Hne Hk Hfail HT Herr).
  rewrite processResponse_closed. cbn [snd applied failed].
  rewrite length_app.
  pose proof (length_failedWhileProcessing st textItems (translationsOf r) Hok) as H1.
  pose proof (List.filter_length
                (fun item => bool_decide
                   (qi_id item ∈ (list_to_set (map t_id (translationsOf r)) ∪ ∅
                                  : gset nat))) textItems) as H2.
  pose proof (length_filter_received textItems (map t_id (translationsOf r))
                Hitems Hids) as H3.
  rewrite length_map in H3. rewrite H3 in H2.
  - lia.
  - intros id Hin. apply in_map_iff in Hin as (t & <- & Hin).
    exact (proj1 (Hok t Hin)).
Qed.

Lemma translateBatch_accounts_for_every_item_witness :
  let res :=
    snd (fst (translateBatch (flaky [Sample.hola]) [Sample.hello; Sample.world]
                "es" "auto" 3 Sample.extracted)) in
  (applied res + length (failed res))%nat = 2%nat.
Proof.
  assert (Hne : [Sample.hello; Sample.world] <> []) by discriminate.
  apply (translateBatch_accounts_for_every_item
           (flaky [Sample.hola]) [Sample.hello; Sample.world] "es" "auto" 3
           Sample.extracted 2
           {| r_error := None; r_translations := Some [Sample.hola] |} Hne).
  - lia.
  - intros j Hj. unfold flaky. destruct (Nat.ltb_spec j 2); [reflexivity | lia].
  - reflexivity.
  - reflexivity.
  - repeat constructor; simpl; intuition discriminate.
  - repeat constructor; simpl; intuition discriminate.
  - intros t [<- | []]. split; [| reflexivity]. left. reflexivity.
Defined.

(** ** A response entry without text and without error *)

Lemma lastApplied_None st id ts :
  (forall t, In t ts -> t_id t = id -> applicable st t = false) ->
  lastApplied st id ts = None.
Proof.
  induction ts as [|t ts IH] using rev_ind; intros Hno; [reflexivity |].
  rewrite lastApplied_snoc.
  destruct (Nat.eqb_spec (t_id t) id) as [Heq|Hne]; cbn [andb].
  - rewrite (Hno t) by (auto using in_or_app, in_eq).
    apply IH. intros t' Hin. apply Hno, in_or_app. now left.
  - apply IH. intros t' Hin. apply Hno, in_or_app. now left.
Qed.

Lemma blank_usableText t : blank t = true -> usableText t = None /\ truthyOpt (t_error t) = false.
Proof.
  unfold blank, usableText.
  destruct (truthyOpt (t_error t)); [discriminate |]. cbn [negb andb].
  destruct (t_text t) as [text|]; [| auto].
  destruct (truthy text); [discriminate | auto].
Qed.

(** X8. An item that the response answers only with entries that carry
    neither a per-item error nor a non-empty text is dropped silently:
    when the call that ends [translateBatch] returns such a response, the
    item's id is not among the [failed] items, although its registry entry
    is exactly as before the call (nothing was applied for it).  The run
    therefore never retries it. *)
Theorem translateBatch_drops_blank_entries
    Translator textItems targetLanguage sourceLanguage retries st k r id :
  textItems <> [] ->
  (k < retries)%nat ->
  let req := {| texts := textItems; targetLanguage := targetLanguage;
                sourceLanguage := pageLanguageFor sourceLanguage (doc st) |} in
  (forall j, (j < k)%nat -> transportFailure (Translator j req) = true) ->
  Translator k req = Returns r ->
  truthyOpt (r_error r) = false ->
  (exists t, In t (translationsOf r) /\ t_id t = id) ->
  (forall t, In t (translationsOf r) -> t_id t = id -> blank t = true) ->
  let out :=
    translateBatch Translator textItems targetLanguage sourceLanguage retries st in
  ~ In id (map qi_id (failed (snd (fst out)))) /\
  Registry.get (textNodeMap (fst (fst out))) id = Registry.get (textNodeMap st) id.
Proof.
  intros Hne Hk req Hfail HT Herr (t0 & Hin0 & Hid0) Hblank out. subst out.
  rewrite (translateBatch_after_failures _ _ _ _ _ _ k r Hne Hk Hfail HT Herr).
  rewrite processResponse_closed. cbn [fst snd failed]. split.
  - rewrite map_app, in_app_iff. intros [Hin | Hin].
    + apply in_map_iff in Hin as (item & Hid & Hin).
      unfold failedWhileProcessing in Hin. apply in_flat_map in Hin as (t & Ht & Hin).
      assert (Htid : t_id t = id).
      { unfold findItem in Hin.
        destruct (find _ textItems) as [i|] eqn:Hf.
        - apply find_some in Hf as [_ Hi]. apply Nat.eqb_eq in Hi.
          destruct (usableText t);
            [destruct (writable st (t_id t)) | destruct (truthyOpt (t_error t))];
            try contradiction; destruct Hin as [<- | []]; congruence.
        - destruct (usableText t);
            [destruct (writable st (t_id t)) | destruct (truthyOpt (t_error t))];
            contradiction. }
      destruct (blank_usableText t (Hblank t Ht Htid)) as [Hu He].
      rewrite Hu, He in Hin. contradiction.
    + apply in_map_iff in Hin as (item & Hid & Hin).
      apply filter_In in Hin as [_ Hin]. apply negb_true_iff in Hin.
      assert (Hrec : bool_decide
                (qi_id item ∈ (list_to_set (map t_id (translationsOf r)) ∪ ∅ : gset nat))
              = true).
      { apply received_In. rewrite Hid, <- Hid0. now apply in_map. }
      congruence.
  - rewrite applyEntries_get, lastApplied_None; [reflexivity |].
    intros t Ht Htid. unfold applicable.
    now rewrite (proj1 (blank_usableText t (Hblank t Ht Htid))).
Qed.

Lemma translateBatch_drops_blank_entries_witness :
  let out :=
    translateBatch
      (Sample.stub [Sample.hola; {| t_id := 2; t_text := Some ""; t_error := None |}])
      [Sample.hello; Sample.world] "es" "auto" 3 Sample.extracted in
  applied (snd (fst out)) = 1%nat /\
  failed (snd (fst out)) = [] /\
  Registry.get (textNodeMap (fst (fst out))) 2
  = Registry.get (textNodeMap Sample.extracted) 2.
Proof.
  assert (Hne : [Sample.hello; Sample.world] <> []) by discriminate.
  destruct (translateBatch_drops_blank_entries
              (Sample.stub [Sample.hola; {| t_id := 2; t_text := Some ""; t_error := None |}])
              [Sample.hello; Sample.world] "es" "auto" 3 Sample.extracted 0
              {| r_error := None;
                 r_translations :=
                   Some [Sample.hola; {| t_id := 2; t_text := Some ""; t_error := None |}] |}
              2%nat Hne) as [_ Hget].
  - lia.
  - intros j Hj. lia.
  - reflexivity.
  - reflexivity.
  - eexists. split; [right; left; reflexivity | reflexivity].
  - intros t [<- | [<- | []]]; [discriminate | reflexivity].
  - cbv zeta. split; [vm_compute; reflexivity |]. split; [vm_compute; reflexivity |].
    exact Hget.
Defined.

(** ** Writing a translation and taking it back *)

Lemma allWhiteSpace_trimStart s : allWhiteSpace s = true -> trimStart s = EmptyString.
Proof.
  induction s as [|c r IH]; [reflexivity |]. simpl.
  destruct (isWhiteSpace c); [exact IH | discriminate].
Qed.

Lemma isTranslatableText_not_blank s :
  isTranslatableText s = true -> allWhiteSpace s = false.
Proof.
  intros Htr. apply isTranslatableText_true in Htr as [Hlen _].
  destruct (allWhiteSpace s) eqn:Hall; [| reflexivity].
  unfold trim in Hlen. rewrite (allWhiteSpace_trimStart s Hall) in Hlen.
  simpl in Hlen. lia.
Qed.

Lemma replaceTextNode_unfold id t st e nd :
  Registry.get (textNodeMap st) id = Some e ->
  nodes (doc st) !! node e = Some nd ->
  fst (replaceTextNode id t st)
  = set_translatedNodeSet ({[node e]} ∪ translatedNodeSet st)
      (set_textNodeMap (Registry.update id (markTranslated t) (textNodeMap st))
         (set_doc
            (markParent (showGlow st) (node e)
               (set_nodes
                  (<[node e :=
                       {| textContent :=
                            (leadingSpace (originalText e) ++ t
                             ++ trailingSpace (originalText e))%string;
                          parentElement := parentElement nd |}]> (nodes (doc st)))
                  (doc st))) st)).
Proof.
  intros Hget Hnd. unfold replaceTextNode. rewrite Hget.
  now rewrite (writeText_Some _ _ _ _ Hnd).
Qed.

(** X9. Writing back the text that was extracted changes nothing on the
    page.  For an entry whose original text is translatable (as the text
    of every extracted entry is) and whose node can be written,
    [replaceTextNode] with the trimmed original text, which is the text
    the extractor emits for it, leaves the node showing the original text,
    white space included; the text of every other node is as before, and so
    is every other entry of the registry. *)
Theorem replaceTextNode_identity_keeps_text st id e :
  Registry.get (textNodeMap st) id = Some e ->
  is_Some (nodes (doc st) !! node e) ->
  isTranslatableText (originalText e) = true ->
  let st' := fst (replaceTextNode id (trim (originalText e)) st) in
  shownText (doc st') (node e) = Some (originalText e) /\
  (forall n, n <> node e -> shownText (doc st') n = shownText (doc st) n) /\
  (forall id', id' <> id ->
     Registry.get (textNodeMap st') id' = Registry.get (textNodeMap st) id').
Proof.
  intros Hget [nd Hnd] Htr st'. subst st'.
  rewrite (replaceTextNode_unfold _ _ _ _ _ Hget Hnd). cbn.
  split; [| split].
  - unfold shownText. rewrite nodes_markParent. cbn.
    rewrite lookup_insert_eq. cbn.
    now rewrite <- (leading_trim_trailing _ (isTranslatableText_not_blank _ Htr)).
  - intros n Hn. unfold shownText. rewrite nodes_markParent. cbn.
    now rewrite lookup_insert_ne by congruence.
  - intros id' Hne. now apply get_update_ne.
Qed.

Lemma replaceTextNode_identity_keeps_text_witness :
  shownText (doc (fst (replaceTextNode 0 "Title" Sample.extracted))) 12
  = Some " Title ".
Proof.
  refine (proj1 (replaceTextNode_identity_keeps_text
                   Sample.extracted 0 Sample.headingEntry eq_refl _ _)).
  - exists {| textContent := " Title "; parentElement := Some 5%nat |}. reflexivity.
  - reflexivity.
Defined.

Lemma In_update k f m j e' :
  In (j, e') (Registry.update k f m) ->
  In (j, e') m \/ exists e0, Registry.get m k = Some e0 /\ e' = f e0.
Proof.
  induction m as [|[k' e] m IH]; simpl; [tauto |].
  destruct (Nat.eqb_spec k' k) as [->|Hne]; simpl.
  - intros [[= <- <-] | Hin]; [right; eauto | left; now right].
  - intros [Heq | Hin]; [left; now left |].
    destruct (IH Hin) as [H | H]; [left; now right | right; exact H].
Qed.

Lemma update_In k f m e :
  Registry.get m k = Some e -> In (k, f e) (Registry.update k f m).
Proof.
  induction m as [|[k' e'] m IH]; simpl; [discriminate |].
  destruct (Nat.eqb_spec k' k) as [->|Hne]; simpl.
  - intros [= ->]. now left.
  - intros Hget. right. now apply IH.
Qed.

Lemma elems_writeText n s d d' : writeText n s d = Some d' -> elems d' = elems d.
Proof.
  unfold writeText. destruct (nodes d !! n); [| discriminate]. now intros [= <-].
Qed.

Lemma restoreOriginalLoop_elems m : forall d s,
  elems (fst (restoreOriginalLoop m d s)) = elems d.
Proof.
  induction m as [|[k e] m IH]; intros d s; cbn [restoreOriginalLoop]; [reflexivity |].
  destruct (translated e); [| apply IH].
  destruct (writeText (node e) (originalText e) d) as [d'|] eqn:Hw; [| apply IH].
  rewrite IH. exact (elems_writeText _ _ _ _ Hw).
Qed.

Lemma restoreOriginalLoop_subset m : forall d s,
  snd (restoreOriginalLoop m d s) ⊆ s.
Proof.
  induction m as [|[k e] m IH]; intros d s; cbn [restoreOriginalLoop]; [set_solver |].
  destruct (translated e); [| apply IH].
  destruct (writeText (node e) (originalText e) d) as [d'|]; [| apply IH].
  specialize (IH d' (s ∖ {[node e]})). set_solver.
Qed.

Lemma restoreOriginalLoop_removes m k e : forall d s,
  In (k, e) m -> translated e = true -> is_Some (nodes d !! node e) ->
  node e ∉ snd (restoreOriginalLoop m d s).
Proof.
  induction m as [|[k' e'] m IH]; intros d s Hin Ht Hlive; [contradiction |].
  cbn [restoreOriginalLoop]. destruct Hin as [[= -> ->] | Hin].
  - rewrite Ht.
    destruct (writeText_is_Some (node e) (originalText e) d Hlive) as [d' Hw].
    rewrite Hw.
    pose proof (restoreOriginalLoop_subset m d' (s ∖ {[node e]})). set_solver.
  - destruct (translated e'); [| now apply IH].
    destruct (writeText (node e') (originalText e') d) as [d'|] eqn:Hw; [| now apply IH].
    apply IH; [exact Hin | exact Ht |].
    exact (proj2 (writeText_live _ _ _ _ (node e) Hw) Hlive).
Qed.

(** X10. [restoreOriginalText] takes back what [replaceTextNode] wrote.
    For an entry whose node can be written and shares its node with no
    translated entry of another original text: after [replaceTextNode] and
    then [restoreOriginalText], the node shows the entry's original text
    again and is no longer in the processed set, while the entry keeps its
    translation for a later toggle.  The elements are left as the write
    marked them, glow included, and the page no longer shows translations
    nor watches for new content. *)
Theorem restoreOriginalText_undoes_replaceTextNode st id e t :
  Registry.get (textNodeMap st) id = Some e ->
  is_Some (nodes (doc st) !! node e) ->
  (forall k e', In (k, e') (textNodeMap st) -> node e' = node e ->
                translated e' = true -> originalText e' = originalText e) ->
  let st1 := fst (replaceTextNode id t st) in
  let st2 := restoreOriginalText st1 in
  shownText (doc st2) (node e) = Some (originalText e) /\
  (node e ∉ translatedNodeSet st2) /\
  Registry.get (textNodeMap st2) id = Some (markTranslated t e) /\
  elems (doc st2) = elems (doc st1) /\
  isShowingTranslations st2 = false /\
  autoTranslateEnabled st2 = false.
Proof.
  intros Hget [nd Hnd] Hsame st1 st2.
  assert (Hmap1 : textNodeMap st1
                  = Registry.update id (markTranslated t) (textNodeMap st)).
  { subst st1. now rewrite (replaceTextNode_unfold _ _ _ _ _ Hget Hnd). }
  assert (Hlive1 : is_Some (nodes (doc st1) !! node e)).
  { subst st1. apply replaceTextNode_nodes_dom. eauto. }
  assert (Hin1 : In (id, markTranslated t e) (textNodeMap st1)).
  { rewrite Hmap1. now apply update_In. }
  subst st2. rewrite restoreOriginalText_textNodeMap, restoreOriginalText_doc.
  split_and!.
  - destruct (restoreOriginalLoop_shown (node e) (textNodeMap st1) (doc st1)
                (translatedNodeSet st1) Hlive1) as [-> _].
    destruct (lastWrite_cases originalWrite (node e) (textNodeMap st1)
                (shownText (doc st1) (node e)))
      as [[_ Hnone] | (k & e' & s & Hin & Hn & Hw & ->)].
    + specialize (Hnone id (markTranslated t e) Hin1 eq_refl). discriminate.
    + unfold originalWrite in Hw. destruct (translated e') eqn:Hte; [| discriminate].
      injection Hw as <-. f_equal.
      rewrite Hmap1 in Hin. apply In_update in Hin as [Hin | (e0 & Hget0 & ->)].
      * exact (Hsame k e' Hin Hn Hte).
      * rewrite Hget in Hget0. now injection Hget0 as <-.
  - unfold restoreOriginalText.
    pose proof (restoreOriginalLoop_removes (textNodeMap st1) id (markTranslated t e)
                  (doc st1) (translatedNodeSet st1) Hin1 eq_refl Hlive1) as Hrem.
    destruct (restoreOriginalLoop (textNodeMap st1) (doc st1) (translatedNodeSet st1))
      as [d s]. exact Hrem.
  - rewrite Hmap1, get_update_eq, Hget. reflexivity.
  - apply restoreOriginalLoop_elems.
  - unfold restoreOriginalText.
    now destruct (restoreOriginalLoop (textNodeMap st1) (doc st1) (translatedNodeSet st1)).
  - unfold restoreOriginalText.
    now destruct (restoreOriginalLoop (textNodeMap st1) (doc st1) (translatedNodeSet st1)).
Qed.

Lemma restoreOriginalText_undoes_replaceTextNode_witness :
  let st2 := restoreOriginalText (fst (replaceTextNode 0 "Titel" Sample.extracted)) in
  (shownText (doc st2) 12 = Some " Title ") /\
  (12%nat ∉ translatedNodeSet st2).
Proof.
  destruct (restoreOriginalText_undoes_replaceTextNode
              Sample.extracted 0 Sample.headingEntry "Titel" eq_refl)
    as (H1 & H2 & _).
  - exists {| textContent := " Title "; parentElement := Some 5%nat |}. reflexivity.
  - intros k e' Hin Hn Ht. vm_compute in Hin.
    repeat (destruct Hin as [[= <- <-] | Hin]; [discriminate Ht |]). contradiction.
  - split; [exact H1 | exact H2].
Defined.

(** ** The toggle handler *)

Lemma restoreOriginalText_view st :
  isShowingTranslations (restoreOriginalText st) = false /\
  hasTranslationCache (restoreOriginalText st) = hasTranslationCache st /\
  autoTranslateEnabled (restoreOriginalText st) = false /\
  mutationObserver (restoreOriginalText st) = false /\
  pendingNewNodes (restoreOriginalText st) = [].
Proof.
  unfold restoreOriginalText.
  destruct (restoreOriginalLoop (textNodeMap st) (doc st) (translatedNodeSet st)).
  repeat split.
Qed.

Lemma restoreCachedTranslations_view st :
  hasTranslationCache st = true ->
  isShowingTranslations (fst (restoreCachedTranslations st)) = true /\
  hasTranslationCache (fst (restoreCachedTranslations st)) = true.
Proof.
  intros Hc. unfold restoreCachedTranslations. rewrite Hc. cbn [negb].
  destruct (restoreCachedLoop (textNodeMap st) (doc st) (translatedNodeSet st) 0%nat)
    as [[[m d] s] c].
  split; [reflexivity | exact Hc].
Qed.

(** X11. The toggle handler answers with the view it leaves behind.  Its
    reply carries the values of [isShowingTranslations] and
    [hasTranslationCache] of the state after the turn; the page shows
    translations afterwards exactly when it showed the original before and
    a translation cache exists; the cache flag is never changed; toggling
    to the original stops the watcher for new content and drops its
    buffer; and with a cache, toggling twice brings the view flag back. *)
Theorem toggle_reply_mirrors_view m :
  let m' := fst (step EvToggle m) in
  snd (step EvToggle m)
  = [ARespond (RShowing (isShowingTranslations (globals m'))
                 (hasTranslationCache (globals m')))] /\
  isShowingTranslations (globals m')
  = negb (isShowingTranslations (globals m)) && hasTranslationCache (globals m) /\
  hasTranslationCache (globals m') = hasTranslationCache (globals m) /\
  (isShowingTranslations (globals m) = true ->
   autoTranslateEnabled (globals m') = false /\ pendingNewNodes (globals m') = []) /\
  (hasTranslationCache (globals m) = true ->
   isShowingTranslations (globals (fst (step EvToggle m')))
   = isShowingTranslations (globals m)).
Proof.
  assert (Hone : forall m0,
    let m' := fst (step EvToggle m0) in
    snd (step EvToggle m0)
    = [ARespond (RShowing (isShowingTranslations (globals m'))
                   (hasTranslationCache (globals m')))] /\
    isShowingTranslations (globals m')
    = negb (isShowingTranslations (globals m0)) && hasTranslationCache (globals m0) /\
    hasTranslationCache (globals m') = hasTranslationCache (globals m0) /\
    (isShowingTranslations (globals m0) = true ->
     autoTranslateEnabled (globals m') = false /\ pendingNewNodes (globals m') = [])).
  { intros m0. cbn [step].
    destruct (isShowingTranslations (globals m0)) eqn:Hs.
    - destruct (restoreOriginalText_view (globals m0)) as (H1 & H2 & H3 & H4 & H5).
      cbn. rewrite H1, H2, H3, H5. auto.
    - destruct (hasTranslationCache (globals m0)) eqn:Hc.
      + destruct (restoreCachedTranslations_view (globals m0) Hc) as (H1 & H2).
        cbn. rewrite H1, H2. split_and!; try reflexivity. discriminate.
      + cbn. rewrite Hs, Hc. split_and!; try reflexivity. discriminate. }
  intros m'. subst m'.
  destruct (Hone m) as (H1 & H2 & H3 & H4).
  split_and!; try assumption.
  intros Hc. destruct (Hone (fst (step EvToggle m))) as (_ & H2' & _).
  rewrite H2', H3, H2, Hc.
  now destruct (isShowingTranslations (globals m)).
Qed.

(** ** The view flags along the turns of the event loop *)

Lemma reachable_run evs : forall m, reachable m -> reachable (fst (run evs m)).
Proof.
  induction evs as [|ev rest IH]; intros m Hr; [exact Hr |].
  cbn [run]. pose proof (reachable_step m ev Hr) as Hr'.
  destruct (step ev m) as [m' acts]. cbn [fst] in Hr'.
  specialize (IH m' Hr'). now destruct (run rest m').
Qed.

Lemma cacheKept_refl st : cacheKept st st.
Proof. split; auto. Qed.

Lemma cacheKept_trans st st1 st2 :
  cacheKept st st1 -> cacheKept st1 st2 -> cacheKept st st2.
Proof. intros [H1 H2] [H3 H4]. split; auto. Qed.

Lemma cacheKept_same st st' :
  hasTranslationCache st' = hasTranslationCache st ->
  isShowingTranslations st' = isShowingTranslations st ->
  cacheKept st st'.
Proof. unfold cacheKept, viewCoherent. intros -> ->. auto. Qed.

Lemma cacheKept_settings st st' : settings st' = settings st -> cacheKept st st'.
Proof. unfold settings. intros H. apply cacheKept_same; congruence. Qed.

Lemma cacheKept_finishRun st : cacheKept st (globals (finishRun st)).
Proof. now apply cacheKept_same. Qed.

Lemma cacheKept_completeRun l st : cacheKept st (globals (completeRun l st)).
Proof.
  unfold completeRun.
  eapply cacheKept_trans; [| apply cacheKept_finishRun].
  destruct (0 <? totalApplied l)%nat, (enableAutoTranslate l);
    unfold cacheKept, viewCoherent; cbn; auto.
Qed.

Lemma cacheKept_retryLoopHead l ra st :
  cacheKept st (globals (fst (retryLoopHead l ra st))).
Proof.
  unfold retryLoopHead. destruct (_ && _ && _); cbn [fst globals].
  - now apply cacheKept_same.
  - apply cacheKept_completeRun.
Qed.

Lemma cacheKept_retryFor l ra its i st :
  cacheKept st (globals (fst (retryFor l ra its i st))).
Proof.
  unfold retryFor.
  destruct (translationCancelled st); [apply cacheKept_retryLoopHead |].
  destruct (skipn i its); [apply cacheKept_retryLoopHead |].
  cbn. apply cacheKept_refl.
Qed.

Lemma cacheKept_afterDrain l st : cacheKept st (globals (fst (afterDrain l st))).
Proof.
  unfold afterDrain. destruct (negb (translationCancelled st)).
  - apply cacheKept_retryLoopHead.
  - apply cacheKept_finishRun.
Qed.

Lemma cacheKept_drainLoop l st : cacheKept st (globals (fst (drainLoop l st))).
Proof.
  unfold drainLoop.
  destruct (translationCancelled st); [apply cacheKept_afterDrain |].
  destruct (pendingTranslationQueue st); [apply cacheKept_afterDrain |].
  cbn. now apply cacheKept_same.
Qed.

Lemma cacheKept_resume t res st : cacheKept st (globals (fst (resume t res st))).
Proof.
  destruct t; cbn [resume].
  - unfold drainResumed. destruct (translationCancelled st).
    + eapply cacheKept_trans; [| apply cacheKept_afterDrain]. now apply cacheKept_same.
    + apply cacheKept_drainLoop.
  - cbn. apply cacheKept_refl.
  - apply cacheKept_retryFor.
  - cbn. now apply cacheKept_same.
Qed.

Lemma cacheKept_restoreOriginalText st : cacheKept st (restoreOriginalText st).
Proof.
  destruct (restoreOriginalText_view st) as (H1 & H2 & _).
  unfold cacheKept, viewCoherent. rewrite H1, H2. split; [auto | discriminate].
Qed.

Lemma cacheKept_restoreCachedTranslations st :
  cacheKept st (fst (restoreCachedTranslations st)).
Proof.
  destruct (hasTranslationCache st) eqn:Hc.
  - destruct (restoreCachedTranslations_view st Hc) as [H1 H2].
    unfold cacheKept, viewCoherent. rewrite H2. auto.
  - unfold restoreCachedTranslations. rewrite Hc. apply cacheKept_refl.
Qed.

Lemma cacheKept_step ev m : cacheKept (globals m) (globals (fst (step ev m))).
Proof.
  destruct m as [st p]. destruct ev; cbn [step globals pending].
  - (* start *)
    unfold translatePage. cbn [globals pending].
    set (st0 := match glow with Some b => set_showGlow b st | None => st end).
    assert (Hst0 : cacheKept st st0)
      by (subst st0; destruct glow; now apply cacheKept_same).
    eapply cacheKept_trans; [exact Hst0 |].
    destruct (translationInProgress st0); [now apply cacheKept_same |].
    match goal with
    | |- context [extractTextNodes ?r false ?s] =>
        pose proof (settings_extractTextNodes r false s) as Hs;
        destruct (extractTextNodes r false s) as [st1 items]
    end.
    cbn [fst] in Hs. apply cacheKept_settings in Hs.
    eapply cacheKept_trans; [| eapply cacheKept_trans; [exact Hs |]];
      [now apply cacheKept_same |].
    destruct items as [|x items].
    + cbn [fst]. eapply cacheKept_trans; [| apply cacheKept_finishRun].
      now apply cacheKept_same.
    + match goal with |- cacheKept _ (globals (fst (let '(_, _) := ?e in _))) =>
        replace (fst (let '(m', acts) := e in (m', acts ++ [ARespond (RStarted true)])))
          with (fst e) by now destruct e
      end.
      eapply cacheKept_trans; [| apply cacheKept_drainLoop]. now apply cacheKept_same.
  - now apply cacheKept_same.
  - (* the Translator answers *)
    destruct p as [t|]; [| apply cacheKept_refl].
    destruct (callOf t) as [c|]; [| apply cacheKept_refl].
    destruct (bc_awaiting c); [| apply cacheKept_refl].
    unfold onReply.
    destruct (handleOutcome o (texts (bc_request c)) st) as [st' res|] eqn:Ho.
    + eapply cacheKept_trans; [| apply cacheKept_resume].
      apply cacheKept_settings, control_settings, (control_handleOutcome _ _ _ _ _ Ho).
    + destruct (bc_attempt c <? bc_retries c - 1)%nat.
      * apply cacheKept_refl.
      * apply cacheKept_resume.
  - (* the timer fires *)
    destruct p as [t|]; [| apply cacheKept_refl].
    destruct t as [l c|l ra|l ra its i c|c]; cbn [callOf].
    + destruct (bc_awaiting c); apply cacheKept_refl.
    + apply cacheKept_retryFor.
    + destruct (bc_awaiting c); apply cacheKept_refl.
    + destruct (bc_awaiting c); apply cacheKept_refl.
  - destruct (scrollListener st); [now apply cacheKept_same | apply cacheKept_refl].
  - destruct (scrollDebounceTimer st); [| apply cacheKept_refl].
    cbn [fst globals pendingTranslationQueue set_scrollDebounceTimer].
    destruct (pendingTranslationQueue st); [now apply cacheKept_same |].
    unfold recalculatePendingPriorities.
    destruct (recalculateLoop _ _) as [queue ok].
    destruct ok; now apply cacheKept_same.
  - destruct (mutationObserver st && autoTranslateEnabled st);
      [now apply cacheKept_same | apply cacheKept_refl].
  - (* the auto-translate debounce fires *)
    destruct (autoTranslateDebounceTimer st); [| apply cacheKept_refl].
    unfold translatePendingNodes.
    cbn [globals pending pendingNewNodes set_autoTranslateDebounceTimer
         translationInProgress].
    destruct (pendingNewNodes st) as [|a rest]; [now apply cacheKept_same |].
    destruct (translationInProgress st); [now apply cacheKept_same |].
    match goal with
    | |- context [extractNewTextNodes ?a ?s] =>
        pose proof (settings_extractNewTextNodes a s) as Hs;
        destruct (extractNewTextNodes a s) as [st1 items]
    end.
    cbn [fst] in Hs. apply cacheKept_settings in Hs.
    eapply cacheKept_trans; [| eapply cacheKept_trans; [exact Hs |]];
      [now apply cacheKept_same |].
    destruct items; now apply cacheKept_same.
  - cbn [fst globals]. eapply cacheKept_trans; [apply cacheKept_restoreOriginalText |].
    now apply cacheKept_same.
  - destruct (isShowingTranslations st) eqn:Hs; cbn [fst globals].
    + eapply cacheKept_trans; [apply cacheKept_restoreOriginalText |].
      now apply cacheKept_same.
    + destruct (hasTranslationCache st) eqn:Hc; cbn [fst globals];
        [| apply cacheKept_refl].
      eapply cacheKept_trans; [apply cacheKept_restoreCachedTranslations |].
      now apply cacheKept_same.
  - cbn [fst globals]. rewrite applyPartial_applyEntries.
    apply cacheKept_settings, control_settings, control_applyEntries.
  - cbn [fst globals]. destruct (autoTranslateEnabled st); now apply cacheKept_same.
  - now apply cacheKept_same.
  - now apply cacheKept_same.
  - apply cacheKept_refl.
  - apply cacheKept_refl.
  - now apply cacheKept_same.
Qed.

(** X12. Along the turns of the event loop the view flags stay coherent
    and the cache is never lost: in every state reached from a freshly
    loaded page, translations are shown only when a translation cache
    exists, and once the cache flag is up no sequence of events, whether
    messages, answers of the Translator, timers or page changes, takes it
    down again. *)
Theorem cache_flag_is_kept_and_view_coherent m :
  reachable m ->
  viewCoherent (globals m) /\
  forall evs,
    hasTranslationCache (globals m) = true ->
    hasTranslationCache (globals (fst (run evs m))) = true.
Proof.
  intros Hr. split.
  - induction Hr as [d | m ev Hr IH].
    + unfold viewCoherent. cbn. discriminate.
    + exact (proj2 (cacheKept_step ev m) IH).
  - clear Hr. intros evs. revert m.
    induction evs as [|ev rest IH]; intros m Hc; [exact Hc |].
    cbn [run]. pose proof (proj1 (cacheKept_step ev m) Hc) as Hc'.
    destruct (step ev m) as [m' acts]. cbn [fst] in Hc'.
    specialize (IH m' Hc'). now destruct (run rest m').
Qed.

Lemma cache_flag_is_kept_and_view_coherent_witness :
  hasTranslationCache
    (globals (fst (run [EvRestoreOriginal; EvCancel; EvStart "fr" None None]
                     (fst (run [EvStart "es" None None; EvReply Sample.allTranslated]
                             Sample.loaded)))))
  = true.
Proof.
  apply (proj2 (cache_flag_is_kept_and_view_coherent
                  (fst (run [EvStart "es" None None; EvReply Sample.allTranslated]
                          Sample.loaded))
                  (reachable_run _ _ (reachable_initial Sample.page)))).
  vm_compute. reflexivity.
Defined.

(** ** Reordering of the pending queue after a scroll *)

Lemma recalculateLoop_idAndText st queue :
  map idAndText (fst (recalculateLoop st queue)) = map idAndText queue.
Proof.
  induction queue as [|item rest IH]; [reflexivity |].
  cbn [recalculateLoop].
  destruct (Registry.get (textNodeMap st) (qi_id item)) as [e|].
  - destruct (nodes (doc st) !! node e) as [nd|]; [| reflexivity].
    destruct (recalculateLoop st rest) as [rest' ok]. cbn [fst map] in *.
    rewrite IH. now destruct (getElement (doc st) (parentElement nd)).
  - destruct (recalculateLoop st rest) as [rest' ok]. cbn [fst map] in *.
    now rewrite IH.
Qed.

Lemma recalculateLoop_accessible st queue :
  forallb
    (fun item =>
       match Registry.get (textNodeMap st) (qi_id item) with
       | Some e => bool_decide (is_Some (nodes (doc st) !! node e))
       | None => true
       end) queue = true ->
  snd (recalculateLoop st queue) = true /\
  Forall (priorityCurrent st) (fst (recalculateLoop st queue)).
Proof.
  induction queue as [|item rest IH]; cbn [forallb recalculateLoop].
  - intros _. split; [reflexivity | constructor].
  - intros Hall. apply andb_true_iff in Hall as [Hitem Hrest].
    destruct (IH Hrest) as [Hok Hcur]. clear IH.
    destruct (Registry.get (textNodeMap st) (qi_id item)) as [e|] eqn:Hget.
    + apply bool_decide_eq_true in Hitem as [nd Hnd]. rewrite Hnd.
      destruct (recalculateLoop st rest) as [rest' ok]. cbn [fst snd] in *.
      split; [exact Hok |]. constructor; [| exact Hcur].
      intros e' nd' Hget' Hnd' Hpar.
      destruct (getElement (doc st) (parentElement nd)) as [p|] eqn:Hp.
      * cbn [qi_id qi_priority] in *. rewrite Hget in Hget'.
        injection Hget' as <-. rewrite Hnd in Hnd'. now injection Hnd' as <-.
      * rewrite Hget in Hget'. injection Hget' as <-.
        rewrite Hnd in Hnd'. injection Hnd' as <-.
        rewrite Hp in Hpar. now destruct Hpar.
    + destruct (recalculateLoop st rest) as [rest' ok]. cbn [fst snd] in *.
      split; [exact Hok |]. constructor; [| exact Hcur].
      intros e' nd' Hget'. congruence.
Qed.

(** X13. Recomputing the priorities of the pending queue after a scroll
    neither loses nor invents work: the queue keeps the same items up to
    their order, each with its id and its text, and nothing but the queue
    changes.  When the nodes of the queued items can all be accessed, the
    new queue is in descending order of priority, and the priority of each
    item whose node has a parent element is the current score of its
    node. *)
Theorem recalculatePendingPriorities_reorders_queue st :
  let st' := recalculatePendingPriorities st in
  Permutation (map idAndText (pendingTranslationQueue st'))
    (map idAndText (pendingTranslationQueue st)) /\
  doc st' = doc st /\
  textNodeMap st' = textNodeMap st /\
  translatedNodeSet st' = translatedNodeSet st /\
  control (set_pendingTranslationQueue [] st') = control (set_pendingTranslationQueue [] st) /\
  (queueAccessible st = true ->
   descending (pendingTranslationQueue st') /\
   Forall (priorityCurrent st') (pendingTranslationQueue st')).
Proof.
  intros st'. subst st'. unfold recalculatePendingPriorities, queueAccessible.
  pose proof (recalculateLoop_idAndText st (pendingTranslationQueue st)) as Hid.
  pose proof (recalculateLoop_accessible st (pendingTranslationQueue st)) as Hacc.
  destruct (recalculateLoop st (pendingTranslationQueue st)) as [queue ok].
  cbn [fst snd] in *.
  assert (Hperm : Permutation (map idAndText (if ok then sortByPriority queue else queue))
                    (map idAndText (pendingTranslationQueue st))).
  { rewrite <- Hid. destruct ok; [| reflexivity].
    apply Permutation_map, Permutation_sym, sortByPriority_perm. }
  destruct ok; cbn; (split_and!; [exact Hperm | reflexivity .. |]).
  - intros Hall. destruct (Hacc Hall) as [_ Hcur].
    split; [apply sortByPriority_descending |].
    eapply Permutation_Forall; [apply sortByPriority_perm | exact Hcur].
  - intros Hall. destruct (Hacc Hall) as [Hok _]. discriminate.
Qed.

Lemma recalculatePendingPriorities_reorders_queue_witness :
  descending
    (pendingTranslationQueue
       (recalculatePendingPriorities
          (set_pendingTranslationQueue [Sample.world; Sample.hello]
             (set_doc SampleHidden.page Sample.extracted)))).
Proof.
  apply (proj2 (proj2 (proj2 (proj2 (proj2
           (recalculatePendingPriorities_reorders_queue
              (set_pendingTranslationQueue [Sample.world; Sample.hello]
                 (set_doc SampleHidden.page Sample.extracted)))))))).
  vm_compute. reflexivity.
Defined.

(** ** The requests a page sends *)

Lemma callInOrder_startCall textItems targetLanguage sourceLanguage retries size st :
  textItems <> [] -> (length textItems <= size)%nat -> (0 < retries)%nat ->
  callInOrder size retries
    (fst (startCall textItems targetLanguage sourceLanguage retries st)).
Proof.
  intros Hne Hlen Hpos. unfold callInOrder. cbn.
  split_and!; try assumption; try reflexivity. discriminate.
Qed.

Lemma inOrder_finishRun st : pendingInOrder (finishRun st).
Proof. exact I. Qed.

Lemma inOrder_retryLoopHead l ra st : pendingInOrder (fst (retryLoopHead l ra st)).
Proof. unfold retryLoopHead. destruct (_ && _ && _); exact I. Qed.

Lemma inOrder_retryFor l ra its i st : pendingInOrder (fst (retryFor l ra its i st)).
Proof.
  unfold retryFor.
  destruct (translationCancelled st); [apply inOrder_retryLoopHead |].
  destruct (skipn i its) as [|x r]; [apply inOrder_retryLoopHead |].
  unfold pendingInOrder. cbn [fst pending taskInOrder startCall].
  apply (callInOrder_startCall (firstn 4 (x :: r)) _ _ 1 4 st).
  - discriminate.
  - apply firstn_le_length.
  - lia.
Qed.

Lemma inOrder_afterDrain l st : pendingInOrder (fst (afterDrain l st)).
Proof.
  unfold afterDrain. destruct (negb (translationCancelled st)).
  - apply inOrder_retryLoopHead.
  - exact I.
Qed.

Lemma inOrder_drainLoop l st : pendingInOrder (fst (drainLoop l st)).
Proof.
  unfold drainLoop.
  destruct (translationCancelled st); [apply inOrder_afterDrain |].
  destruct (pendingTranslationQueue st) as [|x q]; [apply inOrder_afterDrain |].
  unfold pendingInOrder. cbn [fst pending taskInOrder startCall].
  apply (callInOrder_startCall (firstn 8 (x :: q)) _ _ 3 8).
  - discriminate.
  - apply firstn_le_length.
  - lia.
Qed.

Lemma inOrder_resume t res st : pendingInOrder (fst (resume t res st)).
Proof.
  destruct t; cbn [resume].
  - unfold drainResumed. destruct (translationCancelled st).
    + apply inOrder_afterDrain.
    + apply inOrder_drainLoop.
  - exact I.
  - apply inOrder_retryFor.
  - exact I.
Qed.

Lemma taskInOrder_withCall t c c' :
  callOf t = Some c -> taskInOrder t ->
  bc_request c' = bc_request c -> bc_retries c' = bc_retries c ->
  (bc_attempt c' < bc_retries c)%nat ->
  (bc_awaiting c' = AwaitBackoff -> (S (bc_attempt c') < bc_retries c)%nat) ->
  taskInOrder (withCall t c').
Proof.
  intros Hc Hok Hreq Hret Hatt Hback.
  destruct t; cbn in *; try discriminate; injection Hc as ->;
    unfold callInOrder in *; rewrite Hreq, Hret;
    destruct Hok as (H1 & H2 & H3 & H4 & H5); rewrite H3 in *;
    split_and!; auto.
Qed.

Lemma inOrder_step ev m : pendingInOrder m -> pendingInOrder (fst (step ev m)).
Proof.
  intros Hm. destruct m as [st p]. destruct ev; cbn [step globals pending];
    try exact Hm.
  - (* start *)
    unfold translatePage. cbn [globals pending].
    destruct (translationInProgress _); [exact Hm |].
    destruct (extractTextNodes _ false _) as [st1 items].
    destruct items as [|x items]; [exact I |].
    match goal with |- pendingInOrder (fst (let '(_, _) := ?e in _)) =>
      replace (fst (let '(m', acts) := e in (m', acts ++ [ARespond (RStarted true)])))
        with (fst e) by now destruct e
    end.
    apply inOrder_drainLoop.
  - (* the Translator answers *)
    destruct p as [t|]; [| exact Hm].
    destruct (callOf t) as [c|] eqn:Hc; [| exact Hm].
    destruct (bc_awaiting c) eqn:Haw; [| exact Hm].
    unfold onReply.
    destruct (handleOutcome o (texts (bc_request c)) st) as [st' res|].
    + apply inOrder_resume.
    + destruct (Nat.ltb_spec (bc_attempt c) (bc_retries c - 1)).
      * unfold pendingInOrder. cbn [fst pending].
        apply (taskInOrder_withCall t c _ Hc Hm); cbn; try reflexivity; lia.
      * apply inOrder_resume.
  - (* the timer fires *)
    destruct p as [t|]; [| exact Hm].
    assert (Hcall : forall c, callOf t = Some c ->
              pendingInOrder
                (fst match bc_awaiting c with
                     | AwaitReply => ({| globals := st; pending := Some t |}, [])
                     | AwaitBackoff =>
                         let '(c', acts) := onBackoff c in
                         ({| globals := st; pending := Some (withCall t c') |}, acts)
                     end)).
    { intros c Hc. destruct (bc_awaiting c) eqn:Haw; [exact Hm |].
      unfold pendingInOrder. cbn [onBackoff fst pending].
      assert (Hb : (S (bc_attempt c) < bc_retries c)%nat).
      { unfold pendingInOrder in Hm. cbn in Hm.
        destruct t; cbn in Hc; try discriminate; injection Hc as ->;
          destruct Hm as (_ & _ & H3 & _ & H5); rewrite H3; auto. }
      apply (taskInOrder_withCall t c _ Hc Hm); cbn; try reflexivity; try lia.
      discriminate. }
    destruct t as [l c|l ra|l ra its i c|c]; cbn [callOf].
    + apply (Hcall c eq_refl).
    + apply inOrder_retryFor.
    + apply (Hcall c eq_refl).
    + apply (Hcall c eq_refl).
  - destruct (scrollListener st); exact Hm.
  - destruct (scrollDebounceTimer st); exact Hm.
  - destruct (mutationObserver st && autoTranslateEnabled st); exact Hm.
  - (* the auto-translate debounce fires *)
    destruct (autoTranslateDebounceTimer st); [| exact Hm].
    unfold translatePendingNodes.
    cbn [globals pending pendingNewNodes set_autoTranslateDebounceTimer
         translationInProgress].
    destruct (pendingNewNodes st) as [|a rest]; [exact Hm |].
    destruct (translationInProgress st); [exact Hm |].
    destruct (extractNewTextNodes _ _) as [st1 items].
    destruct items as [|x items]; [exact Hm |].
    unfold pendingInOrder. cbn [fst pending taskInOrder startCall bc_request texts].
    unfold callInOrder. cbn. split_and!; try reflexivity; try lia; discriminate.
  - destruct (isShowingTranslations st); [exact Hm |].
    destruct (hasTranslationCache st); exact Hm.
Qed.

Lemma sentInFlight_none m : sentInFlight (m, []).
Proof. intros k req []. Qed.

Lemma sentInFlight_retryLoopHead l ra st : sentInFlight (retryLoopHead l ra st).
Proof.
  unfold retryLoopHead. destruct (_ && _ && _); [| apply sentInFlight_none].
  intros k req [Heq | []]. discriminate.
Qed.

Lemma sentInFlight_retryFor l ra its i st : sentInFlight (retryFor l ra its i st).
Proof.
  unfold retryFor.
  destruct (translationCancelled st); [apply sentInFlight_retryLoopHead |].
  destruct (skipn i its) as [|x r]; [apply sentInFlight_retryLoopHead |].
  intros k req [[= <- <-] | []]. cbn. eauto 10.
Qed.

Lemma sentInFlight_afterDrain l st : sentInFlight (afterDrain l st).
Proof.
  unfold afterDrain. destruct (negb (translationCancelled st)).
  - apply sentInFlight_retryLoopHead.
  - apply sentInFlight_none.
Qed.

Lemma sentInFlight_drainLoop l st : sentInFlight (drainLoop l st).
Proof.
  unfold drainLoop.
  destruct (translationCancelled st); [apply sentInFlight_afterDrain |].
  destruct (pendingTranslationQueue st) as [|x q]; [apply sentInFlight_afterDrain |].
  intros k req [[= <- <-] | []]. cbn. eauto 10.
Qed.

Lemma sentInFlight_resume t res st : sentInFlight (resume t res st).
Proof.
  destruct t; cbn [resume].
  - unfold drainResumed. destruct (translationCancelled st).
    + apply sentInFlight_afterDrain.
    + apply sentInFlight_drainLoop.
  - apply sentInFlight_none.
  - apply sentInFlight_retryFor.
  - apply sentInFlight_none.
Qed.

Lemma sentInFlight_responds m r : sentInFlight (m, [ARespond r]).
Proof. intros k req [Heq | []]. discriminate. Qed.

Lemma sentInFlight_step ev m : sentInFlight (step ev m).
Proof.
  destruct m as [st p]. destruct ev; cbn [step globals pending];
    try apply sentInFlight_responds; try apply sentInFlight_none.
  - (* start *)
    unfold translatePage. cbn [globals pending].
    destruct (translationInProgress _).
    { intros k req [Heq | []]. discriminate. }
    destruct (extractTextNodes _ false _) as [st1 items].
    destruct items as [|x items].
    { intros k req [Heq | []]. discriminate. }
    match goal with |- sentInFlight (let '(_, _) := drainLoop ?l ?s in _) =>
      pose proof (sentInFlight_drainLoop l s) as Hd;
      destruct (drainLoop l s) as [m' acts]
    end.
    intros k req Hin. cbn [fst snd] in *. apply in_app_or in Hin as [Hin | [Heq | []]].
    + exact (Hd k req Hin).
    + discriminate.
  - (* the Translator answers *)
    destruct p as [t|]; [| apply sentInFlight_none].
    destruct (callOf t) as [c|] eqn:Hc; [| apply sentInFlight_none].
    destruct (bc_awaiting c) eqn:Haw; [| apply sentInFlight_none].
    unfold onReply.
    destruct (handleOutcome o (texts (bc_request c)) st) as [st' res|].
    + apply sentInFlight_resume.
    + destruct (bc_attempt c <? bc_retries c - 1)%nat.
      * intros k req [Heq | []]. discriminate.
      * apply sentInFlight_resume.
  - (* the timer fires *)
    destruct p as [t|]; [| apply sentInFlight_none].
    assert (Hcall : forall c, callOf t = Some c ->
              sentInFlight
                match bc_awaiting c with
                | AwaitReply => ({| globals := st; pending := Some t |}, [])
                | AwaitBackoff =>
                    let '(c', acts) := onBackoff c in
                    ({| globals := st; pending := Some (withCall t c') |}, acts)
                end).
    { intros c Hc. destruct (bc_awaiting c); [apply sentInFlight_none |].
      intros k req [[= <- <-] | []]. cbn [onBackoff fst pending].
      eexists _, _. split; [reflexivity |].
      split; [exact (callOf_withCall t c _ Hc) |]. cbn. auto. }
    destruct t as [l c|l ra|l ra its i c|c]; cbn [callOf].
    + apply (Hcall c eq_refl).
    + apply sentInFlight_retryFor.
    + apply (Hcall c eq_refl).
    + apply (Hcall c eq_refl).
  - destruct (scrollListener st); apply sentInFlight_none.
  - destruct (scrollDebounceTimer st); apply sentInFlight_none.
  - destruct (mutationObserver st && autoTranslateEnabled st); apply sentInFlight_none.
  - (* the auto-translate debounce fires *)
    destruct (autoTranslateDebounceTimer st); [| apply sentInFlight_none].
    unfold translatePendingNodes.
    cbn [globals pending pendingNewNodes set_autoTranslateDebounceTimer
         translationInProgress].
    destruct (pendingNewNodes st) as [|a rest]; [apply sentInFlight_none |].
    destruct (translationInProgress st); [apply sentInFlight_none |].
    destruct (extractNewTextNodes _ _) as [st1 items].
    destruct items as [|x items]; [apply sentInFlight_none |].
    intros k req [[= <- <-] | []]. cbn. eauto 10.
  - destruct (isShowingTranslations st); [apply sentInFlight_responds |].
    destruct (hasTranslationCache st); apply sentInFlight_responds.
Qed.

Lemma reachable_inOrder m : reachable m -> pendingInOrder m.
Proof.
  induction 1 as [d | m ev Hr IH]; [exact I | now apply inOrder_step].
Qed.

(** X14. Every request a page sends is well formed and bounded.  In a
    state reached from a freshly loaded page, whatever event comes next,
    each request sent in that turn has at least one item and is sent in an
    attempt numbered below 3; it is the request of the batch call that is
    suspended after the turn.  When that call belongs to a run of
    [translatePage], the request has at most 8 items; when it belongs to a
    retry round, at most 4, and it is sent once only (attempt 0). *)
Theorem sent_requests_are_bounded m ev k req :
  reachable m ->
  In (ASend k req) (snd (step ev m)) ->
  texts req <> [] /\
  (k < 3)%nat /\
  inFlight (fst (step ev m)) = Some req /\
  (runActive (fst (step ev m)) = true -> (length (texts req) <= 8)%nat) /\
  (forall l ra its i c,
     pending (fst (step ev m)) = Some (TaskRetryBatch l ra its i c) ->
     (length (texts req) <= 4)%nat /\ k = 0%nat).
Proof.
  intros Hr Hin.
  pose proof (inOrder_step ev m (reachable_inOrder m Hr)) as Hok.
  destruct (sentInFlight_step ev m k req Hin) as (t & c & Hp & Hc & <- & <- & Haw).
  unfold pendingInOrder in Hok. unfold inFlight, runActive. rewrite Hp in *.
  rewrite Hc. cbn [option_map].
  destruct t as [l c0|l ra|l ra its i c0|c0]; cbn in Hc; try discriminate;
    injection Hc as ->; cbn in Hok; destruct Hok as (H1 & H2 & H3 & H4 & H5).
  - split_and!; auto; try lia. intros ? ? ? ? ? [=].
  - split_and!; auto; lia.
  - split_and!; auto; try lia; discriminate.
Qed.

Lemma sent_requests_are_bounded_witness :
  (length Sample.items <= 8)%nat.
Proof.
  refine (proj1 (proj2 (proj2 (proj2
            (sent_requests_are_bounded Sample.loaded (EvStart "es" None None) 0
               {| texts := Sample.items; targetLanguage := "es"; sourceLanguage := "en" |}
               (reachable_initial Sample.page) _)))) _).
  - vm_compute. left. reflexivity.
  - vm_compute. reflexivity.
Defined.

(** ** The page language *)

Lemma lowerChar_dash c : Ascii.eqb (lowerChar c) "-"%char = Ascii.eqb c "-"%char.
Proof.
  destruct c as [[] [] [] [] [] [] [] []]; vm_compute; reflexivity.
Qed.

Lemma lowerChar_idem c : lowerChar (lowerChar c) = lowerChar c.
Proof.
  destruct c as [[] [] [] [] [] [] [] []]; vm_compute; reflexivity.
Qed.

Lemma hasDash_toLowerCase s : hasDash (toLowerCase s) = hasDash s.
Proof.
  induction s as [|c r IH]; [reflexivity |]. cbn [toLowerCase hasDash].
  now rewrite IH, lowerChar_dash.
Qed.

Lemma hasDash_beforeDash s : hasDash (beforeDash s) = false.
Proof.
  induction s as [|c r IH]; [reflexivity |]. cbn [beforeDash].
  destruct (Ascii.eqb c "-"%char) eqn:Hc; [reflexivity |].
  cbn [hasDash]. now rewrite Hc, IH.
Qed.

Lemma toLowerCase_idem s : toLowerCase (toLowerCase s) = toLowerCase s.
Proof.
  induction s as [|c r IH]; [reflexivity |]. cbn [toLowerCase].
  now rewrite IH, lowerChar_idem.
Qed.

(** X15. [getPageLanguage] returns a base language code: a lower-case
    string without hyphen.  The [lang] attribute of the document element
    wins over the [content-language] meta tag whenever it is not empty,
    and the answer is ["en"] when both are missing or empty. *)
Theorem getPageLanguage_is_base_code d :
  hasDash (getPageLanguage d) = false /\
  toLowerCase (getPageLanguage d) = getPageLanguage d /\
  (truthy (html_lang d) = true ->
   getPageLanguage d = toLowerCase (beforeDash (html_lang d))) /\
  (truthy (html_lang d) = false -> truthyOpt (meta_lang d) = false ->
   getPageLanguage d = "en").
Proof.
  unfold getPageLanguage.
  destruct (truthy (html_lang d)).
  - rewrite hasDash_toLowerCase, hasDash_beforeDash, toLowerCase_idem.
    split_and!; try reflexivity. discriminate.
  - destruct (meta_lang d) as [metaLang|]; cbn [truthyOpt].
    + destruct (truthy metaLang).
      * rewrite hasDash_toLowerCase, hasDash_beforeDash, toLowerCase_idem.
        split_and!; try reflexivity; discriminate.
      * split_and!; try reflexivity; discriminate.
    + split_and!; try reflexivity; discriminate.
Qed.

(** ** Batching by token budget *)

Lemma estimateTokens_nonneg text : 0 <= estimateTokens text.
Proof.
  unfold estimateTokens. destruct (negb (truthy text)); [lia |].
  apply Z.div_pos; lia.
Qed.

Lemma batchTokens_app b1 b2 : batchTokens (b1 ++ b2) = batchTokens b1 + batchTokens b2.
Proof.
  unfold batchTokens. induction b1 as [|x b1 IH]; cbn [app fold_right]; lia.
Qed.

Lemma Forall_snoc {A} (P : A -> Prop) l x : Forall P l -> P x -> Forall P (l ++ [x]).
Proof. intros Hl Hx. apply List.Forall_app. split; [exact Hl | now constructor]. Qed.

Lemma batchLoop_spec effectiveMax textItems : forall batches currentBatch currentTokens,
  currentTokens = batchTokens currentBatch ->
  (currentBatch <> [] -> batchTokens currentBatch <= effectiveMax) ->
  let out := batchLoop effectiveMax textItems batches currentBatch currentTokens in
  concat out = concat batches ++ currentBatch ++ textItems /\
  (Forall (fun b => b <> []) batches -> Forall (fun b => b <> []) out) /\
  (Forall (withinBudget effectiveMax) batches ->
   Forall (withinBudget effectiveMax) out).
Proof.
  induction textItems as [|item rest IH]; intros batches cur curT HT Hcur;
    cbn [batchLoop].
  - destruct cur as [|x cur]; cbn [length Nat.ltb Nat.leb].
    + rewrite !app_nil_r. auto.
    + split; [rewrite concat_app; cbn [concat]; now rewrite !app_nil_r |].
      split; intros H; apply Forall_snoc; auto; try discriminate.
      left. apply Hcur. discriminate.
  - cbv zeta.
    pose proof (estimateTokens_nonneg (qi_text item)) as Hpos.
    destruct (Z.ltb_spec effectiveMax (estimateTokens (qi_text item))) as [Hbig | Hfit].
    + assert (Hsingle : withinBudget effectiveMax [item]) by (right; eauto).
      destruct cur as [|x cur]; cbn [length Nat.ltb Nat.leb].
      * destruct (IH (batches ++ [[item]]) [] curT HT Hcur) as (H1 & H2 & H3).
        split; [rewrite H1, concat_app; cbn [concat app]; now rewrite <- !app_assoc |].
        split; intros H; [apply H2 | apply H3]; apply Forall_snoc; auto;
          discriminate.
      * destruct (IH ((batches ++ [x :: cur]) ++ [[item]]) [] 0 eq_refl) as (H1 & H2 & H3);
          [contradiction |].
        split; [rewrite H1, !concat_app; cbn [concat app];
                now rewrite !app_nil_r, <- !app_assoc |].
        split; intros H; [apply H2 | apply H3]; repeat apply Forall_snoc; auto;
          try discriminate.
        left. apply Hcur. discriminate.
    + destruct (Z.ltb_spec effectiveMax (curT + estimateTokens (qi_text item)))
        as [Hover | Hroom].
      * assert (Hne : cur <> []).
        { intros ->. cbn in HT. lia. }
        destruct (IH (batches ++ [cur]) [item] (estimateTokens (qi_text item)))
          as (H1 & H2 & H3).
        { cbn. lia. }
        { intros _. cbn. lia. }
        split; [rewrite H1, concat_app; cbn [concat app];
                now rewrite !app_nil_r, <- !app_assoc |].
        split; intros H; [apply H2 | apply H3]; apply Forall_snoc; auto.
        left. now apply Hcur.
      * destruct (IH batches (cur ++ [item]) (curT + estimateTokens (qi_text item)))
          as (H1 & H2 & H3).
        { rewrite batchTokens_app. cbn. lia. }
        { intros _. rewrite batchTokens_app. cbn. lia. }
        split; [rewrite H1; now rewrite <- !app_assoc | auto].
Qed.

(** X16. [batchTexts] cuts the list of items into consecutive batches: the
    batches put one after the other give back the items in their order, so
    that no item is lost, repeated or moved; no batch is empty; and each
    batch either fits the budget of [maxTokens - 200] estimated tokens or
    consists of a single item that exceeds the budget on its own. *)
Theorem batchTexts_partitions_within_budget textItems maxTokens :
  concat (batchTexts textItems maxTokens) = textItems /\
  Forall (fun batch => batch <> []) (batchTexts textItems maxTokens) /\
  Forall (withinBudget (maxTokens - 200)) (batchTexts textItems maxTokens).
Proof.
  unfold batchTexts.
  destruct (batchLoop_spec (maxTokens - 200) textItems [] [] 0 eq_refl)
    as (H1 & H2 & H3); [contradiction |].
  split; [exact H1 |]. split; [apply H2 | apply H3]; constructor.
Qed.

(** ** A run served by a faithful capability *)

Lemma replaceTextNode_shown id t st e n :
  Registry.get (textNodeMap st) id = Some e ->
  is_Some (nodes (doc st) !! node e) ->
  shownText (doc (fst (replaceTextNode id t st))) n
  = if Nat.eqb (node e) n
    then Some (leadingSpace (originalText e) ++ t ++ trailingSpace (originalText e))%string
    else shownText (doc st) n.
Proof.
  intros Hget [nd Hnd]. rewrite (replaceTextNode_unfold _ _ _ _ _ Hget Hnd). cbn.
  unfold shownText. rewrite nodes_markParent. cbn.
  destruct (Nat.eqb_spec (node e) n) as [->|Hne].
  - now rewrite lookup_insert_eq.
  - now rewrite lookup_insert_ne.
Qed.

Lemma replaceTextNode_get_live id t st e id' :
  Registry.get (textNodeMap st) id = Some e ->
  is_Some (nodes (doc st) !! node e) ->
  Registry.get (textNodeMap (fst (replaceTextNode id t st))) id'
  = if Nat.eqb id id' then Some (markTranslated t e)
    else Registry.get (textNodeMap st) id'.
Proof.
  intros Hget Hlive. rewrite replaceTextNode_get.
  assert (Hw : writable st id = true).
  { unfold writable. rewrite Hget. now apply bool_decide_eq_true. }
  rewrite Hw. cbn [andb].
  destruct (Nat.eqb_spec id id') as [<-|Hne]; [| reflexivity].
  now rewrite Hget.
Qed.

Lemma runInv_replace f E st item queue :
  nodeDetermines E ->
  runInv f E st (item :: queue) ->
  runInv f E (fst (replaceTextNode (qi_id item) (f (qi_text item)) st)) queue /\
  writable st (qi_id item) = true.
Proof.
  intros Hdet (Ha & Ha' & Hb & Hd & He).
  destruct (Hd item (or_introl eq_refl)) as (e0 & HE & Htext).
  destruct (Ha _ _ HE) as (e & Hget & Hnode & Horig & Hlive).
  assert (Hlive' : is_Some (nodes (doc st) !! node e)) by now rewrite Hnode.
  assert (Hw : writable st (qi_id item) = true).
  { unfold writable. rewrite Hget. now apply bool_decide_eq_true. }
  split; [| exact Hw].
  set (t := f (qi_text item)).
  assert (Hwritten : (leadingSpace (originalText e) ++ t ++ trailingSpace (originalText e))%string
                     = written f e).
  { unfold written, t. now rewrite Htext, Horig. }
  assert (Hsame : forall id' e', Registry.get (textNodeMap st) id' = Some e' ->
                                 node e' = node e -> written f e' = written f e).
  { intros id' e' Hget' Hn. destruct (Ha' _ _ Hget') as [e0' HE'].
    destruct (Ha _ _ HE') as (e'' & Hget'' & Hnode'' & Horig'' & _).
    rewrite Hget' in Hget''. injection Hget'' as <-.
    unfold written. rewrite Horig, Horig''.
    now rewrite (Hdet _ _ _ _ HE' HE) by congruence. }
  split_and!.
  - intros id' e0' HE'. destruct (Ha _ _ HE') as (e' & Hget' & Hn' & Ho' & Hl').
    rewrite (replaceTextNode_get_live _ _ _ _ id' Hget Hlive').
    destruct (Nat.eqb_spec (qi_id item) id') as [Heq|Hne].
    + exists (markTranslated t e). rewrite Heq in Hget. rewrite Hget in Hget'.
      injection Hget' as <-. cbn. split_and!; auto.
      now apply replaceTextNode_nodes_dom.
    + exists e'. split_and!; auto. now apply replaceTextNode_nodes_dom.
  - intros id' e1. rewrite (replaceTextNode_get_live _ _ _ _ id' Hget Hlive').
    destruct (Nat.eqb_spec (qi_id item) id') as [<-|Hne]; [eauto |]. apply Ha'.
  - intros id' e1. rewrite (replaceTextNode_get_live _ _ _ _ id' Hget Hlive').
    rewrite (replaceTextNode_shown _ _ _ _ (node e1) Hget Hlive').
    destruct (Nat.eqb_spec (qi_id item) id') as [Heq|Hne].
    + intros [= <-] _. cbn [node markTranslated]. rewrite Nat.eqb_refl.
      rewrite Hwritten. reflexivity.
    + intros Hget1 Ht1.
      destruct (Nat.eqb_spec (node e) (node e1)) as [Hn|Hn].
      * rewrite Hwritten. f_equal. symmetry. now apply (Hsame id').
      * now apply (Hb id').
  - intros it Hin. apply Hd. now right.
  - intros id' e0' HE'.
    destruct (He _ _ HE') as [[Heq | Hin] | (e' & Hget' & Ht')].
    + right. exists (markTranslated t e).
      rewrite (replaceTextNode_get_live _ _ _ _ id' Hget Hlive').
      rewrite Heq, Nat.eqb_refl. auto.
    + now left.
    + right. rewrite (replaceTextNode_get_live _ _ _ _ id' Hget Hlive').
      destruct (Nat.eqb (qi_id item) id'); eauto.
Qed.

Lemma usableText_translationOf f item :
  truthy (f (qi_text item)) = true ->
  usableText (translationOf f item) = Some (f (qi_text item)).
Proof. unfold usableText, translationOf. cbn. now intros ->. Qed.

Lemma runInv_batch f E :
  nodeDetermines E ->
  (forall s, truthy (f s) = true) ->
  forall batch st rest,
    runInv f E st (batch ++ rest) ->
    runInv f E (applyEntries (map (translationOf f) batch) st) rest /\
    Forall (fun item => writable st (qi_id item) = true) batch.
Proof.
  intros Hdet Hf. induction batch as [|item batch IH]; intros st rest Hinv.
  - split; [exact Hinv | constructor].
  - destruct (runInv_replace f E st item (batch ++ rest) Hdet Hinv) as [Hinv1 Hw].
    destruct (IH _ rest Hinv1) as [Hinv2 Hall].
    unfold applyEntries. cbn [map fold_left].
    rewrite (usableText_translationOf f item (Hf _)).
    split; [exact Hinv2 |]. constructor; [exact Hw |].
    eapply List.Forall_impl; [| exact Hall]. cbn. intros it.
    now rewrite writable_replaceTextNode.
Qed.

Lemma filter_none {A} (p : A -> bool) l :
  (forall x, In x l -> p x = false) -> List.filter p l = [].
Proof.
  induction l as [|x l IH]; intros Hp; [reflexivity |].
  cbn [List.filter]. rewrite (Hp x (or_introl eq_refl)). apply IH.
  intros y Hy. apply Hp. now right.
Qed.

Lemma processResponse_translateAll f batch st :
  (forall s, truthy (f s) = true) ->
  Forall (fun item => writable st (qi_id item) = true) batch ->
  processResponse
    {| r_error := None; r_translations := Some (map (translationOf f) batch) |} batch st
  = (applyEntries (map (translationOf f) batch) st,
     {| applied := length batch; failed := [] |}).
Proof.
  intros Hf Hall. rewrite processResponse_closed. cbn [translationsOf r_translations].
  assert (Happ : forall l, Forall (fun item => writable st (qi_id item) = true) l ->
            List.filter (applicable st) (map (translationOf f) l) = map (translationOf f) l
            /\ failedWhileProcessing st batch (map (translationOf f) l) = []).
  { induction 1 as [|item l Hw _ [IH1 IH2]]; [split; reflexivity |].
    cbn [map List.filter]. unfold failedWhileProcessing in *. cbn [flat_map].
    unfold applicable at 1.
    rewrite (usableText_translationOf f item (Hf _)). cbn [t_id translationOf].
    rewrite Hw, IH1, IH2. split; reflexivity. }
  destruct (Happ batch Hall) as [-> ->]. rewrite length_map. cbn [app].
  rewrite filter_none; [reflexivity |].
  intros x Hin. apply negb_false_iff, received_In. rewrite map_map.
  apply in_map_iff. exists x. split; [reflexivity | exact Hin].
Qed.

Lemma serve_S Translator fuel m :
  serve Translator (S fuel) m
  = match awaitedFrom Translator m with
    | Some ev =>
        (fst (serve Translator fuel (fst (step ev m))),
         snd (step ev m) ++ snd (serve Translator fuel (fst (step ev m))))
    | None => (m, [])
    end.
Proof.
  cbn [serve]. destruct (awaitedFrom Translator m) as [ev|]; [| reflexivity].
  destruct (step ev m) as [m' acts]. cbn [fst snd].
  now destruct (serve Translator fuel m').
Qed.

Lemma serve_ended Translator fuel m :
  pending m = None -> serve Translator fuel m = (m, []).
Proof.
  intros Hp. destruct fuel; [reflexivity |].
  rewrite serve_S. unfold awaitedFrom. now rewrite Hp.
Qed.

Lemma runInv_ext f E st st' queue :
  textNodeMap st' = textNodeMap st -> doc st' = doc st ->
  runInv f E st queue -> runInv f E st' queue.
Proof. unfold runInv. intros -> ->. auto. Qed.

Lemma control_queue st st' :
  control st' = control st ->
  pendingTranslationQueue st' = pendingTranslationQueue st /\
  translationCancelled st' = translationCancelled st.
Proof. unfold control. intros [=]. auto. Qed.

Lemma drainLoop_done l st :
  translationCancelled st = false ->
  pendingTranslationQueue st = [] ->
  failedItems l = [] ->
  drainLoop l st = (completeRun l st, []).
Proof.
  intros Hc Hq Hf. unfold drainLoop, afterDrain, retryLoopHead.
  now rewrite Hc, Hq, Hf.
Qed.

(** One turn of the drain loop under the faithful capability: the batch in
    flight is answered, applied in full, and the loop goes on with the
    rest of the queue. *)
Lemma drain_turn f E l st x q fuel :
  nodeDetermines E ->
  (forall s, truthy (f s) = true) ->
  translationCancelled st = false ->
  pendingTranslationQueue st = x :: q ->
  runInv f E st (x :: q) ->
  exists st2 l2,
    serve (fun _ => translateAll f) (S fuel) (fst (drainLoop l st))
    = (fst (serve (fun _ => translateAll f) fuel (fst (drainLoop l2 st2))),
       snd (drainLoop l2 st2)
       ++ snd (serve (fun _ => translateAll f) fuel (fst (drainLoop l2 st2)))) /\
    sentTexts (snd (drainLoop l st)) = firstn 8 (x :: q) /\
    waits (snd (drainLoop l st)) = [] /\
    translationCancelled st2 = false /\
    pendingTranslationQueue st2 = skipn 8 (x :: q) /\
    runInv f E st2 (skipn 8 (x :: q)) /\
    totalApplied l2 = (totalApplied l + length (firstn 8 (x :: q)))%nat /\
    failedItems l2 = failedItems l /\
    totalItems l2 = totalItems l /\
    enableAutoTranslate l2 = enableAutoTranslate l /\
    run_targetLanguage l2 = run_targetLanguage l.
Proof.
  intros Hdet Hf Hc Hq Hinv.
  set (batch := firstn 8 (x :: q)).
  set (ld := addProcessed (length batch) l).
  set (std := showStatus
                (MsgPercent (Z.min 100 (roundPercent (totalProcessed ld) (totalItems ld))))
                false (set_pendingTranslationQueue (skipn 8 (x :: q)) st)).
  assert (Hinvd : runInv f E std (batch ++ skipn 8 (x :: q))).
  { unfold batch. rewrite firstn_skipn.
    now apply (runInv_ext f E st std). }
  destruct (runInv_batch f E Hdet Hf batch std (skipn 8 (x :: q)) Hinvd)
    as [Hinv2 Hall].
  set (st2 := applyEntries (map (translationOf f) batch) std).
  set (res := {| applied := length batch; failed := [] |}).
  exists st2, (addResult res ld).
  destruct (control_queue std st2 (control_applyEntries _ std)) as [Hq2 Hc2].
  assert (Hdrain : drainLoop l st
                   = ({| globals := std;
                         pending := Some (TaskDrain ld
                                      (fst (startCall batch (run_targetLanguage ld)
                                              (run_sourceLanguage ld) 3 std))) |},
                      snd (startCall batch (run_targetLanguage ld)
                             (run_sourceLanguage ld) 3 std))).
  { unfold drainLoop. rewrite Hc, Hq. reflexivity. }
  split_and!.
  - rewrite Hdrain, serve_S. cbn [fst].
    unfold awaitedFrom. cbn [pending callOf startCall fst bc_awaiting bc_attempt bc_request].
    cbn [step pending globals callOf startCall fst bc_awaiting].
    unfold onReply. cbn [bc_request texts translateAll handleOutcome r_error truthyOpt].
    rewrite (processResponse_translateAll f batch std Hf Hall).
    cbn [resume]. unfold drainResumed. fold st2 res.
    rewrite Hc2. cbn [showStatus translationCancelled set_status
                      set_pendingTranslationQueue] in *.
    unfold std. cbn. rewrite Hc. reflexivity.
  - rewrite Hdrain. cbn. now rewrite app_nil_r.
  - rewrite Hdrain. reflexivity.
  - rewrite Hc2. unfold std. cbn. exact Hc.
  - rewrite Hq2. reflexivity.
  - exact Hinv2.
  - cbn. lia.
  - cbn. now rewrite app_nil_r.
  - reflexivity.
  - reflexivity.
  - reflexivity.
Qed.

Lemma drain_served f E :
  nodeDetermines E ->
  (forall s, truthy (f s) = true) ->
  forall fuel l st,
    translationCancelled st = false ->
    runInv f E st (pendingTranslationQueue st) ->
    (length (pendingTranslationQueue st) <= fuel)%nat ->
    failedItems l = [] ->
    exists stF l',
      fst (serve (fun _ => translateAll f) fuel (fst (drainLoop l st)))
      = completeRun l' stF /\
      runInv f E stF [] /\
      totalApplied l' = (totalApplied l + length (pendingTranslationQueue st))%nat /\
      failedItems l' = [] /\
      totalItems l' = totalItems l /\
      enableAutoTranslate l' = enableAutoTranslate l /\
      run_targetLanguage l' = run_targetLanguage l /\
      sentTexts (snd (drainLoop l st)
                 ++ snd (serve (fun _ => translateAll f) fuel (fst (drainLoop l st))))
      = pendingTranslationQueue st /\
      waits (snd (drainLoop l st)
             ++ snd (serve (fun _ => translateAll f) fuel (fst (drainLoop l st))))
      = [].
Proof.
  intros Hdet Hf. induction fuel as [|fuel IH]; intros l st Hc Hinv Hlen Hfail.
  - destruct (pendingTranslationQueue st) as [|x q] eqn:Hq; [| cbn in Hlen; lia].
    rewrite (drainLoop_done l st Hc Hq Hfail). cbn [fst snd serve app].
    exists st, l. rewrite Nat.add_0_r. split_and!; auto.
  - destruct (pendingTranslationQueue st) as [|x q] eqn:Hq.
    + rewrite (drainLoop_done l st Hc Hq Hfail). cbn [fst snd].
      rewrite serve_ended by reflexivity. cbn [fst snd app].
      exists st, l. rewrite Nat.add_0_r. split_and!; auto.
    + destruct (drain_turn f E l st x q fuel Hdet Hf Hc Hq Hinv)
        as (st2 & l2 & Hserve & Hsent & Hwait & Hc2 & Hq2 & Hinv2 & Ha2 & Hf2 & Ht2
            & He2 & Hr2).
      rewrite <- Hq2 in Hinv2.
      destruct (IH l2 st2 Hc2 Hinv2) as (stF & l' & H1 & H2 & H3 & H4 & H5 & H6 & H7 & H8 & H9).
      { rewrite Hq2. rewrite length_skipn. cbn [length] in *. lia. }
      { congruence. }
      exists stF, l'. rewrite Hserve. cbn [fst snd].
      split_and!; auto; try congruence.
      * rewrite H3, Ha2, Hq2, length_firstn, length_skipn. lia.
      * unfold sentTexts in *. rewrite flat_map_app, Hsent, H8, Hq2.
        apply firstn_skipn.
      * unfold waits in *. rewrite flat_map_app, Hwait, H9. reflexivity.
Qed.

Lemma keys_entriesFrom accepted : forall k,
  Registry.keys (entriesFrom k accepted) = seq k (length accepted).
Proof.
  induction accepted as [|[n nd] rest IH]; intros k; [reflexivity |].
  cbn. f_equal. apply IH.
Qed.

Lemma ids_itemsFrom d accepted : forall k,
  map qi_id (itemsFrom d k accepted) = seq k (length accepted).
Proof.
  induction accepted as [|[n nd] rest IH]; intros k; [reflexivity |].
  cbn. f_equal. apply IH.
Qed.

Lemma In_entriesFrom accepted : forall k id e,
  In (id, e) (entriesFrom k accepted) <->
  exists n nd, nth_error accepted (id - k) = Some (n, nd) /\ (k <= id)%nat /\
               e = {| node := n; originalText := textContent nd;
                      translated := false; translatedText := None |}.
Proof.
  induction accepted as [|[n nd] rest IH]; intros k id e; cbn [entriesFrom In].
  - split; [contradiction |]. intros (n & nd & H & _). now destruct (id - k)%nat.
  - rewrite IH. split.
    + intros [[= <- <-] | (n' & nd' & Hnth & Hle & ->)].
      * exists n, nd. rewrite Nat.sub_diag. auto.
      * exists n', nd'. replace (id - k)%nat with (S (id - S k)) by lia.
        split_and!; auto. lia.
    + intros (n' & nd' & Hnth & Hle & ->).
      destruct (id - k)%nat as [|j] eqn:Hj.
      * left. injection Hnth as <- <-. f_equal. lia.
      * right. exists n', nd'. replace (id - S k)%nat with j by lia.
        split_and!; auto. lia.
Qed.

Lemma In_itemsFrom d accepted : forall k item,
  In item (itemsFrom d k accepted) ->
  exists e0, In (qi_id item, e0) (entriesFrom k accepted) /\
             qi_text item = trim (originalText e0).
Proof.
  induction accepted as [|[n nd] rest IH]; intros k item; cbn [itemsFrom entriesFrom In];
    [contradiction |].
  intros [<- | Hin].
  - eexists. split; [left; reflexivity | reflexivity].
  - destruct (IH _ _ Hin) as (e0 & H1 & H2). eauto.
Qed.

Lemma get_In m k e : Registry.get m k = Some e -> In (k, e) m.
Proof.
  induction m as [|[j e'] m IH]; simpl; [discriminate |].
  destruct (Nat.eqb_spec j k) as [->|Hne].
  - intros [= ->]. now left.
  - intros H. right. now apply IH.
Qed.

Lemma NoDup_keys_entriesFrom k accepted :
  List.NoDup (Registry.keys (entriesFrom k accepted)).
Proof. rewrite keys_entriesFrom. apply List.seq_NoDup. Qed.

Lemma nodeDetermines_entriesFrom st b candidates k :
  nodeDetermines (entriesFrom k (acceptedNodes st b candidates)).
Proof.
  intros id id' e e' Hget Hget' Hn.
  apply get_In, In_entriesFrom in Hget as (n & nd & Hnth & _ & ->).
  apply get_In, In_entriesFrom in Hget' as (n' & nd' & Hnth' & _ & ->).
  cbn in *. subst n'.
  apply nth_error_In, acceptedNodes_In in Hnth as (_ & Hnd & _).
  apply nth_error_In, acceptedNodes_In in Hnth' as (_ & Hnd' & _).
  congruence.
Qed.

Lemma roundPercent_all n : (0 < n)%nat -> roundPercent n n = 100.
Proof.
  intros Hn. unfold roundPercent. symmetry.
  apply (Z.div_unique _ _ 100 (Z.of_nat n)); lia.
Qed.

Lemma sortByPriority_length l : length (sortByPriority l) = length l.
Proof. symmetry. apply Permutation_length, sortByPriority_perm. Qed.

Lemma length_itemsFrom d accepted : forall k,
  length (itemsFrom d k accepted) = length accepted.
Proof.
  induction accepted as [|[n nd] rest IH]; intros k; simpl; [reflexivity |].
  now rewrite IH.
Qed.

(** The registry and the work list right after a full extraction satisfy
    the invariant of the run. *)
Lemma runInv_extracted f st root st1 :
  textNodeMap st1 = entriesFrom 0 (acceptedNodes st false root) ->
  doc st1 = doc st ->
  runInv f (entriesFrom 0 (acceptedNodes st false root)) st1
    (sortByPriority (itemsFrom (doc st) 0 (acceptedNodes st false root))).
Proof.
  intros Hmap Hdoc. unfold runInv. rewrite Hmap, Hdoc. split_and!.
  - intros id e0 Hget. exists e0. split_and!; auto.
    apply get_In, In_entriesFrom in Hget as (n & nd & Hnth & _ & ->). cbn.
    apply nth_error_In, acceptedNodes_In in Hnth as (_ & Hnd & _). eauto.
  - intros id e Hget. eauto.
  - intros id e Hget Ht.
    apply get_In, In_entriesFrom in Hget as (n & nd & _ & _ & ->). discriminate.
  - intros item Hin.
    apply (Permutation_in _ (Permutation_sym (sortByPriority_perm _))) in Hin.
    destruct (In_itemsFrom _ _ _ _ Hin) as (e0 & Hin0 & Htext).
    exists e0. split; [| exact Htext].
    apply get_In_NoDup; [apply NoDup_keys_entriesFrom | exact Hin0].
  - intros id e0 Hget. left.
    apply (Permutation_in _ (Permutation_map qi_id (sortByPriority_perm _))).
    rewrite ids_itemsFrom, <- keys_entriesFrom.
    apply get_In in Hget. unfold Registry.keys. apply in_map_iff.
    exists (id, e0). auto.
Qed.

Lemma sentTexts_app a b : sentTexts (a ++ b) = sentTexts a ++ sentTexts b.
Proof. unfold sentTexts. apply flat_map_app. Qed.

Lemma waits_app a b : waits (a ++ b) = waits a ++ waits b.
Proof. unfold waits. apply flat_map_app. Qed.

(** A start message on an idle page: extraction, then the drain loop. *)
Lemma start_idle m targetLanguage sourceLanguage glow :
  pending m = None ->
  translationInProgress (globals m) = false ->
  acceptedNodes (clearRegistry (globals m)) false (body (doc (globals m))) <> [] ->
  let accepted :=
    acceptedNodes (clearRegistry (globals m)) false (body (doc (globals m))) in
  exists stq l0,
    step (EvStart targetLanguage sourceLanguage glow) m
    = (fst (drainLoop l0 stq), snd (drainLoop l0 stq) ++ [ARespond (RStarted true)]) /\
    textNodeMap stq = entriesFrom 0 accepted /\
    doc stq = doc (globals m) /\
    pendingTranslationQueue stq
    = sortByPriority (itemsFrom (doc (globals m)) 0 accepted) /\
    translationCancelled stq = false /\
    totalApplied l0 = 0%nat /\
    totalItems l0 = length accepted /\
    failedItems l0 = [] /\
    enableAutoTranslate l0 = true /\
    run_targetLanguage l0 = targetLanguage /\
    translatedNodeSet stq = ∅ /\
    hasTranslationCache stq = hasTranslationCache (globals m) /\
    isShowingTranslations stq = isShowingTranslations (globals m).
Proof.
  intros Hp Hidle Hne accepted. destruct m as [st p]. cbn [globals pending] in *.
  subst p. cbn [step globals pending]. unfold translatePage. cbn [globals pending].
  set (st0 := match glow with Some b => set_showGlow b st | None => st end).
  assert (Hidle0 : translationInProgress st0 = false) by (subst st0; now destruct glow).
  assert (Hdoc0 : doc st0 = doc st) by (subst st0; now destruct glow).
  assert (Hview0 : (hasTranslationCache st0, isShowingTranslations st0)
                   = (hasTranslationCache st, isShowingTranslations st))
    by (subst st0; now destruct glow).
  rewrite Hidle0.
  set (stb := set_scrollListener true
                (showStatus MsgExtracting false
                   (set_translationCancelled false
                      (set_translationInProgress true
                         (set_currentTargetLanguage targetLanguage st0))))).
  assert (Hdocb : doc stb = doc st) by exact Hdoc0.
  change (extractTextNodes (body (doc _)) false _)
    with (extractTextNodes (body (doc stb)) false stb).
  unfold extractTextNodes.
  destruct (walkTextNodes_closed false (body (doc stb)) (clearRegistry stb) []
              (keysBelow_clearRegistry stb)) as (H1 & H2 & H3 & H4 & H5).
  pose proof (settings_walkTextNodes false (body (doc stb)) (clearRegistry stb) [])
    as Hset.
  destruct (walkTextNodes false (body (doc stb)) (clearRegistry stb) [])
    as [st1 items] eqn:Hwalk.
  cbn [fst snd] in *.
  assert (Hacc : acceptedNodes (clearRegistry stb) false (body (doc stb)) = accepted).
  { unfold accepted. rewrite Hdocb.
    apply acceptedNodes_ext; [exact Hdoc0 | reflexivity]. }
  rewrite Hacc in *. cbn [app clearRegistry nextId set_nextId] in H1, H2.
  assert (Hitems : items = itemsFrom (doc st) 0 accepted).
  { rewrite H2. cbn. now rewrite Hdoc0. }
  assert (Hlen : length (sortByPriority items) = length accepted).
  { rewrite sortByPriority_length, Hitems. apply length_itemsFrom. }
  destruct (sortByPriority items) as [|x sorted] eqn:Hsorted.
  { exfalso. apply Hne. apply List.length_zero_iff_nil. symmetry. exact Hlen. }
  match goal with |- context [drainLoop ?l ?s] => exists s, l end.
  split; [| split_and!].
  - match goal with |- (let '(_, _) := ?e in _) = _ => now destruct e end.
  - cbn. exact H1.
  - cbn. rewrite H4. exact Hdoc0.
  - cbn. now rewrite <- Hitems, Hsorted.
  - cbn. unfold settings in Hset. cbn in Hset. congruence.
  - reflexivity.
  - cbn [totalItems]. exact Hlen.
  - reflexivity.
  - reflexivity.
  - reflexivity.
  - cbn. rewrite H5. reflexivity.
  - cbn. unfold settings in Hset. cbn in Hset. congruence.
  - cbn. unfold settings in Hset. cbn in Hset. congruence.
Qed.

Lemma completeRun_served l st n :
  totalApplied l = n -> totalItems l = n -> failedItems l = [] ->
  enableAutoTranslate l = true -> (0 < n)%nat ->
  runEnded (completeRun l st) /\
  status (globals (completeRun l st)) = Some (MsgSummary n n 100 0, false) /\
  hasTranslationCache (globals (completeRun l st)) = true /\
  isShowingTranslations (globals (completeRun l st)) = true /\
  autoTranslateEnabled (globals (completeRun l st)) = true /\
  doc (globals (completeRun l st)) = doc st.
Proof.
  intros Ha Ht Hf He Hn. unfold completeRun. rewrite Ha, Ht, Hf, He.
  rewrite (roundPercent_all n Hn).
  destruct (Nat.ltb_spec 0 n) as [_|]; [| lia].
  unfold runEnded. cbn. auto 10.
Qed.

(** X17. A run served by a faithful capability translates the whole page.
    On an idle page with at least one eligible text node, let the
    Translator answer every request with a non-empty translation [f text]
    of each requested item.  Then the start message, followed by the
    answers to the requests as they come, ends the run: nothing is
    suspended and the run flags are down; the status reports all [n]
    extracted items as translated, 100 percent, none failed; the page has
    a translation cache, shows translations and watches for new content;
    every accepted text node shows its translation between the leading
    and the trailing white space of its original text; the requests,
    taken together, carry each item of the work list exactly once, in
    descending order of priority; and the run never waits. *)
Theorem run_with_faithful_translator m targetLanguage sourceLanguage glow f :
  pending m = None ->
  translationInProgress (globals m) = false ->
  (forall s, truthy (f s) = true) ->
  let accepted :=
    acceptedNodes (clearRegistry (globals m)) false (body (doc (globals m))) in
  let n := length accepted in
  let r1 := step (EvStart targetLanguage sourceLanguage glow) m in
  let r2 := serve (fun _ => translateAll f) n (fst r1) in
  let st2 := globals (fst r2) in
  accepted <> [] ->
  runEnded (fst r2) /\
  status st2 = Some (MsgSummary n n 100 0, false) /\
  hasTranslationCache st2 = true /\
  isShowingTranslations st2 = true /\
  autoTranslateEnabled st2 = true /\
  (forall k nd,
     In (k, nd) accepted ->
     shownText (doc st2) k
     = Some (leadingSpace (textContent nd) ++ f (trim (textContent nd))
             ++ trailingSpace (textContent nd))%string) /\
  sentTexts (snd r1 ++ snd r2)
  = sortByPriority (itemsFrom (doc (globals m)) 0 accepted) /\
  waits (snd r1 ++ snd r2) = [].
Proof.
  intros Hp Hidle Hf accepted n r1 r2 st2 Hne.
  destruct (start_idle m targetLanguage sourceLanguage glow Hp Hidle Hne)
    as (stq & l0 & Hstep & Hmap & Hdoc & Hq & Hc & Ha0 & Ht0 & Hf0 & He0 & _).
  fold accepted in Hmap, Hq, Ht0.
  set (E := entriesFrom 0 accepted) in *.
  assert (Hdet : nodeDetermines E)
    by apply (nodeDetermines_entriesFrom (clearRegistry (globals m)) false).
  assert (Hinv : runInv f E stq (pendingTranslationQueue stq)).
  { rewrite Hq.
    exact (runInv_extracted f (clearRegistry (globals m)) (body (doc (globals m)))
             stq Hmap Hdoc). }
  assert (Hlen : length (pendingTranslationQueue stq) = n).
  { rewrite Hq, sortByPriority_length. apply length_itemsFrom. }
  destruct (drain_served f E Hdet Hf n l0 stq Hc Hinv) as
    (stF & l' & H1 & H2 & H3 & H4 & H5 & H6 & _ & H8 & H9); [lia | exact Hf0 |].
  assert (Hn : (0 < n)%nat).
  { subst n. destruct accepted; [contradiction | cbn; lia]. }
  subst st2 r2 r1. rewrite Hstep. cbn [fst snd]. rewrite H1.
  destruct (completeRun_served l' stF n) as (R1 & R2 & R3 & R4 & R5 & R6);
    try congruence; try lia.
  split_and!; try assumption.
  - intros k nd Hin. rewrite R6.
    destruct (In_nth_error _ _ Hin) as [j Hj].
    assert (HE : Registry.get E j
                 = Some {| node := k; originalText := textContent nd;
                           translated := false; translatedText := None |}).
    { apply get_In_NoDup; [apply NoDup_keys_entriesFrom |].
      apply In_entriesFrom. exists k, nd. rewrite Nat.sub_0_r.
      split_and!; auto. lia. }
    destruct H2 as (Ia & _ & Ib & _ & Ie).
    destruct (Ia _ _ HE) as (e & Hget & Hnode & Horig & _).
    destruct (Ie _ _ HE) as [[] | (e' & Hget' & Ht')].
    rewrite Hget in Hget'. injection Hget' as <-.
    rewrite <- Hnode at 1. cbn [node] in *.
    rewrite (Ib _ _ Hget Ht'). unfold written. now rewrite Horig.
  - rewrite <- app_assoc, sentTexts_app. cbn [app].
    change (sentTexts (ARespond (RStarted true) :: ?l)) with (sentTexts l).
    rewrite <- sentTexts_app, H8. exact Hq.
  - rewrite <- app_assoc, waits_app. cbn [app].
    change (waits (ARespond (RStarted true) :: ?l)) with (waits l).
    rewrite <- waits_app. exact H9.
Qed.

Lemma run_with_faithful_translator_witness :
  let r1 := step (EvStart "es" None None) Sample.loaded in
  let r2 := serve (fun _ => translateAll (String "*"%char)) 5 (fst r1) in
  status (globals (fst r2)) = Some (MsgSummary 5 5 100 0, false) /\
  shownText (doc (globals (fst r2))) 12 = Some " *Title ".
Proof.
  destruct (run_with_faithful_translator Sample.loaded "es" None None (String "*"%char))
    as (_ & H2 & _ & _ & _ & H6 & _).
  - reflexivity.
  - reflexivity.
  - intros s. reflexivity.
  - vm_compute. discriminate.
  - split.
    + exact H2.
    + apply (H6 12%nat {| textContent := " Title "; parentElement := Some 5%nat |}).
      vm_compute. left. reflexivity.
Defined.

(** ** Ties of priority *)

Lemma insertByPriority_servedBefore x l :
  StronglySorted servedBefore l ->
  Forall (fun y => (qi_id x < qi_id y)%nat) l ->
  StronglySorted servedBefore (insertByPriority x l).
Proof.
  induction l as [|y l IH]; intros Hs Hid; simpl.
  - constructor; constructor.
  - apply StronglySorted_inv in Hs as [Hl Hy].
    apply List.Forall_cons_iff in Hid as [Hxy Hid].
    destruct (Z.leb_spec (qi_priority y) (qi_priority x)) as [Hle|Hgt].
    + constructor; [constructor; assumption |].
      constructor.
      * unfold servedBefore. lia.
      * rewrite List.Forall_forall in *. intros z Hz.
        specialize (Hy z Hz). specialize (Hid z Hz). unfold servedBefore in *. lia.
    + constructor; [now apply IH |].
      apply (Permutation_Forall (insertByPriority_perm x l)).
      constructor; [unfold servedBefore; lia | exact Hy].
Qed.

Lemma sortByPriority_servedBefore l :
  StronglySorted (fun a b => (qi_id a < qi_id b)%nat) l ->
  StronglySorted servedBefore (sortByPriority l).
Proof.
  induction l as [|x l IH]; intros Hs; simpl; [constructor |].
  apply StronglySorted_inv in Hs as [Hl Hx].
  apply insertByPriority_servedBefore; [now apply IH |].
  exact (Permutation_Forall (sortByPriority_perm l) Hx).
Qed.

Lemma itemsFrom_ascending d accepted : forall k,
  StronglySorted (fun a b => (qi_id a < qi_id b)%nat) (itemsFrom d k accepted) /\
  Forall (fun a => (k <= qi_id a)%nat) (itemsFrom d k accepted).
Proof.
  induction accepted as [|[n nd] rest IH]; intros k; cbn [itemsFrom].
  - split; constructor.
  - destruct (IH (S k)) as [Hs Hge]. split.
    + constructor; [exact Hs |].
      eapply List.Forall_impl; [| exact Hge]. cbn. lia.
    + constructor; [cbn; lia |].
      eapply List.Forall_impl; [| exact Hge]. cbn. lia.
Qed.

(** X18. The work list of an extraction is totally ordered: an item comes
    before another when its priority is higher, and at equal priority when
    its id is lower, that is when its text node comes first in document
    order.  (The sort is stable and the ids are given in document order.)
    This holds for a full extraction and, when the ids of the registry are
    below the id counter, for an incremental one. *)
Theorem extraction_breaks_ties_in_document_order root onlyNew st :
  (onlyNew = true -> keysBelow st) ->
  StronglySorted servedBefore (snd (extractTextNodes root onlyNew st)).
Proof.
  intros Hb. unfold extractTextNodes.
  assert (Hk : keysBelow (if onlyNew then st else clearRegistry st)).
  { destruct onlyNew; [now apply Hb | apply keysBelow_clearRegistry]. }
  destruct (walkTextNodes_closed onlyNew root _ [] Hk) as (_ & H2 & _).
  destruct (walkTextNodes onlyNew root _ []) as [st' items]. cbn [fst snd] in *.
  rewrite H2. cbn [app]. apply sortByPriority_servedBefore, itemsFrom_ascending.
Qed.

Lemma extraction_breaks_ties_in_document_order_witness :
  StronglySorted servedBefore
    (snd (extractTextNodes (body Sample.page) true (globals Sample.loaded))) /\
  map (fun item => (qi_id item, qi_priority item))
    (snd (extractTextNodes (body Sample.page) true (globals Sample.loaded)))
  = [(3%nat, 10930); (1%nat, 10760); (2%nat, 10760); (0%nat, 10750); (4%nat, 0)].
Proof.
  split.
  - apply (extraction_breaks_ties_in_document_order (body Sample.page) true
             (globals Sample.loaded)).
    intros _. keysBelow_closed.
  - vm_compute. reflexivity.
Defined.

(** ** The watcher for new content *)

Lemma debounce_while_busy m :
  translationInProgress (globals m) = true ->
  step EvDebounce m
  = (if autoTranslateDebounceTimer (globals m)
     then {| globals := set_autoTranslateDebounceTimer false (globals m);
             pending := pending m |}
     else m, []).
Proof.
  intros Hbusy. destruct m as [st p]. cbn [step globals pending] in *.
  destruct (autoTranslateDebounceTimer st); [| reflexivity].
  unfold translatePendingNodes. cbn. rewrite Hbusy.
  now destruct (pendingNewNodes st).
Qed.

(** X20. While an activation is in progress the watcher for new content
    only buffers.  A mutation callback sends nothing; it appends the added
    nodes to the buffer when the observer is connected and auto-translate
    is enabled, and is ignored otherwise.  When the debounce timer then
    fires, nothing is sent either: the buffer, the registry, the document
    and the suspended activation are as they were, and no timer is left
    armed.  After a cancel or a restore message the callback is ignored
    outright. *)
Theorem watcher_only_buffers_while_busy m added :
  translationInProgress (globals m) = true ->
  let r1 := step (EvMutations added) m in
  let r2 := step EvDebounce (fst r1) in
  snd r1 = [] /\ snd r2 = [] /\
  pendingNewNodes (globals (fst r2))
  = (if mutationObserver (globals m) && autoTranslateEnabled (globals m)
     then pendingNewNodes (globals m) ++ added
     else pendingNewNodes (globals m)) /\
  autoTranslateDebounceTimer (globals (fst r2)) = false /\
  pending (fst r2) = pending m /\
  textNodeMap (globals (fst r2)) = textNodeMap (globals m) /\
  doc (globals (fst r2)) = doc (globals m) /\
  step (EvMutations added) (fst (step EvCancel m)) = (fst (step EvCancel m), []) /\
  step (EvMutations added) (fst (step EvRestoreOriginal m))
  = (fst (step EvRestoreOriginal m), []).
Proof.
  intros Hbusy r1 r2. subst r2 r1. destruct m as [st p]. cbn [globals pending] in *.
  assert (Hstep1 : step (EvMutations added) {| globals := st; pending := p |}
                   = (if mutationObserver st && autoTranslateEnabled st
                      then {| globals := set_autoTranslateDebounceTimer true
                                           (set_pendingNewNodes (pendingNewNodes st ++ added) st);
                              pending := p |}
                      else {| globals := st; pending := p |}, [])).
  { cbn [step globals pending].
    now destruct (mutationObserver st && autoTranslateEnabled st). }
  rewrite Hstep1. cbn [fst snd].
  destruct (mutationObserver st && autoTranslateEnabled st);
    rewrite debounce_while_busy by exact Hbusy; cbn [fst snd globals pending].
  - split_and!; try reflexivity.
    cbn [step globals pending fst].
    destruct (restoreOriginalText_view st) as (_ & _ & H3 & H4 & _).
    unfold showStatus. cbn. rewrite H3, H4. reflexivity.
  - destruct (autoTranslateDebounceTimer st) eqn:Ht; cbn [globals pending].
    + split_and!; try reflexivity.
      cbn [step globals pending fst].
      destruct (restoreOriginalText_view st) as (_ & _ & H3 & H4 & _).
      unfold showStatus. cbn. rewrite H3, H4. reflexivity.
    + split_and!; try reflexivity; try exact Ht.
      cbn [step globals pending fst].
      destruct (restoreOriginalText_view st) as (_ & _ & H3 & H4 & _).
      unfold showStatus. cbn. rewrite H3, H4. reflexivity.
Qed.

Lemma watcher_only_buffers_while_busy_witness :
  snd (step EvDebounce (fst (step (EvMutations [AddedText 15%nat]) Sample.busy))) = [].
Proof.
  apply (watcher_only_buffers_while_busy Sample.busy [AddedText 15%nat]).
  vm_compute. reflexivity.
Defined.

Lemma watcherFresh_completeRun l st :
  enableAutoTranslate l = true ->
  watcherFresh (run_targetLanguage l) (globals (completeRun l st)).
Proof. intros He. unfold completeRun. rewrite He. repeat split. Qed.

Lemma watcherFresh_retryLoopHead l ra st :
  enableAutoTranslate l = true ->
  pending (fst (retryLoopHead l ra st)) = None ->
  watcherFresh (run_targetLanguage l) (globals (fst (retryLoopHead l ra st))).
Proof.
  intros He. unfold retryLoopHead. destruct (_ && _ && _); cbn [fst pending].
  - discriminate.
  - intros _. now apply watcherFresh_completeRun.
Qed.

Lemma watcherFresh_retryFor l ra its i st :
  enableAutoTranslate l = true ->
  pending (fst (retryFor l ra its i st)) = None ->
  watcherFresh (run_targetLanguage l) (globals (fst (retryFor l ra its i st))).
Proof.
  intros He. unfold retryFor.
  destruct (translationCancelled st); [now apply watcherFresh_retryLoopHead |].
  destruct (skipn i its); [now apply watcherFresh_retryLoopHead |].
  cbn. discriminate.
Qed.

Lemma watcherFresh_drainLoop l st :
  enableAutoTranslate l = true ->
  translationCancelled st = false ->
  pending (fst (drainLoop l st)) = None ->
  watcherFresh (run_targetLanguage l) (globals (fst (drainLoop l st))).
Proof.
  intros He Hc. unfold drainLoop, afterDrain. rewrite Hc. cbn [negb].
  destruct (pendingTranslationQueue st); [now apply watcherFresh_retryLoopHead |].
  cbn. discriminate.
Qed.

Lemma watcherFresh_resume t l res st :
  localsOf t = Some l ->
  enableAutoTranslate l = true ->
  translationCancelled st = false ->
  pending (fst (resume t res st)) = None ->
  watcherFresh (run_targetLanguage l) (globals (fst (resume t res st))).
Proof.
  intros Hl He Hc. destruct t as [l0 c|l0 ra|l0 ra its i c|c]; cbn in Hl;
    try discriminate; injection Hl as ->; cbn [resume].
  - unfold drainResumed. rewrite Hc.
    apply (watcherFresh_drainLoop (addResult res l) st); assumption.
  - apply (watcherFresh_retryFor (addResult res l)). exact He.
Qed.

(** X21. A run that completes starts the watcher for new content afresh.
    When the answer of the Translator ends a run that was not cancelled
    (after the turn nothing is suspended), the watcher is enabled and
    connected for the target language of the run and its buffer is empty:
    nodes that were buffered while the run was in progress are dropped
    without being translated. *)
Theorem completed_run_restarts_watcher m o t l :
  pending m = Some t ->
  localsOf t = Some l ->
  enableAutoTranslate l = true ->
  translationCancelled (globals m) = false ->
  pending (fst (step (EvReply o) m)) = None ->
  watcherFresh (run_targetLanguage l) (globals (fst (step (EvReply o) m))).
Proof.
  intros Hp Hl He Hc. destruct m as [st p]. cbn [globals pending] in *. subst p.
  cbn [step globals pending].
  destruct (callOf t) as [c|] eqn:Hcall; [| cbn; discriminate].
  destruct (bc_awaiting c); [| cbn; discriminate].
  unfold onReply.
  destruct (handleOutcome o (texts (bc_request c)) st) as [st' res|] eqn:Ho.
  - apply (watcherFresh_resume t l res st' Hl He).
    destruct (control_queue st st' (control_handleOutcome _ _ _ _ _ Ho)) as [_ Hc'].
    congruence.
  - destruct (bc_attempt c <? bc_retries c - 1)%nat; [cbn; discriminate |].
    now apply (watcherFresh_resume t l _ st Hl He).
Qed.

Lemma completed_run_restarts_watcher_witness :
  pendingNewNodes
    (globals (fst (step (EvReply Sample.allTranslated)
                     (fst (step (EvMutations [AddedText 15%nat])
                             (fst (run [EvToggleAuto None; EvStart "es" None None]
                                     Sample.loaded))))))) = [].
Proof.
  refine (proj1 (completed_run_restarts_watcher
                   (fst (step (EvMutations [AddedText 15%nat])
                           (fst (run [EvToggleAuto None; EvStart "es" None None]
                                   Sample.loaded))))
                   Sample.allTranslated _ _ _ _ _ _ _)).
  - vm_compute. reflexivity.
  - reflexivity.
  - reflexivity.
  - vm_compute. reflexivity.
  - vm_compute. reflexivity.
Defined.

(** ** Every activation ends *)

Section Termination.

Variable Translator : nat -> request -> outcome.
Variable final : mstate -> Prop.

Lemma Ends_now m : final m -> Ends Translator final m.
Proof. intros H. exists 0%nat. exact H. Qed.

Lemma Ends_step m ev :
  awaitedFrom Translator m = Some ev ->
  Ends Translator final (fst (step ev m)) ->
  Ends Translator final m.
Proof.
  intros Hev [fuel H]. exists (S fuel). rewrite serve_S, Hev. exact H.
Qed.

Lemma resume_withCall t c res st : resume (withCall t c) res st = resume t res st.
Proof. now destruct t. Qed.

Lemma callOf_not_wait t c : callOf t = Some c ->
  forall st,
    awaitedFrom Translator {| globals := st; pending := Some t |}
    = Some match bc_awaiting c with
           | AwaitReply => EvReply (Translator (bc_attempt c) (bc_request c))
           | AwaitBackoff => EvTimer
           end.
Proof.
  intros Hc st. unfold awaitedFrom. cbn [pending].
  destruct t; cbn in Hc; try discriminate; injection Hc as ->;
    cbn [callOf]; now destruct (bc_awaiting c).
Qed.

Lemma step_reply t c st o :
  callOf t = Some c -> bc_awaiting c = AwaitReply ->
  step (EvReply o) {| globals := st; pending := Some t |}
  = match onReply o c st with
    | CallPending c' acts => ({| globals := st; pending := Some (withCall t c') |}, acts)
    | CallReturns st' res => resume t res st'
    end.
Proof. intros Hc Ha. cbn [step pending globals]. now rewrite Hc, Ha. Qed.

Lemma step_backoff t c st :
  callOf t = Some c -> bc_awaiting c = AwaitBackoff ->
  step EvTimer {| globals := st; pending := Some t |}
  = ({| globals := st; pending := Some (withCall t (fst (onBackoff c))) |},
     snd (onBackoff c)).
Proof.
  intros Hc Ha. cbn [step pending globals].
  destruct t; cbn in Hc; try discriminate; injection Hc as ->; cbn [callOf];
    now rewrite Ha.
Qed.

(** A suspended batch call returns: the activation resumes with a result
    and a state that differs from the present one by registry writes
    only. *)
Lemma Ends_call_reply : forall n t c st,
  callOf t = Some c ->
  bc_awaiting c = AwaitReply ->
  (bc_retries c - 1 - bc_attempt c <= n)%nat ->
  (forall res st', control st' = control st ->
                   Ends Translator final (fst (resume t res st'))) ->
  Ends Translator final {| globals := st; pending := Some t |}.
Proof.
  induction n as [|n IH]; intros t c st Hc Ha Hn Hk.
  - apply (Ends_step _ (EvReply (Translator (bc_attempt c) (bc_request c)))).
    { rewrite (callOf_not_wait t c Hc), Ha. reflexivity. }
    rewrite (step_reply t c st _ Hc Ha). unfold onReply.
    destruct (handleOutcome _ _ st) as [st' res|] eqn:Ho.
    + apply Hk. exact (control_handleOutcome _ _ _ _ _ Ho).
    + destruct (Nat.ltb_spec (bc_attempt c) (bc_retries c - 1)); [lia |].
      now apply Hk.
  - apply (Ends_step _ (EvReply (Translator (bc_attempt c) (bc_request c)))).
    { rewrite (callOf_not_wait t c Hc), Ha. reflexivity. }
    rewrite (step_reply t c st _ Hc Ha). unfold onReply.
    destruct (handleOutcome _ _ st) as [st' res|] eqn:Ho.
    + apply Hk. exact (control_handleOutcome _ _ _ _ _ Ho).
    + destruct (Nat.ltb_spec (bc_attempt c) (bc_retries c - 1)); [| now apply Hk].
      cbn [fst].
      set (c1 := {| bc_request := bc_request c; bc_retries := bc_retries c;
                    bc_attempt := bc_attempt c; bc_awaiting := AwaitBackoff |}).
      assert (Hc1 : callOf (withCall t c1) = Some c1) by exact (callOf_withCall t c c1 Hc).
      apply (Ends_step _ EvTimer).
      { rewrite (callOf_not_wait _ c1 Hc1). reflexivity. }
      rewrite (step_backoff _ c1 st Hc1 eq_refl). cbn [fst onBackoff].
      match goal with |- Ends _ _ {| globals := _; pending := Some (withCall _ ?c2) |} =>
        apply (IH _ c2)
      end.
      * exact (callOf_withCall _ c1 _ Hc1).
      * reflexivity.
      * cbn. lia.
      * intros res st' Hst'. rewrite !resume_withCall. now apply Hk.
Qed.

Lemma Ends_call t c st :
  callOf t = Some c ->
  (forall res st', control st' = control st ->
                   Ends Translator final (fst (resume t res st'))) ->
  Ends Translator final {| globals := st; pending := Some t |}.
Proof.
  intros Hc Hk. destruct (bc_awaiting c) eqn:Ha.
  - exact (Ends_call_reply _ t c st Hc Ha (Nat.le_refl _) Hk).
  - apply (Ends_step _ EvTimer).
    { rewrite (callOf_not_wait t c Hc), Ha. reflexivity. }
    rewrite (step_backoff t c st Hc Ha). cbn [fst onBackoff].
    match goal with |- Ends _ _ {| globals := _; pending := Some (withCall _ ?c2) |} =>
      apply (Ends_call_reply _ _ c2 st (callOf_withCall t c _ Hc) eq_refl (Nat.le_refl _))
    end.
    intros res st' Hst'. rewrite resume_withCall. now apply Hk.
Qed.

Hypothesis final_ended : forall m, runEnded m -> final m.

Lemma Ends_completeRun l st : Ends Translator final (completeRun l st).
Proof. apply Ends_now, final_ended, completeRun_ended. Qed.

Lemma Ends_finishRun st : Ends Translator final (finishRun st).
Proof. apply Ends_now, final_ended, finishRun_ended. Qed.

Lemma Ends_retryFor_from_head ra :
  (forall l st, Ends Translator final (fst (retryLoopHead l ra st))) ->
  forall n l its i st,
    (length its - i <= n)%nat ->
    Ends Translator final (fst (retryFor l ra its i st)).
Proof.
  intros Hhead. induction n as [|n IH]; intros l its i st Hn; unfold retryFor.
  - destruct (translationCancelled st); [apply Hhead |].
    rewrite skipn_all2 by lia. apply Hhead.
  - destruct (translationCancelled st); [apply Hhead |].
    destruct (skipn i its) as [|x r] eqn:Hs; [apply Hhead |].
    assert (Hi : (i < length its)%nat).
    { destruct (Nat.lt_ge_cases i (length its)) as [H|H]; [exact H |].
      rewrite skipn_all2 in Hs by exact H. discriminate. }
    cbn [startCall fst].
    eapply Ends_call; [reflexivity |].
    intros res st' _. cbn [resume]. apply IH. lia.
Qed.

Lemma Ends_retry_rounds : forall k ra,
  (2 - ra <= k)%nat ->
  (forall l st, Ends Translator final (fst (retryLoopHead l ra st))).
Proof.
  induction k as [|k IH]; intros ra Hk l st; unfold retryLoopHead.
  - destruct (Nat.ltb_spec ra 2); [lia |]. rewrite andb_false_r. cbn [andb fst].
    apply Ends_completeRun.
  - destruct (_ && _ && _) eqn:Hcond; cbn [fst]; [| apply Ends_completeRun].
    apply andb_true_iff in Hcond as [Hcond _].
    apply andb_true_iff in Hcond as [_ Hra]. apply Nat.ltb_lt in Hra.
    apply (Ends_step _ EvTimer); [reflexivity |]. cbn [step pending globals fst].
    eapply Ends_retryFor_from_head; [| apply Nat.le_refl].
    apply IH. lia.
Qed.

Lemma Ends_retryFor l ra its i st :
  Ends Translator final (fst (retryFor l ra its i st)).
Proof.
  eapply Ends_retryFor_from_head; [| apply Nat.le_refl].
  apply (Ends_retry_rounds (2 - ra) ra (Nat.le_refl _)).
Qed.

Lemma Ends_afterDrain l st : Ends Translator final (fst (afterDrain l st)).
Proof.
  unfold afterDrain. destruct (negb (translationCancelled st)).
  - apply (Ends_retry_rounds 2 0). lia.
  - apply Ends_finishRun.
Qed.

Lemma Ends_drainLoop : forall n l st,
  (length (pendingTranslationQueue st) <= n)%nat ->
  Ends Translator final (fst (drainLoop l st)).
Proof.
  induction n as [|n IH]; intros l st Hn; unfold drainLoop.
  - destruct (translationCancelled st); [apply Ends_afterDrain |].
    destruct (pendingTranslationQueue st); [apply Ends_afterDrain | cbn in Hn; lia].
  - destruct (translationCancelled st); [apply Ends_afterDrain |].
    destruct (pendingTranslationQueue st) as [|x q] eqn:Hq; [apply Ends_afterDrain |].
    cbn [startCall fst].
    eapply Ends_call; [reflexivity |].
    intros res st' Hst'. cbn [resume]. unfold drainResumed.
    destruct (translationCancelled st'); [apply Ends_afterDrain |].
    apply IH. destruct (control_queue _ _ Hst') as [-> _]. cbn.
    rewrite length_skipn. cbn [length] in Hn. lia.
Qed.

Lemma Ends_run_task t l st :
  localsOf t = Some l ->
  Ends Translator final {| globals := st; pending := Some t |}.
Proof.
  intros Hl. destruct t as [l0 c|l0 ra|l0 ra its i c|c]; cbn in Hl; try discriminate.
  - eapply Ends_call; [reflexivity |].
    intros res st' _. cbn [resume]. unfold drainResumed.
    destruct (translationCancelled st'); [apply Ends_afterDrain |].
    eapply Ends_drainLoop, Nat.le_refl.
  - apply (Ends_step _ EvTimer); [reflexivity |]. cbn [step pending globals].
    apply Ends_retryFor.
  - eapply Ends_call; [reflexivity |].
    intros res st' _. cbn [resume]. apply Ends_retryFor.
Qed.

End Termination.

(** X19. Every activation ends.  Whatever the Translator answers, as long
    as it settles each call and the timers fire, a suspended activation is
    resumed finitely often: after finitely many such turns nothing is
    suspended and the in-progress flag is down, so that a later start
    message is accepted; and when the activation was a run of
    [translatePage], the pending queue is empty as well. *)
Theorem every_activation_ends Translator m :
  is_Some (pending m) ->
  Ends Translator quiet m /\
  (runActive m = true -> Ends Translator runEnded m).
Proof.
  intros [t Ht]. destruct m as [st p]. cbn [pending] in Ht. subst p. split.
  - destruct (localsOf t) as [l|] eqn:Hl.
    + apply (Ends_run_task Translator quiet) with (l := l); [| exact Hl].
      intros m [H1 [H2 _]]. split; assumption.
    + destruct t; cbn in Hl; try discriminate.
      eapply Ends_call; [reflexivity |].
      intros res st' _. cbn [resume]. apply Ends_now. split; reflexivity.
  - unfold runActive. cbn [pending]. intros Hrun.
    destruct (localsOf t) as [l|] eqn:Hl.
    + apply (Ends_run_task Translator runEnded) with (l := l); auto.
    + destruct t; cbn in Hl; discriminate.
Qed.

Lemma every_activation_ends_witness :
  Ends (fun _ _ => Throws) runEnded Sample.busy.
Proof.
  apply (every_activation_ends (fun _ _ => Throws) Sample.busy).
  - vm_compute. eauto.
  - vm_compute. reflexivity.
Defined.

(** ** A reached state *)

Lemma reachable_wellFormed_witness :
  wellFormed
    (fst (run [EvStart "es" None None; EvScroll; EvCancel; EvReply Sample.allTranslated]
            Sample.loaded)).
Proof.
  apply reachable_wellFormed, reachable_run, reachable_initial.
Defined.

(** ** The other message handlers *)

(** X23. A partial-translation message changes the page exactly as the
    same entries would as the response of a batch call: the state after
    the turn is the state reached by applying the entries in order, which
    is the state [translateBatch] reaches when its first call returns
    them.  Nothing is sent, the activation in progress is left alone, and
    nothing outside the registry, the processed set and the document
    changes: in particular the view flags stay as they are, so a page that
    has only received partial translations has no translation cache.  The
    reply is [applied: true] whether or not an entry was applied. *)
Theorem partial_translation_applies_like_a_response m translations :
  let r := step (EvPartial translations) m in
  snd r = [ARespond (RApplied true)] /\
  pending (fst r) = pending m /\
  globals (fst r) = applyEntries translations (globals m) /\
  control (globals (fst r)) = control (globals m) /\
  (forall Translator textItems targetLanguage sourceLanguage retries,
     textItems <> [] -> (0 < retries)%nat ->
     Translator 0%nat
       {| texts := textItems; targetLanguage := targetLanguage;
          sourceLanguage := pageLanguageFor sourceLanguage (doc (globals m)) |}
     = Returns {| r_error := None; r_translations := Some translations |} ->
     fst (fst (translateBatch Translator textItems targetLanguage sourceLanguage
                 retries (globals m)))
     = globals (fst r)).
Proof.
  cbn [step fst snd globals pending]. rewrite applyPartial_applyEntries.
  split_and!; try reflexivity.
  - apply control_applyEntries.
  - intros Translator textItems targetLanguage sourceLanguage retries Hne Hpos HT.
    now rewrite (translateBatch_returns _ _ _ _ _ _ _ Hne Hpos HT eq_refl).
Qed.

(** X24. The auto-translate toggle flips the watcher and answers with the
    flag it leaves behind.  After the turn auto-translate is enabled
    exactly when it was not before, and the observer is connected exactly
    when auto-translate is enabled.  When disabling, the buffer of new
    nodes is emptied.  When enabling, the target language becomes the one
    of the message if it is not empty and stays the current one otherwise;
    what the buffer holds then is left open, as the new observer sees the
    status indicator that the handler shows next.  The registry, the
    nodes of the page, the run flags and the activation in progress are
    left alone, and nothing is sent. *)
Theorem toggle_auto_translate_flips m targetLanguage :
  let r := step (EvToggleAuto targetLanguage) m in
  let st := globals m in
  let st' := globals (fst r) in
  snd r = [ARespond (RAutoTranslate (autoTranslateEnabled st'))] /\
  autoTranslateEnabled st' = negb (autoTranslateEnabled st) /\
  mutationObserver st' = autoTranslateEnabled st' /\
  (autoTranslateEnabled st = true -> pendingNewNodes st' = []) /\
  currentTargetLanguage st'
  = (if autoTranslateEnabled st then currentTargetLanguage st
     else match targetLanguage with
          | Some s => if truthy s then s else currentTargetLanguage st
          | None => currentTargetLanguage st
          end) /\
  pending (fst r) = pending m /\
  textNodeMap st' = textNodeMap st /\
  doc st' = doc st /\
  translationInProgress st' = translationInProgress st /\
  translationCancelled st' = translationCancelled st.
Proof.
  cbn [step fst snd globals pending].
  destruct (autoTranslateEnabled (globals m)) eqn:He; cbn; rewrite ?He;
    split_and!; try reflexivity; intros H; first [reflexivity | discriminate H].
Qed.

Lemma setGlow_lookup glow d p :
  elems (setGlowOnTranslated glow d) !! p
  = (fun e =>
       match dataset_translated e with
       | Some v =>
           if String.eqb v "true" then
             {| tagName := tagName e; el_id := el_id e;
                className := className e; role := role e;
                isContentEditable := isContentEditable e;
                translate_attr := translate_attr e;
                display := display e; visibility := visibility e;
                rect := rect e; el_parent := el_parent e;
                textShadow := if glow then GLOW else "";
                dataset_translated := dataset_translated e |}
           else e
       | None => e
       end) <$> elems d !! p.
Proof. unfold setGlowOnTranslated. cbn. apply lookup_fmap. Qed.

(** X25. The glow switch restyles the translated elements, and only
    those.  After a [SET_GLOW] message the glow flag has the value of the
    message; every element marked as translated has the glow as its text
    shadow when the flag is on and no text shadow at all when it is off,
    whatever shadow it had before; every other element, every text node
    and the registry are as before; the set of elements is the same. *)
Theorem set_glow_restyles_translated_elements m enabled :
  let r := step (EvSetGlow enabled) m in
  let d := doc (globals m) in
  let d' := doc (globals (fst r)) in
  snd r = [ARespond (RShowGlow enabled)] /\
  showGlow (globals (fst r)) = enabled /\
  nodes d' = nodes d /\
  textNodeMap (globals (fst r)) = textNodeMap (globals m) /\
  pending (fst r) = pending m /\
  (forall p, elems d' !! p = None <-> elems d !! p = None) /\
  (forall p e,
     elems d !! p = Some e ->
     exists e',
       elems d' !! p = Some e' /\
       dataset_translated e' = dataset_translated e /\
       (dataset_translated e = Some "true" ->
        textShadow e' = if enabled then GLOW else "") /\
       (dataset_translated e <> Some "true" -> e' = e)).
Proof.
  cbn [step fst snd globals pending doc set_doc set_showGlow].
  split_and!; try reflexivity.
  - intros p. rewrite setGlow_lookup. cbn.
    destruct (elems (doc (globals m)) !! p); cbn; split; congruence.
  - intros p e He. rewrite setGlow_lookup. cbn. rewrite He. cbn.
    eexists. split; [reflexivity |].
    destruct (dataset_translated e) as [v|] eqn:Hv.
    + destruct (String.eqb_spec v "true") as [->|Hne]; cbn.
      * split_and!; auto. congruence.
      * split_and!; auto. congruence.
    + split_and!; auto. discriminate.
Qed.

(** X26. A start message on an idle page without eligible text ends at
    once, and still clears the registry.  The reply is [started: true],
    nothing is sent and nothing is suspended; the status shows the
    no-text error; the run flags are down; auto-translate stays enabled or
    disabled as it was; the nodes of the page and the view flags are
    untouched; but the registry and the processed set are empty and the id
    counter is 0, so translations written before can no longer be
    restored.  The buffer of new nodes is left out: a connected observer
    sees the status indicator that the run shows. *)
Theorem start_without_text_clears_registry m targetLanguage sourceLanguage glow :
  pending m = None ->
  translationInProgress (globals m) = false ->
  acceptedNodes (clearRegistry (globals m)) false (body (doc (globals m))) = [] ->
  let r := step (EvStart targetLanguage sourceLanguage glow) m in
  let st := globals m in
  let st' := globals (fst r) in
  snd r = [ARespond (RStarted true)] /\
  pending (fst r) = None /\
  translationInProgress st' = false /\
  translationCancelled st' = false /\
  status st' = Some (MsgNoText, true) /\
  textNodeMap st' = [] /\
  translatedNodeSet st' = ∅ /\
  nextId st' = 0%nat /\
  doc st' = doc st /\
  hasTranslationCache st' = hasTranslationCache st /\
  isShowingTranslations st' = isShowingTranslations st /\
  autoTranslateEnabled st' = autoTranslateEnabled st.
Proof.
  intros Hp Hidle Hacc. destruct m as [st p]. cbn [globals pending] in *. subst p.
  cbn [step globals pending]. unfold translatePage. cbn [globals pending].
  set (st0 := match glow with Some b => set_showGlow b st | None => st end).
  assert (Hidle0 : translationInProgress st0 = false) by (subst st0; now destruct glow).
  assert (Hdoc0 : doc st0 = doc st) by (subst st0; now destruct glow).
  assert (Hset0 :
            (hasTranslationCache st0, isShowingTranslations st0,
             autoTranslateEnabled st0, pendingNewNodes st0)
            = (hasTranslationCache st, isShowingTranslations st,
               autoTranslateEnabled st, pendingNewNodes st))
    by (subst st0; now destruct glow).
  rewrite Hidle0.
  set (stb := set_scrollListener true
                (showStatus MsgExtracting false
                   (set_translationCancelled false
                      (set_translationInProgress true
                         (set_currentTargetLanguage targetLanguage st0))))).
  change (extractTextNodes (body (doc _)) false _)
    with (extractTextNodes (body (doc stb)) false stb).
  unfold extractTextNodes.
  destruct (walkTextNodes_closed false (body (doc stb)) (clearRegistry stb) []
              (keysBelow_clearRegistry stb)) as (H1 & H2 & H3 & H4 & H5).
  pose proof (settings_walkTextNodes false (body (doc stb)) (clearRegistry stb) [])
    as Hset.
  assert (Hacc' : acceptedNodes (clearRegistry stb) false (body (doc stb)) = []).
  { rewrite <- Hacc. change (doc stb) with (doc st0). rewrite Hdoc0.
    apply acceptedNodes_ext; [exact Hdoc0 | reflexivity]. }
  rewrite Hacc' in *.
  destruct (walkTextNodes false (body (doc stb)) (clearRegistry stb) [])
    as [st1 items].
  cbn [fst snd] in *. subst items. cbn [app sortByPriority fold_right].
  cbn [fst snd finishRun globals pending app].
  unfold settings in Hset. cbn in Hset, H1, H3, H4, H5.
  injection Hset as _ _ _ E1 _ _ E2 _ E3 E4 _ _ _ _.
  injection Hset0 as F1 F2 F3 F4.
  cbn. rewrite H1, H3, H4, H5. split_and!; try reflexivity; congruence.
Qed.

Lemma start_without_text_clears_registry_witness :
  textNodeMap
    (globals (fst (step (EvStart "es" None None)
                     (fst (step (EvPage (set_nodes ∅ Sample.page))
                             (fst (run [EvStart "es" None None;
                                        EvReply Sample.allTranslated]
                                     Sample.loaded))))))) = [].
Proof.
  refine (proj1 (proj2 (proj2 (proj2 (proj2 (proj2
            (start_without_text_clears_registry
               (fst (step (EvPage (set_nodes ∅ Sample.page))
                       (fst (run [EvStart "es" None None;
                                  EvReply Sample.allTranslated]
                               Sample.loaded))))
               "es" None None _ _ _))))))).
  - vm_compute. reflexivity.
  - vm_compute. reflexivity.
  - vm_compute. reflexivity.
Defined.

(** ** Matching the answer of the model to the request *)

Lemma forallb_sequential (ids : list nat) : forall k,
  forallb (fun p => Nat.eqb (snd p) (fst p)) (combine (seq k (length ids)) ids) = true
  <-> ids = seq k (length ids).
Proof.
  induction ids as [|id ids IH]; intros k; cbn; [tauto |].
  rewrite andb_true_iff, IH, Nat.eqb_eq. split.
  - intros [-> H]. f_equal. exact H.
  - intros [= -> H]. split; [reflexivity | exact H].
Qed.

Lemma nth_error_combine_seq {A} (l : list A) : forall k i x,
  nth_error l i = Some x ->
  nth_error (combine (seq k (length l)) l) i = Some ((k + i)%nat, x).
Proof.
  induction l as [|y l IH]; intros k i x; destruct i; cbn; try discriminate.
  - intros [= ->]. now rewrite Nat.add_0_r.
  - intros H. rewrite (IH (S k) i x H). f_equal. f_equal. lia.
Qed.

(** X27. An answer whose ids are 0, 1, 2, ... in order is matched to the
    request by position, whatever ids were requested: its entry number [i]
    comes back under the id of the requested item number [i] (and keeps
    its own id when the request has fewer items), with its text cleaned.
    So when the requested ids are themselves a rearrangement of 0, 1, 2,
    ... and the model answers each of them under its id, in the order of
    the ids, every text is delivered under the id at its position: for
    the requested ids 1, 0 the text answered for id 0 comes back under
    id 1.  An answer whose ids are not 0, 1, 2, ... and that names at
    least one requested id keeps its ids. *)
Theorem sequential_answer_is_matched_by_position clean translations originalItems :
  (map t_id translations = seq 0 (length translations) ->
   forall i t,
     nth_error translations i = Some t ->
     nth_error (remapTranslations clean translations originalItems) i
     = Some {| t_id := match nth_error originalItems i with
                       | Some item => qi_id item
                       | None => t_id t
                       end;
               t_text := clean (t_text t); t_error := t_error t |}) /\
  (map t_id translations <> seq 0 (length translations) ->
   (exists t, In t translations /\ In (t_id t) (map qi_id originalItems)) ->
   map t_id (remapTranslations clean translations originalItems)
   = map t_id translations).
Proof.
  unfold remapTranslations.
  set (cleaned := map (fun t => {| t_id := t_id t; t_text := clean (t_text t);
                                   t_error := t_error t |}) translations).
  assert (Hids : map t_id cleaned = map t_id translations).
  { unfold cleaned. rewrite map_map. reflexivity. }
  assert (Hlen : length cleaned = length translations) by (unfold cleaned; apply length_map).
  cbv zeta. rewrite Hids, length_map.
  split.
  - intros Hseq i t Hnth.
    assert (Hs : forallb (fun p => Nat.eqb (snd p) (fst p))
                   (combine (seq 0 (length translations)) (map t_id translations)) = true).
    { rewrite <- (length_map t_id translations).
      apply forallb_sequential. now rewrite length_map. }
    rewrite Hs. cbn [orb].
    assert (Hc : nth_error cleaned i
                 = Some {| t_id := t_id t; t_text := clean (t_text t);
                           t_error := t_error t |}).
    { unfold cleaned. rewrite nth_error_map, Hnth. reflexivity. }
    rewrite nth_error_map, (nth_error_combine_seq cleaned 0 i _ Hc). reflexivity.
  - intros Hseq (t & Hin & Hours).
    assert (Hs : forallb (fun p => Nat.eqb (snd p) (fst p))
                   (combine (seq 0 (length translations)) (map t_id translations)) = false).
    { apply not_true_is_false. intros H. apply Hseq.
      rewrite <- (length_map t_id translations) in H.
      apply forallb_sequential in H. now rewrite length_map in H. }
    assert (Hm : existsb (fun id => existsb (Nat.eqb id) (map qi_id originalItems))
                   (map t_id translations) = true).
    { apply existsb_exists. exists (t_id t). split; [now apply in_map |].
      apply existsb_exists. exists (t_id t). split; [exact Hours | apply Nat.eqb_refl]. }
    rewrite Hs, Hm. cbn [orb negb]. exact Hids.
Qed.

Lemma sequential_answer_is_matched_by_position_witness :
  let answer :=
    remapTranslations (fun text => text)
      [ {| t_id := 0; t_text := Some "Title"; t_error := None |};
        {| t_id := 1; t_text := Some "Hello"; t_error := None |} ]
      [ Sample.hello; {| qi_id := 0; qi_text := "Titel"; qi_priority := 0 |} ] in
  nth_error answer 0 = Some {| t_id := 1; t_text := Some "Title"; t_error := None |} /\
  nth_error answer 1 = Some {| t_id := 0; t_text := Some "Hello"; t_error := None |}.
Proof.
  pose proof (proj1 (sequential_answer_is_matched_by_position (fun text => text)
              [ {| t_id := 0; t_text := Some "Title"; t_error := None |};
                {| t_id := 1; t_text := Some "Hello"; t_error := None |} ]
              [ Sample.hello; {| qi_id := 0; qi_text := "Titel"; qi_priority := 0 |} ])
              eq_refl) as H.
  split.
  - exact (H 0%nat _ eq_refl).
  - exact (H 1%nat _ eq_refl).
Defined.

(** ** A run against a capability that always fails *)

Lemma serve_add Translator a : forall b m,
  serve Translator (a + b) m
  = (fst (serve Translator b (fst (serve Translator a m))),
     snd (serve Translator a m) ++ snd (serve Translator b (fst (serve Translator a m)))).
Proof.
  induction a as [|a IH]; intros b m.
  - cbn [Nat.add serve fst snd app]. now destruct (serve Translator b m).
  - change (S a + b)%nat with (S (a + b)). rewrite !serve_S.
    destruct (awaitedFrom Translator m) as [ev|] eqn:Hev.
    + rewrite IH. cbn [fst snd]. now rewrite app_assoc.
    + cbn [fst snd app]. destruct b; [reflexivity |].
      rewrite serve_S, Hev. reflexivity.
Qed.

Lemma serve_trans Translator a b m m1 acts1 m2 acts2 :
  serve Translator a m = (m1, acts1) ->
  serve Translator b m1 = (m2, acts2) ->
  serve Translator (a + b) m = (m2, acts1 ++ acts2).
Proof. intros H1 H2. rewrite serve_add, H1. cbn [fst snd]. now rewrite H2. Qed.

Lemma serve_more Translator a b m :
  pending (fst (serve Translator a m)) = None ->
  serve Translator (a + b) m = serve Translator a m.
Proof.
  intros Hp. rewrite serve_add, (serve_ended _ b _ Hp). cbn [fst snd].
  rewrite app_nil_r. now destruct (serve Translator a m).
Qed.

Section FailingTranslator.

Variable Translator : nat -> request -> outcome.
Hypothesis always_fails : forall k req, transportFailure (Translator k req) = true.

Lemma failing_reply t c st :
  callOf t = Some c -> bc_awaiting c = AwaitReply ->
  step (EvReply (Translator (bc_attempt c) (bc_request c)))
    {| globals := st; pending := Some t |}
  = if (bc_attempt c <? bc_retries c - 1)%nat
    then ({| globals := st;
             pending := Some (withCall t
                          {| bc_request := bc_request c; bc_retries := bc_retries c;
                             bc_attempt := bc_attempt c; bc_awaiting := AwaitBackoff |}) |},
          [AWait (backoff (bc_attempt c))])
    else resume t {| applied := 0; failed := texts (bc_request c) |} st.
Proof.
  intros Hc Ha. rewrite (step_reply t c st _ Hc Ha). unfold onReply.
  rewrite (handleOutcome_failure _ _ _ (always_fails _ _)).
  now destruct (bc_attempt c <? bc_retries c - 1)%nat.
Qed.

(** A batch call of the drain loop: three attempts, two waits, and the
    whole batch comes back as failed. *)
Lemma failing_drain_call l req st :
  serve Translator 5
    {| globals := st;
       pending := Some (TaskDrain l {| bc_request := req; bc_retries := 3;
                                       bc_attempt := 0; bc_awaiting := AwaitReply |}) |}
  = (fst (drainResumed l {| applied := 0; failed := texts req |} st),
     [AWait 500; ASend 1 req; AWait 1000; ASend 2 req]
     ++ snd (drainResumed l {| applied := 0; failed := texts req |} st)).
Proof.
  rewrite serve_S. cbn [awaitedFrom pending callOf bc_awaiting].
  erewrite failing_reply by reflexivity.
  cbn [bc_attempt bc_retries Nat.sub Nat.ltb Nat.leb fst snd withCall bc_request].
  rewrite serve_S. cbn [awaitedFrom pending callOf bc_awaiting].
  erewrite step_backoff by reflexivity.
  cbn [onBackoff fst snd withCall bc_attempt bc_request bc_retries].
  rewrite serve_S. cbn [awaitedFrom pending callOf bc_awaiting].
  erewrite failing_reply by reflexivity.
  cbn [bc_attempt bc_retries Nat.sub Nat.ltb Nat.leb fst snd withCall bc_request].
  rewrite serve_S. cbn [awaitedFrom pending callOf bc_awaiting].
  erewrite step_backoff by reflexivity.
  cbn [onBackoff fst snd withCall bc_attempt bc_request bc_retries].
  rewrite serve_S. cbn [awaitedFrom pending callOf bc_awaiting].
  erewrite failing_reply by reflexivity.
  cbn [bc_attempt bc_retries Nat.sub Nat.ltb Nat.leb fst snd withCall bc_request resume serve].
  rewrite app_nil_r. reflexivity.
Qed.

(** A batch call of a retry round: one attempt. *)
Lemma failing_retry_call l ra its i req st :
  serve Translator 1
    {| globals := st;
       pending := Some (TaskRetryBatch l ra its i
                          {| bc_request := req; bc_retries := 1;
                             bc_attempt := 0; bc_awaiting := AwaitReply |}) |}
  = (fst (retryFor (addResult {| applied := 0; failed := texts req |} l) ra its (i + 4) st),
     snd (retryFor (addResult {| applied := 0; failed := texts req |} l) ra its (i + 4) st)).
Proof.
  rewrite serve_S. cbn [awaitedFrom pending callOf bc_awaiting].
  erewrite failing_reply by reflexivity.
  cbn [bc_attempt bc_retries Nat.sub Nat.ltb Nat.leb fst snd withCall bc_request resume serve].
  now rewrite app_nil_r.
Qed.

Lemma sentTexts_retryLoopHead l ra st : sentTexts (snd (retryLoopHead l ra st)) = [].
Proof. unfold retryLoopHead. now destruct (_ && _ && _). Qed.

Lemma withoutProgress_cancelled st st' :
  withoutProgress st' = withoutProgress st ->
  translationCancelled st' = translationCancelled st.
Proof. intros H. exact (f_equal translationCancelled H). Qed.

Lemma tripled_Permutation {A} (b r : list A) :
  Permutation (b ++ b ++ b ++ r ++ r ++ r) (b ++ r ++ b ++ r ++ b ++ r).
Proof.
  apply Permutation_app_head.
  rewrite (Permutation_app_swap_app r b (r ++ b ++ r)).
  apply Permutation_app_head.
  rewrite (Permutation_app_swap_app r b r).
  rewrite (Permutation_app_swap_app r b (r ++ r)).
  reflexivity.
Qed.

(** The drain loop: every batch fails after three attempts, and all items
    end up in the list of failed items, in the order of the queue. *)
Lemma failing_drain : forall k l st,
  translationCancelled st = false ->
  (length (pendingTranslationQueue st) <= k)%nat ->
  exists f l' st' acts,
    (f <= 5 * k)%nat /\
    serve Translator f (fst (drainLoop l st)) = (fst (retryLoopHead l' 0 st'), acts) /\
    Permutation (sentTexts (snd (drainLoop l st) ++ acts))
      (pendingTranslationQueue st ++ pendingTranslationQueue st
       ++ pendingTranslationQueue st) /\
    failedItems l' = failedItems l ++ pendingTranslationQueue st /\
    totalApplied l' = totalApplied l /\
    totalItems l' = totalItems l /\
    enableAutoTranslate l' = enableAutoTranslate l /\
    run_targetLanguage l' = run_targetLanguage l /\
    withoutProgress st' = withoutProgress st.
Proof.
  induction k as [|k IH]; intros l st Hc Hlen.
  - destruct (pendingTranslationQueue st) as [|x q] eqn:Hq; [| cbn in Hlen; lia].
    exists 0%nat, l, st, []. unfold drainLoop, afterDrain. rewrite Hc, Hq. cbn [negb].
    rewrite !app_nil_r, sentTexts_retryLoopHead. split_and!; auto.
  - destruct (pendingTranslationQueue st) as [|x q] eqn:Hq.
    + exists 0%nat, l, st, []. unfold drainLoop, afterDrain. rewrite Hc, Hq. cbn [negb].
      rewrite !app_nil_r, sentTexts_retryLoopHead. split_and!; auto. lia.
    + set (batch := firstn 8 (x :: q)).
      set (ld := addProcessed (length batch) l).
      set (std := showStatus
                    (MsgPercent (Z.min 100 (roundPercent (totalProcessed ld) (totalItems ld))))
                    false (set_pendingTranslationQueue (skipn 8 (x :: q)) st)).
      set (req := {| texts := batch; targetLanguage := run_targetLanguage ld;
                     sourceLanguage := pageLanguageFor (run_sourceLanguage ld) (doc std) |}).
      assert (Hdrain : drainLoop l st
                       = ({| globals := std;
                             pending := Some (TaskDrain ld
                                          {| bc_request := req; bc_retries := 3;
                                             bc_attempt := 0; bc_awaiting := AwaitReply |}) |},
                          [ASend 0 req])).
      { unfold drainLoop. rewrite Hc, Hq. reflexivity. }
      set (l2 := addResult {| applied := 0; failed := batch |} ld).
      assert (Hres : drainResumed ld {| applied := 0; failed := texts req |} std
                     = drainLoop l2 std).
      { unfold drainResumed. cbn [translationCancelled showStatus set_status std
                                  set_pendingTranslationQueue].
        unfold std. cbn. rewrite Hc. reflexivity. }
      destruct (IH l2 std) as (f & l' & st' & acts & Hf & Hserve & Hperm & Hfail & Ha & Ht
                               & He & Hr & Hst).
      { unfold std. cbn. exact Hc. }
      { unfold std. cbn. rewrite length_skipn. cbn [length] in Hlen. lia. }
      exists (5 + f)%nat, l', st',
        ([AWait 500; ASend 1 req; AWait 1000; ASend 2 req] ++ snd (drainLoop l2 std) ++ acts).
      assert (Hq2 : pendingTranslationQueue std = skipn 8 (x :: q)) by reflexivity.
      rewrite Hq2 in *.
      split_and!.
      * lia.
      * rewrite Hdrain. cbn [fst].
        rewrite (serve_trans Translator 5 f _ _ _ _ _
                   (failing_drain_call ld req std) ltac:(rewrite Hres; exact Hserve)).
        rewrite Hres, <- app_assoc. reflexivity.
      * rewrite Hdrain. cbn [snd].
        change (sentTexts ([ASend 0 req] ++ [AWait 500; ASend 1 req; AWait 1000; ASend 2 req]
                           ++ snd (drainLoop l2 std) ++ acts))
          with (batch ++ batch ++ batch ++ sentTexts (snd (drainLoop l2 std) ++ acts)).
        rewrite Hperm.
        rewrite <- (firstn_skipn 8 (x :: q)) at 4 5 6. fold batch.
        rewrite !app_assoc. rewrite <- !app_assoc.
        apply tripled_Permutation.
      * rewrite Hfail. cbn. rewrite <- app_assoc. f_equal.
        apply (firstn_skipn 8 (x :: q)).
      * rewrite Ha. cbn. lia.
      * rewrite Ht. reflexivity.
      * rewrite He. reflexivity.
      * rewrite Hr. reflexivity.
      * rewrite Hst. reflexivity.
Qed.

(** One retry round: the failed items are requested once more, in their
    order, and fail again. *)
Lemma failing_round : forall k l ra its i st,
  translationCancelled st = false ->
  (length its - i <= k)%nat ->
  exists f l' acts,
    (f <= k)%nat /\
    serve Translator f (fst (retryFor l ra its i st))
    = (fst (retryLoopHead l' ra st), acts) /\
    sentTexts (snd (retryFor l ra its i st) ++ acts) = skipn i its /\
    failedItems l' = failedItems l ++ skipn i its /\
    totalApplied l' = totalApplied l /\
    totalItems l' = totalItems l /\
    enableAutoTranslate l' = enableAutoTranslate l /\
    run_targetLanguage l' = run_targetLanguage l.
Proof.
  induction k as [|k IH]; intros l ra its i st Hc Hlen.
  - exists 0%nat, l, []. unfold retryFor. rewrite Hc.
    rewrite skipn_all2 by lia. rewrite !app_nil_r, sentTexts_retryLoopHead.
    split_and!; auto.
  - destruct (skipn i its) as [|x r] eqn:Hs.
    + exists 0%nat, l, []. unfold retryFor. rewrite Hc, Hs.
      rewrite !app_nil_r, sentTexts_retryLoopHead. split_and!; auto. lia.
    + assert (Hi : (i < length its)%nat).
      { destruct (Nat.lt_ge_cases i (length its)) as [H|H]; [exact H |].
        rewrite skipn_all2 in Hs by exact H. discriminate. }
      set (batch := firstn 4 (x :: r)).
      set (req := {| texts := batch; targetLanguage := run_targetLanguage l;
                     sourceLanguage := pageLanguageFor (run_sourceLanguage l) (doc st) |}).
      assert (Hfor : retryFor l ra its i st
                     = ({| globals := st;
                           pending := Some (TaskRetryBatch l ra its i
                                        {| bc_request := req; bc_retries := 1;
                                           bc_attempt := 0; bc_awaiting := AwaitReply |}) |},
                        [ASend 0 req])).
      { unfold retryFor. rewrite Hc, Hs. reflexivity. }
      set (l2 := addResult {| applied := 0; failed := texts req |} l).
      destruct (IH l2 ra its (i + 4)%nat st Hc) as (f & l' & acts & Hf & Hserve & Hsent
                                                    & Hfail & Ha & Ht & He & Hr);
        [lia |].
      assert (Hskip : skipn (i + 4) its = skipn 4 (x :: r)).
      { rewrite <- Hs. rewrite Nat.add_comm. symmetry. apply skipn_skipn. }
      exists (1 + f)%nat, l', (snd (retryFor l2 ra its (i + 4) st) ++ acts).
      split_and!.
      * lia.
      * rewrite Hfor. cbn [fst].
        apply (serve_trans Translator 1 f _ _ _ _ _
                 (failing_retry_call l ra its i req st) Hserve).
      * rewrite Hfor. cbn [snd].
        change (sentTexts ([ASend 0 req] ++ snd (retryFor l2 ra its (i + 4) st) ++ acts))
          with (batch ++ sentTexts (snd (retryFor l2 ra its (i + 4) st) ++ acts)).
        rewrite Hsent, Hskip. apply firstn_skipn.
      * rewrite Hfail, Hskip. change (failedItems l2) with (failedItems l ++ batch).
        rewrite <- app_assoc. f_equal. apply firstn_skipn.
      * rewrite Ha. cbn. lia.
      * rewrite Ht. reflexivity.
      * rewrite He. reflexivity.
      * rewrite Hr. reflexivity.
Qed.

(** A round starts: the wait, then the timer. *)
Lemma failing_round_start l ra st :
  translationCancelled st = false ->
  failedItems l <> [] ->
  (ra < 2)%nat ->
  exists stw,
    retryLoopHead l ra st
    = ({| globals := stw; pending := Some (TaskRetryWait l (S ra)) |},
       [AWait (500 * Z.of_nat (S ra))]) /\
    withoutProgress stw = withoutProgress st /\
    serve Translator 1 {| globals := stw; pending := Some (TaskRetryWait l (S ra)) |}
    = (fst (retryFor (clearFailed l) (S ra) (failedItems l) 0 stw),
       snd (retryFor (clearFailed l) (S ra) (failedItems l) 0 stw)).
Proof.
  intros Hc Hne Hra. eexists. split; [| split].
  - unfold retryLoopHead. rewrite Hc.
    destruct (failedItems l); [contradiction |].
    destruct (Nat.ltb_spec ra 2); [| lia]. reflexivity.
  - reflexivity.
  - rewrite serve_S. cbn [awaitedFrom pending step globals serve fst snd].
    now rewrite app_nil_r.
Qed.

(** The two retry rounds. *)
Lemma failing_rounds l st :
  translationCancelled st = false ->
  failedItems l <> [] ->
  exists f l' st' acts,
    (f <= 2 * length (failedItems l) + 2)%nat /\
    serve Translator f (fst (retryLoopHead l 0 st)) = (completeRun l' st', acts) /\
    sentTexts acts = failedItems l ++ failedItems l /\
    failedItems l' = failedItems l /\
    totalApplied l' = totalApplied l /\
    totalItems l' = totalItems l /\
    enableAutoTranslate l' = enableAutoTranslate l /\
    run_targetLanguage l' = run_targetLanguage l /\
    withoutProgress st' = withoutProgress st.
Proof.
  intros Hc Hne.
  destruct (failing_round_start l 0 st Hc Hne) as (st1 & Hhead1 & Hst1 & Htimer1); [lia |].
  assert (Hc1 : translationCancelled st1 = false)
    by (rewrite (withoutProgress_cancelled _ _ Hst1); exact Hc).
  destruct (failing_round (length (failedItems l)) (clearFailed l) 1 (failedItems l) 0 st1 Hc1)
    as (f1 & l1 & acts1 & Hf1 & Hserve1 & Hsent1 & Hfail1 & Ha1 & Ht1 & He1 & Hr1); [lia |].
  cbn [clearFailed failedItems app totalApplied totalItems enableAutoTranslate
       run_targetLanguage] in Hsent1, Hfail1, Ha1, Ht1, He1, Hr1.
  rewrite skipn_O in Hsent1, Hfail1.
  assert (Hne1 : failedItems l1 <> []) by (rewrite Hfail1; exact Hne).
  destruct (failing_round_start l1 1 st1 Hc1 Hne1) as (st2 & Hhead2 & Hst2 & Htimer2); [lia |].
  assert (Hc2 : translationCancelled st2 = false)
    by (rewrite (withoutProgress_cancelled _ _ Hst2); exact Hc1).
  destruct (failing_round (length (failedItems l)) (clearFailed l1) 2 (failedItems l1) 0 st2 Hc2)
    as (f2 & l2 & acts2 & Hf2 & Hserve2 & Hsent2 & Hfail2 & Ha2 & Ht2 & He2 & Hr2).
  { rewrite Hfail1. lia. }
  cbn [clearFailed failedItems app totalApplied totalItems enableAutoTranslate
       run_targetLanguage] in Hsent2, Hfail2, Ha2, Ht2, He2, Hr2.
  rewrite skipn_O in Hsent2, Hfail2.
  assert (Hend : retryLoopHead l2 2 st2 = (completeRun l2 st2, [])).
  { unfold retryLoopHead. cbn [Nat.ltb Nat.leb]. now rewrite andb_false_r. }
  rewrite Hend in Hserve2. cbn [fst] in Hserve2.
  exists (1 + (f1 + (1 + f2)))%nat, l2, st2,
    (snd (retryFor (clearFailed l) 1 (failedItems l) 0 st1)
     ++ acts1 ++ snd (retryFor (clearFailed l1) 2 (failedItems l1) 0 st2) ++ acts2).
  split_and!.
  - lia.
  - rewrite Hhead1. cbn [fst].
    eapply serve_trans; [exact Htimer1 |].
    eapply serve_trans; [exact Hserve1 |].
    rewrite Hhead2. cbn [fst].
    eapply serve_trans; [exact Htimer2 | exact Hserve2].
  - rewrite app_assoc, sentTexts_app, Hsent1, Hsent2, Hfail1. reflexivity.
  - congruence.
  - congruence.
  - congruence.
  - congruence.
  - congruence.
  - congruence.
Qed.

End FailingTranslator.

Lemma roundPercent_none n : (0 < n)%nat -> roundPercent 0 n = 0.
Proof.
  intros Hn. unfold roundPercent. apply Z.div_small. lia.
Qed.

Lemma completeRun_failed l st n :
  totalApplied l = 0%nat -> totalItems l = n -> length (failedItems l) = n ->
  enableAutoTranslate l = true -> (0 < n)%nat ->
  runEnded (completeRun l st) /\
  status (globals (completeRun l st)) = Some (MsgSummary 0 n 0 n, false) /\
  autoTranslateEnabled (globals (completeRun l st)) = true /\
  doc (globals (completeRun l st)) = doc st /\
  textNodeMap (globals (completeRun l st)) = textNodeMap st /\
  translatedNodeSet (globals (completeRun l st)) = translatedNodeSet st /\
  hasTranslationCache (globals (completeRun l st)) = hasTranslationCache st /\
  isShowingTranslations (globals (completeRun l st)) = isShowingTranslations st.
Proof.
  intros Ha Ht Hf He Hn. unfold completeRun. rewrite Ha, Ht, Hf, He.
  rewrite (roundPercent_none n Hn). unfold runEnded. cbn. auto 10.
Qed.

(** X28. A run against a capability that always fails leaves the page as
    it is and says so.  On an idle page with [n] eligible text nodes
    ([n] at least 1), let every call of the Translator fail at the
    transport level.  Then the start message, followed by the failures
    and the timers as they come, ends the run: nothing is suspended and
    the run flags are down; the status reports 0 of [n] items, 0 percent,
    [n] failed; the document is untouched, the registry holds the
    extracted entries without translation, and the view flags are as
    before the run; the watcher for new content is started all the same;
    and every item of the work list has been requested five times in all:
    three attempts in the drain loop and one in each of the two retry
    rounds. *)
Theorem run_with_failing_translator m targetLanguage sourceLanguage glow Translator :
  pending m = None ->
  translationInProgress (globals m) = false ->
  (forall k req, transportFailure (Translator k req) = true) ->
  let accepted :=
    acceptedNodes (clearRegistry (globals m)) false (body (doc (globals m))) in
  let n := length accepted in
  let items := sortByPriority (itemsFrom (doc (globals m)) 0 accepted) in
  let r1 := step (EvStart targetLanguage sourceLanguage glow) m in
  let r2 := serve Translator (7 * n + 2) (fst r1) in
  let st2 := globals (fst r2) in
  accepted <> [] ->
  runEnded (fst r2) /\
  status st2 = Some (MsgSummary 0 n 0 n, false) /\
  doc st2 = doc (globals m) /\
  textNodeMap st2 = entriesFrom 0 accepted /\
  translatedNodeSet st2 = ∅ /\
  hasTranslationCache st2 = hasTranslationCache (globals m) /\
  isShowingTranslations st2 = isShowingTranslations (globals m) /\
  autoTranslateEnabled st2 = true /\
  Permutation (sentTexts (snd r1 ++ snd r2))
    (items ++ items ++ items ++ items ++ items).
Proof.
  intros Hp Hidle Hfail accepted n items r1 r2 st2 Hne.
  destruct (start_idle m targetLanguage sourceLanguage glow Hp Hidle Hne)
    as (stq & l0 & Hstep & Hmap & Hdoc & Hq & Hc & Ha0 & Ht0 & Hf0 & He0 & _ & Hset
        & Hcache & Hshow).
  fold accepted in Hmap, Hq, Ht0. fold items in Hq. fold n in Ht0.
  assert (Hlen : length items = n).
  { unfold items. rewrite sortByPriority_length. apply length_itemsFrom. }
  assert (Hn : (0 < n)%nat).
  { subst n. destruct accepted; [contradiction | cbn; lia]. }
  destruct (failing_drain Translator Hfail n l0 stq Hc)
    as (f1 & l1 & st1 & acts1 & Hf1 & Hserve1 & Hperm1 & Hfail1 & Ha1 & Ht1 & He1 & _ & Hst1).
  { rewrite Hq, Hlen. lia. }
  rewrite Hq in Hperm1, Hfail1. rewrite Hf0 in Hfail1. cbn [app] in Hfail1.
  assert (Hc1 : translationCancelled st1 = false)
    by (rewrite (withoutProgress_cancelled _ _ Hst1); exact Hc).
  assert (Hne1 : failedItems l1 <> []).
  { rewrite Hfail1. intros H. rewrite H in Hlen. cbn in Hlen. lia. }
  destruct (failing_rounds Translator Hfail l1 st1 Hc1 Hne1)
    as (f2 & l2 & st2' & acts2 & Hf2 & Hserve2 & Hsent2 & Hfail2 & Ha2 & Ht2 & He2 & _ & Hst2).
  rewrite Hfail1 in Hf2, Hsent2, Hfail2. rewrite Hlen in Hf2.
  assert (Hserve : serve Translator (7 * n + 2) (fst (drainLoop l0 stq))
                   = (completeRun l2 st2', acts1 ++ acts2)).
  { replace (7 * n + 2)%nat with ((f1 + f2) + (7 * n + 2 - (f1 + f2)))%nat by lia.
    rewrite serve_more.
    - exact (serve_trans Translator f1 f2 _ _ _ _ _ Hserve1 Hserve2).
    - rewrite (serve_trans Translator f1 f2 _ _ _ _ _ Hserve1 Hserve2). reflexivity. }
  subst st2 r2 r1. rewrite Hstep. cbn [fst snd]. rewrite Hserve. cbn [fst snd].
  destruct (completeRun_failed l2 st2' n) as (R1 & R2 & R3 & R4 & R5 & R6 & R7 & R8);
    try congruence; try exact Hn.
  assert (Hframe : withoutProgress st2' = withoutProgress stq) by congruence.
  split_and!; try assumption.
  - rewrite R4, <- Hdoc. exact (f_equal doc Hframe).
  - rewrite R5, <- Hmap. exact (f_equal textNodeMap Hframe).
  - rewrite R6, <- Hset. exact (f_equal translatedNodeSet Hframe).
  - rewrite R7, <- Hcache. exact (f_equal hasTranslationCache Hframe).
  - rewrite R8, <- Hshow. exact (f_equal isShowingTranslations Hframe).
  - rewrite !sentTexts_app.
    change (sentTexts [ARespond (RStarted true)]) with (@nil QueueItem).
    rewrite app_nil_r, app_assoc, <- sentTexts_app, Hperm1, Hsent2, <- !app_assoc.
    reflexivity.
Qed.

Lemma run_with_failing_translator_witness :
  let r1 := step (EvStart "es" None None) Sample.loaded in
  let r2 := serve (fun _ _ => Throws) 37 (fst r1) in
  status (globals (fst r2)) = Some (MsgSummary 0 5 0 5, false) /\
  doc (globals (fst r2)) = Sample.page.
Proof.
  destruct (run_with_failing_translator Sample.loaded "es" None None (fun _ _ => Throws))
    as (_ & H2 & H3 & _).
  - reflexivity.
  - reflexivity.
  - intros k req. reflexivity.
  - vm_compute. discriminate.
  - split; [exact H2 | exact H3].
Defined.

(** ** An activation of the watcher for new content *)

Lemma debounce_idle m :
  pending m = None ->
  translationInProgress (globals m) = false ->
  autoTranslateDebounceTimer (globals m) = true ->
  pendingNewNodes (globals m) <> [] ->
  let ex :=
    extractNewTextNodes (pendingNewNodes (globals m))
      (set_pendingNewNodes [] (set_autoTranslateDebounceTimer false (globals m))) in
  snd ex <> [] ->
  let st1 :=
    showStatus (MsgNewElements (length (snd ex))) false
      (set_translationInProgress true (fst ex)) in
  let req := {| texts := snd ex;
                targetLanguage := currentTargetLanguage (globals m);
                sourceLanguage := getPageLanguage (doc (globals m)) |} in
  step EvDebounce m
  = ({| globals := st1;
        pending := Some (TaskAuto {| bc_request := req; bc_retries := 3;
                                     bc_attempt := 0; bc_awaiting := AwaitReply |}) |},
     [ASend 0 req]).
Proof.
  intros Hp Hidle Htimer Hbuf ex Hne st1 req. destruct m as [st p].
  cbn [globals pending] in *. subst p.
  cbn [step globals pending]. rewrite Htimer.
  unfold translatePendingNodes.
  cbn [globals pending pendingNewNodes set_autoTranslateDebounceTimer translationInProgress].
  destruct (pendingNewNodes st) as [|a rest] eqn:Hq; [contradiction |].
  rewrite Hidle.
  pose proof (settings_extractNewTextNodes (a :: rest)
                (set_pendingNewNodes [] (set_autoTranslateDebounceTimer false st))) as Hset.
  pose proof (doc_extractNewTextNodes (a :: rest)
                (set_pendingNewNodes [] (set_autoTranslateDebounceTimer false st))) as Hdoc.
  subst st1 req. subst ex.
  destruct (extractNewTextNodes (a :: rest)
              (set_pendingNewNodes [] (set_autoTranslateDebounceTimer false st)))
    as [stx items].
  cbn [fst snd] in *. destruct items as [|x items]; [contradiction |].
  unfold settings in Hset. cbn in Hset. injection Hset as _ _ E3 _ _ _ _ _ _ _ _ _ _ _.
  cbn [startCall]. unfold pageLanguageFor. cbn. rewrite Hdoc, E3. reflexivity.
Qed.

Lemma replaceTextNode_withBuffer buffer timer id text st :
  fst (replaceTextNode id text (withBuffer buffer timer st))
  = withBuffer buffer timer (fst (replaceTextNode id text st)).
Proof.
  unfold replaceTextNode, withBuffer. cbn.
  destruct (Registry.get (textNodeMap st) id) as [e|]; [| reflexivity].
  now destruct (writeText (node e) _ (doc st)).
Qed.

Lemma applyEntries_withBuffer buffer timer ts : forall st,
  applyEntries ts (withBuffer buffer timer st)
  = withBuffer buffer timer (applyEntries ts st).
Proof.
  unfold applyEntries. induction ts as [|t ts IH]; intros st; cbn [fold_left];
    [reflexivity |].
  destruct (usableText t); [| apply IH].
  rewrite replaceTextNode_withBuffer. apply IH.
Qed.

(** X29. An activation of the watcher sends all new items in one request
    and keeps no account of them.  On an idle page whose debounce timer
    fires over a buffer of new nodes from which at least one item is
    extracted, exactly one request is sent, with every extracted item
    whatever their number, for the current target language and the page
    language as source.  The current target language is the one of the
    latest start of a run or of the watcher: a start message that came
    after the watcher was started has changed it, even when that run found
    no text.  Whatever the observer buffers in the meantime: when the
    Translator answers without top-level error, the entries are applied,
    the status says done and the page is idle again; the view flags are
    not touched, so translations written by the watcher alone give the
    page no translation cache.  When every call fails, the request is
    tried three times, then the activation ends the same way: idle, status
    done, no retry round, the new entries left in the registry
    untranslated.  The buffer and the debounce timer after these turns are
    left out: the observer sees the status indicator that the activation
    shows. *)
Theorem watcher_translates_in_one_request m :
  pending m = None ->
  translationInProgress (globals m) = false ->
  autoTranslateDebounceTimer (globals m) = true ->
  pendingNewNodes (globals m) <> [] ->
  let st := globals m in
  let ex :=
    extractNewTextNodes (pendingNewNodes st)
      (set_pendingNewNodes [] (set_autoTranslateDebounceTimer false st)) in
  let req := {| texts := snd ex; targetLanguage := currentTargetLanguage st;
                sourceLanguage := getPageLanguage (doc st) |} in
  let r1 := step EvDebounce m in
  snd ex <> [] ->
  snd r1 = [ASend 0 req] /\
  translationInProgress (globals (fst r1)) = true /\
  textNodeMap (globals (fst r1)) = textNodeMap (fst ex) /\
  (forall buffer timer,
     let m1 := {| globals := withBuffer buffer timer (globals (fst r1));
                  pending := pending (fst r1) |} in
     (forall r,
        truthyOpt (r_error r) = false ->
        let r2 := step (EvReply (Returns r)) m1 in
        snd r2 = [] /\
        pending (fst r2) = None /\
        apartFromBuffer (globals (fst r2))
        = apartFromBuffer
            (set_translationInProgress false
               (showStatus MsgNewDone false
                  (applyEntries (translationsOf r) (globals (fst r1))))) /\
        hasTranslationCache (globals (fst r2)) = hasTranslationCache st /\
        isShowingTranslations (globals (fst r2)) = isShowingTranslations st) /\
     (forall Translator,
        (forall k q, transportFailure (Translator k q) = true) ->
        let r2 := serve Translator 5 m1 in
        snd r2 = [AWait 500; ASend 1 req; AWait 1000; ASend 2 req] /\
        pending (fst r2) = None /\
        apartFromBuffer (globals (fst r2))
        = apartFromBuffer
            (set_translationInProgress false
               (showStatus MsgNewDone false (globals (fst r1)))))).
Proof.
  intros Hp Hidle Htimer Hbuf st ex req r1 Hne.
  pose proof (debounce_idle m Hp Hidle Htimer Hbuf Hne) as Hstep.
  cbv zeta in Hstep. fold st in Hstep. fold ex in Hstep. fold req in Hstep.
  subst r1. rewrite Hstep. cbn [fst snd globals pending].
  pose proof (settings_extractNewTextNodes (pendingNewNodes st)
                (set_pendingNewNodes [] (set_autoTranslateDebounceTimer false st))) as Hset.
  fold ex in Hset. unfold settings in Hset. cbn in Hset.
  injection Hset as _ _ _ _ _ _ E7 _ E9 E10 _ _ _ _.
  split_and!; try reflexivity.
  intros buffer timer. cbv zeta. split.
  - intros r Herr.
    erewrite step_reply by reflexivity. unfold onReply.
    cbn [bc_request texts handleOutcome]. rewrite Herr.
    rewrite processResponse_closed. cbn [resume fst snd globals pending].
    rewrite applyEntries_withBuffer.
    pose proof (control_applyEntries (translationsOf r)
                  (set_status (Some (MsgNewElements (length (snd ex)), false))
                     (set_translationInProgress true (fst ex)))) as Hctl.
    unfold control in Hctl. cbn in Hctl.
    split_and!; try reflexivity;
      unfold apartFromBuffer, withBuffer, showStatus; cbn; congruence.
  - intros Translator Hfail.
    rewrite serve_S. cbn [awaitedFrom pending callOf bc_awaiting].
    erewrite (failing_reply Translator Hfail) by reflexivity.
    cbn [bc_attempt bc_retries Nat.sub Nat.ltb Nat.leb fst snd withCall bc_request].
    rewrite serve_S. cbn [awaitedFrom pending callOf bc_awaiting].
    erewrite step_backoff by reflexivity.
    cbn [onBackoff fst snd withCall bc_attempt bc_request bc_retries].
    rewrite serve_S. cbn [awaitedFrom pending callOf bc_awaiting].
    erewrite (failing_reply Translator Hfail) by reflexivity.
    cbn [bc_attempt bc_retries Nat.sub Nat.ltb Nat.leb fst snd withCall bc_request].
    rewrite serve_S. cbn [awaitedFrom pending callOf bc_awaiting].
    erewrite step_backoff by reflexivity.
    cbn [onBackoff fst snd withCall bc_attempt bc_request bc_retries].
    rewrite serve_S. cbn [awaitedFrom pending callOf bc_awaiting].
    erewrite (failing_reply Translator Hfail) by reflexivity.
    cbn [bc_attempt bc_retries Nat.sub Nat.ltb Nat.leb fst snd withCall bc_request
         resume serve globals pending app].
    split_and!; reflexivity.
Qed.

Lemma watcher_translates_in_one_request_witness :
  let m :=
    fst (run [EvToggleAuto (Some "es"); EvStart "fr" None None;
              EvPage SampleHidden.onlyHidden; EvMutations [AddedText 15%nat]]
           (initialState SampleHidden.noText)) in
  snd (step EvDebounce m)
  = [ASend 0 {| texts := [{| qi_id := 0; qi_text := "Hidden words"; qi_priority := 460 |}];
                targetLanguage := "fr"; sourceLanguage := "en" |}].
Proof.
  refine (proj1 (watcher_translates_in_one_request
                   (fst (run [EvToggleAuto (Some "es"); EvStart "fr" None None;
                              EvPage SampleHidden.onlyHidden;
                              EvMutations [AddedText 15%nat]]
                           (initialState SampleHidden.noText))) _ _ _ _ _)).
  - reflexivity.
  - reflexivity.
  - reflexivity.
  - vm_compute. discriminate.
  - vm_compute. discriminate.
Defined.

(** ** What guards against extracting a node twice *)

Lemma extractNewTextNodes_single st n nd p :
  nodes (doc st) !! n = Some nd ->
  getElement (doc st) (parentElement nd) = Some p ->
  shouldSkipElement (Some p) = false ->
  isTranslatableText (textContent nd) = true ->
  n ∉ translatedNodeSet st ->
  extractNewTextNodes [AddedText n] st
  = (fst (recordNode n nd st), [snd (recordNode n nd st)]).
Proof.
  intros Hnd Hp Hskip Htr Hnp.
  assert (Hproc : isNodeProcessed st n = false).
  { unfold isNodeProcessed. now apply bool_decide_eq_false. }
  unfold extractNewTextNodes, extractAdded. rewrite Hnd, Hproc, Htr, Hp, Hskip.
  reflexivity.
Qed.

(** X30. The processed set, not the registry, guards against extracting a
    node twice.  A directly added text node that is eligible and not yet
    processed is recorded again, under a new id, when it comes in a later
    batch of added nodes before it has been translated: the registry then
    holds two entries for the same node.  Once a translation has been
    written to it, the node is in the processed set and a later batch
    records nothing for it. *)
Theorem untranslated_node_is_extracted_again st n nd p t :
  keysBelow st ->
  nodes (doc st) !! n = Some nd ->
  getElement (doc st) (parentElement nd) = Some p ->
  shouldSkipElement (Some p) = false ->
  isTranslatableText (textContent nd) = true ->
  n ∉ translatedNodeSet st ->
  let e := {| node := n; originalText := textContent nd;
              translated := false; translatedText := None |} in
  let r1 := extractNewTextNodes [AddedText n] st in
  let r2 := extractNewTextNodes [AddedText n] (fst r1) in
  let st3 := fst (replaceTextNode (nextId st) t (fst r1)) in
  map qi_id (snd r1) = [nextId st] /\
  map qi_id (snd r2) = [S (nextId st)] /\
  Registry.get (textNodeMap (fst r2)) (nextId st) = Some e /\
  Registry.get (textNodeMap (fst r2)) (S (nextId st)) = Some e /\
  extractNewTextNodes [AddedText n] st3 = (st3, []).
Proof.
  intros Hb Hnd Hp Hskip Htr Hnp e r1 r2 st3.
  assert (H1 : r1 = (fst (recordNode n nd st), [snd (recordNode n nd st)]))
    by exact (extractNewTextNodes_single st n nd p Hnd Hp Hskip Htr Hnp).
  destruct (recordNode_extends true n nd st Hb (fun _ => Hnp)) as [_ Hb1].
  assert (Hmap1 : textNodeMap (fst (recordNode n nd st))
                  = textNodeMap st ++ [(nextId st, e)]).
  { unfold recordNode. cbn. unfold Registry.set.
    rewrite has_fresh; [reflexivity |]. now apply keysBelow_fresh. }
  set (st1 := fst (recordNode n nd st)) in *.
  assert (Hid1 : nextId st1 = S (nextId st)) by reflexivity.
  assert (H2 : r2 = (fst (recordNode n nd st1), [snd (recordNode n nd st1)])).
  { subst r2. rewrite H1. cbn [fst].
    exact (extractNewTextNodes_single st1 n nd p Hnd Hp Hskip Htr Hnp). }
  assert (Hmap2 : textNodeMap (fst (recordNode n nd st1))
                  = (textNodeMap st ++ [(nextId st, e)]) ++ [(S (nextId st), e)]).
  { unfold recordNode. cbn [fst textNodeMap set_textNodeMap set_nextId nextId].
    unfold Registry.set. rewrite has_fresh by (apply keysBelow_fresh; [exact Hb1 | lia]).
    change (textNodeMap (set_nextId (S (nextId st1)) st1)) with (textNodeMap st1).
    rewrite Hmap1, Hid1. reflexivity. }
  assert (Hget1 : Registry.get (textNodeMap st1) (nextId st) = Some e).
  { rewrite Hmap1, get_app_fresh by (now apply keysBelow_fresh).
    cbn. now rewrite Nat.eqb_refl. }
  split_and!.
  - rewrite H1. reflexivity.
  - rewrite H2. cbn [snd map]. reflexivity.
  - rewrite H2. cbn [fst]. rewrite Hmap2, <- app_assoc.
    rewrite get_app_fresh by (now apply keysBelow_fresh).
    cbn. now rewrite Nat.eqb_refl.
  - rewrite H2. cbn [fst]. rewrite Hmap2, <- app_assoc.
    rewrite get_app_fresh by (apply keysBelow_fresh; [exact Hb | lia]).
    cbn. destruct (Nat.eqb_spec (nextId st) (S (nextId st))); [lia |].
    now rewrite Nat.eqb_refl.
  - subst st3. rewrite H1. cbn [fst].
    assert (Hlive : is_Some (nodes (doc st1) !! node e)) by (cbn; eauto).
    destruct Hlive as [nd' Hnd'].
    rewrite (replaceTextNode_unfold _ t st1 e nd' Hget1 Hnd').
    unfold extractNewTextNodes, extractAdded.
    match goal with |- context [nodes (doc ?s) !! n] =>
      destruct (nodes (doc s) !! n) as [nd2|]; [| reflexivity];
      assert (Hproc : isNodeProcessed s n = true)
        by (unfold isNodeProcessed; apply bool_decide_eq_true; cbn; set_solver)
    end.
    rewrite Hproc. reflexivity.
Qed.

Lemma untranslated_node_is_extracted_again_witness :
  map qi_id
    (snd (extractNewTextNodes [AddedText 15%nat]
            (fst (extractNewTextNodes [AddedText 15%nat] SampleHidden.extracted))))
  = [6%nat].
Proof.
  refine (proj1 (proj2 (untranslated_node_is_extracted_again
                          SampleHidden.extracted 15%nat SampleHidden.hiddenText
                          SampleHidden.hiddenParagraph "x" _ _ _ _ _ _))).
  - keysBelow_closed.
  - vm_compute. reflexivity.
  - vm_compute. reflexivity.
  - vm_compute. reflexivity.
  - vm_compute. reflexivity.
  - apply (proj1 (bool_decide_eq_false _)). vm_compute. reflexivity.
Defined.
